(** * Crossworder: the constraint-satisfaction core of [script.js]

    A shallow embedding of the solver methods of the [CrosswordSolver]
    class ([generateSlots], [getSlotPositions], [generateConstraints],
    [setupDomains], [ac3], [revise], [backtrackingSolve] and its helpers,
    [solveCrosswordThread], [solveCrossword]) and the properties the
    specification states about them.  The later parts take in the code
    around them: the word list ([loadWords], [cacheWordsByLength],
    [calculateLetterFrequencies] and the [DataManager] of
    [js/data.js]), the editor of the grid (the numbering of the cells,
    clicks, the three modes), [generateGrid], and the search for all the
    solutions of [js/solver.js].

    Conventions of the embedding.
    - A JavaScript object used as a dictionary is an insertion-ordered
      association list ([obj]): [for (k in o)] visits the keys in the
      order in which they were first written, and writing to a key that
      is already there keeps its place.  The keys the program
      enumerates are slot names ([<number>ACROSS], [<number>DOWN]) and
      cell keys ([r,c], kept here as the pair of numbers), which
      JavaScript does not reorder; the word lengths, which it would
      enumerate in ascending order, and the letters are only looked up.
    - Strings are [string]; [w[i]] is [String.get i w], with [None] for
      [undefined].
    - [Math.random] is a stream [random : nat -> nat] of raw draws and a
      counter of the calls made so far; [Math.floor(Math.random() * n)]
      is the draw reduced modulo [n], so every index below [n] can occur.
    - Loops whose number of iterations is not fixed by a list ([while]
      in [getSlotPositions] and [ac3], the recursion of
      [backtrackingSolve]) take fuel; each comes with the lemma that the
      fuel the caller passes is enough.
    - The grids are those of the editor and of the predefined puzzles:
      a cell is ["#"], a blank, a decimal number or one upper-case
      letter, and the words are upper-case letters.  Reads of [grid],
      [slots] and [domains] that would yield [undefined] do not occur on
      a grid [validateGrid] accepts once [generateSlots] has run; the
      defaults in [cellAt], [domainOf] and [positionsOf] stand for
      them. *)

From Stdlib Require Import String Ascii List Arith PeanoNat Bool Lia.
From Stdlib Require Import Permutation ZArith Decimal DecimalString DecimalNat.
Import ListNotations.

(* ================================================================== *)
(** * Decidable equality on keys *)
(* ================================================================== *)

Class EqDec (A : Type) := eq_dec : forall x y : A, {x = y} + {x <> y}.

#[export] Instance nat_EqDec : EqDec nat := Nat.eq_dec.
#[export] Instance string_EqDec : EqDec string := string_dec.
#[export] Instance ascii_EqDec : EqDec ascii := ascii_dec.

#[export] Instance prod_EqDec {A B : Type} `{EqDec A} `{EqDec B} : EqDec (A * B).
Proof.
  intros [a b] [a' b'].
  destruct (eq_dec a a') as [Ha | Ha]; [ | right; congruence ].
  destruct (eq_dec b b') as [Hb | Hb]; [ left; congruence | right; congruence ].
Defined.

#[export] Instance list_EqDec {A : Type} `{EqDec A} : EqDec (list A) :=
  list_eq_dec eq_dec.

#[export] Instance option_EqDec {A : Type} `{EqDec A} : EqDec (option A).
Proof.
  intros [a | ] [a' | ]; try (right; congruence); [ | left; reflexivity ].
  destruct (eq_dec a a'); [ left; congruence | right; congruence ].
Defined.

Definition eqb_of {A : Type} `{EqDec A} (x y : A) : bool :=
  if eq_dec x y then true else false.

Lemma eqb_of_true {A : Type} `{EqDec A} (x y : A) : eqb_of x y = true <-> x = y.
Proof. unfold eqb_of. destruct (eq_dec x y); split; congruence. Qed.

Lemma eqb_of_false {A : Type} `{EqDec A} (x y : A) : eqb_of x y = false <-> x <> y.
Proof. unfold eqb_of. destruct (eq_dec x y); split; congruence. Qed.

Lemma eqb_of_refl {A : Type} `{EqDec A} (x : A) : eqb_of x x = true.
Proof. apply eqb_of_true. reflexivity. Qed.

(* ================================================================== *)
(** * JavaScript objects as insertion-ordered dictionaries *)
(* ================================================================== *)

Module Obj.

Section Dictionary.
Context {K V : Type} `{EqDec K}.

Definition t := list (K * V).

(** [o[k]]: the value bound to [k], [None] for [undefined]. *)
Fixpoint get (k : K) (o : t) : option V :=
  match o with
  | [] => None
  | (k', v) :: rest => if eq_dec k k' then Some v else get k rest
  end.

(** [o[k] = v]: overwrite in place, or append a new property. *)
Fixpoint set (k : K) (v : V) (o : t) : t :=
  match o with
  | [] => [(k, v)]
  | (k', v') :: rest =>
      if eq_dec k k' then (k', v) :: rest else (k', v') :: set k v rest
  end.

(** [delete o[k]]. *)
Fixpoint delete (k : K) (o : t) : t :=
  match o with
  | [] => []
  | (k', v') :: rest =>
      if eq_dec k k' then rest else (k', v') :: delete k rest
  end.

(** [Object.keys(o)], also the order of [for (k in o)]. *)
Definition keys (o : t) : list K := map fst o.

(** [k in o]. *)
Definition has (k : K) (o : t) : bool :=
  match get k o with Some _ => true | None => false end.

Lemma get_set_same k v o : get k (set k v o) = Some v.
Proof.
  induction o as [ | [k' v'] rest IH ]; simpl.
  - destruct (eq_dec k k); congruence.
  - destruct (eq_dec k k') as [E | E]; simpl.
    + destruct (eq_dec k k'); congruence.
    + destruct (eq_dec k k'); congruence.
Qed.

Lemma get_set_other k k' v o : k <> k' -> get k' (set k v o) = get k' o.
Proof.
  intros Hne. induction o as [ | [k0 v0] rest IH ]; simpl.
  - destruct (eq_dec k' k); congruence.
  - destruct (eq_dec k k0) as [E | E]; simpl.
    + subst k0. destruct (eq_dec k' k); congruence.
    + destruct (eq_dec k' k0); congruence.
Qed.

Lemma get_set k k' v o :
  get k' (set k v o) = if eq_dec k' k then Some v else get k' o.
Proof.
  destruct (eq_dec k' k) as [E | E].
  - subst. apply get_set_same.
  - apply get_set_other. congruence.
Qed.

Lemma get_In k v o : get k o = Some v -> In (k, v) o.
Proof.
  induction o as [ | [k' v'] rest IH ]; simpl; [ discriminate | ].
  destruct (eq_dec k k'); intros E.
  - left. congruence.
  - right. auto.
Qed.

Lemma get_keys k o : get k o <> None <-> In k (keys o).
Proof.
  induction o as [ | [k' v'] rest IH ]; simpl.
  - split; [ congruence | tauto ].
  - destruct (eq_dec k k') as [E | E].
    + split; [ auto | discriminate ].
    + rewrite IH. split; [ auto | ]. intros [E' | Hin]; [ congruence | exact Hin ].
Qed.

Lemma get_None_keys k o : get k o = None <-> ~ In k (keys o).
Proof.
  rewrite <- get_keys. destruct (get k o); split; try congruence.
  intros Hn. exfalso. apply Hn. discriminate.
Qed.

Lemma get_Some_keys k v o : get k o = Some v -> In k (keys o).
Proof. intros E. apply get_keys. congruence. Qed.

Lemma has_true k o : has k o = true <-> In k (keys o).
Proof.
  unfold has. rewrite <- get_keys.
  destruct (get k o); split; congruence.
Qed.

Lemma has_false k o : has k o = false <-> ~ In k (keys o).
Proof.
  rewrite <- has_true. destruct (has k o); split; congruence.
Qed.

Lemma In_get k v o : NoDup (keys o) -> In (k, v) o -> get k o = Some v.
Proof.
  induction o as [ | [k' v'] rest IH ]; simpl; [ tauto | ].
  intros Hnd [E | Hin].
  - inversion E; subst. destruct (eq_dec k k); congruence.
  - inversion Hnd as [ | ? ? Hnotin Hnd' ]; subst.
    destruct (eq_dec k k') as [E | E].
    + subst k'. exfalso. apply Hnotin. apply in_map_iff. exists (k, v). auto.
    + auto.
Qed.

(** Writing to a key that is present keeps the key order. *)
Lemma keys_set_present k v o : In k (keys o) -> keys (set k v o) = keys o.
Proof.
  induction o as [ | [k' v'] rest IH ]; simpl; [ tauto | ].
  intros Hin. destruct (eq_dec k k') as [E | E]; simpl.
  - reflexivity.
  - f_equal. apply IH. destruct Hin; congruence.
Qed.

(** Writing to a fresh key appends it. *)
Lemma set_absent k v o : ~ In k (keys o) -> set k v o = o ++ [(k, v)].
Proof.
  induction o as [ | [k' v'] rest IH ]; simpl; [ reflexivity | ].
  intros Hnin. destruct (eq_dec k k') as [E | E].
  - exfalso. apply Hnin. left. congruence.
  - f_equal. apply IH. tauto.
Qed.

Lemma keys_set_absent k v o : ~ In k (keys o) -> keys (set k v o) = keys o ++ [k].
Proof.
  intros Hn. rewrite set_absent by exact Hn. unfold keys. rewrite map_app. reflexivity.
Qed.

Lemma keys_set_In k k' v o : In k' (keys (set k v o)) <-> k' = k \/ In k' (keys o).
Proof.
  rewrite <- !get_keys. rewrite get_set.
  destruct (eq_dec k' k) as [E | E].
  - split; [ auto | discriminate ].
  - split; [ auto | tauto ].
Qed.

Lemma NoDup_keys_set k v o : NoDup (keys o) -> NoDup (keys (set k v o)).
Proof.
  intros Hnd. destruct (in_dec eq_dec k (keys o)) as [Hin | Hnin].
  - rewrite keys_set_present by exact Hin. exact Hnd.
  - rewrite keys_set_absent by exact Hnin.
    apply NoDup_rev in Hnd. rewrite <- (rev_involutive (keys o ++ [k])).
    apply NoDup_rev. rewrite rev_app_distr. simpl. constructor; [ | exact Hnd ].
    rewrite <- in_rev. exact Hnin.
Qed.

Lemma length_set_absent k v o : ~ In k (keys o) -> length (set k v o) = S (length o).
Proof.
  intros Hn. rewrite set_absent by exact Hn. rewrite length_app. simpl. lia.
Qed.

Lemma length_set_present k v o : In k (keys o) -> length (set k v o) = length o.
Proof.
  intros Hin. apply keys_set_present with (v := v) in Hin.
  unfold keys in Hin. rewrite <- (length_map fst (set k v o)), Hin. apply length_map.
Qed.

(** Writing back the value a key had undoes an overwrite of that key. *)
Lemma set_set_restore k v0 v1 o : get k o = Some v0 -> set k v0 (set k v1 o) = o.
Proof.
  induction o as [ | [k' v'] rest IH ]; simpl; [ discriminate | ].
  destruct (eq_dec k k') as [E | E]; simpl.
  - intros E'. destruct (eq_dec k k'); congruence.
  - intros E'. destruct (eq_dec k k'); [ congruence | ]. f_equal. auto.
Qed.

Lemma set_same_id k v o : get k o = Some v -> set k v o = o.
Proof.
  induction o as [ | [k' v'] rest IH ]; simpl; [ discriminate | ].
  destruct (eq_dec k k') as [E | E].
  - congruence.
  - intros E'. f_equal. auto.
Qed.

Lemma set_set_same k v0 v1 o : set k v0 (set k v1 o) = set k v0 o.
Proof.
  induction o as [ | [k' v'] rest IH ]; simpl.
  - destruct (eq_dec k k); congruence.
  - destruct (eq_dec k k') as [E | E]; simpl.
    + destruct (eq_dec k k'); congruence.
    + destruct (eq_dec k k'); [ congruence | ]. f_equal. exact IH.
Qed.

Lemma set_comm k1 k2 v1 v2 o :
  k1 <> k2 -> In k1 (keys o) -> In k2 (keys o) ->
  set k1 v1 (set k2 v2 o) = set k2 v2 (set k1 v1 o).
Proof.
  intros Hne. induction o as [ | [k' v'] rest IH ]; simpl; [ tauto | ].
  intros H1 H2.
  destruct (eq_dec k2 k') as [E2 | E2]; destruct (eq_dec k1 k') as [E1 | E1]; simpl.
  - congruence.
  - destruct (eq_dec k1 k'); [ congruence | ]. destruct (eq_dec k2 k'); [ | congruence ].
    reflexivity.
  - destruct (eq_dec k1 k'); [ | congruence ]. destruct (eq_dec k2 k'); [ congruence | ].
    reflexivity.
  - destruct (eq_dec k1 k'); [ congruence | ]. destruct (eq_dec k2 k'); [ congruence | ].
    f_equal. apply IH.
    + destruct H1; congruence.
    + destruct H2; congruence.
Qed.

(** Deleting a property that was appended gives the object back. *)
Lemma delete_set_absent k v o : ~ In k (keys o) -> delete k (set k v o) = o.
Proof.
  induction o as [ | [k' v'] rest IH ]; simpl.
  - intros _. destruct (eq_dec k k); congruence.
  - intros Hn. destruct (eq_dec k k') as [E | E]; simpl.
    + exfalso. apply Hn. left. congruence.
    + destruct (eq_dec k k'); [ congruence | ]. f_equal. apply IH. tauto.
Qed.

Lemma get_delete_other k k' o : k <> k' -> get k' (delete k o) = get k' o.
Proof.
  intros Hne. induction o as [ | [k0 v0] rest IH ]; simpl; [ reflexivity | ].
  destruct (eq_dec k k0) as [E | E]; simpl.
  - subst k0. destruct (eq_dec k' k); congruence.
  - destruct (eq_dec k' k0); congruence.
Qed.

End Dictionary.

Arguments t : clear implicits.

End Obj.

(* ================================================================== *)
(** * Strings and grids *)
(* ================================================================== *)

Abbreviation Pos := (nat * nat)%type (only parsing).
Definition Grid := list (list string).

(** The dictionaries of the solver. *)
Definition Slots := Obj.t string (list Pos).
Abbreviation Overlaps := (list (nat * nat)) (only parsing).
Definition Constraints := Obj.t string (Obj.t string Overlaps).
Definition Domains := Obj.t string (list string).
Definition CellContents := Obj.t Pos (option string).
Definition Assignment := Obj.t string string.

Definition isDigit (a : ascii) : bool :=
  (48 <=? nat_of_ascii a) && (nat_of_ascii a <=? 57).

Definition isUpper (a : ascii) : bool :=
  (65 <=? nat_of_ascii a) && (nat_of_ascii a <=? 90).

(** White space removed by [String.prototype.trim], among the code
    units below 256. *)
Definition isSpace (a : ascii) : bool :=
  let n := nat_of_ascii a in
  ((9 <=? n) && (n <=? 13)) || (n =? 32) || (n =? 160).

(** Line terminators, which [.] does not match. *)
Definition isLineTerminator (a : ascii) : bool :=
  (nat_of_ascii a =? 10) || (nat_of_ascii a =? 13).

Fixpoint anyChar (p : ascii -> bool) (s : string) : bool :=
  match s with
  | EmptyString => false
  | String a rest => p a || anyChar p rest
  end.

(** [/\d/.test(s)] *)
Definition hasDigit (s : string) : bool := anyChar isDigit s.

(** [/[A-Z]/.test(s)] *)
Definition hasUpper (s : string) : bool := anyChar isUpper s.

(** [s.trim() === ""] *)
Definition isBlank (s : string) : bool := negb (anyChar (fun a => negb (isSpace a)) s).

(** [s === "#"] *)
Definition isBlock (s : string) : bool := eqb_of s "#"%string.

(** [w[i]] as a one-character string, [None] for [undefined]. *)
Definition charAt (w : string) (i : nat) : option string :=
  match String.get i w with
  | Some a => Some (String a EmptyString)
  | None => None
  end.

Definition rows (g : Grid) : nat := length g.

(** [this.grid[0].length] *)
Definition cols (g : Grid) : nat := length (nth 0 g []).

(** [this.grid[r][c]].  Every read of the solver is inside the grid
    once [validateGrid] has accepted it; outside, the default stands for
    [undefined], which is neither a block, a number nor a letter. *)
Definition cellAt (g : Grid) (r c : nat) : string := nth c (nth r g []) EmptyString.

(** [validateGrid]: the grid is not empty and every row is as long as
    the first. *)
Definition validateGrid (g : Grid) : bool :=
  negb (length g =? 0) && forallb (fun row => length row =? cols g) (tl g).

Inductive Direction := Across | Down.

Definition directionSuffix (d : Direction) : string :=
  match d with Across => "ACROSS"%string | Down => "DOWN"%string end.

(** [`${this.grid[r][c]}ACROSS`], [`${this.grid[r][c]}DOWN`] *)
Definition slotName (cell : string) (d : Direction) : string :=
  String.append cell (directionSuffix d).

(** The guard of the [while] of [getSlotPositions]. *)
Definition isOpen (g : Grid) (r c : nat) : bool :=
  (r <? rows g) && (c <? cols g) && negb (isBlock (cellAt g r c)).

Fixpoint getSlotPositionsFrom (fuel : nat) (g : Grid) (r c : nat) (d : Direction) : list Pos :=
  match fuel with
  | 0 => []
  | S fuel' =>
      if isOpen g r c then
        (r, c) :: match d with
                  | Across => getSlotPositionsFrom fuel' g r (S c) d
                  | Down => getSlotPositionsFrom fuel' g (S r) c d
                  end
      else []
  end.

(** [getSlotPositions(r, c, direction)]; the loop runs at most
    [rows + cols] times before its guard fails. *)
Definition getSlotPositions (g : Grid) (r c : nat) (d : Direction) : list Pos :=
  getSlotPositionsFrom (S (rows g + cols g)) g r c d.

(** [c === 0 || this.grid[r][c - 1] === "#"] and its [down] twin. *)
Definition opensSlot (g : Grid) (r c : nat) (d : Direction) : bool :=
  match d with
  | Across => (c =? 0) || isBlock (cellAt g r (c - 1))
  | Down => (r =? 0) || isBlock (cellAt g (r - 1) c)
  end.

(** The write [this.slots[slotName] = positions] one direction of a
    numbered cell makes, if any. *)
Definition slotWritesAt (g : Grid) (r c : nat) (d : Direction) : list (string * list Pos) :=
  if opensSlot g r c d then
    let positions := getSlotPositions g r c d in
    if 2 <=? length positions then [(slotName (cellAt g r c) d, positions)] else []
  else [].

Definition slotWritesCell (g : Grid) (p : Pos) : list (string * list Pos) :=
  if hasDigit (cellAt g (fst p) (snd p)) then
    slotWritesAt g (fst p) (snd p) Across ++ slotWritesAt g (fst p) (snd p) Down
  else [].

(** The cells in the order of the two nested [for] loops. *)
Definition scan (g : Grid) : list Pos :=
  flat_map (fun r => map (pair r) (seq 0 (cols g))) (seq 0 (rows g)).

(** All the writes to [this.slots] of [generateSlots], in order. *)
Definition slotWrites (g : Grid) : list (string * list Pos) :=
  flat_map (slotWritesCell g) (scan g).

(** [this.slots] after the second loop of [generateSlots]. *)
Definition identifySlots (g : Grid) : Slots :=
  fold_left (fun slots w => Obj.set (fst w) (snd w) slots) (slotWrites g) [].

(** One step of the first loop of [generateSlots]: a letter cell keeps
    its letter, any other cell that is neither a block nor blank is
    recorded with [null]. *)
Definition cellContentsStep (g : Grid) (cc : CellContents) (p : Pos) : CellContents :=
  let val := cellAt g (fst p) (snd p) in
  if hasUpper val then Obj.set p (Some val) cc
  else if negb (isBlock val) && negb (isBlank val) then Obj.set p None cc
  else cc.

Definition fillCellContents (g : Grid) : CellContents :=
  fold_left (cellContentsStep g) (scan g) [].

(* ================================================================== *)
(** * Constraints *)
(* ================================================================== *)

(** [{ slot, idx }] *)
Abbreviation Entry := (string * nat)%type (only parsing).

Definition indexed {A : Type} (l : list A) : list (A * nat) := combine l (seq 0 (length l)).

Definition entriesAt (pm : Obj.t Pos (list Entry)) (key : Pos) : list Entry :=
  match Obj.get key pm with Some es => es | None => [] end.

(** The body of [positions.forEach((pos, idx) => ...)]. *)
Definition positionMapStep (slot : string) (pm : Obj.t Pos (list Entry)) (pi : Pos * nat)
  : Obj.t Pos (list Entry) :=
  let pm1 := match Obj.get (fst pi) pm with None => Obj.set (fst pi) [] pm | Some _ => pm end in
  Obj.set (fst pi) (entriesAt pm1 (fst pi) ++ [(slot, snd pi)]) pm1.

(** The first loop of [generateConstraints]. *)
Definition buildPositionMap (slots : Slots) : Obj.t Pos (list Entry) :=
  fold_left (fun pm sp => fold_left (positionMapStep (fst sp)) (indexed (snd sp)) pm) slots [].

(** The pairs [(overlaps[i], overlaps[j])], [i < j], in loop order. *)
Fixpoint overlapPairs (l : list Entry) : list (Entry * Entry) :=
  match l with
  | [] => []
  | e :: rest => map (pair e) rest ++ overlapPairs rest
  end.

Definition neighborsOf (c : Constraints) (a : string) : Obj.t string Overlaps :=
  match Obj.get a c with Some n => n | None => [] end.

(** [this.constraints[var1][var2]] *)
Definition overlapsOf (c : Constraints) (a b : string) : Overlaps :=
  match Obj.get b (neighborsOf c a) with Some l => l | None => [] end.

(** The three statements that push [[idxA, idxB]] onto
    [this.constraints[slotA][slotB]], creating the two levels when they
    are missing. *)
Definition pushOverlap (c : Constraints) (a b : string) (p : nat * nat) : Constraints :=
  let c1 := match Obj.get a c with None => Obj.set a [] c | Some _ => c end in
  let inner := neighborsOf c1 a in
  let inner1 := match Obj.get b inner with None => Obj.set b [] inner | Some _ => inner end in
  Obj.set a (Obj.set b (match Obj.get b inner1 with Some l => l | None => [] end ++ [p]) inner1) c1.

(** The body of the innermost loop: both directions of one overlap. *)
Definition recordOverlap (c : Constraints) (ee : Entry * Entry) : Constraints :=
  let '((slotA, idxA), (slotB, idxB)) := ee in
  pushOverlap (pushOverlap c slotA slotB (idxA, idxB)) slotB slotA (idxB, idxA).

Definition constraintsStep (c : Constraints) (ke : Pos * list Entry) : Constraints :=
  if 1 <? length (snd ke) then fold_left recordOverlap (overlapPairs (snd ke)) c else c.

(** [generateConstraints] *)
Definition generateConstraints (slots : Slots) : Constraints :=
  fold_left constraintsStep (buildPositionMap slots) [].

(* ================================================================== *)
(** * Word list and domains *)
(* ================================================================== *)

Definition bucket (cache : Obj.t nat (list string)) (len : nat) : list string :=
  match Obj.get len cache with Some l => l | None => [] end.

(** [cacheWordsByLength] *)
Definition cacheWordsByLength (ws : list string) : Obj.t nat (list string) :=
  fold_left (fun cache word =>
               let len := String.length word in
               let cache1 := match Obj.get len cache with
                             | None => Obj.set len [] cache
                             | Some _ => cache
                             end in
               Obj.set len (bucket cache1 len ++ [word]) cache1)
            ws [].

(** [calculateLetterFrequencies] *)
Definition calculateLetterFrequencies (ws : list string) : Obj.t ascii nat :=
  fold_left (fun freq word =>
               fold_left (fun freq ch =>
                            let freq1 := match Obj.get ch freq with
                                         | Some (S _) => freq
                                         | _ => Obj.set ch 0 freq
                                         end in
                            Obj.set ch (S (match Obj.get ch freq1 with Some n => n | None => 0 end)) freq1)
                         (list_ascii_of_string word) freq)
            ws [].

(** [this.cellContents[key] || '.'] *)
Definition patternChar (cc : CellContents) (p : Pos) : string :=
  match Obj.get p cc with
  | Some (Some letter) => if eqb_of letter EmptyString then "."%string else letter
  | _ => "."%string
  end.

(** [positions.map(...).join('')] *)
Definition slotPattern (cc : CellContents) (positions : list Pos) : string :=
  fold_right (fun p acc => String.append (patternChar cc p) acc) EmptyString positions.

(** [new RegExp(`^${pattern}$`).test(word)] for the patterns of
    [setupDomains], which are made of pre-filled letters and dots when
    every letter cell holds a single letter: a dot matches any character
    but a line terminator, a letter matches itself, and the anchors make
    the lengths equal. *)
Fixpoint regexTest (pattern word : string) : bool :=
  match pattern, word with
  | EmptyString, EmptyString => true
  | String p pattern', String w word' =>
      (if eqb_of p "."%char then negb (isLineTerminator w) else eqb_of p w)
      && regexTest pattern' word'
  | _, _ => false
  end.

(** The body of the loop of [setupDomains]. *)
Definition setupDomainStep (cc : CellContents) (cache : Obj.t nat (list string))
  (d : Domains) (sp : string * list Pos) : Domains :=
  let pattern := slotPattern cc (snd sp) in
  Obj.set (fst sp) (filter (regexTest pattern) (bucket cache (length (snd sp)))) d.

(** [getPreFilledLetter(r, c)] of the modular solver ([js/solver.js]):
    the same pattern character read from the grid instead of
    [cellContents]. *)
Definition getPreFilledLetter (g : Grid) (p : Pos) : option string :=
  if hasUpper (cellAt g (fst p) (snd p)) then Some (cellAt g (fst p) (snd p)) else None.

(* ================================================================== *)
(** * The solver instance *)
(* ================================================================== *)

(** The fields of [CrosswordSolver] the solving methods read or write.
    [statusDisplay] and [alerts] record the calls of [updateStatus] and
    [alert]; [randomCalls] counts the calls of [Math.random]. *)
Record Solver := mkSolver {
  grid : Grid;
  words : list string;
  wordLengthCache : Obj.t nat (list string);
  letterFrequencies : Obj.t ascii nat;
  slots : Slots;
  constraints : Constraints;
  domains : Domains;
  cellContents : CellContents;
  solution : Assignment;
  recursiveCalls : nat;
  isSolving : bool;
  randomCalls : nat;
  statusDisplay : list string;
  alerts : list string
}.

Definition setSlots (v : Slots) (s : Solver) : Solver :=
  mkSolver (grid s) (words s) (wordLengthCache s) (letterFrequencies s) v (constraints s)
    (domains s) (cellContents s) (solution s) (recursiveCalls s) (isSolving s)
    (randomCalls s) (statusDisplay s) (alerts s).

Definition setConstraints (v : Constraints) (s : Solver) : Solver :=
  mkSolver (grid s) (words s) (wordLengthCache s) (letterFrequencies s) (slots s) v
    (domains s) (cellContents s) (solution s) (recursiveCalls s) (isSolving s)
    (randomCalls s) (statusDisplay s) (alerts s).

Definition setDomains (v : Domains) (s : Solver) : Solver :=
  mkSolver (grid s) (words s) (wordLengthCache s) (letterFrequencies s) (slots s) (constraints s)
    v (cellContents s) (solution s) (recursiveCalls s) (isSolving s)
    (randomCalls s) (statusDisplay s) (alerts s).

Definition setCellContents (v : CellContents) (s : Solver) : Solver :=
  mkSolver (grid s) (words s) (wordLengthCache s) (letterFrequencies s) (slots s) (constraints s)
    (domains s) v (solution s) (recursiveCalls s) (isSolving s)
    (randomCalls s) (statusDisplay s) (alerts s).

Definition setSolution (v : Assignment) (s : Solver) : Solver :=
  mkSolver (grid s) (words s) (wordLengthCache s) (letterFrequencies s) (slots s) (constraints s)
    (domains s) (cellContents s) v (recursiveCalls s) (isSolving s)
    (randomCalls s) (statusDisplay s) (alerts s).

Definition setRecursiveCalls (v : nat) (s : Solver) : Solver :=
  mkSolver (grid s) (words s) (wordLengthCache s) (letterFrequencies s) (slots s) (constraints s)
    (domains s) (cellContents s) (solution s) v (isSolving s)
    (randomCalls s) (statusDisplay s) (alerts s).

Definition setIsSolving (v : bool) (s : Solver) : Solver :=
  mkSolver (grid s) (words s) (wordLengthCache s) (letterFrequencies s) (slots s) (constraints s)
    (domains s) (cellContents s) (solution s) (recursiveCalls s) v
    (randomCalls s) (statusDisplay s) (alerts s).

Definition setRandomCalls (v : nat) (s : Solver) : Solver :=
  mkSolver (grid s) (words s) (wordLengthCache s) (letterFrequencies s) (slots s) (constraints s)
    (domains s) (cellContents s) (solution s) (recursiveCalls s) (isSolving s)
    v (statusDisplay s) (alerts s).

(** [updateStatus(message)] *)
Definition updateStatus (message : string) (s : Solver) : Solver :=
  mkSolver (grid s) (words s) (wordLengthCache s) (letterFrequencies s) (slots s) (constraints s)
    (domains s) (cellContents s) (solution s) (recursiveCalls s) (isSolving s)
    (randomCalls s) (statusDisplay s ++ [message]) (alerts s).

(** [alert(message)] *)
Definition alert (message : string) (s : Solver) : Solver :=
  mkSolver (grid s) (words s) (wordLengthCache s) (letterFrequencies s) (slots s) (constraints s)
    (domains s) (cellContents s) (solution s) (recursiveCalls s) (isSolving s)
    (randomCalls s) (statusDisplay s) (alerts s ++ [message]).

(** [this.domains[slot]] and [this.slots[slot]].  The solver reads them
    only at keys [generateSlots] has written (see [WellFormed]); the
    empty list stands for [undefined] elsewhere. *)
Definition domainOf (s : Solver) (slot : string) : list string :=
  match Obj.get slot (domains s) with Some d => d | None => [] end.

Definition positionsOf (s : Solver) (slot : string) : list Pos :=
  match Obj.get slot (slots s) with Some ps => ps | None => [] end.

(** [setupDomains] *)
Definition setupDomains (s : Solver) : Solver :=
  setDomains (fold_left (setupDomainStep (cellContents s) (wordLengthCache s)) (slots s) (domains s)) s.

(** [generateSlots]: reset, the two grid scans, then the constraints
    and the domains. *)
Definition generateSlots (s : Solver) : Solver :=
  let s1 := setCellContents [] (setDomains [] (setSlots [] s)) in
  let s2 := setCellContents (fillCellContents (grid s1)) s1 in
  let s3 := setSlots (identifySlots (grid s2)) s2 in
  let s4 := setConstraints (generateConstraints (slots s3)) s3 in
  setupDomains s4.

(* ================================================================== *)
(** * Arc consistency *)
(* ================================================================== *)

(** The predicate of the [filter] of [revise]: some overlap of the arc
    has a partner in the other domain. *)
Definition supported (overlaps : Overlaps) (domain2 : list string) (word1 : string) : bool :=
  existsb (fun ij =>
             existsb (fun word2 => eqb_of (String.get (fst ij) word1) (String.get (snd ij) word2))
                     domain2)
          overlaps.

(** [revise(var1, var2)] *)
Definition revise (var1 var2 : string) (s : Solver) : bool * Solver :=
  let overlaps := overlapsOf (constraints s) var1 var2 in
  let newDomain := filter (supported overlaps (domainOf s var2)) (domainOf s var1) in
  if length newDomain <? length (domainOf s var1)
  then (true, setDomains (Obj.set var1 newDomain (domains s)) s)
  else (false, s).

(** An element of the queue.  The code stores the arc as the string
    [`${A},${B}`] and reads it back with [split(',')]; when no numbered
    cell of the grid holds a comma the names of slots hold none, so
    that reading gives back [A] and [B] ([splitComma_arcKey]) and the
    queue is kept here as a list of pairs.  The loop on the strings
    themselves is [ac3KeysLoop], which [ac3Keys_ac3] shows to agree
    with this one on such grids. *)
Abbreviation Arc := (string * string)%type (only parsing).

(** [`${a},${b}`] *)
Definition arcKey (a b : string) : string := String.append a (String ","%char b).

(** [s.split(',')] *)
Fixpoint splitComma (s : string) : list string :=
  match s with
  | EmptyString => [EmptyString]
  | String ch rest =>
      if eqb_of ch ","%char then EmptyString :: splitComma rest
      else match splitComma rest with
           | [] => [String ch EmptyString]
           | piece :: pieces => String ch piece :: pieces
           end
  end.

Definition noComma (s : string) : bool := negb (anyChar (fun ch => eqb_of ch ","%char) s).

(** [queue.add] and [queue.delete] of a [Set], which iterates in
    insertion order. *)
Definition queueAdd (a : Arc) (q : list Arc) : list Arc :=
  if in_dec eq_dec a q then q else q ++ [a].

Definition queueDelete (a : Arc) (q : list Arc) : list Arc := remove eq_dec a q.

Definition initialQueue (c : Constraints) : list Arc :=
  fold_left (fun q an => fold_left (fun q slotB => queueAdd (fst an, slotB) q) (Obj.keys (snd an)) q)
            c [].

(** The re-enqueueing loop after a revision of [var1] against [var2]. *)
Definition enqueueNeighbors (c : Constraints) (var1 var2 : string) (q : list Arc) : list Arc :=
  fold_left (fun q neighbor => if eq_dec neighbor var2 then q else queueAdd (neighbor, var1) q)
            (Obj.keys (neighborsOf c var1)) q.

(** The [while] loop of [ac3]; [None] when the fuel runs out. *)
Fixpoint ac3Loop (fuel : nat) (queue : list Arc) (s : Solver) : option (bool * Solver) :=
  match queue with
  | [] => Some (true, s)
  | (var1, var2) :: _ =>
      match fuel with
      | 0 => None
      | S fuel' =>
          let queue1 := queueDelete (var1, var2) queue in
          let rs := revise var1 var2 s in
          if fst rs then
            if length (domainOf (snd rs) var1) =? 0 then Some (false, snd rs)
            else ac3Loop fuel' (enqueueNeighbors (constraints (snd rs)) var1 var2 queue1) (snd rs)
          else ac3Loop fuel' queue1 (snd rs)
      end
  end.

Definition totalDomainSize (d : Domains) : nat :=
  fold_right (fun kv acc => length (snd kv) + acc) 0 d.

Definition arcCount (c : Constraints) : nat :=
  fold_right (fun an acc => length (snd an) + acc) 0 c.

(** Every pass either removes a word from a domain or shortens the
    queue, and a revision adds at most [arcCount] arcs. *)
Definition ac3Fuel (s : Solver) : nat :=
  length (initialQueue (constraints s)) + totalDomainSize (domains s) * S (arcCount (constraints s)).

(** [ac3()] *)
Definition ac3 (s : Solver) : option (bool * Solver) :=
  ac3Loop (ac3Fuel s) (initialQueue (constraints s)) s.

(* ================================================================== *)
(** * Backtracking search *)
(* ================================================================== *)

(** The memo table of [backtrackingSolve].  Its keys are
    [JSON.stringify(Object.entries(assignment).sort())]; stringifying
    is one-to-one on lists of pairs of strings, so the sorted list of
    entries is the key. *)
Definition Cache := Obj.t (list (string * string)) bool.

(** The string the default comparator of [sort] sees for an entry. *)
Definition entryString (e : string * string) : string :=
  String.append (fst e) (String.append ","%string (snd e)).

Fixpoint insertSorted {A : Type} (lt : A -> A -> bool) (x : A) (l : list A) : list A :=
  match l with
  | [] => [x]
  | y :: rest => if lt x y then x :: y :: rest else y :: insertSorted lt x rest
  end.

(** [Array.prototype.sort], which is stable. *)
Definition sortBy {A : Type} (lt : A -> A -> bool) (l : list A) : list A :=
  fold_left (fun acc x => insertSorted lt x acc) l [].

Definition assignmentKey (a : Assignment) : list (string * string) :=
  sortBy (fun x y => String.ltb (entryString x) (entryString y)) a.

(** The three objects an invocation of [backtrackingSolve] can change:
    the solver, and the [assignment] and [cache] all frames share. *)
Record Search := mkSearch {
  solver : Solver;
  assignment : Assignment;
  cache : Cache
}.

(** [wordsMatch(var1, word1, var2, word2)] *)
Definition wordsMatch (s : Solver) (var1 word1 var2 word2 : string) : bool :=
  forallb (fun ij => eqb_of (String.get (fst ij) word1) (String.get (snd ij) word2))
          (overlapsOf (constraints s) var1 var2).

(** [wordMatchesPreFilledLetters(slot, word)] *)
Definition wordMatchesPreFilledLetters (s : Solver) (slot word : string) : bool :=
  forallb (fun pi =>
             match Obj.get (fst pi) (cellContents s) with
             | Some (Some preFilled) =>
                 if eqb_of preFilled EmptyString then true
                 else eqb_of (Some preFilled) (charAt word (snd pi))
             | _ => true
             end)
          (indexed (positionsOf s slot)).

(** [isConsistent(slot, word, assignment)] *)
Definition isConsistent (s : Solver) (slot word : string) (a : Assignment) : bool :=
  wordMatchesPreFilledLetters s slot word &&
  forallb (fun neighbor =>
             match Obj.get neighbor a with
             | Some word2 => wordsMatch s slot word neighbor word2
             | None =>
                 negb (length (filter (wordsMatch s slot word neighbor) (domainOf s neighbor)) =? 0)
             end)
          (Obj.keys (neighborsOf (constraints s) slot)).

(** The loop of [forwardCheck]; [None] is its [return false], which
    leaves the domains pruned so far as they are. *)
Fixpoint forwardCheckLoop (slot value : string) (a : Assignment) (neighbors : list string)
  (inferences : Domains) (s : Solver) : option Domains * Solver :=
  match neighbors with
  | [] => (Some inferences, s)
  | neighbor :: rest =>
      if Obj.has neighbor a then forwardCheckLoop slot value a rest inferences s
      else
        let newDomain := filter (wordsMatch s slot value neighbor) (domainOf s neighbor) in
        if length newDomain =? 0 then (None, s)
        else forwardCheckLoop slot value a rest
               (Obj.set neighbor (domainOf s neighbor) inferences)
               (setDomains (Obj.set neighbor newDomain (domains s)) s)
  end.

(** [forwardCheck(slot, value, assignment)] *)
Definition forwardCheck (slot value : string) (a : Assignment) (s : Solver)
  : option Domains * Solver :=
  forwardCheckLoop slot value a (Obj.keys (neighborsOf (constraints s) slot)) [] s.

(** [restoreDomains(inferences)] *)
Definition restoreDomains (inferences : option Domains) (s : Solver) : Solver :=
  match inferences with
  | None => s
  | Some inf => setDomains (fold_left (fun d vd => Obj.set (fst vd) (snd vd) d) inf (domains s)) s
  end.

(** [[a[i], a[j]] = [a[j], a[i]]] *)
Fixpoint update {A : Type} (i : nat) (x : A) (l : list A) : list A :=
  match l, i with
  | [], _ => []
  | _ :: rest, 0 => x :: rest
  | y :: rest, S i' => y :: update i' x rest
  end.

Definition swap {A : Type} (i j : nat) (l : list A) : list A :=
  match nth_error l i, nth_error l j with
  | Some x, Some y => update j x (update i y l)
  | _, _ => l
  end.

Section Randomness.

(** The values [Math.random] returns, one per call. *)
Variable random : nat -> nat.

(** [Math.floor(Math.random() * n)] at the [k]-th call. *)
Definition randomBelow (k n : nat) : nat := random k mod n.

(** The loop [for (i = n - 1; i > 0; i--)] of the Fisher-Yates shuffle,
    entered at index [i] after [k] calls of [Math.random]. *)
Fixpoint shuffleFrom {A : Type} (i : nat) (a : list A) (k : nat) : list A * nat :=
  match i with
  | 0 => (a, k)
  | S i' => shuffleFrom i' (swap i (randomBelow k (i + 1)) a) (S k)
  end.

(** [shuffleArray(array)] *)
Definition shuffleArray {A : Type} (a : list A) (k : nat) : list A * nat :=
  shuffleFrom (length a - 1) a k.

(** [randomizeDomains] *)
Definition randomizeDomains (s : Solver) : Solver :=
  fold_left (fun s slot =>
               let r := shuffleArray (domainOf s slot) (randomCalls s) in
               setRandomCalls (snd r) (setDomains (Obj.set slot (fst r) (domains s)) s))
            (Obj.keys (domains s)) s.

(** The minimum-remaining-values pass; [None] is [Infinity]. *)
Definition mrvStep (s : Solver) (acc : option nat * list string) (slot : string)
  : option nat * list string :=
  let size := length (domainOf s slot) in
  match fst acc with
  | None => (Some size, [slot])
  | Some minSize =>
      if size <? minSize then (Some size, [slot])
      else if size =? minSize then (Some minSize, snd acc ++ [slot])
      else acc
  end.

Definition degree (s : Solver) (slot : string) : nat :=
  match Obj.get slot (constraints s) with
  | Some n => length (Obj.keys n)
  | None => 0
  end.

(** The degree pass; [None] is the initial [-1]. *)
Definition degreeStep (s : Solver) (acc : option nat * list string) (slot : string)
  : option nat * list string :=
  let deg := degree s slot in
  match fst acc with
  | None => (Some deg, [slot])
  | Some maxDegree =>
      if maxDegree <? deg then (Some deg, [slot])
      else if deg =? maxDegree then (Some maxDegree, snd acc ++ [slot])
      else acc
  end.

(** [selectUnassignedVariable(assignment)]; [None] is [null] or
    [undefined]. *)
Definition selectUnassignedVariable (s : Solver) (a : Assignment) : option string * Solver :=
  let unassigned := filter (fun slot => negb (Obj.has slot a)) (Obj.keys (domains s)) in
  match unassigned with
  | [] => (None, s)
  | _ =>
      let candidates := snd (fold_left (mrvStep s) unassigned (None, [])) in
      let finalCandidates := snd (fold_left (degreeStep s) candidates (None, [])) in
      (nth_error finalCandidates (randomBelow (randomCalls s) (length finalCandidates)),
       setRandomCalls (S (randomCalls s)) s)
  end.

(** [getFrequencyScore(word)] *)
Definition frequencyScore (s : Solver) (word : string) : nat :=
  fold_left (fun acc ch => acc + match Obj.get ch (letterFrequencies s) with
                                 | Some n => n
                                 | None => 0
                                 end)
            (list_ascii_of_string word) 0.

(** [orderDomainValues(slot)]: a copy of the domain, sorted by score,
    then shuffled. *)
Definition orderDomainValues (slot : string) (s : Solver) : list string * Solver :=
  let sorted := sortBy (fun a b => frequencyScore s a <? frequencyScore s b) (domainOf s slot) in
  let r := shuffleArray sorted (randomCalls s) in
  (fst r, setRandomCalls (snd r) s).

(** The [for (const value of orderedValues)] loop of
    [backtrackingSolve] and the two statements after it.  [recur] is
    the recursive call, [key] the frame's [assignmentKey]. *)
Fixpoint tryValues (recur : Search -> option (bool * Search)) (varToAssign : string)
  (key : list (string * string)) (values : list string) (h : Search)
  : option (bool * Search) :=
  match values with
  | [] => Some (false, mkSearch (solver h) (assignment h) (Obj.set key false (cache h)))
  | value :: rest =>
      if isConsistent (solver h) varToAssign value (assignment h) then
        let a1 := Obj.set varToAssign value (assignment h) in
        let fc := forwardCheck varToAssign value a1 (solver h) in
        match fst fc with
        | Some _ =>
            match recur (mkSearch (snd fc) a1 (cache h)) with
            | None => None
            | Some (true, h2) =>
                Some (true, mkSearch (solver h2) (assignment h2) (Obj.set key true (cache h2)))
            | Some (false, h2) =>
                tryValues recur varToAssign key rest
                  (mkSearch (restoreDomains (fst fc) (solver h2))
                            (Obj.delete varToAssign (assignment h2)) (cache h2))
            end
        | None =>
            tryValues recur varToAssign key rest
              (mkSearch (restoreDomains (fst fc) (snd fc)) (Obj.delete varToAssign a1) (cache h))
        end
      else tryValues recur varToAssign key rest h
  end.

(** [backtrackingSolve(assignment, cache)]; [None] when the recursion
    is deeper than the fuel.  [!varToAssign] holds of [null],
    [undefined] and the empty string. *)
Fixpoint backtrackingSolveFrom (fuel : nat) (h : Search) : option (bool * Search) :=
  match fuel with
  | 0 => None
  | S fuel' =>
      if length (Obj.keys (assignment h)) =? length (Obj.keys (slots (solver h))) then
        Some (true, mkSearch (setSolution (assignment h) (solver h)) (assignment h) (cache h))
      else
        let s1 := setRecursiveCalls (S (recursiveCalls (solver h))) (solver h) in
        let key := assignmentKey (assignment h) in
        match Obj.get key (cache h) with
        | Some cached => Some (cached, mkSearch s1 (assignment h) (cache h))
        | None =>
            let sel := selectUnassignedVariable s1 (assignment h) in
            match fst sel with
            | Some varToAssign =>
                if eqb_of varToAssign EmptyString then
                  Some (false, mkSearch (snd sel) (assignment h) (Obj.set key false (cache h)))
                else
                  let ov := orderDomainValues varToAssign (snd sel) in
                  tryValues (backtrackingSolveFrom fuel') varToAssign key (fst ov)
                            (mkSearch (snd ov) (assignment h) (cache h))
            | None =>
                Some (false, mkSearch (snd sel) (assignment h) (Obj.set key false (cache h)))
            end
        end
  end.

(** [this.backtrackingSolve()] as [solveCrosswordThread] calls it: with
    the default arguments [{}] and [{}].  Each nested call assigns one
    more slot, so the depth is at most the number of slots plus one. *)
Definition backtrackingSolve (s : Solver) : option (bool * Search) :=
  backtrackingSolveFrom (S (length (Obj.keys (slots s)))) (mkSearch s [] []).

(* ================================================================== *)
(** * The solve pipeline *)
(* ================================================================== *)

(** [Object.values(this.domains).some(d => d.length === 0)] *)
Definition hasEmptyDomain (s : Solver) : bool :=
  existsb (fun kv => length (snd kv) =? 0) (domains s).

(** What [validateGrid] tells the user when it rejects the grid. *)
Definition reportInvalidGrid (s : Solver) : Solver :=
  if length (grid s) =? 0 then
    updateStatus "Error: The grid is empty."
      (alert "The grid is empty. Please generate or load a grid." s)
  else
    updateStatus "Error: The grid is not rectangular."
      (alert "The grid is not rectangular. Please ensure all rows have the same number of columns." s).

(** The calls [updateCell(r, c, word[i], ...)] of [displaySolution], in
    order. *)
Definition solutionWrites (s : Solver) : list (Pos * option string) :=
  flat_map (fun sw => map (fun pi => (fst pi, charAt (snd sw) (snd pi)))
                          (indexed (positionsOf s (fst sw))))
           (solution s).

(** The part of [solveCrosswordThread] between [generateSlots] and the
    search: shuffle, AC-3 and the status line that reports its outcome
    (the lines [displayDomainSizes] prints next are left out).  The
    counter of recursive calls is reset for the search. *)
Definition prepareSearch (s : Solver) : option (bool * Solver) :=
  let s1 := updateStatus "Running AC-3 algorithm..." (randomizeDomains s) in
  match ac3 s1 with
  | None => None
  | Some (ac3Success, s2) =>
      let s3 := if negb ac3Success || hasEmptyDomain s2
                then updateStatus "AC-3 failed or domains wiped out. Attempting backtracking..." s2
                else updateStatus "Starting backtracking search..." s2 in
      Some (ac3Success, setRecursiveCalls 0 s3)
  end.

(** The end of [solveCrosswordThread]: what is reported for each
    result of the search.  The lines that print elapsed times are left
    out. *)
Definition reportResult (result : bool) (s : Solver) : Solver :=
  if result then
    updateStatus "Solution displayed on the grid."
      (updateStatus "Solution found with backtracking." s)
  else
    alert "No possible solution found for the current puzzle."
      (updateStatus "No possible solution found." s).

(** [solveCrosswordThread()]; [None] if a loop ran out of fuel, which
    does not happen ([solveCrosswordThread_returns]). *)
Definition solveCrosswordThread (s : Solver) : option Solver :=
  if negb (validateGrid (grid s)) then Some (reportInvalidGrid s)
  else
    let s1 := generateSlots s in
    if length (Obj.keys (slots s1)) =? 0 then
      Some (updateStatus "Error: No numbered slots found to solve."
              (alert "No numbered slots found to solve." s1))
    else
      match prepareSearch s1 with
      | None => None
      | Some (_, s2) =>
          match backtrackingSolve s2 with
          | None => None
          | Some (result, h) => Some (reportResult result (solver h))
          end
      end.

(** How the promise of [solveCrosswordThread] settles. *)
Inductive Settled := Fulfilled | Rejected.

(** [solveCrossword()] up to its return: the busy refusal, or the flag
    set and the thread run (an [async] function without [await] runs to
    its end inside the call).  The second component is the promise the
    [finally] callback is attached to, if one was created; the body of
    the thread is wrapped in [try]/[catch], so it fulfils. *)
Definition solveCrossword (s : Solver) : option (Solver * option Settled) :=
  if isSolving s then
    Some (alert "A puzzle is already being solved. Please wait." s, None)
  else
    let s1 := updateStatus "Setting up constraints..." (setIsSolving true s) in
    match solveCrosswordThread s1 with
    | None => None
    | Some s2 => Some (s2, Some Fulfilled)
    end.

(** The callback of [.finally], which runs however the promise
    settled. *)
Definition solveCrosswordFinally (settled : Settled) (s : Solver) : Solver :=
  setIsSolving false s.

End Randomness.

(** A fresh instance after [loadWords] has read the word list. *)
Definition newSolver (g : Grid) (ws : list string) : Solver :=
  mkSolver g ws (cacheWordsByLength ws) (calculateLetterFrequencies ws)
           [] [] [] [] [] 0 false 0 [] [].

(* ================================================================== *)
(** * Slot extraction *)
(* ================================================================== *)

(** The [i]-th cell from [(r, c)] in direction [d]. *)
Definition advance (d : Direction) (r c i : nat) : Pos :=
  match d with
  | Across => (r, c + i)
  | Down => (r + i, c)
  end.

Definition isOpenAt (g : Grid) (p : Pos) : bool := isOpen g (fst p) (snd p).

(** [ps] is the run of cells from [(r, c)] in direction [d]: contiguous,
    all inside the grid and not blocks, and stopped by the boundary or
    by a block. *)
Definition maximalRun (g : Grid) (d : Direction) (r c : nat) (ps : list Pos) : Prop :=
  ps = map (advance d r c) (seq 0 (length ps))
  /\ (forall i, i < length ps -> isOpenAt g (advance d r c i) = true)
  /\ isOpenAt g (advance d r c (length ps)) = false.

(** The neighbour before [(r, c)] in direction [d] is the boundary or a
    block. *)
Definition opensAt (g : Grid) (d : Direction) (r c : nat) : Prop :=
  match d with
  | Across => c = 0 \/ cellAt g r (c - 1) = "#"%string
  | Down => r = 0 \/ cellAt g (r - 1) c = "#"%string
  end.

Lemma isBlock_true (v : string) : isBlock v = true <-> v = "#"%string.
Proof. unfold isBlock. apply eqb_of_true. Qed.

Lemma opensSlot_true g r c d : opensSlot g r c d = true <-> opensAt g d r c.
Proof.
  destruct d; simpl; rewrite orb_true_iff, Nat.eqb_eq, isBlock_true; tauto.
Qed.

Lemma isOpen_bounds g r c : isOpen g r c = true -> r < rows g /\ c < cols g.
Proof.
  unfold isOpen. rewrite !andb_true_iff, !Nat.ltb_lt. tauto.
Qed.

Lemma isOpen_not_block g r c : isOpen g r c = true -> cellAt g r c <> "#"%string.
Proof.
  unfold isOpen. rewrite !andb_true_iff, negb_true_iff. intros [_ Hb] E.
  apply isBlock_true in E. congruence.
Qed.

Lemma advance_next d r c i :
  advance d r c (S i)
  = match d with Across => advance d r (S c) i | Down => advance d (S r) c i end.
Proof. destruct d; simpl; f_equal; lia. Qed.

Lemma advance_0 d r c : advance d r c 0 = (r, c).
Proof. destruct d; simpl; f_equal; lia. Qed.

Lemma advance_inj d r c i j : advance d r c i = advance d r c j -> i = j.
Proof. destruct d; simpl; intros E; inversion E; lia. Qed.

Lemma getSlotPositionsFrom_run fuel : forall g d r c,
  let ps := getSlotPositionsFrom fuel g r c d in
  ps = map (advance d r c) (seq 0 (length ps))
  /\ (forall i, i < length ps -> isOpenAt g (advance d r c i) = true)
  /\ (length ps < fuel -> isOpenAt g (advance d r c (length ps)) = false).
Proof.
  induction fuel as [ | fuel IH ]; intros g d r c; cbv zeta; cbn [getSlotPositionsFrom].
  - repeat split; [ intros i Hi; simpl in Hi; lia | simpl; lia ].
  - destruct (isOpen g r c) eqn:Hopen.
    + assert (Hgen : forall r' c',
                (forall i, advance d r c (S i) = advance d r' c' i) ->
                let ps := getSlotPositionsFrom fuel g r' c' d in
                (r, c) :: ps = map (advance d r c) (seq 0 (length ((r, c) :: ps)))
                /\ (forall i, i < length ((r, c) :: ps) -> isOpenAt g (advance d r c i) = true)
                /\ (length ((r, c) :: ps) < S fuel ->
                    isOpenAt g (advance d r c (length ((r, c) :: ps))) = false)).
      { intros r' c' Hadv. pose proof (IH g d r' c') as IH'. cbv zeta in IH'.
        cbv zeta. generalize dependent (getSlotPositionsFrom fuel g r' c' d).
        intros ps (Hmap & Hopens & Hstop). simpl. repeat split.
        - rewrite advance_0. f_equal. rewrite <- seq_shift, map_map.
          rewrite Hmap at 1. apply map_ext. intros i. symmetry. apply Hadv.
        - intros [ | i ] Hi.
          + rewrite advance_0. exact Hopen.
          + rewrite Hadv. apply Hopens. simpl in Hi. lia.
        - intros Hlt. rewrite Hadv. apply Hstop. simpl in Hlt. lia. }
      destruct d.
      * apply (Hgen r (S c)). intros i. apply (advance_next Across).
      * apply (Hgen (S r) c). intros i. apply (advance_next Down).
    + simpl. repeat split.
      * intros i Hi. lia.
      * intros _. rewrite advance_0. exact Hopen.
Qed.

(** A run never leaves the grid, so it is shorter than the fuel
    [getSlotPositions] passes. *)
Lemma run_length_bound g d r c n :
  (forall i, i < n -> isOpenAt g (advance d r c i) = true) -> n <= rows g + cols g.
Proof.
  intros Hopens. destruct n as [ | n ]; [ lia | ].
  specialize (Hopens n (Nat.lt_succ_diag_r n)).
  apply isOpen_bounds in Hopens. destruct d; simpl in Hopens; lia.
Qed.

(** The loop of [getSlotPositions] ends because its guard fails: the
    result is the maximal run from the start cell. *)
Lemma getSlotPositions_maximalRun g r c d : maximalRun g d r c (getSlotPositions g r c d).
Proof.
  unfold getSlotPositions.
  destruct (getSlotPositionsFrom_run (S (rows g + cols g)) g d r c) as (Hmap & Hopens & Hstop).
  repeat split; [ exact Hmap | exact Hopens | ].
  apply Hstop. pose proof (run_length_bound g d r c _ Hopens). lia.
Qed.

Lemma maximalRun_unique g d r c ps ps' :
  maximalRun g d r c ps -> maximalRun g d r c ps' -> ps = ps'.
Proof.
  intros (Hm & Ho & Hs) (Hm' & Ho' & Hs').
  assert (Hlen : length ps = length ps').
  { destruct (Nat.lt_trichotomy (length ps) (length ps')) as [Hlt | [Heq | Hgt]].
    - rewrite (Ho' _ Hlt) in Hs. discriminate.
    - exact Heq.
    - rewrite (Ho _ Hgt) in Hs'. discriminate. }
  rewrite Hm, Hm', Hlen. reflexivity.
Qed.

(** More fuel does not change the result. *)
Lemma getSlotPositionsFrom_enough fuel g r c d :
  S (rows g + cols g) <= fuel ->
  getSlotPositionsFrom fuel g r c d = getSlotPositions g r c d.
Proof.
  intros Hfuel. apply (maximalRun_unique g d r c).
  - destruct (getSlotPositionsFrom_run fuel g d r c) as (Hmap & Hopens & Hstop).
    repeat split; [ exact Hmap | exact Hopens | ].
    apply Hstop. pose proof (run_length_bound g d r c _ Hopens). lia.
  - apply getSlotPositions_maximalRun.
Qed.

Lemma maximalRun_nth g d r c ps i p :
  maximalRun g d r c ps -> nth_error ps i = Some p -> p = advance d r c i /\ i < length ps.
Proof.
  intros (Hm & _ & _) Hnth.
  assert (Hi : i < length ps) by (apply nth_error_Some; congruence).
  split; [ | exact Hi ].
  rewrite Hm in Hnth. rewrite nth_error_map in Hnth.
  rewrite nth_error_seq in Hnth.
  destruct (Nat.ltb_spec i (length ps)) as [ _ | Hge ]; [ | lia ].
  simpl in Hnth. congruence.
Qed.

Lemma maximalRun_In g d r c ps p :
  maximalRun g d r c ps -> In p ps -> exists i, i < length ps /\ p = advance d r c i.
Proof.
  intros Hrun Hin. apply In_nth_error in Hin. destruct Hin as [i Hi].
  exists i. destruct (maximalRun_nth _ _ _ _ _ _ _ Hrun Hi). auto.
Qed.

Lemma NoDup_map_injective {A B : Type} (f : A -> B) (l : list A) :
  (forall x y, f x = f y -> x = y) -> NoDup l -> NoDup (map f l).
Proof.
  intros Hinj Hnd. induction Hnd as [ | x l Hnotin Hnd IH ]; simpl; constructor.
  - intros Hin. apply in_map_iff in Hin. destruct Hin as (y & Hy & Hin).
    apply Hinj in Hy. subst y. contradiction.
  - exact IH.
Qed.

Lemma maximalRun_NoDup g d r c ps : maximalRun g d r c ps -> NoDup ps.
Proof.
  intros (Hm & _ & _). rewrite Hm.
  apply NoDup_map_injective; [ | apply seq_NoDup ].
  intros i j. apply advance_inj.
Qed.

Lemma In_scan g r c : In (r, c) (scan g) <-> r < rows g /\ c < cols g.
Proof.
  unfold scan. rewrite in_flat_map. split.
  - intros (r' & Hr & Hin). apply in_map_iff in Hin. destruct Hin as (c' & E & Hc).
    inversion E; subst. apply in_seq in Hr. apply in_seq in Hc. lia.
  - intros [Hr Hc]. exists r. split.
    + apply in_seq. lia.
    + apply in_map. apply in_seq. lia.
Qed.

Lemma slotWritesAt_In g r c d name ps :
  In (name, ps) (slotWritesAt g r c d) <->
  opensAt g d r c /\ name = slotName (cellAt g r c) d
  /\ ps = getSlotPositions g r c d /\ 2 <= length ps.
Proof.
  unfold slotWritesAt. rewrite <- opensSlot_true.
  destruct (opensSlot g r c d).
  - destruct (Nat.leb_spec 2 (length (getSlotPositions g r c d))) as [Hlen | Hlen]; simpl.
    + split.
      * intros [E | []]. inversion E; subst. auto.
      * intros (_ & -> & -> & _). auto.
    + split; [ tauto | ]. intros (_ & _ & -> & Hge). lia.
  - simpl. split; [ tauto | ]. intros (E & _). discriminate.
Qed.

(** The writes to [this.slots]: one for each numbered cell and
    direction in which the cell opens a run of at least two cells. *)
Lemma slotWrites_In g name ps :
  In (name, ps) (slotWrites g) <->
  exists r c d,
    r < rows g /\ c < cols g /\ hasDigit (cellAt g r c) = true
    /\ opensAt g d r c /\ name = slotName (cellAt g r c) d
    /\ maximalRun g d r c ps /\ 2 <= length ps.
Proof.
  unfold slotWrites. rewrite in_flat_map. split.
  - intros ([r c] & Hscan & Hin). apply In_scan in Hscan.
    unfold slotWritesCell in Hin. simpl in Hin.
    destruct (hasDigit (cellAt g r c)) eqn:Hdigit; [ | contradiction ].
    apply in_app_or in Hin.
    destruct Hin as [Hin | Hin]; apply slotWritesAt_In in Hin;
      destruct Hin as (Hopens & Hname & Hps & Hlen);
      [ exists r, c, Across | exists r, c, Down ];
      (repeat split; try tauto; try (subst ps; apply getSlotPositions_maximalRun)).
  - intros (r & c & d & Hr & Hc & Hdigit & Hopens & Hname & Hrun & Hlen).
    exists (r, c). split; [ apply In_scan; auto | ].
    unfold slotWritesCell. simpl. rewrite Hdigit. apply in_or_app.
    assert (Hps : ps = getSlotPositions g r c d)
      by (apply (maximalRun_unique g d r c); [ exact Hrun | apply getSlotPositions_maximalRun ]).
    destruct d; [ left | right ]; apply slotWritesAt_In; auto.
Qed.

(** ** Objects filled by a sequence of writes *)

Section Writes.
Context {K V : Type} `{EqDec K}.

Definition applyWrites (ws : list (K * V)) (o : Obj.t K V) : Obj.t K V :=
  fold_left (fun o w => Obj.set (fst w) (snd w) o) ws o.

Lemma applyWrites_get ws : forall o k v,
  Obj.get k (applyWrites ws o) = Some v -> In (k, v) ws \/ Obj.get k o = Some v.
Proof.
  induction ws as [ | [k0 v0] ws IH ]; intros o k v; simpl; [ auto | ].
  intros Hget. apply IH in Hget. destruct Hget as [Hin | Hget]; [ auto | ].
  rewrite Obj.get_set in Hget. destruct (eq_dec k k0) as [E | E].
  - left. left. congruence.
  - auto.
Qed.

Lemma applyWrites_keys ws : forall o k,
  In k (Obj.keys (applyWrites ws o)) <-> In k (map fst ws) \/ In k (Obj.keys o).
Proof.
  induction ws as [ | [k0 v0] ws IH ]; intros o k; simpl; [ tauto | ].
  rewrite IH, Obj.keys_set_In. intuition congruence.
Qed.

Lemma applyWrites_NoDup ws : forall o,
  NoDup (Obj.keys o) -> NoDup (Obj.keys (applyWrites ws o)).
Proof.
  induction ws as [ | [k0 v0] ws IH ]; intros o Hnd; simpl; [ exact Hnd | ].
  apply IH. apply Obj.NoDup_keys_set. exact Hnd.
Qed.

End Writes.

Lemma identifySlots_writes g : identifySlots g = applyWrites (slotWrites g) [].
Proof. reflexivity. Qed.

Lemma slots_generateSlots s : slots (generateSlots s) = identifySlots (grid s).
Proof. reflexivity. Qed.

Lemma identifySlots_get g name ps :
  Obj.get name (identifySlots g) = Some ps -> In (name, ps) (slotWrites g).
Proof.
  rewrite identifySlots_writes. intros Hget. apply applyWrites_get in Hget.
  destruct Hget as [Hin | Hget]; [ exact Hin | discriminate ].
Qed.

Lemma identifySlots_NoDup g : NoDup (Obj.keys (identifySlots g)).
Proof. rewrite identifySlots_writes. apply applyWrites_NoDup. constructor. Qed.

(** C6.  On a grid [validateGrid] accepts, [generateSlots] writes the
    slot [<N>ACROSS] (resp. [<N>DOWN]) for a cell exactly when the cell
    holds a number [N], its left (resp. upper) neighbour is the boundary
    or a block, and the run of non-block cells collected rightward
    (resp. downward) from it until the boundary or a block has at least
    two cells; the slot is that run, and a run of one cell is written
    nowhere.  Every slot of [this.slots] is such a write, and every
    written name is a slot. *)
Theorem generateSlots_emits_runs (s : Solver) :
  validateGrid (grid s) = true ->
  (forall name ps,
      In (name, ps) (slotWrites (grid s)) <->
      exists r c d,
        r < rows (grid s) /\ c < cols (grid s)
        /\ hasDigit (cellAt (grid s) r c) = true
        /\ opensAt (grid s) d r c
        /\ name = slotName (cellAt (grid s) r c) d
        /\ maximalRun (grid s) d r c ps
        /\ 2 <= length ps)
  /\ (forall name ps,
         Obj.get name (slots (generateSlots s)) = Some ps ->
         In (name, ps) (slotWrites (grid s)))
  /\ (forall name ps,
         In (name, ps) (slotWrites (grid s)) ->
         In name (Obj.keys (slots (generateSlots s)))).
Proof.
  intros _. split; [ | split ].
  - intros name ps. apply slotWrites_In.
  - intros name ps. rewrite slots_generateSlots. apply identifySlots_get.
  - intros name ps Hin. rewrite slots_generateSlots, identifySlots_writes.
    apply applyWrites_keys. left. apply in_map_iff. exists (name, ps). auto.
Qed.

(* ================================================================== *)
(** * Two slots meet in at most one cell *)
(* ================================================================== *)

Lemma string_append_length a b : String.length (String.append a b) = String.length a + String.length b.
Proof. induction a as [ | x a IH ]; simpl; [ reflexivity | rewrite IH; reflexivity ]. Qed.

Lemma maximalRun_open g d r c ps i :
  maximalRun g d r c ps -> i < length ps -> isOpenAt g (advance d r c i) = true.
Proof. intros (_ & Ho & _). apply Ho. Qed.

(** Two runs in the same direction that start at different opening
    cells have no cell in common: the block (or boundary) before the
    later start stops the earlier run. *)
Lemma runs_same_direction_disjoint g d r1 c1 r2 c2 ps1 ps2 p :
  maximalRun g d r1 c1 ps1 -> maximalRun g d r2 c2 ps2 ->
  opensAt g d r1 c1 -> opensAt g d r2 c2 ->
  (r1, c1) <> (r2, c2) ->
  In p ps1 -> In p ps2 -> False.
Proof.
  intros Hrun1 Hrun2 Hopen1 Hopen2 Hne Hin1 Hin2.
  destruct (maximalRun_In _ _ _ _ _ _ Hrun1 Hin1) as (i & Hi & Ep1).
  destruct (maximalRun_In _ _ _ _ _ _ Hrun2 Hin2) as (j & Hj & Ep2).
  destruct d; simpl in *; subst p; inversion Ep2; subst.
  - assert (Hc : c1 <> c2) by congruence.
    destruct (Nat.lt_trichotomy c1 c2) as [Hlt | [Heq | Hgt]]; [ | congruence | ].
    + destruct Hopen2 as [E | Hblock]; [ lia | ].
      assert (Hk : c2 - 1 - c1 < length ps1) by lia.
      pose proof (maximalRun_open _ _ _ _ _ _ Hrun1 Hk) as Ho. simpl in Ho.
      replace (c1 + (c2 - 1 - c1)) with (c2 - 1) in Ho by lia.
      apply isOpen_not_block in Ho. contradiction.
    + destruct Hopen1 as [E | Hblock]; [ lia | ].
      assert (Hk : c1 - 1 - c2 < length ps2) by lia.
      pose proof (maximalRun_open _ _ _ _ _ _ Hrun2 Hk) as Ho. simpl in Ho.
      replace (c2 + (c1 - 1 - c2)) with (c1 - 1) in Ho by lia.
      apply isOpen_not_block in Ho. contradiction.
  - assert (Hr : r1 <> r2) by congruence.
    destruct (Nat.lt_trichotomy r1 r2) as [Hlt | [Heq | Hgt]]; [ | congruence | ].
    + destruct Hopen2 as [E | Hblock]; [ lia | ].
      assert (Hk : r2 - 1 - r1 < length ps1) by lia.
      pose proof (maximalRun_open _ _ _ _ _ _ Hrun1 Hk) as Ho. simpl in Ho.
      replace (r1 + (r2 - 1 - r1)) with (r2 - 1) in Ho by lia.
      apply isOpen_not_block in Ho. contradiction.
    + destruct Hopen1 as [E | Hblock]; [ lia | ].
      assert (Hk : r1 - 1 - r2 < length ps2) by lia.
      pose proof (maximalRun_open _ _ _ _ _ _ Hrun2 Hk) as Ho. simpl in Ho.
      replace (r2 + (r1 - 1 - r2)) with (r1 - 1) in Ho by lia.
      apply isOpen_not_block in Ho. contradiction.
Qed.

(** An across run and a down run cross in one cell at most. *)
Lemma runs_crossing g r1 c1 r2 c2 ps1 ps2 p q :
  maximalRun g Across r1 c1 ps1 -> maximalRun g Down r2 c2 ps2 ->
  In p ps1 -> In p ps2 -> In q ps1 -> In q ps2 -> p = q.
Proof.
  intros Hrun1 Hrun2 Hp1 Hp2 Hq1 Hq2.
  destruct (maximalRun_In _ _ _ _ _ _ Hrun1 Hp1) as (i & _ & Ep1).
  destruct (maximalRun_In _ _ _ _ _ _ Hrun2 Hp2) as (j & _ & Ep2).
  destruct (maximalRun_In _ _ _ _ _ _ Hrun1 Hq1) as (i' & _ & Eq1).
  destruct (maximalRun_In _ _ _ _ _ _ Hrun2 Hq2) as (j' & _ & Eq2).
  simpl in *. subst p q. inversion Ep2; inversion Eq2. f_equal; lia.
Qed.

(** What [generateSlots] guarantees of each slot it keeps. *)
Lemma identifySlots_run g name ps :
  Obj.get name (identifySlots g) = Some ps ->
  exists r c d,
    r < rows g /\ c < cols g /\ hasDigit (cellAt g r c) = true
    /\ opensAt g d r c /\ name = slotName (cellAt g r c) d
    /\ maximalRun g d r c ps /\ 2 <= length ps.
Proof. intros Hget. apply slotWrites_In. apply identifySlots_get. exact Hget. Qed.

Lemma identifySlots_positions_NoDup g name ps :
  Obj.get name (identifySlots g) = Some ps -> NoDup ps.
Proof.
  intros Hget. apply identifySlots_run in Hget.
  destruct Hget as (r & c & d & _ & _ & _ & _ & _ & Hrun & _).
  eapply maximalRun_NoDup; eauto.
Qed.

(** First half of C10: two slots with different names share at most
    one cell. *)
Lemma slots_share_at_most_one_cell g a b pa pb p q :
  a <> b ->
  Obj.get a (identifySlots g) = Some pa ->
  Obj.get b (identifySlots g) = Some pb ->
  In p pa -> In p pb -> In q pa -> In q pb -> p = q.
Proof.
  intros Hne Ha Hb Hpa Hpb Hqa Hqb.
  apply identifySlots_run in Ha. apply identifySlots_run in Hb.
  destruct Ha as (r1 & c1 & d1 & _ & _ & _ & Hopen1 & Hname1 & Hrun1 & _).
  destruct Hb as (r2 & c2 & d2 & _ & _ & _ & Hopen2 & Hname2 & Hrun2 & _).
  assert (Hstart : d1 = d2 -> (r1, c1) <> (r2, c2)).
  { intros Ed E. inversion E; subst. congruence. }
  destruct d1, d2.
  - exfalso. eapply (runs_same_direction_disjoint g Across r1 c1 r2 c2); eauto.
  - eapply runs_crossing; eauto.
  - symmetry. eapply (runs_crossing g r2 c2 r1 c1 pb pa q p); eauto.
  - exfalso. eapply (runs_same_direction_disjoint g Down r1 c1 r2 c2); eauto.
Qed.

(* ================================================================== *)
(** * The constraint table *)
(* ================================================================== *)

(** [this.constraints[a][b]], [None] when either level is missing. *)
Definition arc (c : Constraints) (a b : string) : option (list (nat * nat)) :=
  Obj.get b (neighborsOf c a).

Lemma overlapsOf_arc c a b :
  overlapsOf c a b = match arc c a b with Some l => l | None => [] end.
Proof. reflexivity. Qed.

Lemma neighborsOf_set c a a' n :
  neighborsOf (Obj.set a n c) a' = if eq_dec a' a then n else neighborsOf c a'.
Proof.
  unfold neighborsOf. rewrite Obj.get_set. destruct (eq_dec a' a); reflexivity.
Qed.

(** The three statements of a push amount to one write. *)
Lemma pushOverlap_eq c a b p :
  pushOverlap c a b p
  = Obj.set a (Obj.set b (overlapsOf c a b ++ [p]) (neighborsOf c a)) c.
Proof.
  unfold pushOverlap, overlapsOf, neighborsOf.
  destruct (Obj.get a c) as [n | ] eqn:Ha.
  - rewrite Ha. destruct (Obj.get b n) as [l | ] eqn:Hb.
    + rewrite Hb. reflexivity.
    + rewrite Obj.get_set_same, Obj.set_set_same. reflexivity.
  - rewrite Obj.get_set_same. simpl.
    destruct (eq_dec b b) as [_ | Hne]; [ | congruence ].
    simpl. destruct (eq_dec b b) as [_ | Hne]; [ | congruence ].
    rewrite Obj.set_set_same. reflexivity.
Qed.

Lemma arc_pushOverlap c a b p a' b' :
  arc (pushOverlap c a b p) a' b'
  = if eq_dec (a', b') (a, b) then Some (overlapsOf c a b ++ [p]) else arc c a' b'.
Proof.
  rewrite pushOverlap_eq. unfold arc. rewrite neighborsOf_set.
  destruct (eq_dec a' a) as [Ea | Ea].
  - subst a'. rewrite Obj.get_set.
    destruct (eq_dec b' b) as [Eb | Eb]; destruct (eq_dec (a, b') (a, b)) as [E | E];
      congruence.
  - destruct (eq_dec (a', b') (a, b)) as [E | E]; congruence.
Qed.

Lemma overlapsOf_pushOverlap c a b p a' b' :
  overlapsOf (pushOverlap c a b p) a' b'
  = overlapsOf c a' b' ++ (if eq_dec (a', b') (a, b) then [p] else []).
Proof.
  rewrite !overlapsOf_arc, arc_pushOverlap.
  destruct (eq_dec (a', b') (a, b)) as [E | E].
  - inversion E; subst. reflexivity.
  - rewrite app_nil_r. reflexivity.
Qed.

(** What one overlap adds to [constraints[a][b]]. *)
Definition contribution (a b : string) (ee : Entry * Entry) : list (nat * nat) :=
  (if eq_dec (a, b) (fst (fst ee), fst (snd ee)) then [(snd (fst ee), snd (snd ee))] else [])
  ++ (if eq_dec (a, b) (fst (snd ee), fst (fst ee)) then [(snd (snd ee), snd (fst ee))] else []).

Lemma overlapsOf_recordOverlap c ee a b :
  overlapsOf (recordOverlap c ee) a b = overlapsOf c a b ++ contribution a b ee.
Proof.
  destruct ee as [[slotA idxA] [slotB idxB]]. unfold recordOverlap, contribution. simpl.
  rewrite !overlapsOf_pushOverlap, <- app_assoc. reflexivity.
Qed.

Lemma arc_recordOverlap_None c ee a b :
  arc (recordOverlap c ee) a b = None <-> arc c a b = None /\ contribution a b ee = [].
Proof.
  destruct ee as [[slotA idxA] [slotB idxB]]. unfold recordOverlap, contribution. simpl.
  rewrite !arc_pushOverlap.
  destruct (eq_dec (a, b) (slotB, slotA)); destruct (eq_dec (a, b) (slotA, slotB)); simpl;
    split; try tauto; try (intros [_ E]; discriminate); try discriminate.
Qed.

Lemma overlapsOf_fold_recordOverlap ees : forall c a b,
  overlapsOf (fold_left recordOverlap ees c) a b
  = overlapsOf c a b ++ flat_map (contribution a b) ees.
Proof.
  induction ees as [ | ee ees IH ]; intros c a b; simpl.
  - rewrite app_nil_r. reflexivity.
  - rewrite IH, overlapsOf_recordOverlap, <- app_assoc. reflexivity.
Qed.

Lemma arc_fold_recordOverlap_None ees : forall c a b,
  arc (fold_left recordOverlap ees c) a b = None
  <-> arc c a b = None /\ flat_map (contribution a b) ees = [].
Proof.
  induction ees as [ | ee ees IH ]; intros c a b; simpl.
  - tauto.
  - rewrite IH, arc_recordOverlap_None. split.
    + intros [[H1 H2] H3]. rewrite H2, H3. auto.
    + intros [H1 H2]. apply app_eq_nil in H2. tauto.
Qed.

(** All the overlaps the nested loops of [generateConstraints] record,
    in order. *)
Definition allOverlaps (pm : Obj.t Pos (list Entry)) : list (Entry * Entry) :=
  flat_map (fun ke => overlapPairs (snd ke)) pm.

Lemma overlapPairs_short (l : list Entry) : length l <= 1 -> overlapPairs l = [].
Proof.
  destruct l as [ | e [ | e' l ] ]; simpl; intros Hlen; [ reflexivity | reflexivity | lia ].
Qed.

Lemma fold_constraintsStep pm : forall c,
  fold_left constraintsStep pm c = fold_left recordOverlap (allOverlaps pm) c.
Proof.
  induction pm as [ | [key es] pm IH ]; intros c; simpl; [ reflexivity | ].
  unfold allOverlaps. simpl. rewrite fold_left_app. fold (allOverlaps pm).
  rewrite <- IH. f_equal. unfold constraintsStep. simpl.
  destruct (Nat.ltb_spec 1 (length es)) as [Hlen | Hlen]; [ reflexivity | ].
  rewrite overlapPairs_short by exact Hlen. reflexivity.
Qed.

Lemma generateConstraints_overlaps slots a b :
  overlapsOf (generateConstraints slots) a b
  = flat_map (contribution a b) (allOverlaps (buildPositionMap slots)).
Proof.
  unfold generateConstraints. rewrite fold_constraintsStep, overlapsOf_fold_recordOverlap.
  reflexivity.
Qed.

Lemma generateConstraints_arc slots a b :
  arc (generateConstraints slots) a b
  = match flat_map (contribution a b) (allOverlaps (buildPositionMap slots)) with
    | [] => None
    | l => Some l
    end.
Proof.
  pose proof (generateConstraints_overlaps slots a b) as Hov.
  pose proof (arc_fold_recordOverlap_None (allOverlaps (buildPositionMap slots)) [] a b) as Hnone.
  unfold generateConstraints in *. rewrite fold_constraintsStep in *.
  rewrite overlapsOf_arc in Hov.
  destruct (arc (fold_left recordOverlap (allOverlaps (buildPositionMap slots)) []) a b)
    as [l | ] eqn:Harc.
  - rewrite <- Hov. destruct l as [ | p l ]; [ | reflexivity ].
    exfalso. symmetry in Hov.
    destruct Hnone as [_ Hnone]. discriminate Hnone. split; [ reflexivity | exact Hov ].
  - rewrite <- Hov. reflexivity.
Qed.

(** ** Mirror symmetry *)

Lemma contribution_mirror a b ee i j :
  In (i, j) (contribution a b ee) <-> In (j, i) (contribution b a ee).
Proof.
  destruct ee as [[slotA idxA] [slotB idxB]]. unfold contribution. simpl.
  rewrite !in_app_iff.
  destruct (eq_dec (a, b) (slotA, slotB)) as [E1 | E1];
    destruct (eq_dec (a, b) (slotB, slotA)) as [E2 | E2];
    destruct (eq_dec (b, a) (slotA, slotB)) as [E3 | E3];
    destruct (eq_dec (b, a) (slotB, slotA)) as [E4 | E4];
    try (exfalso; congruence); simpl; intuition congruence.
Qed.

Lemma contribution_mirror_nil a b ee : contribution a b ee = [] <-> contribution b a ee = [].
Proof.
  destruct ee as [[slotA idxA] [slotB idxB]]. unfold contribution. simpl.
  destruct (eq_dec (a, b) (slotA, slotB)) as [E1 | E1];
    destruct (eq_dec (a, b) (slotB, slotA)) as [E2 | E2];
    destruct (eq_dec (b, a) (slotA, slotB)) as [E3 | E3];
    destruct (eq_dec (b, a) (slotB, slotA)) as [E4 | E4];
    try (exfalso; congruence); simpl; split; congruence.
Qed.

Lemma contributions_mirror a b ees i j :
  In (i, j) (flat_map (contribution a b) ees) <-> In (j, i) (flat_map (contribution b a) ees).
Proof.
  rewrite !in_flat_map. split; intros (ee & Hin & Hc); exists ee; split; auto;
    apply contribution_mirror; exact Hc.
Qed.

Lemma contributions_mirror_nil a b ees :
  flat_map (contribution a b) ees = [] <-> flat_map (contribution b a) ees = [].
Proof.
  induction ees as [ | ee ees IH ]; simpl; [ tauto | ].
  split; intros E; apply app_eq_nil in E; destruct E as [E1 E2];
    apply contribution_mirror_nil in E1; apply IH in E2; rewrite E1, E2; reflexivity.
Qed.

Lemma generateConstraints_mirror (slotMap : Slots) (a b : string) :
  (arc (generateConstraints slotMap) a b <> None
   <-> arc (generateConstraints slotMap) b a <> None)
  /\ (forall i j,
         In (i, j) (overlapsOf (generateConstraints slotMap) a b)
         <-> In (j, i) (overlapsOf (generateConstraints slotMap) b a)).
Proof.
  split.
  - rewrite !generateConstraints_arc.
    pose proof (contributions_mirror_nil a b (allOverlaps (buildPositionMap slotMap))) as Hnil.
    destruct (flat_map (contribution a b) (allOverlaps (buildPositionMap slotMap)));
      destruct (flat_map (contribution b a) (allOverlaps (buildPositionMap slotMap)));
      split; intros Hn; try congruence.
    + destruct Hnil as [Hnil _]. specialize (Hnil eq_refl). discriminate.
    + destruct Hnil as [_ Hnil]. specialize (Hnil eq_refl). discriminate.
  - intros i j. rewrite !generateConstraints_overlaps. apply contributions_mirror.
Qed.

(** C5.  For every slot map, the table [generateConstraints] builds is
    symmetric: [constraints[A][B]] exists exactly when
    [constraints[B][A]] does, and [(i, j)] is in [constraints[A][B]]
    exactly when [(j, i)] is in [constraints[B][A]]. *)
Theorem generateConstraints_symmetric (slotMap : Slots) (a b : string) :
  (arc (generateConstraints slotMap) a b <> None
   <-> arc (generateConstraints slotMap) b a <> None)
  /\ (forall i j,
         In (i, j) (overlapsOf (generateConstraints slotMap) a b)
         <-> In (j, i) (overlapsOf (generateConstraints slotMap) b a)).
Proof. apply generateConstraints_mirror. Qed.

(* ================================================================== *)
(** * Overlap lists hold one pair *)
(* ================================================================== *)

(** ** Lists with at most one relevant element *)

Lemma flat_map_at_most_one {A B : Type} (f : A -> list B) (l : list A) :
  NoDup l ->
  (forall x y, In x l -> In y l -> f x <> [] -> f y <> [] -> x = y) ->
  (forall x, In x l -> length (f x) <= 1) ->
  length (flat_map f l) <= 1.
Proof.
  intros Hnd. induction Hnd as [ | x l Hnotin Hnd IH ]; intros Huniq Hlen; simpl; [ lia | ].
  rewrite length_app.
  destruct (f x) as [ | b bs ] eqn:Hfx.
  - simpl. apply IH.
    + intros y z Hy Hz. apply Huniq; right; assumption.
    + intros y Hy. apply Hlen. right. exact Hy.
  - assert (Hrest : flat_map f l = []).
    { clear IH. induction l as [ | y l IHl ]; simpl; [ reflexivity | ].
      destruct (f y) as [ | b' bs' ] eqn:Hfy.
      - simpl. apply IHl.
        + intros Hin. apply Hnotin. right. exact Hin.
        + inversion Hnd; assumption.
        + intros u v Hu Hv. apply Huniq.
          * destruct Hu as [Hu | Hu]; [ left; exact Hu | right; right; exact Hu ].
          * destruct Hv as [Hv | Hv]; [ left; exact Hv | right; right; exact Hv ].
        + intros u Hu. apply Hlen.
          destruct Hu as [Hu | Hu]; [ left; exact Hu | right; right; exact Hu ].
      - exfalso. apply Hnotin. left.
        apply Huniq; [ right; left; reflexivity | left; reflexivity | | ]; congruence. }
    rewrite Hrest. simpl. specialize (Hlen x (or_introl eq_refl)). rewrite Hfx in Hlen.
    simpl in *. lia.
Qed.

Lemma In_combine_seq {A : Type} (l : list A) : forall start x i,
  In (x, i) (combine l (seq start (length l))) <-> start <= i /\ nth_error l (i - start) = Some x.
Proof.
  induction l as [ | y l IH ]; intros start x i; simpl.
  - split; [ tauto | ]. intros [_ E]. destruct (i - start); discriminate.
  - rewrite IH. split.
    + intros [E | [Hle Hnth]].
      * inversion E; subst. rewrite Nat.sub_diag. auto.
      * split; [ lia | ]. replace (i - start) with (S (i - S start)) by lia. exact Hnth.
    + intros [Hle Hnth]. destruct (i - start) as [ | k ] eqn:Hk.
      * left. simpl in Hnth. f_equal; [ congruence | lia ].
      * right. split; [ lia | ]. simpl in Hnth. replace (i - S start) with k by lia. exact Hnth.
Qed.

Lemma In_indexed {A : Type} (l : list A) x i :
  In (x, i) (indexed l) <-> nth_error l i = Some x.
Proof.
  unfold indexed. rewrite In_combine_seq, Nat.sub_0_r. split; [ tauto | ]. split; [ lia | auto ].
Qed.

Lemma map_snd_combine_seq {A : Type} (l : list A) : forall start,
  map snd (combine l (seq start (length l))) = seq start (length l).
Proof.
  induction l as [ | y l IH ]; intros start; simpl; [ reflexivity | ]. rewrite IH. reflexivity.
Qed.

Lemma NoDup_indexed {A : Type} (l : list A) : NoDup (indexed l).
Proof.
  apply (NoDup_map_inv snd). unfold indexed. rewrite map_snd_combine_seq. apply seq_NoDup.
Qed.

Lemma NoDup_nth_error_inj {A : Type} (l : list A) i j x :
  NoDup l -> nth_error l i = Some x -> nth_error l j = Some x -> i = j.
Proof.
  intros Hnd Hi Hj. rewrite NoDup_nth_error in Hnd. apply Hnd.
  - apply nth_error_Some. congruence.
  - congruence.
Qed.

(** ** The pairs of one cell *)

Lemma overlapPairs_In (l : list Entry) x y :
  In (x, y) (overlapPairs l) -> In x l /\ In y l.
Proof.
  induction l as [ | e l IH ]; simpl; [ tauto | ].
  rewrite in_app_iff, in_map_iff. intros [(z & E & Hz) | Hin].
  - inversion E; subst. auto.
  - apply IH in Hin. tauto.
Qed.

Lemma overlapPairs_fst_neq (l : list Entry) x y :
  NoDup (map fst l) -> In (x, y) (overlapPairs l) -> fst x <> fst y.
Proof.
  induction l as [ | e l IH ]; simpl; [ tauto | ].
  intros Hnd. inversion Hnd as [ | ? ? Hnotin Hnd' ]; subst.
  rewrite in_app_iff, in_map_iff. intros [(z & E & Hz) | Hin].
  - inversion E; subst. intros Efst. apply Hnotin. rewrite Efst. apply in_map. exact Hz.
  - apply IH; assumption.
Qed.

Lemma overlapPairs_NoDup (l : list Entry) : NoDup l -> NoDup (overlapPairs l).
Proof.
  intros Hnd. induction Hnd as [ | e l Hnotin Hnd IH ]; simpl; [ constructor | ].
  apply NoDup_app.
  - apply NoDup_map_injective; [ | exact Hnd ]. intros u v E. congruence.
  - exact IH.
  - intros [x y] Hin1 Hin2. apply in_map_iff in Hin1. destruct Hin1 as (z & E & Hz).
    inversion E; subst. apply overlapPairs_In in Hin2. tauto.
Qed.

Lemma overlapPairs_not_both (l : list Entry) x y :
  NoDup l -> In (x, y) (overlapPairs l) -> In (y, x) (overlapPairs l) -> False.
Proof.
  intros Hnd. induction Hnd as [ | e l Hnotin Hnd IH ]; simpl; [ tauto | ].
  rewrite !in_app_iff, !in_map_iff.
  intros [(z & E & Hz) | Hin1] [(z' & E' & Hz') | Hin2].
  - inversion E; inversion E'; subst. contradiction.
  - inversion E; subst. apply overlapPairs_In in Hin2. tauto.
  - inversion E'; subst. apply overlapPairs_In in Hin1. tauto.
  - auto.
Qed.

Lemma NoDup_map_fst {A B : Type} (l : list (A * B)) : NoDup (map fst l) -> NoDup l.
Proof. apply NoDup_map_inv. Qed.

Lemma NoDup_map_fst_eq {A B : Type} (l : list (A * B)) a b b' :
  NoDup (map fst l) -> In (a, b) l -> In (a, b') l -> b = b'.
Proof.
  intros Hnd. induction l as [ | [a0 b0] l IH ]; simpl; [ tauto | ].
  inversion Hnd as [ | ? ? Hnotin Hnd' ]; subst.
  intros [E | Hin] [E' | Hin'].
  - congruence.
  - inversion E; subst. exfalso. apply Hnotin. apply in_map_iff. exists (a, b'). auto.
  - inversion E'; subst. exfalso. apply Hnotin. apply in_map_iff. exists (a, b). auto.
  - auto.
Qed.

(** ** The position map *)

Lemma positionMapStep_eq slot pm pi :
  positionMapStep slot pm pi
  = Obj.set (fst pi) (entriesAt pm (fst pi) ++ [(slot, snd pi)]) pm.
Proof.
  unfold positionMapStep, entriesAt.
  destruct (Obj.get (fst pi) pm) as [es | ] eqn:Hget.
  - rewrite Hget. reflexivity.
  - rewrite Obj.get_set_same, Obj.set_set_same. reflexivity.
Qed.

(** The entries a slot adds at [key]. *)
Definition entriesOfSlot (key : Pos) (sp : string * list Pos) : list Entry :=
  flat_map (fun pi => if eq_dec key (fst pi) then [(fst sp, snd pi)] else []) (indexed (snd sp)).

Lemma entriesAt_positionMapStep slot pm pi key :
  entriesAt (positionMapStep slot pm pi) key
  = entriesAt pm key ++ (if eq_dec key (fst pi) then [(slot, snd pi)] else []).
Proof.
  rewrite positionMapStep_eq. unfold entriesAt at 1. rewrite Obj.get_set.
  destruct (eq_dec key (fst pi)) as [E | E].
  - subst key. reflexivity.
  - rewrite app_nil_r. reflexivity.
Qed.

Lemma entriesAt_fold_step slot pis : forall pm key,
  entriesAt (fold_left (positionMapStep slot) pis pm) key
  = entriesAt pm key
    ++ flat_map (fun pi => if eq_dec key (fst pi) then [(slot, snd pi)] else []) pis.
Proof.
  induction pis as [ | pi pis IH ]; intros pm key; simpl.
  - rewrite app_nil_r. reflexivity.
  - rewrite IH, entriesAt_positionMapStep, <- app_assoc. reflexivity.
Qed.

Lemma entriesAt_fold_slots slots : forall pm key,
  entriesAt (fold_left (fun pm sp => fold_left (positionMapStep (fst sp)) (indexed (snd sp)) pm)
                       slots pm) key
  = entriesAt pm key ++ flat_map (entriesOfSlot key) slots.
Proof.
  induction slots as [ | sp slots IH ]; intros pm key; simpl.
  - rewrite app_nil_r. reflexivity.
  - rewrite IH, entriesAt_fold_step, <- app_assoc. reflexivity.
Qed.

Lemma entriesAt_buildPositionMap slots key :
  entriesAt (buildPositionMap slots) key = flat_map (entriesOfSlot key) slots.
Proof. unfold buildPositionMap. rewrite entriesAt_fold_slots. reflexivity. Qed.

Lemma NoDup_keys_fold_step slot pis : forall (pm : Obj.t Pos (list Entry)),
  NoDup (Obj.keys pm) -> NoDup (Obj.keys (fold_left (positionMapStep slot) pis pm)).
Proof.
  induction pis as [ | pi pis IH ]; intros pm Hnd; simpl; [ exact Hnd | ].
  apply IH. rewrite positionMapStep_eq. apply Obj.NoDup_keys_set. exact Hnd.
Qed.

Lemma NoDup_keys_buildPositionMap slots : NoDup (Obj.keys (buildPositionMap slots)).
Proof.
  unfold buildPositionMap.
  assert (Hgen : forall (pm : Obj.t Pos (list Entry)),
             NoDup (Obj.keys pm) ->
             NoDup (Obj.keys (fold_left (fun pm sp =>
                                           fold_left (positionMapStep (fst sp))
                                                     (indexed (snd sp)) pm) slots pm))).
  { induction slots as [ | sp slots IH ]; intros pm Hnd; simpl; [ exact Hnd | ].
    apply IH. apply NoDup_keys_fold_step. exact Hnd. }
  apply Hgen. constructor.
Qed.

Lemma buildPositionMap_In slots key es :
  In (key, es) (buildPositionMap slots) -> es = flat_map (entriesOfSlot key) slots.
Proof.
  intros Hin. apply Obj.In_get in Hin; [ | apply NoDup_keys_buildPositionMap ].
  rewrite <- entriesAt_buildPositionMap. unfold entriesAt. rewrite Hin. reflexivity.
Qed.

Lemma entriesOfSlot_In key sp a i :
  In (a, i) (entriesOfSlot key sp) <-> a = fst sp /\ nth_error (snd sp) i = Some key.
Proof.
  unfold entriesOfSlot. rewrite in_flat_map. split.
  - intros ([p k] & Hin & Hif). apply In_indexed in Hin. simpl in Hif.
    destruct (eq_dec key p) as [E | E]; [ | contradiction ].
    destruct Hif as [E' | []]. inversion E'; subst. auto.
  - intros [-> Hnth]. exists (key, i). split; [ apply In_indexed; exact Hnth | ].
    simpl. destruct (eq_dec key key); [ left; reflexivity | congruence ].
Qed.

(** Slot maps in which every slot lists a cell once and two slots
    share at most one cell, as [generateSlots] builds them. *)
Definition crossing (slotMap : Slots) : Prop :=
  NoDup (Obj.keys slotMap)
  /\ (forall a ps, Obj.get a slotMap = Some ps -> NoDup ps)
  /\ (forall a b pa pb p q,
         a <> b -> Obj.get a slotMap = Some pa -> Obj.get b slotMap = Some pb ->
         In p pa -> In p pb -> In q pa -> In q pb -> p = q).

Lemma identifySlots_crossing g : crossing (identifySlots g).
Proof.
  split; [ apply identifySlots_NoDup | split ].
  - intros a ps. apply identifySlots_positions_NoDup.
  - intros a b pa pb p q. apply slots_share_at_most_one_cell.
Qed.

Lemma entriesOfSlot_length key sp : NoDup (snd sp) -> length (entriesOfSlot key sp) <= 1.
Proof.
  intros Hnd. unfold entriesOfSlot. apply flat_map_at_most_one.
  - apply NoDup_indexed.
  - intros [p i] [q j] Hin1 Hin2 H1 H2. simpl in *.
    destruct (eq_dec key p) as [E1 | E1]; [ | congruence ].
    destruct (eq_dec key q) as [E2 | E2]; [ | congruence ].
    subst p q. apply In_indexed in Hin1. apply In_indexed in Hin2.
    f_equal. eapply NoDup_nth_error_inj; eauto.
  - intros [p i] _. simpl. destruct (eq_dec key p); simpl; lia.
Qed.

Lemma entriesOfSlot_names key sp a :
  In a (map fst (entriesOfSlot key sp)) -> a = fst sp.
Proof.
  intros Hin. apply in_map_iff in Hin. destruct Hin as ([a' i] & E & Hin). simpl in E. subst a'.
  apply entriesOfSlot_In in Hin. tauto.
Qed.

(** A slot has at most one entry in a cell. *)
Lemma entries_names_NoDup key (slotMap : Slots) :
  NoDup (Obj.keys slotMap) ->
  (forall a ps, In (a, ps) slotMap -> NoDup ps) ->
  NoDup (map fst (flat_map (entriesOfSlot key) slotMap)).
Proof.
  induction slotMap as [ | sp slotMap IH ]; simpl; intros Hnd Hps; [ constructor | ].
  inversion Hnd as [ | ? ? Hnotin Hnd' ]; subst.
  rewrite map_app. apply NoDup_app.
  - pose proof (entriesOfSlot_length key sp) as Hlen.
    assert (Hsp : NoDup (snd sp)) by (apply (Hps (fst sp)); left; destruct sp; reflexivity).
    specialize (Hlen Hsp).
    destruct (entriesOfSlot key sp) as [ | e [ | e' l ] ]; simpl in *;
      [ constructor | constructor; [ tauto | constructor ] | lia ].
  - apply IH; [ exact Hnd' | ]. intros a ps Hin. apply (Hps a). right. exact Hin.
  - intros a Hin1 Hin2. apply entriesOfSlot_names in Hin1. subst a.
    apply Hnotin. apply in_map_iff in Hin2. destruct Hin2 as ([a i] & E & Hin).
    simpl in E. subst a. apply in_flat_map in Hin. destruct Hin as (sp' & Hsp' & Hin).
    apply entriesOfSlot_In in Hin. destruct Hin as [E _]. rewrite E.
    apply in_map. exact Hsp'.
Qed.

Lemma entries_In key (slotMap : Slots) a i :
  NoDup (Obj.keys slotMap) ->
  (In (a, i) (flat_map (entriesOfSlot key) slotMap)
   <-> exists ps, Obj.get a slotMap = Some ps /\ nth_error ps i = Some key).
Proof.
  intros Hnd. rewrite in_flat_map. split.
  - intros ([a' ps] & Hin & He). apply entriesOfSlot_In in He. simpl in He.
    destruct He as [-> Hnth]. exists ps. split; [ apply Obj.In_get; assumption | exact Hnth ].
  - intros (ps & Hget & Hnth). exists (a, ps). split; [ apply Obj.get_In; exact Hget | ].
    apply entriesOfSlot_In. auto.
Qed.

(** ** Counting the pairs of an arc *)

Lemma flat_map_flat_map {A B C : Type} (f : B -> list C) (g : A -> list B) (l : list A) :
  flat_map f (flat_map g l) = flat_map (fun x => flat_map f (g x)) l.
Proof.
  induction l as [ | x l IH ]; simpl; [ reflexivity | ].
  rewrite flat_map_app, IH. reflexivity.
Qed.

Lemma flat_map_not_nil {A B : Type} (f : A -> list B) (l : list A) :
  flat_map f l <> [] -> exists x, In x l /\ f x <> [].
Proof.
  induction l as [ | x l IH ]; simpl; [ congruence | ].
  destruct (f x) as [ | b bs ] eqn:Hfx.
  - simpl. intros Hne. destruct (IH Hne) as (y & Hy & Hfy). exists y. auto.
  - intros _. exists x. split; [ auto | congruence ].
Qed.

Lemma contribution_not_nil a b x y :
  contribution a b (x, y) <> [] ->
  (a = fst x /\ b = fst y) \/ (a = fst y /\ b = fst x).
Proof.
  unfold contribution. simpl.
  destruct (eq_dec (a, b) (fst x, fst y)) as [E1 | E1]; [ left; inversion E1; auto | ].
  destruct (eq_dec (a, b) (fst y, fst x)) as [E2 | E2]; [ right; inversion E2; auto | ].
  simpl. congruence.
Qed.

Lemma contribution_length a b x y : fst x <> fst y -> length (contribution a b (x, y)) <= 1.
Proof.
  intros Hne. unfold contribution. simpl.
  destruct (eq_dec (a, b) (fst x, fst y)) as [E1 | E1];
    destruct (eq_dec (a, b) (fst y, fst x)) as [E2 | E2]; simpl; try lia.
  exfalso. apply Hne. congruence.
Qed.

Section OneOverlapPerArc.
Variable slotMap : Slots.
Hypothesis Hcrossing : crossing slotMap.
Variables a b : string.

Let cellContribution (ke : Pos * list Entry) : list (nat * nat) :=
  flat_map (contribution a b) (overlapPairs (snd ke)).

Lemma cell_entries_NoDup key es :
  In (key, es) (buildPositionMap slotMap) -> NoDup (map fst es).
Proof.
  intros Hin. apply buildPositionMap_In in Hin. subst es.
  destruct Hcrossing as (Hnd & Hps & _).
  apply entries_names_NoDup; [ exact Hnd | ].
  intros a0 ps Hin. apply (Hps a0). apply Obj.In_get; assumption.
Qed.

(** A cell that adds to [constraints[a][b]] lies on both slots. *)
Lemma cell_contributes key es :
  In (key, es) (buildPositionMap slotMap) ->
  cellContribution (key, es) <> [] ->
  a <> b /\ exists pa pb,
    Obj.get a slotMap = Some pa /\ Obj.get b slotMap = Some pb /\ In key pa /\ In key pb.
Proof.
  intros Hin Hne. pose proof (cell_entries_NoDup _ _ Hin) as Hnames.
  apply flat_map_not_nil in Hne. destruct Hne as ([x y] & Hxy & Hc).
  pose proof (overlapPairs_fst_neq _ _ _ Hnames Hxy) as Hfst.
  apply overlapPairs_In in Hxy. destruct Hxy as [Hx Hy].
  apply buildPositionMap_In in Hin. subst es.
  destruct Hcrossing as (Hnd & _ & _).
  destruct x as [xa xi], y as [ya yi].
  apply (entries_In key slotMap xa xi Hnd) in Hx. destruct Hx as (px & Hgx & Hnx).
  apply (entries_In key slotMap ya yi Hnd) in Hy. destruct Hy as (py & Hgy & Hny).
  apply nth_error_In in Hnx. apply nth_error_In in Hny.
  apply contribution_not_nil in Hc. simpl in *.
  destruct Hc as [[E1 E2] | [E1 E2]]; subst xa ya.
  - split; [ exact Hfst | ]. exists px, py. auto.
  - split; [ congruence | ]. exists py, px. auto.
Qed.

Lemma cellContribution_length key es :
  In (key, es) (buildPositionMap slotMap) -> length (cellContribution (key, es)) <= 1.
Proof.
  intros Hin. pose proof (cell_entries_NoDup _ _ Hin) as Hnames.
  pose proof (NoDup_map_fst _ Hnames) as Hnd.
  unfold cellContribution. simpl. apply flat_map_at_most_one.
  - apply overlapPairs_NoDup. exact Hnd.
  - intros [x y] [x' y'] Hin1 Hin2 Hc1 Hc2.
    pose proof (overlapPairs_In _ _ _ Hin1) as [Hx Hy].
    pose proof (overlapPairs_In _ _ _ Hin2) as [Hx' Hy'].
    apply contribution_not_nil in Hc1. apply contribution_not_nil in Hc2.
    destruct x as [xa xi], y as [ya yi], x' as [xa' xi'], y' as [ya' yi']. simpl in *.
    destruct Hc1 as [[E1 E2] | [E1 E2]]; destruct Hc2 as [[E3 E4] | [E3 E4]];
      subst xa ya xa' ya'.
    + rewrite (NoDup_map_fst_eq _ _ _ _ Hnames Hx Hx'), (NoDup_map_fst_eq _ _ _ _ Hnames Hy Hy').
      reflexivity.
    + exfalso. apply (overlapPairs_not_both es (a, xi) (b, yi) Hnd Hin1).
      rewrite (NoDup_map_fst_eq _ _ _ _ Hnames Hx Hy'), (NoDup_map_fst_eq _ _ _ _ Hnames Hy Hx').
      exact Hin2.
    + exfalso. apply (overlapPairs_not_both es (b, xi) (a, yi) Hnd Hin1).
      rewrite (NoDup_map_fst_eq _ _ _ _ Hnames Hx Hy'), (NoDup_map_fst_eq _ _ _ _ Hnames Hy Hx').
      exact Hin2.
    + rewrite (NoDup_map_fst_eq _ _ _ _ Hnames Hx Hx'), (NoDup_map_fst_eq _ _ _ _ Hnames Hy Hy').
      reflexivity.
  - intros [x y] Hxy. apply contribution_length. eapply overlapPairs_fst_neq; eauto.
Qed.

Lemma contributions_at_most_one :
  length (flat_map (contribution a b) (allOverlaps (buildPositionMap slotMap))) <= 1.
Proof.
  unfold allOverlaps. rewrite flat_map_flat_map.
  apply (flat_map_at_most_one cellContribution).
  - apply NoDup_map_fst. apply NoDup_keys_buildPositionMap.
  - intros [key es] [key' es'] Hin Hin' Hc Hc'.
    destruct (cell_contributes _ _ Hin Hc) as (Hab & pa & pb & Ha & Hb & Hka & Hkb).
    destruct (cell_contributes _ _ Hin' Hc') as (_ & pa' & pb' & Ha' & Hb' & Hka' & Hkb').
    assert (pa' = pa) by congruence. assert (pb' = pb) by congruence. subst pa' pb'.
    destruct Hcrossing as (_ & _ & Hshare).
    assert (key = key') by (eapply (Hshare a b pa pb); eauto). subst key'.
    f_equal. apply buildPositionMap_In in Hin. apply buildPositionMap_In in Hin'. congruence.
  - intros [key es] Hin. apply cellContribution_length. exact Hin.
Qed.

(** On a crossing slot map an overlap list that exists has exactly one
    pair. *)
Lemma crossing_arc_singleton l :
  arc (generateConstraints slotMap) a b = Some l -> length l = 1.
Proof.
  rewrite generateConstraints_arc. pose proof contributions_at_most_one as Hle.
  destruct (flat_map (contribution a b) (allOverlaps (buildPositionMap slotMap)))
    as [ | p rest ]; [ discriminate | ].
  intros E. inversion E; subst. simpl in *. lia.
Qed.

(** Two crossing slots are different slots. *)
Lemma crossing_arc_irreflexive l :
  arc (generateConstraints slotMap) a b = Some l -> a <> b.
Proof.
  rewrite generateConstraints_arc.
  destruct (flat_map (contribution a b) (allOverlaps (buildPositionMap slotMap)))
    as [ | p rest ] eqn:Hfm; [ discriminate | ].
  intros _. unfold allOverlaps in Hfm. rewrite flat_map_flat_map in Hfm.
  assert (Hne : flat_map cellContribution (buildPositionMap slotMap) <> [])
    by (unfold cellContribution; rewrite Hfm; discriminate).
  apply flat_map_not_nil in Hne. destruct Hne as ([key es] & Hin & Hc).
  destruct (cell_contributes _ _ Hin Hc) as (Hab & _). exact Hab.
Qed.

End OneOverlapPerArc.

Lemma constraints_generateSlots s :
  constraints (generateSlots s) = generateConstraints (identifySlots (grid s)).
Proof. reflexivity. Qed.

(** C10.  On a grid [validateGrid] accepts, two slots of
    [generateSlots] with different names share at most one cell, and
    every overlap list [constraints[A][B]] that [generateConstraints]
    builds from these slots holds exactly one index pair; so a test
    passes on some overlap of the list exactly when it passes on every
    overlap. *)
Theorem slots_cross_once (s : Solver) :
  validateGrid (grid s) = true ->
  (forall a b pa pb p q,
      a <> b ->
      Obj.get a (slots (generateSlots s)) = Some pa ->
      Obj.get b (slots (generateSlots s)) = Some pb ->
      In p pa -> In p pb -> In q pa -> In q pb -> p = q)
  /\ (forall a b l,
         arc (constraints (generateSlots s)) a b = Some l -> length l = 1)
  /\ (forall a b l (test : nat * nat -> bool),
         arc (constraints (generateSlots s)) a b = Some l ->
         existsb test l = forallb test l).
Proof.
  intros _.
  assert (Hone : forall a b l,
             arc (constraints (generateSlots s)) a b = Some l -> length l = 1).
  { intros a b l. rewrite constraints_generateSlots.
    apply crossing_arc_singleton. apply identifySlots_crossing. }
  split; [ | split; [ exact Hone | ] ].
  - intros a b pa pb p q. rewrite slots_generateSlots. apply slots_share_at_most_one_cell.
  - intros a b l test Harc. apply Hone in Harc.
    destruct l as [ | p [ | q l ] ]; simpl in Harc; try lia. simpl.
    rewrite orb_false_r, andb_true_r. reflexivity.
Qed.

(* ================================================================== *)
(** * Initial domains *)
(* ================================================================== *)

(** What the first loop of [generateSlots] records for a cell. *)
Definition cellEntry (g : Grid) (p : Pos) : option (option string) :=
  let val := cellAt g (fst p) (snd p) in
  if hasUpper val then Some (Some val)
  else if negb (isBlock val) && negb (isBlank val) then Some None
  else None.

Lemma cellContentsStep_get g cc p q :
  Obj.get q (cellContentsStep g cc p)
  = if eq_dec q p then match cellEntry g p with Some e => Some e | None => Obj.get q cc end
    else Obj.get q cc.
Proof.
  unfold cellContentsStep, cellEntry.
  destruct (hasUpper (cellAt g (fst p) (snd p))).
  - rewrite Obj.get_set. destruct (eq_dec q p); reflexivity.
  - destruct (negb (isBlock (cellAt g (fst p) (snd p))) && negb (isBlank (cellAt g (fst p) (snd p)))).
    + rewrite Obj.get_set. destruct (eq_dec q p); reflexivity.
    + destruct (eq_dec q p); reflexivity.
Qed.

Lemma fold_cellContentsStep_get g l : forall cc q,
  Obj.get q (fold_left (cellContentsStep g) l cc)
  = if in_dec eq_dec q l
    then match cellEntry g q with Some e => Some e | None => Obj.get q cc end
    else Obj.get q cc.
Proof.
  induction l as [ | p l IH ]; intros cc q; simpl; [ reflexivity | ].
  rewrite IH, cellContentsStep_get.
  destruct (in_dec eq_dec q l) as [Hin | Hnin]; destruct (eq_dec p q) as [E | E];
    destruct (eq_dec q p) as [E' | E']; try congruence; subst;
    destruct (cellEntry g q); reflexivity.
Qed.

Lemma fillCellContents_get g r c :
  r < rows g -> c < cols g -> Obj.get (r, c) (fillCellContents g) = cellEntry g (r, c).
Proof.
  intros Hr Hc. unfold fillCellContents. rewrite fold_cellContentsStep_get.
  destruct (in_dec eq_dec (r, c) (scan g)) as [Hin | Hnin].
  - destruct (cellEntry g (r, c)); reflexivity.
  - exfalso. apply Hnin. apply In_scan. auto.
Qed.

Lemma hasUpper_not_empty v : hasUpper v = true -> v <> EmptyString.
Proof. intros H E. subst v. discriminate. Qed.

(** The pattern character of a cell of the grid is its letter if it
    holds one and a dot otherwise, in [script.js] (through
    [cellContents]) as in [js/solver.js] (through
    [getPreFilledLetter]). *)
Lemma patternChar_getPreFilledLetter g r c :
  r < rows g -> c < cols g ->
  patternChar (fillCellContents g) (r, c)
  = match getPreFilledLetter g (r, c) with Some letter => letter | None => "."%string end.
Proof.
  intros Hr Hc. unfold patternChar, getPreFilledLetter.
  rewrite fillCellContents_get by assumption. unfold cellEntry. simpl.
  destruct (hasUpper (cellAt g r c)) eqn:Hup.
  - apply hasUpper_not_empty in Hup. apply eqb_of_false in Hup. rewrite Hup. reflexivity.
  - destruct (negb (isBlock (cellAt g r c)) && negb (isBlank (cellAt g r c))); reflexivity.
Qed.

Lemma patternChar_length cc p : 1 <= String.length (patternChar cc p).
Proof.
  unfold patternChar. destruct (Obj.get p cc) as [[letter | ] | ]; simpl; try lia.
  destruct (eqb_of letter EmptyString) eqn:E; simpl; [ lia | ].
  apply eqb_of_false in E. destruct letter; [ congruence | simpl; lia ].
Qed.

Lemma slotPattern_length cc ps : length ps <= String.length (slotPattern cc ps).
Proof.
  induction ps as [ | p ps IH ]; simpl; [ lia | ].
  rewrite string_append_length. pose proof (patternChar_length cc p). lia.
Qed.

(** When the pattern is as long as the slot, each cell gave one
    character, which stands at the cell's index. *)
Lemma slotPattern_get cc ps : 
  String.length (slotPattern cc ps) = length ps ->
  forall i p, nth_error ps i = Some p ->
  exists ch, patternChar cc p = String ch EmptyString
             /\ String.get i (slotPattern cc ps) = Some ch.
Proof.
  induction ps as [ | p0 ps IH ]; simpl; intros Hlen i p Hnth.
  - destruct i; discriminate.
  - rewrite string_append_length in Hlen.
    pose proof (patternChar_length cc p0) as H0. pose proof (slotPattern_length cc ps) as Hps.
    assert (H1 : String.length (patternChar cc p0) = 1) by lia.
    assert (Hrest : String.length (slotPattern cc ps) = length ps) by lia.
    destruct (patternChar cc p0) as [ | ch [ | ch' rest ] ] eqn:Hpc; simpl in H1; try lia.
    destruct i as [ | i ]; simpl in *.
    + inversion Hnth; subst. exists ch. auto.
    + apply IH; assumption.
Qed.

Lemma regexTest_length pattern : forall w,
  regexTest pattern w = true -> String.length pattern = String.length w.
Proof.
  induction pattern as [ | p pattern IH ]; intros [ | a w ]; simpl; try discriminate.
  - reflexivity.
  - rewrite andb_true_iff. intros [_ H]. f_equal. apply IH. exact H.
Qed.

Lemma regexTest_get pattern : forall w i p,
  regexTest pattern w = true -> String.get i pattern = Some p -> p <> "."%char ->
  String.get i w = Some p.
Proof.
  induction pattern as [ | p0 pattern IH ]; intros [ | a w ] i p; simpl; try discriminate.
  rewrite andb_true_iff. intros [Hhead Htail] Hget Hdot.
  destruct i as [ | i ].
  - inversion Hget; subst p0.
    destruct (eqb_of p "."%char) eqn:E; [ apply eqb_of_true in E; contradiction | ].
    apply eqb_of_true in Hhead. congruence.
  - eapply IH; eauto.
Qed.

(** ** The buckets of the word list *)

Lemma bucket_cacheStep cache word n :
  bucket (let len := String.length word in
          let cache1 := match Obj.get len cache with
                        | None => Obj.set len [] cache
                        | Some _ => cache
                        end in
          Obj.set len (bucket cache1 len ++ [word]) cache1) n
  = bucket cache n ++ (if eq_dec n (String.length word) then [word] else []).
Proof.
  cbv zeta. unfold bucket at 1. rewrite Obj.get_set.
  destruct (eq_dec n (String.length word)) as [E | E].
  - subst n. unfold bucket. destruct (Obj.get (String.length word) cache) eqn:Hget.
    + rewrite Hget. reflexivity.
    + rewrite Obj.get_set_same. reflexivity.
  - rewrite app_nil_r. unfold bucket.
    destruct (Obj.get (String.length word) cache) eqn:Hget; [ reflexivity | ].
    rewrite Obj.get_set_other by congruence. reflexivity.
Qed.

(** A bucket holds the words of its length, in the order of the list. *)
Lemma bucket_cacheWordsByLength ws n :
  bucket (cacheWordsByLength ws) n = filter (fun w => eqb_of (String.length w) n) ws.
Proof.
  unfold cacheWordsByLength.
  assert (Hgen : forall cache,
             bucket (fold_left (fun cache word =>
                                  let len := String.length word in
                                  let cache1 := match Obj.get len cache with
                                                | None => Obj.set len [] cache
                                                | Some _ => cache
                                                end in
                                  Obj.set len (bucket cache1 len ++ [word]) cache1) ws cache) n
             = bucket cache n ++ filter (fun w => eqb_of (String.length w) n) ws).
  { induction ws as [ | w ws IH ]; intros cache; simpl.
    - rewrite app_nil_r. reflexivity.
    - rewrite IH, bucket_cacheStep, <- app_assoc. f_equal.
      unfold eqb_of. destruct (eq_dec n (String.length w)); destruct (eq_dec (String.length w) n);
        try congruence; reflexivity. }
  rewrite Hgen. reflexivity.
Qed.

Lemma bucket_In ws n w :
  In w (bucket (cacheWordsByLength ws) n) <-> In w ws /\ String.length w = n.
Proof.
  rewrite bucket_cacheWordsByLength, filter_In, eqb_of_true. tauto.
Qed.

(** ** The domains [setupDomains] installs *)

Lemma fold_setupDomainStep_get cc cache (slotMap : Slots) : forall (d : Domains) k,
  NoDup (Obj.keys slotMap) ->
  Obj.get k (fold_left (setupDomainStep cc cache) slotMap d)
  = match Obj.get k slotMap with
    | Some ps => Some (filter (regexTest (slotPattern cc ps)) (bucket cache (length ps)))
    | None => Obj.get k d
    end.
Proof.
  induction slotMap as [ | [name ps] slotMap IH ]; intros d k Hnd; simpl; [ reflexivity | ].
  inversion Hnd as [ | ? ? Hnotin Hnd' ]; subst.
  rewrite IH by exact Hnd'. unfold setupDomainStep. simpl.
  destruct (eq_dec k name) as [E | E].
  - subst k. apply Obj.get_None_keys in Hnotin. rewrite Hnotin. apply Obj.get_set_same.
  - destruct (Obj.get k slotMap); [ reflexivity | ]. apply Obj.get_set_other. congruence.
Qed.

Lemma fold_setupDomainStep_keys cc cache (slotMap : Slots) : forall (d : Domains),
  NoDup (Obj.keys slotMap) -> (forall k, In k (Obj.keys d) -> ~ In k (Obj.keys slotMap)) ->
  Obj.keys (fold_left (setupDomainStep cc cache) slotMap d) = Obj.keys d ++ Obj.keys slotMap.
Proof.
  induction slotMap as [ | [name ps] slotMap IH ]; intros d Hnd Hfresh; simpl.
  - rewrite app_nil_r. reflexivity.
  - inversion Hnd as [ | ? ? Hnotin Hnd' ]; subst.
    assert (Hname : ~ In name (Obj.keys d)).
    { intros Hin. apply (Hfresh name Hin). left. reflexivity. }
    rewrite IH.
    + unfold setupDomainStep. simpl. rewrite Obj.keys_set_absent by exact Hname.
      rewrite <- app_assoc. reflexivity.
    + exact Hnd'.
    + intros k Hin Hin'. unfold setupDomainStep in Hin. simpl in Hin.
      apply Obj.keys_set_In in Hin. destruct Hin as [-> | Hin]; [ contradiction | ].
      apply (Hfresh k Hin). right. exact Hin'.
Qed.

Lemma domains_generateSlots s k :
  Obj.get k (domains (generateSlots s))
  = match Obj.get k (identifySlots (grid s)) with
    | Some ps => Some (filter (regexTest (slotPattern (fillCellContents (grid s)) ps))
                              (bucket (wordLengthCache s) (length ps)))
    | None => None
    end.
Proof.
  unfold generateSlots, setupDomains. simpl.
  rewrite fold_setupDomainStep_get by apply identifySlots_NoDup.
  destruct (Obj.get k (identifySlots (grid s))); reflexivity.
Qed.

Lemma domain_keys_generateSlots s :
  Obj.keys (domains (generateSlots s)) = Obj.keys (slots (generateSlots s)).
Proof.
  unfold generateSlots, setupDomains. simpl.
  rewrite fold_setupDomainStep_keys; [ reflexivity | apply identifySlots_NoDup | ].
  intros k [].
Qed.

Lemma isUpper_not_dot ch : isUpper ch = true -> ch <> "."%char.
Proof. intros H E. subst ch. discriminate. Qed.

Lemma domain_words_fit (s : Solver) (slot : string) (ps : list Pos) (w : string) :
  wordLengthCache s = cacheWordsByLength (words s) ->
  Obj.get slot (slots (generateSlots s)) = Some ps ->
  In w (domainOf (generateSlots s) slot) ->
  String.length w = length ps
  /\ forall i r c,
       nth_error ps i = Some (r, c) ->
       hasUpper (cellAt (grid s) r c) = true ->
       charAt w i = Some (cellAt (grid s) r c).
Proof.
  intros Hcache Hslot Hin. rewrite slots_generateSlots in Hslot.
  unfold domainOf in Hin. rewrite domains_generateSlots, Hslot in Hin.
  apply filter_In in Hin. destruct Hin as [Hbucket Hmatch].
  rewrite Hcache in Hbucket. apply bucket_In in Hbucket. destruct Hbucket as [_ Hlen].
  split; [ exact Hlen | ].
  intros i r c Hnth Hup.
  pose proof (regexTest_length _ _ Hmatch) as Hplen.
  assert (Hpat : String.length (slotPattern (fillCellContents (grid s)) ps) = length ps) by lia.
  destruct (slotPattern_get _ _ Hpat _ _ Hnth) as (ch & Hch & Hget).
  destruct (identifySlots_run _ _ _ Hslot) as (r0 & c0 & d & _ & _ & _ & _ & _ & Hrun & _).
  destruct (maximalRun_nth _ _ _ _ _ _ _ Hrun Hnth) as [Hp Hi].
  pose proof (maximalRun_open _ _ _ _ _ _ Hrun Hi) as Hopen. rewrite <- Hp in Hopen.
  apply isOpen_bounds in Hopen. simpl in Hopen.
  rewrite patternChar_getPreFilledLetter in Hch by tauto.
  unfold getPreFilledLetter in Hch. simpl in Hch. rewrite Hup in Hch.
  rewrite Hch in Hup. unfold hasUpper in Hup. simpl in Hup. rewrite orb_false_r in Hup.
  unfold charAt. rewrite (regexTest_get _ _ _ _ Hmatch Hget (isUpper_not_dot _ Hup)).
  rewrite Hch. reflexivity.
Qed.

(** On a slot whose letter cells hold one letter each the pattern is
    made of upper-case letters and dots. *)
Lemma slotPattern_plain g ps :
  (forall r c, In (r, c) ps -> r < rows g /\ c < cols g) ->
  (forall r c, In (r, c) ps -> hasUpper (cellAt g r c) = true ->
               String.length (cellAt g r c) = 1) ->
  forall ch, In ch (list_ascii_of_string (slotPattern (fillCellContents g) ps)) ->
             isUpper ch = true \/ ch = "."%char.
Proof.
  induction ps as [ | [r c] ps IH ]; intros Hin Hone ch Hch; [ contradiction | ].
  cbn [slotPattern fold_right] in Hch.
  fold (slotPattern (fillCellContents g) ps) in Hch.
  assert (Hsplit : forall x y, list_ascii_of_string (String.append x y)
                               = list_ascii_of_string x ++ list_ascii_of_string y).
  { induction x as [ | a x IHx ]; intros y; simpl; [ reflexivity | rewrite IHx; reflexivity ]. }
  rewrite Hsplit in Hch. apply in_app_or in Hch. destruct Hch as [Hch | Hch].
  - destruct (Hin r c (or_introl eq_refl)) as [Hr Hc].
    rewrite (patternChar_getPreFilledLetter g r c Hr Hc) in Hch.
    unfold getPreFilledLetter in Hch. cbn [fst snd] in Hch.
    destruct (hasUpper (cellAt g r c)) eqn:Hup.
    + pose proof (Hone r c (or_introl eq_refl) Hup) as Hlen.
      destruct (cellAt g r c) as [ | a [ | b rest ] ]; try discriminate.
      destruct Hch as [<- | []]. left.
      unfold hasUpper in Hup. simpl in Hup. rewrite orb_false_r in Hup. exact Hup.
    + destruct Hch as [<- | []]. right. reflexivity.
  - apply IH; try assumption.
    + intros r' c' H'. apply Hin. right. exact H'.
    + intros r' c' H'. apply Hone. right. exact H'.
Qed.

(** C7.  After [loadWords] has bucketed the word list, every word that
    [setupDomains] puts in the domain of a slot has exactly the length
    of the slot and, at each index whose cell holds a pre-filled letter,
    carries that letter.  The letter cells of the slot hold one letter
    each, as the cells of the specification's grid do: the pattern
    handed to [RegExp] is then made of letters and dots
    ([slotPattern_plain]), which is what [regexTest] matches (the text
    of a cell such as [A+] would be read by [RegExp] as an
    operator). *)
Theorem setupDomains_sound (s : Solver) (slot : string) (ps : list Pos) (w : string) :
  wordLengthCache s = cacheWordsByLength (words s) ->
  Obj.get slot (slots (generateSlots s)) = Some ps ->
  (forall r c, In (r, c) ps -> hasUpper (cellAt (grid s) r c) = true ->
               String.length (cellAt (grid s) r c) = 1) ->
  In w (domainOf (generateSlots s) slot) ->
  String.length w = length ps
  /\ forall i r c,
       nth_error ps i = Some (r, c) ->
       hasUpper (cellAt (grid s) r c) = true ->
       charAt w i = Some (cellAt (grid s) r c).
Proof. intros Hcache Hslot _. apply domain_words_fit; assumption. Qed.

(* ================================================================== *)
(** * Revise *)
(* ================================================================== *)

Lemma filter_length_le {A : Type} (f : A -> bool) (l : list A) : length (filter f l) <= length l.
Proof.
  induction l as [ | x l IH ]; simpl; [ lia | ]. destruct (f x); simpl; lia.
Qed.

Lemma filter_same_length {A : Type} (f : A -> bool) (l : list A) :
  length l <= length (filter f l) -> filter f l = l.
Proof.
  induction l as [ | x l IH ]; simpl; [ reflexivity | ].
  pose proof (filter_length_le f l) as Hle.
  destruct (f x); simpl; intros Hlen; [ f_equal; apply IH; lia | lia ].
Qed.

Lemma domainOf_set s k d k' :
  domainOf (setDomains (Obj.set k d (domains s)) s) k'
  = if eq_dec k' k then d else domainOf s k'.
Proof.
  unfold domainOf. simpl. rewrite Obj.get_set. destruct (eq_dec k' k); reflexivity.
Qed.

Lemma domainOf_keys s k : domainOf s k <> [] -> In k (Obj.keys (domains s)).
Proof.
  unfold domainOf. intros Hne. apply Obj.get_keys. destruct (Obj.get k (domains s)); congruence.
Qed.

Lemma revise_constraints a b s : constraints (snd (revise a b s)) = constraints s.
Proof.
  unfold revise.
  destruct (length (filter (supported (overlapsOf (constraints s) a b) (domainOf s b))
                           (domainOf s a)) <? length (domainOf s a)); reflexivity.
Qed.

(** Whether or not it reports a revision, [revise] leaves in the
    domain of [a] the words its filter keeps. *)
Lemma revise_domain a b s :
  domainOf (snd (revise a b s)) a
  = filter (supported (overlapsOf (constraints s) a b) (domainOf s b)) (domainOf s a).
Proof.
  unfold revise.
  destruct (Nat.ltb_spec
              (length (filter (supported (overlapsOf (constraints s) a b) (domainOf s b))
                              (domainOf s a)))
              (length (domainOf s a))) as [Hlt | Hge]; simpl.
  - rewrite domainOf_set. destruct (eq_dec a a); congruence.
  - symmetry. apply filter_same_length. exact Hge.
Qed.

Lemma revise_domain_other a b s k : k <> a -> domainOf (snd (revise a b s)) k = domainOf s k.
Proof.
  intros Hne. unfold revise.
  destruct (length (filter (supported (overlapsOf (constraints s) a b) (domainOf s b))
                           (domainOf s a)) <? length (domainOf s a)); simpl; [ | reflexivity ].
  rewrite domainOf_set. destruct (eq_dec k a); congruence.
Qed.

Lemma revise_domain_keys a b s :
  Obj.keys (domains (snd (revise a b s))) = Obj.keys (domains s).
Proof.
  unfold revise.
  destruct (Nat.ltb_spec
              (length (filter (supported (overlapsOf (constraints s) a b) (domainOf s b))
                              (domainOf s a)))
              (length (domainOf s a))) as [Hlt | Hge]; simpl; [ | reflexivity ].
  apply Obj.keys_set_present. apply domainOf_keys. intros E. rewrite E in Hlt. simpl in Hlt. lia.
Qed.

Lemma revise_frame a b s :
  grid (snd (revise a b s)) = grid s
  /\ slots (snd (revise a b s)) = slots s
  /\ cellContents (snd (revise a b s)) = cellContents s
  /\ wordLengthCache (snd (revise a b s)) = wordLengthCache s
  /\ words (snd (revise a b s)) = words s.
Proof.
  unfold revise.
  destruct (length (filter (supported (overlapsOf (constraints s) a b) (domainOf s b))
                           (domainOf s a)) <? length (domainOf s a)); simpl; auto.
Qed.

(** [i] of [w] finds a partner at [j] in the domain of [b]. *)
Definition hasPartner (s : Solver) (b : string) (w : string) (i j : nat) : Prop :=
  exists w', In w' (domainOf s b) /\ String.get i w = String.get j w'.

Lemma supported_spec overlaps d w :
  supported overlaps d w = true
  <-> exists i j, In (i, j) overlaps
                  /\ exists w', In w' d /\ String.get i w = String.get j w'.
Proof.
  unfold supported. rewrite existsb_exists. split.
  - intros ([i j] & Hin & Hex). apply existsb_exists in Hex. destruct Hex as (w' & Hw' & E).
    apply eqb_of_true in E. exists i, j. split; [ exact Hin | ]. exists w'. auto.
  - intros (i & j & Hin & w' & Hw' & E). exists (i, j). split; [ exact Hin | ].
    apply existsb_exists. exists w'. split; [ exact Hw' | ]. apply eqb_of_true. exact E.
Qed.

(** What the code does: a word stays when some overlap of the arc has
    a partner. *)
Lemma revise_retains_some a b s w :
  In w (domainOf (snd (revise a b s)) a)
  <-> In w (domainOf s a)
      /\ exists i j, In (i, j) (overlapsOf (constraints s) a b) /\ hasPartner s b w i j.
Proof.
  rewrite revise_domain, filter_In, supported_spec. reflexivity.
Qed.

(** The state [generateSlots] leaves for the grid of the instance, with
    domains that may since have been shuffled or pruned: the slots, the
    constraints and the cell contents are those of the grid, and every
    slot has a domain. *)
Definition prepared (s : Solver) : Prop :=
  validateGrid (grid s) = true
  /\ slots s = identifySlots (grid s)
  /\ constraints s = generateConstraints (slots s)
  /\ cellContents s = fillCellContents (grid s)
  /\ Obj.keys (domains s) = Obj.keys (slots s).

Lemma generateSlots_prepared s : validateGrid (grid s) = true -> prepared (generateSlots s).
Proof.
  intros Hvalid. repeat split; try assumption; try reflexivity.
  apply domain_keys_generateSlots.
Qed.

Lemma prepared_arc_singleton s a b l :
  prepared s -> arc (constraints s) a b = Some l -> exists i j, l = [(i, j)].
Proof.
  intros (_ & Hslots & Hc & _) Harc. rewrite Hc, Hslots in Harc.
  apply crossing_arc_singleton in Harc; [ | apply identifySlots_crossing ].
  destruct l as [ | [i j] [ | p l ] ]; simpl in Harc; try lia. exists i, j. reflexivity.
Qed.

(** C4.  In a state set up from a grid, one call of [revise(A, B)] on
    a constrained pair keeps a word [w] of the domain of [A] exactly
    when every overlap [(i, j)] of [constraints[A][B]] has some partner
    [w'] in the domain of [B] with [w[i] = w'[j]].  (The filter asks for
    one overlap with a partner; the list holds a single overlap.) *)
Theorem revise_retains_iff (s : Solver) (a b : string) (l : list (nat * nat)) (w : string) :
  prepared s ->
  arc (constraints s) a b = Some l ->
  In w (domainOf s a) ->
  (In w (domainOf (snd (revise a b s)) a)
   <-> forall i j, In (i, j) l -> hasPartner s b w i j).
Proof.
  intros Hprep Harc Hw. rewrite revise_retains_some, overlapsOf_arc, Harc.
  destruct (prepared_arc_singleton _ _ _ _ Hprep Harc) as (i0 & j0 & ->).
  split.
  - intros (_ & i & j & [E | []] & Hp) i' j' [E' | []]. congruence.
  - intros Hall. split; [ exact Hw | ]. exists i0, j0. split; [ left; reflexivity | ].
    apply Hall. left. reflexivity.
Qed.

(* ================================================================== *)
(** * AC-3 *)
(* ================================================================== *)

(** ** The strings of the queue *)

Lemma splitComma_noComma s : noComma s = true -> splitComma s = [s].
Proof.
  unfold noComma. induction s as [ | ch s IH ]; simpl; [ reflexivity | ].
  rewrite negb_true_iff, orb_false_iff. intros [Hch Hs].
  rewrite Hch. rewrite IH by (apply negb_true_iff; exact Hs). reflexivity.
Qed.

(** Splitting the key of an arc between two names without commas gives
    the two names back. *)
Lemma splitComma_arcKey a b :
  noComma a = true -> noComma b = true -> splitComma (arcKey a b) = [a; b].
Proof.
  unfold arcKey. intros Ha Hb. induction a as [ | ch a IH ]; simpl.
  - rewrite ?eqb_of_refl. rewrite splitComma_noComma by exact Hb. reflexivity.
  - unfold noComma in Ha. simpl in Ha. rewrite negb_true_iff, orb_false_iff in Ha.
    destruct Ha as [Hch Ha]. rewrite Hch. rewrite IH by (apply negb_true_iff; exact Ha).
    reflexivity.
Qed.

Lemma arcKey_inj a b a' b' :
  noComma a = true -> noComma b = true -> noComma a' = true -> noComma b' = true ->
  arcKey a b = arcKey a' b' -> (a, b) = (a', b').
Proof.
  intros Ha Hb Ha' Hb' E. apply (f_equal splitComma) in E.
  rewrite !splitComma_arcKey in E by assumption. congruence.
Qed.

Lemma noComma_append a b : noComma (String.append a b) = noComma a && noComma b.
Proof.
  unfold noComma. induction a as [ | ch a IH ]; simpl; [ reflexivity | ].
  rewrite !negb_orb, IH, andb_assoc. reflexivity.
Qed.

(** The name of a slot holds a comma only if its numbered cell does. *)
Lemma slotName_noComma cell d : noComma cell = true -> noComma (slotName cell d) = true.
Proof.
  intros Hcell. unfold slotName. rewrite noComma_append, Hcell. destruct d; reflexivity.
Qed.

(** ** The work queue *)

Lemma queueAdd_In a q x : In x (queueAdd a q) <-> x = a \/ In x q.
Proof.
  unfold queueAdd. destruct (in_dec eq_dec a q) as [Hin | Hnin].
  - split; [ auto | ]. intros [-> | H]; assumption.
  - rewrite in_app_iff. simpl. intuition congruence.
Qed.

Lemma queueAdd_length a q : length (queueAdd a q) <= S (length q).
Proof.
  unfold queueAdd. destruct (in_dec eq_dec a q); [ lia | ]. rewrite length_app. simpl. lia.
Qed.

Lemma queueDelete_In a q x : In x (queueDelete a q) <-> In x q /\ x <> a.
Proof.
  unfold queueDelete. split.
  - apply in_remove.
  - intros [Hin Hne]. apply in_in_remove; assumption.
Qed.

Lemma queueDelete_head_length a q : length (queueDelete a (a :: q)) <= length q.
Proof. unfold queueDelete. rewrite remove_cons. apply remove_length_le. Qed.

Lemma enqueueNeighbors_In c var1 var2 q x :
  In x (enqueueNeighbors c var1 var2 q)
  <-> In x q \/ exists n, In n (Obj.keys (neighborsOf c var1)) /\ n <> var2 /\ x = (n, var1).
Proof.
  unfold enqueueNeighbors. generalize (Obj.keys (neighborsOf c var1)) as ns.
  intros ns. revert q. induction ns as [ | n ns IH ]; intros q; simpl.
  - split; [ auto | ]. intros [H | (n & [] & _)]. exact H.
  - rewrite IH. destruct (eq_dec n var2) as [E | E].
    + split.
      * intros [H | (m & Hm & Hne & Hx)]; [ auto | ]. right. exists m. auto.
      * intros [H | (m & [Hm | Hm] & Hne & Hx)]; [ auto | congruence | ].
        right. exists m. auto.
    + rewrite queueAdd_In. split.
      * intros [[H | H] | (m & Hm & Hne & Hx)]; [ | auto | ].
        -- right. exists n. auto.
        -- right. exists m. auto.
      * intros [H | (m & [Hm | Hm] & Hne & Hx)]; [ auto | | ].
        -- subst m. auto.
        -- right. exists m. auto.
Qed.

Lemma enqueueNeighbors_length c var1 var2 q :
  length (enqueueNeighbors c var1 var2 q) <= length q + length (neighborsOf c var1).
Proof.
  unfold enqueueNeighbors, Obj.keys. rewrite <- (length_map fst (neighborsOf c var1)).
  generalize (map fst (neighborsOf c var1)) as ns.
  intros ns. revert q. induction ns as [ | n ns IH ]; intros q; simpl; [ lia | ].
  destruct (eq_dec n var2).
  - specialize (IH q). lia.
  - specialize (IH (queueAdd (n, var1) q)). pose proof (queueAdd_length (n, var1) q). lia.
Qed.

Lemma initialQueue_In (c : Constraints) a b : arc c a b <> None -> In (a, b) (initialQueue c).
Proof.
  unfold arc, neighborsOf. intros Harc.
  destruct (Obj.get a c) as [n | ] eqn:Hget; [ | simpl in Harc; congruence ].
  apply Obj.get_In in Hget. apply Obj.get_keys in Harc.
  unfold initialQueue.
  assert (Hinner : forall ks q x,
             In x (fold_left (fun q slotB => queueAdd (a, slotB) q) ks q)
             <-> In x q \/ exists k, In k ks /\ x = (a, k)).
  { induction ks as [ | k ks IH ]; intros q x; simpl.
    - split; [ auto | ]. intros [H | (k & [] & _)]. exact H.
    - rewrite IH, queueAdd_In. split.
      + intros [[H | H] | (k' & Hk & Hx)]; [ right; exists k; auto | auto | right; exists k'; auto ].
      + intros [H | (k' & [Hk | Hk] & Hx)]; [ auto | subst; auto | right; exists k'; auto ]. }
  assert (Hmono : forall (c' : Constraints) q x,
             In x q ->
             In x (fold_left (fun q an =>
                                fold_left (fun q slotB => queueAdd (fst an, slotB) q)
                                          (Obj.keys (snd an)) q) c' q)).
  { induction c' as [ | [a' n'] c' IH ]; intros q x Hin; simpl; [ exact Hin | ].
    apply IH. clear IH. revert q Hin.
    induction (Obj.keys n') as [ | k ks IHk ]; intros q Hin; simpl; [ exact Hin | ].
    apply IHk. apply queueAdd_In. auto. }
  generalize (@nil (string * string)) as q.
  induction c as [ | [a' n'] c IH ]; intros q; simpl; [ contradiction | ].
  destruct Hget as [E | Hin].
  - inversion E; subst. apply Hmono. apply Hinner. right. exists b. auto.
  - apply IH. exact Hin.
Qed.

Lemma neighborsOf_arcCount (c : Constraints) a : length (neighborsOf c a) <= arcCount c.
Proof.
  unfold neighborsOf. destruct (Obj.get a c) as [n | ] eqn:Hget; [ | simpl; lia ].
  apply Obj.get_In in Hget. induction c as [ | [a' n'] c IH ]; simpl in *; [ contradiction | ].
  destruct Hget as [E | Hin].
  - inversion E; subst. lia.
  - specialize (IH Hin). lia.
Qed.

(** ** Termination *)

Lemma totalDomainSize_set (d : Domains) k new old :
  Obj.get k d = Some old ->
  totalDomainSize (Obj.set k new d) + length old = totalDomainSize d + length new.
Proof.
  induction d as [ | [k' v'] d IH ]; simpl; [ discriminate | ].
  destruct (eq_dec k k') as [E | E]; simpl.
  - intros E'. inversion E'; subst. lia.
  - intros Hget. specialize (IH Hget). lia.
Qed.

Lemma revise_shrinks a b s :
  fst (revise a b s) = true ->
  S (totalDomainSize (domains (snd (revise a b s)))) <= totalDomainSize (domains s).
Proof.
  unfold revise.
  destruct (Nat.ltb_spec
              (length (filter (supported (overlapsOf (constraints s) a b) (domainOf s b))
                              (domainOf s a)))
              (length (domainOf s a))) as [Hlt | Hge]; simpl; [ intros _ | discriminate ].
  destruct (Obj.get a (domains s)) as [old | ] eqn:Hget.
  - assert (Hold : domainOf s a = old) by (unfold domainOf; rewrite Hget; reflexivity).
    pose proof (totalDomainSize_set (domains s) a
                  (filter (supported (overlapsOf (constraints s) a b) (domainOf s b))
                          (domainOf s a)) old Hget).
    rewrite Hold in Hlt at 2. lia.
  - assert (Hold : domainOf s a = []) by (unfold domainOf; rewrite Hget; reflexivity).
    rewrite Hold in Hlt. simpl in Hlt. lia.
Qed.

Lemma revise_unchanged a b s : fst (revise a b s) = false -> snd (revise a b s) = s.
Proof.
  unfold revise.
  destruct (length (filter (supported (overlapsOf (constraints s) a b) (domainOf s b))
                           (domainOf s a)) <? length (domainOf s a)); simpl;
    [ discriminate | reflexivity ].
Qed.

(** The loop of [ac3] ends within the fuel [ac3Fuel] computes. *)
Lemma ac3Loop_terminates fuel : forall queue s,
  length queue + totalDomainSize (domains s) * S (arcCount (constraints s)) <= fuel ->
  exists r, ac3Loop fuel queue s = Some r.
Proof.
  induction fuel as [ | fuel IH ]; intros queue s Hfuel.
  - destruct queue as [ | [var1 var2] rest ]; simpl; [ eauto | simpl in Hfuel; lia ].
  - destruct queue as [ | [var1 var2] rest ]; cbn [ac3Loop]; [ eauto | ].
    pose proof (queueDelete_head_length (var1, var2) rest) as Hdel.
    cbn [length] in Hfuel.
    destruct (fst (revise var1 var2 s)) eqn:Hrev.
    + destruct (length (domainOf (snd (revise var1 var2 s)) var1) =? 0); [ eauto | ].
      apply IH. rewrite revise_constraints.
      pose proof (revise_shrinks _ _ _ Hrev) as Hshrink.
      pose proof (enqueueNeighbors_length (constraints s) var1 var2
                    (queueDelete (var1, var2) ((var1, var2) :: rest))) as Hlen.
      pose proof (neighborsOf_arcCount (constraints s) var1) as Hdeg.
      pose proof (Nat.mul_le_mono_r _ _ (S (arcCount (constraints s))) Hshrink) as Hmul.
      rewrite Nat.mul_succ_l in Hmul. lia.
    + apply IH. rewrite (revise_unchanged _ _ _ Hrev). lia.
Qed.

(** [ac3] returns. *)
Lemma ac3_terminates s : exists r, ac3 s = Some r.
Proof. unfold ac3, ac3Fuel. apply ac3Loop_terminates. lia. Qed.

(** ** Arc consistency on return *)

(** Every word of the domain of [a] passes the filter of
    [revise(a, b)]. *)
Definition arcConsistent (s : Solver) (a b : string) : Prop :=
  forall w, In w (domainOf s a) ->
            supported (overlapsOf (constraints s) a b) (domainOf s b) w = true.

Definition symmetricTable (c : Constraints) : Prop :=
  forall a b,
    (arc c a b <> None -> arc c b a <> None)
    /\ (forall i j, In (i, j) (overlapsOf c a b) -> In (j, i) (overlapsOf c b a)).

Definition irreflexiveTable (c : Constraints) : Prop := forall a, arc c a a = None.

(** The invariant of the loop: an arc is waiting in the queue or is
    consistent. *)
Definition ac3Invariant (queue : list (string * string)) (s : Solver) : Prop :=
  forall a b, arc (constraints s) a b <> None -> In (a, b) queue \/ arcConsistent s a b.

Lemma neighbors_keys_arc c a n : In n (Obj.keys (neighborsOf c a)) <-> arc c a n <> None.
Proof. unfold arc. symmetry. apply Obj.get_keys. Qed.

Lemma revise_makes_consistent x y s :
  x <> y -> arcConsistent (snd (revise x y s)) x y.
Proof.
  intros Hne w Hw. rewrite revise_constraints.
  rewrite revise_domain in Hw. apply filter_In in Hw.
  rewrite (revise_domain_other x y s y) by congruence. tauto.
Qed.

Lemma revise_keeps_invariant x y rest s :
  symmetricTable (constraints s) -> irreflexiveTable (constraints s) ->
  ac3Invariant ((x, y) :: rest) s ->
  ac3Invariant (if fst (revise x y s)
                then enqueueNeighbors (constraints (snd (revise x y s))) x y
                       (queueDelete (x, y) ((x, y) :: rest))
                else queueDelete (x, y) ((x, y) :: rest))
               (snd (revise x y s)).
Proof.
  intros Hsym Hirr Hinv a b Harc. rewrite revise_constraints in Harc.
  assert (Hab : a <> b) by (intros E; subst b; apply Harc; apply Hirr).
  destruct (eq_dec (a, b) (x, y)) as [Exy | Nxy].
  { inversion Exy; subst. right. apply revise_makes_consistent. exact Hab. }
  assert (Hq1 : In (a, b) ((x, y) :: rest) -> In (a, b) (queueDelete (x, y) ((x, y) :: rest))).
  { intros Hin. apply queueDelete_In. auto. }
  destruct (fst (revise x y s)) eqn:Hrev.
  - rewrite revise_constraints.
    destruct (Hinv a b Harc) as [Hin | Hcons].
    { left. apply enqueueNeighbors_In. left. auto. }
    destruct (eq_dec b x) as [Ebx | Nbx].
    + subst b. destruct (eq_dec a y) as [Eay | Nay].
      * subst a. right. intros w' Hw'. rewrite revise_constraints.
        rewrite (revise_domain_other x y s y) in Hw' by congruence.
        specialize (Hcons w' Hw'). apply supported_spec in Hcons.
        destruct Hcons as (j & i & Hji & w & Hw & E).
        apply supported_spec. exists j, i. split; [ exact Hji | ]. exists w. split; [ | exact E ].
        rewrite revise_domain. apply filter_In. split; [ exact Hw | ].
        apply supported_spec. exists i, j. split; [ apply (Hsym y x); exact Hji | ].
        exists w'. split; [ exact Hw' | congruence ].
      * left. apply enqueueNeighbors_In. right. exists a. repeat split; [ | exact Nay ].
        apply neighbors_keys_arc. apply (Hsym a x). exact Harc.
    + right. intros w Hw. rewrite revise_constraints.
      rewrite (revise_domain_other x y s b) by exact Nbx.
      apply Hcons. destruct (eq_dec a x) as [Eax | Nax].
      * subst a. rewrite revise_domain in Hw. apply filter_In in Hw. tauto.
      * rewrite (revise_domain_other x y s a) in Hw by exact Nax. exact Hw.
  - rewrite (revise_unchanged _ _ _ Hrev).
    destruct (Hinv a b Harc) as [Hin | Hcons]; [ left; auto | right; exact Hcons ].
Qed.

Lemma ac3Loop_sound fuel : forall queue s s',
  symmetricTable (constraints s) -> irreflexiveTable (constraints s) ->
  ac3Invariant queue s ->
  ac3Loop fuel queue s = Some (true, s') ->
  constraints s' = constraints s
  /\ forall a b, arc (constraints s') a b <> None -> arcConsistent s' a b.
Proof.
  induction fuel as [ | fuel IH ]; intros queue s s' Hsym Hirr Hinv Hrun.
  - destruct queue as [ | [x y] rest ]; simpl in Hrun; [ | discriminate ].
    inversion Hrun; subst. split; [ reflexivity | ].
    intros a b Harc. destruct (Hinv a b Harc) as [[] | H]. exact H.
  - destruct queue as [ | [x y] rest ]; cbn [ac3Loop] in Hrun.
    + inversion Hrun; subst. split; [ reflexivity | ].
      intros a b Harc. destruct (Hinv a b Harc) as [[] | H]. exact H.
    + pose proof (revise_keeps_invariant x y rest s Hsym Hirr Hinv) as Hstep.
      pose proof (revise_constraints x y s) as Hc.
      destruct (fst (revise x y s)).
      * destruct (length (domainOf (snd (revise x y s)) x) =? 0); [ discriminate | ].
        apply IH in Hrun; [ | rewrite Hc; assumption | rewrite Hc; assumption | exact Hstep ].
        rewrite Hc in Hrun. exact Hrun.
      * apply IH in Hrun; [ | rewrite Hc; assumption | rewrite Hc; assumption | exact Hstep ].
        rewrite Hc in Hrun. exact Hrun.
Qed.

(** What [ac3] leaves alone, whatever it returns: it only removes
    words from domains. *)
Lemma ac3Loop_frame fuel : forall queue s r s',
  ac3Loop fuel queue s = Some (r, s') ->
  grid s' = grid s /\ slots s' = slots s /\ constraints s' = constraints s
  /\ cellContents s' = cellContents s
  /\ wordLengthCache s' = wordLengthCache s /\ words s' = words s
  /\ Obj.keys (domains s') = Obj.keys (domains s)
  /\ forall k w, In w (domainOf s' k) -> In w (domainOf s k).
Proof.
  induction fuel as [ | fuel IH ]; intros queue s r s' Hrun.
  - destruct queue as [ | [x y] rest ]; simpl in Hrun; [ | discriminate ].
    inversion Hrun; subst. repeat split; auto.
  - destruct queue as [ | [x y] rest ]; cbn [ac3Loop] in Hrun.
    + inversion Hrun; subst. repeat split; auto.
    + destruct (revise_frame x y s) as (Hg & Hs & Hcc & Hwc & Hws).
      pose proof (revise_constraints x y s) as Hc.
      pose proof (revise_domain_keys x y s) as Hk.
      assert (Hsub : forall k w, In w (domainOf (snd (revise x y s)) k) -> In w (domainOf s k)).
      { intros k w Hw. destruct (eq_dec k x) as [E | E].
        - subst k. rewrite revise_domain in Hw. apply filter_In in Hw. tauto.
        - rewrite revise_domain_other in Hw by exact E. exact Hw. }
      assert (Hdone : forall s'', (grid s'' = grid (snd (revise x y s))
                 /\ slots s'' = slots (snd (revise x y s))
                 /\ constraints s'' = constraints (snd (revise x y s))
                 /\ cellContents s'' = cellContents (snd (revise x y s))
                 /\ wordLengthCache s'' = wordLengthCache (snd (revise x y s))
                 /\ words s'' = words (snd (revise x y s))
                 /\ Obj.keys (domains s'') = Obj.keys (domains (snd (revise x y s)))
                 /\ (forall k w, In w (domainOf s'' k) -> In w (domainOf (snd (revise x y s)) k)))
                 -> grid s'' = grid s /\ slots s'' = slots s /\ constraints s'' = constraints s
                    /\ cellContents s'' = cellContents s
                    /\ wordLengthCache s'' = wordLengthCache s /\ words s'' = words s
                    /\ Obj.keys (domains s'') = Obj.keys (domains s)
                    /\ forall k w, In w (domainOf s'' k) -> In w (domainOf s k)).
      { intros s'' (H1 & H2 & H3 & H4 & H5 & H6 & H7 & H8).
        repeat split; try congruence. intros k w Hw. apply Hsub. apply H8. exact Hw. }
      destruct (fst (revise x y s)).
      * destruct (length (domainOf (snd (revise x y s)) x) =? 0).
        -- inversion Hrun; subst. apply Hdone. repeat split; auto.
        -- apply Hdone. eapply IH; eauto.
      * apply Hdone. eapply IH; eauto.
Qed.

Lemma prepared_symmetric s : prepared s -> symmetricTable (constraints s).
Proof.
  intros (_ & _ & Hc & _) a b. rewrite Hc.
  destruct (generateConstraints_mirror (slots s) a b) as [Hex Hmirror].
  split; [ apply Hex | ]. intros i j. apply Hmirror.
Qed.

Lemma prepared_irreflexive s : prepared s -> irreflexiveTable (constraints s).
Proof.
  intros (_ & Hslots & Hc & _) a. rewrite Hc, Hslots.
  destruct (arc (generateConstraints (identifySlots (grid s))) a a) as [l | ] eqn:Harc;
    [ | reflexivity ].
  exfalso. apply (crossing_arc_irreflexive (identifySlots (grid s))
                    (identifySlots_crossing (grid s)) a a l Harc). reflexivity.
Qed.

Lemma ac3_frame s r s' :
  ac3 s = Some (r, s') ->
  grid s' = grid s /\ slots s' = slots s /\ constraints s' = constraints s
  /\ cellContents s' = cellContents s
  /\ wordLengthCache s' = wordLengthCache s /\ words s' = words s
  /\ Obj.keys (domains s') = Obj.keys (domains s)
  /\ forall k w, In w (domainOf s' k) -> In w (domainOf s k).
Proof. unfold ac3. apply ac3Loop_frame. Qed.

Lemma ac3_prepared s r s' : prepared s -> ac3 s = Some (r, s') -> prepared s'.
Proof.
  intros (Hv & Hs & Hc & Hcc & Hk) Hrun.
  destruct (ac3_frame _ _ _ Hrun) as (H1 & H2 & H3 & H4 & _ & _ & H7 & _).
  unfold prepared. rewrite H1, H2, H3, H4, H7. auto.
Qed.

(** C3.  In a state set up from a grid, when [ac3] returns [true]
    every arc [(A, B)] of the constraint table is consistent: each word
    still in the domain of [A] has a word in the domain of [B] that
    agrees with it at the overlap.  ([ac3] always returns:
    [ac3_terminates].) *)
Theorem ac3_arc_consistent (s s' : Solver) (a b : string) (l : list (nat * nat)) (w : string) :
  prepared s ->
  ac3 s = Some (true, s') ->
  arc (constraints s') a b = Some l ->
  In w (domainOf s' a) ->
  exists w', In w' (domainOf s' b) /\ wordsMatch s' a w b w' = true.
Proof.
  intros Hprep Hrun Harc Hw.
  pose proof (ac3_prepared _ _ _ Hprep Hrun) as Hprep'.
  unfold ac3 in Hrun.
  apply ac3Loop_sound in Hrun;
    [ | apply prepared_symmetric; exact Hprep | apply prepared_irreflexive; exact Hprep
      | intros x y Hxy; left; apply initialQueue_In; exact Hxy ].
  destruct Hrun as [_ Hcons].
  assert (Hne : arc (constraints s') a b <> None) by congruence.
  specialize (Hcons a b Hne w Hw). apply supported_spec in Hcons.
  destruct Hcons as (i & j & Hij & w' & Hw' & E).
  exists w'. split; [ exact Hw' | ].
  unfold wordsMatch. rewrite overlapsOf_arc, Harc in *.
  destruct (prepared_arc_singleton _ _ _ _ Hprep' Harc) as (i0 & j0 & ->).
  destruct Hij as [Eij | []]. inversion Eij; subst. simpl.
  rewrite andb_true_r. apply eqb_of_true. exact E.
Qed.

(* ================================================================== *)
(** * Search: orderings and selection *)
(* ================================================================== *)

Lemma update_In {A : Type} (l : list A) : forall i x y, In y (update i x l) -> y = x \/ In y l.
Proof.
  induction l as [ | z l IH ]; intros i x y; [ destruct i; simpl; tauto | ].
  destruct i as [ | i ]; simpl.
  - intros [H | H]; [ left; congruence | right; right; exact H ].
  - intros [H | H]; [ right; left; exact H | ].
    apply IH in H. tauto.
Qed.

Lemma swap_In {A : Type} (l : list A) i j y : In y (swap i j l) -> In y l.
Proof.
  unfold swap. destruct (nth_error l i) as [x | ] eqn:Hi; [ | auto ].
  destruct (nth_error l j) as [z | ] eqn:Hj; [ | auto ].
  intros Hin. apply update_In in Hin. destruct Hin as [-> | Hin].
  - eapply nth_error_In; eauto.
  - apply update_In in Hin. destruct Hin as [-> | Hin]; [ | exact Hin ].
    eapply nth_error_In; eauto.
Qed.

Lemma insertSorted_In {A : Type} (lt : A -> A -> bool) x l y :
  In y (insertSorted lt x l) <-> y = x \/ In y l.
Proof.
  induction l as [ | z l IH ]; simpl.
  - intuition congruence.
  - destruct (lt x z); simpl; [ intuition congruence | ]. rewrite IH. intuition congruence.
Qed.

Lemma sortBy_In {A : Type} (lt : A -> A -> bool) l y : In y (sortBy lt l) <-> In y l.
Proof.
  unfold sortBy.
  assert (Hgen : forall acc, In y (fold_left (fun acc x => insertSorted lt x acc) l acc)
                             <-> In y acc \/ In y l).
  { induction l as [ | x l IH ]; intros acc; simpl; [ tauto | ].
    rewrite IH, insertSorted_In. intuition congruence. }
  rewrite Hgen. simpl. tauto.
Qed.

Section SearchHelpers.
Variable random : nat -> nat.

Lemma shuffleFrom_In {A : Type} i : forall (a : list A) k y,
  In y (fst (shuffleFrom random i a k)) -> In y a.
Proof.
  induction i as [ | i IH ]; intros a k y; simpl; [ auto | ].
  intros Hin. apply IH in Hin. eapply swap_In; eauto.
Qed.

Lemma shuffleArray_In {A : Type} (a : list A) k y :
  In y (fst (shuffleArray random a k)) -> In y a.
Proof. apply shuffleFrom_In. Qed.

Lemma orderDomainValues_In slot s v :
  In v (fst (orderDomainValues random slot s)) -> In v (domainOf s slot).
Proof.
  unfold orderDomainValues. simpl. intros Hin. apply shuffleArray_In in Hin.
  apply sortBy_In in Hin. exact Hin.
Qed.

Lemma mrvStep_candidates s l : forall acc x,
  In x (snd (fold_left (mrvStep s) l acc)) -> In x (snd acc) \/ In x l.
Proof.
  induction l as [ | y l IH ]; intros acc x; simpl; [ auto | ].
  intros Hin. apply IH in Hin. destruct Hin as [Hin | Hin]; [ | auto ].
  unfold mrvStep in Hin. destruct (fst acc) as [m | ]; simpl in Hin.
  - destruct (length (domainOf s y) <? m); simpl in Hin.
    + destruct Hin as [-> | []]. auto.
    + destruct (length (domainOf s y) =? m); simpl in Hin; [ | auto ].
      apply in_app_or in Hin. destruct Hin as [Hin | [-> | []]]; auto.
  - destruct Hin as [-> | []]. auto.
Qed.

Lemma degreeStep_candidates s l : forall acc x,
  In x (snd (fold_left (degreeStep s) l acc)) -> In x (snd acc) \/ In x l.
Proof.
  induction l as [ | y l IH ]; intros acc x; simpl; [ auto | ].
  intros Hin. apply IH in Hin. destruct Hin as [Hin | Hin]; [ | auto ].
  unfold degreeStep in Hin. destruct (fst acc) as [m | ]; simpl in Hin.
  - destruct (m <? degree s y); simpl in Hin.
    + destruct Hin as [-> | []]. auto.
    + destruct (degree s y =? m); simpl in Hin; [ | auto ].
      apply in_app_or in Hin. destruct Hin as [Hin | [-> | []]]; auto.
  - destruct Hin as [-> | []]. auto.
Qed.

(** The selected variable is a slot with a domain that is not yet
    assigned. *)
Lemma selectUnassignedVariable_spec s a v :
  fst (selectUnassignedVariable random s a) = Some v ->
  In v (Obj.keys (domains s)) /\ ~ In v (Obj.keys a).
Proof.
  unfold selectUnassignedVariable.
  destruct (filter (fun slot => negb (Obj.has slot a)) (Obj.keys (domains s)))
    as [ | u us ] eqn:Hun; cbn [fst]; [ discriminate | ].
  intros Hnth. apply nth_error_In in Hnth.
  apply degreeStep_candidates in Hnth. destruct Hnth as [[] | Hnth].
  apply mrvStep_candidates in Hnth. destruct Hnth as [[] | Hnth].
  rewrite <- Hun in Hnth. apply filter_In in Hnth. destruct Hnth as [Hk Hhas].
  split; [ exact Hk | ]. apply Obj.has_false. apply negb_true_iff. exact Hhas.
Qed.

(** The parts of the instance the search never writes. *)
Definition static (s : Solver) :=
  (grid s, slots s, constraints s, cellContents s, wordLengthCache s, words s, isSolving s).

Lemma selectUnassignedVariable_frame s a :
  static (snd (selectUnassignedVariable random s a)) = static s
  /\ domains (snd (selectUnassignedVariable random s a)) = domains s.
Proof.
  unfold selectUnassignedVariable.
  destruct (filter (fun slot => negb (Obj.has slot a)) (Obj.keys (domains s))); simpl; auto.
Qed.

Lemma orderDomainValues_frame slot s :
  static (snd (orderDomainValues random slot s)) = static s
  /\ domains (snd (orderDomainValues random slot s)) = domains s.
Proof. unfold orderDomainValues. simpl. auto. Qed.

End SearchHelpers.

Lemma static_eq s s' :
  static s' = static s ->
  grid s' = grid s /\ slots s' = slots s /\ constraints s' = constraints s
  /\ cellContents s' = cellContents s.
Proof. unfold static. intros E. inversion E. auto. Qed.

Lemma domainOf_domains s s' k : domains s' = domains s -> domainOf s' k = domainOf s k.
Proof. unfold domainOf. intros ->. reflexivity. Qed.

Lemma wordsMatch_static s s' a w b w' :
  constraints s' = constraints s -> wordsMatch s' a w b w' = wordsMatch s a w b w'.
Proof. unfold wordsMatch. intros ->. reflexivity. Qed.

Lemma wordMatchesPreFilledLetters_static s s' slot w :
  static s' = static s ->
  wordMatchesPreFilledLetters s' slot w = wordMatchesPreFilledLetters s slot w.
Proof.
  intros E. apply static_eq in E. destruct E as (_ & Hs & _ & Hcc).
  unfold wordMatchesPreFilledLetters, positionsOf. rewrite Hs, Hcc. reflexivity.
Qed.

(* ================================================================== *)
(** * Search: forward checking and its undoing *)
(* ================================================================== *)

Section WritesCommute.
Context {K V : Type} `{EqDec K}.

Lemma set_comm_present (k1 k2 : K) (v1 v2 : V) (o : Obj.t K V) :
  k1 <> k2 -> In k2 (Obj.keys o) ->
  Obj.set k1 v1 (Obj.set k2 v2 o) = Obj.set k2 v2 (Obj.set k1 v1 o).
Proof.
  intros Hne. induction o as [ | [k v] o IH ]; simpl; [ tauto | ].
  intros Hin.
  destruct (eq_dec k2 k) as [E2 | E2]; destruct (eq_dec k1 k) as [E1 | E1]; simpl.
  - congruence.
  - destruct (eq_dec k1 k); [ congruence | ]. destruct (eq_dec k2 k); [ | congruence ].
    reflexivity.
  - destruct (eq_dec k1 k); [ | congruence ]. destruct (eq_dec k2 k); [ congruence | ].
    reflexivity.
  - destruct (eq_dec k1 k); [ congruence | ]. destruct (eq_dec k2 k); [ congruence | ].
    f_equal. apply IH. destruct Hin; congruence.
Qed.

Lemma applyWrites_get_other (ws : list (K * V)) : forall (o : Obj.t K V) n,
  ~ In n (map fst ws) -> Obj.get n (applyWrites ws o) = Obj.get n o.
Proof.
  induction ws as [ | [k v] ws IH ]; intros o n Hn; simpl; [ reflexivity | ].
  simpl in Hn. rewrite IH by tauto. apply Obj.get_set_other. intros E. apply Hn. auto.
Qed.

Lemma applyWrites_keys_present (ws : list (K * V)) : forall (o : Obj.t K V) n,
  In n (Obj.keys o) -> In n (Obj.keys (applyWrites ws o)).
Proof. intros o n Hin. apply applyWrites_keys. auto. Qed.

Lemma applyWrites_set_comm (ws : list (K * V)) : forall (o : Obj.t K V) n v,
  ~ In n (map fst ws) -> In n (Obj.keys o) ->
  applyWrites ws (Obj.set n v o) = Obj.set n v (applyWrites ws o).
Proof.
  induction ws as [ | [k w] ws IH ]; intros o n v Hn Hin; simpl; [ reflexivity | ].
  simpl in Hn. rewrite set_comm_present; [ | intros E; apply Hn; auto | exact Hin ].
  apply IH; [ tauto | ]. apply Obj.keys_set_In. auto.
Qed.

End WritesCommute.

Lemma forwardCheckLoop_frame slot value a neighbors : forall inferences s,
  let r := forwardCheckLoop slot value a neighbors inferences s in
  static (snd r) = static s
  /\ Obj.keys (domains (snd r)) = Obj.keys (domains s)
  /\ (forall k w, In w (domainOf (snd r) k) -> In w (domainOf s k))
  /\ recursiveCalls (snd r) = recursiveCalls s.
Proof.
  induction neighbors as [ | n ns IH ]; intros inferences s; cbv zeta; simpl.
  - auto.
  - destruct (Obj.has n a); [ apply IH | ].
    destruct (length (filter (wordsMatch s slot value n) (domainOf s n)) =? 0) eqn:Hlen;
      simpl; [ auto | ].
    specialize (IH (Obj.set n (domainOf s n) inferences)
                   (setDomains (Obj.set n (filter (wordsMatch s slot value n) (domainOf s n))
                                        (domains s)) s)).
    cbv zeta in IH. destruct IH as (H1 & H2 & H3 & H4).
    assert (Hkey : In n (Obj.keys (domains s))).
    { apply domainOf_keys. intros E. rewrite E in Hlen. simpl in Hlen. discriminate. }
    repeat split.
    + rewrite H1. reflexivity.
    + rewrite H2. simpl. apply Obj.keys_set_present. exact Hkey.
    + intros k w Hw. apply H3 in Hw. rewrite domainOf_set in Hw.
      destruct (eq_dec k n) as [E | E]; [ | exact Hw ].
      subst k. apply filter_In in Hw. tauto.
    + rewrite H4. reflexivity.
Qed.

(** Writing the snapshots back gives the domains that were there
    before the loop. *)
Lemma forwardCheckLoop_restore slot value a neighbors : forall inferences s inf' s',
  NoDup neighbors ->
  (forall n, In n neighbors -> ~ In n (Obj.keys inferences)) ->
  forwardCheckLoop slot value a neighbors inferences s = (Some inf', s') ->
  applyWrites inf' (domains s') = applyWrites inferences (domains s).
Proof.
  induction neighbors as [ | n ns IH ]; intros inferences s inf' s' Hnd Hfresh; simpl.
  - intros E. inversion E; subst. reflexivity.
  - inversion Hnd as [ | ? ? Hnotin Hnd' ]; subst.
    destruct (Obj.has n a).
    { apply IH; [ exact Hnd' | ]. intros m Hm. apply Hfresh. right. exact Hm. }
    destruct (length (filter (wordsMatch s slot value n) (domainOf s n)) =? 0) eqn:Hlen;
      [ discriminate | ].
    intros Hrun. apply IH in Hrun; [ | exact Hnd' | ].
    + rewrite Hrun. simpl.
      assert (Hn : ~ In n (Obj.keys inferences)) by (apply Hfresh; left; reflexivity).
      assert (Hget : Obj.get n (domains s) = Some (domainOf s n)).
      { unfold domainOf in *. destruct (Obj.get n (domains s)); [ reflexivity | ].
        simpl in Hlen. discriminate. }
      rewrite Obj.set_absent by exact Hn. unfold applyWrites at 1.
      rewrite fold_left_app. simpl. fold (applyWrites inferences
        (Obj.set n (filter (wordsMatch s slot value n) (domainOf s n)) (domains s))).
      rewrite applyWrites_set_comm; [ | exact Hn | eapply Obj.get_Some_keys; eauto ].
      apply Obj.set_set_restore. rewrite applyWrites_get_other by exact Hn. exact Hget.
    + intros m Hm Hin. apply Obj.keys_set_In in Hin. destruct Hin as [-> | Hin].
      * contradiction.
      * apply (Hfresh m); [ right; exact Hm | exact Hin ].
Qed.

(** After [isConsistent] has accepted the value, no neighbour is wiped
    out, so [forwardCheck] does not return [false]. *)
Lemma forwardCheckLoop_succeeds slot value a neighbors : forall inferences s,
  NoDup neighbors ->
  (forall n, In n neighbors -> Obj.has n a = false ->
             filter (wordsMatch s slot value n) (domainOf s n) <> []) ->
  fst (forwardCheckLoop slot value a neighbors inferences s) <> None.
Proof.
  induction neighbors as [ | n ns IH ]; intros inferences s Hnd Hviable; simpl.
  - discriminate.
  - inversion Hnd as [ | ? ? Hnotin Hnd' ]; subst.
    destruct (Obj.has n a) eqn:Hhas.
    { apply IH; [ exact Hnd' | ]. intros m Hm. apply Hviable. right. exact Hm. }
    pose proof (Hviable n (or_introl eq_refl) Hhas) as Hn.
    destruct (filter (wordsMatch s slot value n) (domainOf s n)) as [ | w ws ] eqn:Hf;
      [ congruence | ].
    simpl. apply IH; [ exact Hnd' | ].
    intros m Hm Hhasm. rewrite domainOf_set.
    destruct (eq_dec m n) as [E | E]; [ subst m; contradiction | ].
    specialize (Hviable m (or_intror Hm) Hhasm).
    intros Hnil. apply Hviable. rewrite <- Hnil. apply filter_ext. intros w'.
    apply wordsMatch_static. reflexivity.
Qed.

Lemma isConsistent_viable s slot value a n :
  isConsistent s slot value a = true ->
  In n (Obj.keys (neighborsOf (constraints s) slot)) ->
  Obj.has n (Obj.set slot value a) = false ->
  filter (wordsMatch s slot value n) (domainOf s n) <> [].
Proof.
  unfold isConsistent. rewrite andb_true_iff, forallb_forall. intros [_ Hall] Hn Hhas.
  specialize (Hall n Hn). unfold Obj.has in Hhas. rewrite Obj.get_set in Hhas.
  destruct (eq_dec n slot); [ discriminate | ].
  destruct (Obj.get n a); [ discriminate | ].
  apply negb_true_iff in Hall. apply Nat.eqb_neq in Hall. intros E. rewrite E in Hall.
  apply Hall. reflexivity.
Qed.

Lemma forwardCheck_succeeds s slot value a :
  NoDup (Obj.keys (neighborsOf (constraints s) slot)) ->
  isConsistent s slot value a = true ->
  fst (forwardCheck slot value (Obj.set slot value a) s) <> None.
Proof.
  intros Hnd Hcons. unfold forwardCheck. apply forwardCheckLoop_succeeds; [ exact Hnd | ].
  intros n Hn Hhas. eapply isConsistent_viable; eauto.
Qed.

Lemma forwardCheck_restore s slot value a inf s' :
  NoDup (Obj.keys (neighborsOf (constraints s) slot)) ->
  forwardCheck slot value a s = (Some inf, s') ->
  applyWrites inf (domains s') = domains s.
Proof.
  intros Hnd Hrun. unfold forwardCheck in Hrun.
  apply forwardCheckLoop_restore in Hrun; [ exact Hrun | exact Hnd | ]. intros n _ [].
Qed.

(* ================================================================== *)
(** * Search: what an invocation guarantees *)
(* ================================================================== *)

(** The memo table holds no success.  (A success is recorded only
    while the search unwinds with [true].) *)
Definition noTrue (ch : Cache) : Prop := forall key, Obj.get key ch <> Some true.

(** Any two assigned words agree on the overlaps of their slots. *)
Definition matchedAssignment (s : Solver) (a : Assignment) : Prop :=
  forall k1 v1 k2 v2,
    Obj.get k1 a = Some v1 -> Obj.get k2 a = Some v2 -> wordsMatch s k1 v1 k2 v2 = true.

(** The shape of a table built by [generateConstraints]. *)
Definition goodTable (c : Constraints) : Prop :=
  symmetricTable c /\ irreflexiveTable c
  /\ forall a, NoDup (Obj.keys (neighborsOf c a)).

Lemma noTrue_set_false key ch : noTrue ch -> noTrue (Obj.set key false ch).
Proof.
  intros Hno key'. rewrite Obj.get_set. destruct (eq_dec key' key); [ discriminate | apply Hno ].
Qed.

Lemma wordsMatch_no_arc s a w b w' : arc (constraints s) a b = None -> wordsMatch s a w b w' = true.
Proof. intros Harc. unfold wordsMatch. rewrite overlapsOf_arc, Harc. reflexivity. Qed.

Lemma wordsMatch_mirror s a w b w' :
  symmetricTable (constraints s) ->
  wordsMatch s a w b w' = true -> wordsMatch s b w' a w = true.
Proof.
  intros Hsym. unfold wordsMatch. rewrite !forallb_forall. intros Hall [j i] Hji.
  apply (Hsym b a) in Hji. specialize (Hall (i, j) Hji). simpl in *.
  apply eqb_of_true in Hall. apply eqb_of_true. congruence.
Qed.

Lemma isConsistent_assigned s slot value a n w :
  isConsistent s slot value a = true -> Obj.get n a = Some w ->
  wordsMatch s slot value n w = true.
Proof.
  unfold isConsistent. rewrite andb_true_iff, forallb_forall. intros [_ Hall] Hget.
  destruct (arc (constraints s) slot n) as [l | ] eqn:Harc.
  - assert (Hn : In n (Obj.keys (neighborsOf (constraints s) slot)))
      by (apply neighbors_keys_arc; congruence).
    specialize (Hall n Hn). rewrite Hget in Hall. exact Hall.
  - apply wordsMatch_no_arc. exact Harc.
Qed.

Lemma isConsistent_preFilled s slot value a :
  isConsistent s slot value a = true -> wordMatchesPreFilledLetters s slot value = true.
Proof. unfold isConsistent. rewrite andb_true_iff. tauto. Qed.

Section SearchSpec.

(** A property of (slot, word) that every word of every domain has when
    the search starts, such as having the length of the slot. *)
Variable Q : string -> string -> Prop.

Definition domainsSatisfy (s : Solver) : Prop :=
  forall k w, In w (domainOf s k) -> Q k w.

Definition goodAssignment (s : Solver) (a : Assignment) : Prop :=
  NoDup (Obj.keys a)
  /\ (forall k v, Obj.get k a = Some v ->
        In k (Obj.keys (domains s)) /\ Q k v /\ wordMatchesPreFilledLetters s k v = true)
  /\ matchedAssignment s a.

Definition searchPost (h : Search) (r : bool) (h' : Search) : Prop :=
  static (solver h') = static (solver h)
  /\ Obj.keys (domains (solver h')) = Obj.keys (domains (solver h))
  /\ (forall k w, In w (domainOf (solver h') k) -> In w (domainOf (solver h) k))
  /\ (r = false ->
      domains (solver h') = domains (solver h)
      /\ assignment h' = assignment h
      /\ (noTrue (cache h) -> noTrue (cache h')))
  /\ (r = true -> noTrue (cache h) -> domainsSatisfy (solver h) ->
      goodAssignment (solver h) (assignment h) ->
      goodAssignment (solver h) (assignment h')
      /\ solution (solver h') = assignment h'
      /\ length (Obj.keys (assignment h')) = length (Obj.keys (slots (solver h)))).

Lemma goodAssignment_transfer s s' a :
  static s' = static s -> Obj.keys (domains s') = Obj.keys (domains s) ->
  goodAssignment s a -> goodAssignment s' a.
Proof.
  intros Hst Hk (Hnd & Hvals & Hm). pose proof (static_eq _ _ Hst) as (_ & _ & Hc & _).
  split; [ exact Hnd | split ].
  - intros k v Hget. destruct (Hvals k v Hget) as (H1 & H2 & H3).
    rewrite Hk, (wordMatchesPreFilledLetters_static _ _ _ _ Hst). auto.
  - intros k1 v1 k2 v2 H1 H2. rewrite (wordsMatch_static _ _ _ _ _ _ Hc). eapply Hm; eauto.
Qed.

Lemma searchPost_transfer h0 h r h' :
  static (solver h0) = static (solver h) ->
  domains (solver h0) = domains (solver h) ->
  assignment h0 = assignment h ->
  (noTrue (cache h) -> noTrue (cache h0)) ->
  searchPost h0 r h' -> searchPost h r h'.
Proof.
  intros Hst Hd Ha Hch (P1 & P2 & P3 & P4 & P5).
  pose proof (static_eq _ _ Hst) as (_ & Hs & _ & _).
  split; [ congruence | split; [ congruence | split; [ | split ] ] ].
  - intros k w Hw. rewrite <- (domainOf_domains _ _ k Hd). apply P3. exact Hw.
  - intros Hr. destruct (P4 Hr) as (Q1 & Q2 & Q3).
    split; [ congruence | split; [ congruence | tauto ] ].
  - intros Hr Hno HQ Hgood.
    assert (HQ0 : domainsSatisfy (solver h0)).
    { intros k w Hw. apply HQ. rewrite <- (domainOf_domains _ _ k Hd). exact Hw. }
    assert (Hgood0 : goodAssignment (solver h0) (assignment h0)).
    { rewrite Ha. apply (goodAssignment_transfer (solver h)); congruence. }
    destruct (P5 Hr (Hch Hno) HQ0 Hgood0) as (R1 & R2 & R3).
    split; [ | split; congruence ].
    apply (goodAssignment_transfer (solver h0)); congruence.
Qed.

(** Extending a good assignment by a value [isConsistent] accepts. *)
Lemma goodAssignment_extend s a var value :
  goodTable (constraints s) ->
  goodAssignment s a ->
  ~ In var (Obj.keys a) -> In var (Obj.keys (domains s)) -> Q var value ->
  isConsistent s var value a = true ->
  goodAssignment s (Obj.set var value a).
Proof.
  intros (Hsym & Hirr & _) (Hnd & Hvals & Hm) Hfresh Hkey HQ Hcons.
  split; [ apply Obj.NoDup_keys_set; exact Hnd | split ].
  - intros k v. rewrite Obj.get_set. destruct (eq_dec k var) as [E | E].
    + intros Ev. inversion Ev; subst. split; [ exact Hkey | split; [ exact HQ | ] ].
      apply isConsistent_preFilled with (a := a). exact Hcons.
    + apply Hvals.
  - intros k1 v1 k2 v2. rewrite !Obj.get_set.
    destruct (eq_dec k1 var) as [E1 | E1]; destruct (eq_dec k2 var) as [E2 | E2];
      intros H1 H2.
    + subst. apply wordsMatch_no_arc. apply Hirr.
    + inversion H1; subst. eapply isConsistent_assigned; eauto.
    + inversion H2; subst. apply wordsMatch_mirror; [ exact Hsym | ].
      eapply isConsistent_assigned; eauto.
    + eapply Hm; eauto.
Qed.

Section Loop.
Variable recur : Search -> option (bool * Search).
Hypothesis recur_spec : forall h r h',
  goodTable (constraints (solver h)) -> recur h = Some (r, h') -> searchPost h r h'.
Variable varToAssign : string.
Variable key : list (string * string).

Lemma tryValues_spec values : forall h r h',
  goodTable (constraints (solver h)) ->
  ~ In varToAssign (Obj.keys (assignment h)) ->
  In varToAssign (Obj.keys (domains (solver h))) ->
  (forall v, In v values -> In v (domainOf (solver h) varToAssign)) ->
  tryValues recur varToAssign key values h = Some (r, h') ->
  searchPost h r h'.
Proof.
  induction values as [ | value rest IH ]; intros h r h' Htable Hfresh Hkey Hvalues Hrun.
  - simpl in Hrun. inversion Hrun; subst. unfold searchPost. simpl.
    split; [ reflexivity | split; [ reflexivity | split; [ auto | split ] ] ].
    + intros _. split; [ reflexivity | split; [ reflexivity | apply noTrue_set_false ] ].
    + discriminate.
  - cbn [tryValues] in Hrun.
    assert (Hrest : forall v, In v rest -> In v (domainOf (solver h) varToAssign))
      by (intros v Hv; apply Hvalues; right; exact Hv).
    destruct (isConsistent (solver h) varToAssign value (assignment h)) eqn:Hcons;
      [ | apply IH; assumption ].
    pose proof (forwardCheck_succeeds (solver h) varToAssign value (assignment h)
                  (proj2 (proj2 Htable) varToAssign) Hcons) as Hfc.
    pose proof (forwardCheckLoop_frame varToAssign value
                  (Obj.set varToAssign value (assignment h))
                  (Obj.keys (neighborsOf (constraints (solver h)) varToAssign)) []
                  (solver h)) as Hframe.
    cbv zeta in Hframe. fold (forwardCheck varToAssign value
                                 (Obj.set varToAssign value (assignment h)) (solver h)) in Hframe.
    destruct (forwardCheck varToAssign value (Obj.set varToAssign value (assignment h))
                (solver h)) as [inf s1] eqn:Hfwd.
    simpl in Hfc, Hframe, Hrun. destruct Hframe as (F1 & F2 & F3 & _).
    destruct inf as [inf | ]; [ | congruence ].
    pose proof (forwardCheck_restore _ _ _ _ _ _ (proj2 (proj2 Htable) varToAssign) Hfwd)
      as Hrestore.
    pose proof (static_eq _ _ F1) as (_ & _ & Hc1 & _).
    destruct (recur (mkSearch s1 (Obj.set varToAssign value (assignment h)) (cache h)))
      as [[[ | ] h2] | ] eqn:Hrec; [ | | discriminate ].
    + (* the recursive call succeeded *)
      inversion Hrun; subst r h'. clear Hrun.
      apply recur_spec in Hrec; [ | simpl; rewrite Hc1; exact Htable ].
      destruct Hrec as (P1 & P2 & P3 & _ & P5). simpl in *.
      unfold searchPost. simpl.
      split; [ congruence | split; [ congruence | split; [ | split ] ] ].
      * intros k w Hw. apply F3. apply P3. exact Hw.
      * discriminate.
      * intros _ Hno HQ Hgood.
        assert (HQ1 : domainsSatisfy s1) by (intros k w Hw; apply HQ; apply F3; exact Hw).
        assert (Hgood1 : goodAssignment s1 (Obj.set varToAssign value (assignment h))).
        { apply (goodAssignment_transfer (solver h)); [ exact F1 | exact F2 | ].
          apply goodAssignment_extend; try assumption.
          apply HQ. apply Hvalues. left. reflexivity. }
        destruct (P5 eq_refl Hno HQ1 Hgood1) as (R1 & R2 & R3).
        pose proof (static_eq _ _ F1) as (_ & Hs1 & _ & _).
        split; [ | split; congruence ].
        apply (goodAssignment_transfer s1); congruence.
    + (* the recursive call failed: undo and try the next value *)
      apply recur_spec in Hrec; [ | simpl; rewrite Hc1; exact Htable ].
      destruct Hrec as (P1 & P2 & _ & P4 & _). simpl in *.
      destruct (P4 eq_refl) as (Q1 & Q2 & Q3).
      assert (Hd : applyWrites inf (domains (solver h2)) = domains (solver h))
        by (rewrite Q1; exact Hrestore).
      assert (Ha : Obj.delete varToAssign (assignment h2) = assignment h)
        by (rewrite Q2; apply Obj.delete_set_absent; exact Hfresh).
      apply (searchPost_transfer
               (mkSearch (setDomains (fold_left (fun d vd => Obj.set (fst vd) (snd vd) d) inf
                                                (domains (solver h2))) (solver h2))
                         (Obj.delete varToAssign (assignment h2)) (cache h2))).
      * simpl. unfold static in *. simpl. congruence.
      * simpl. exact Hd.
      * simpl. exact Ha.
      * simpl. exact Q3.
      * apply IH; simpl; try assumption.
        -- unfold static in P1, F1. inversion P1. inversion F1. congruence.
        -- rewrite Ha. exact Hfresh.
        -- fold (applyWrites inf (domains (solver h2))). rewrite Hd. exact Hkey.
        -- intros v Hv. apply Hrest in Hv. unfold domainOf in *. simpl.
           fold (applyWrites inf (domains (solver h2))). rewrite Hd. exact Hv.
Qed.

End Loop.

Variable random : nat -> nat.

Lemma backtrackingSolveFrom_spec fuel : forall h r h',
  goodTable (constraints (solver h)) ->
  backtrackingSolveFrom random fuel h = Some (r, h') ->
  searchPost h r h'.
Proof.
  induction fuel as [ | fuel IH ]; intros h r h' Htable Hrun; [ discriminate | ].
  cbn [backtrackingSolveFrom] in Hrun.
  destruct (Nat.eqb_spec (length (Obj.keys (assignment h)))
                         (length (Obj.keys (slots (solver h))))) as [Hall | Hnot].
  - inversion Hrun; subst r h'. unfold searchPost. simpl.
    split; [ reflexivity | split; [ reflexivity | split; [ auto | split ] ] ].
    + discriminate.
    + intros _ _ _ Hgood. split; [ exact Hgood | split; [ reflexivity | exact Hall ] ].
  - destruct (Obj.get (assignmentKey (assignment h)) (cache h)) as [cached | ] eqn:Hcache.
    + inversion Hrun; subst r h'. unfold searchPost. simpl.
      split; [ reflexivity | split; [ reflexivity | split; [ auto | split ] ] ].
      * intros _. auto.
      * intros -> Hno. exfalso. apply (Hno _ Hcache).
    + pose proof (selectUnassignedVariable_frame random
                    (setRecursiveCalls (S (recursiveCalls (solver h))) (solver h))
                    (assignment h)) as [Hst0 Hd0].
      pose proof (selectUnassignedVariable_spec random
                    (setRecursiveCalls (S (recursiveCalls (solver h))) (solver h))
                    (assignment h)) as Hsel0.
      destruct (selectUnassignedVariable random
                  (setRecursiveCalls (S (recursiveCalls (solver h))) (solver h))
                  (assignment h)) as [v s2] eqn:Hselect.
      cbn [fst snd] in Hrun, Hst0, Hd0, Hsel0.
      assert (Hst : static s2 = static (solver h)) by exact Hst0.
      assert (Hd : domains s2 = domains (solver h)) by exact Hd0.
      assert (Hsel : forall v0, v = Some v0 ->
                       In v0 (Obj.keys (domains (solver h)))
                       /\ ~ In v0 (Obj.keys (assignment h))) by exact Hsel0.
      clear Hst0 Hd0 Hsel0.
      assert (Hfail : forall r0 h0,
                 Some (false, mkSearch s2 (assignment h)
                                (Obj.set (assignmentKey (assignment h)) false (cache h)))
                 = Some (r0, h0) -> searchPost h r0 h0).
      { intros r0 h0 E. inversion E; subst r0 h0. unfold searchPost. simpl.
        split; [ exact Hst | split; [ rewrite Hd; reflexivity | split; [ | split ] ] ].
        - intros k w Hw. rewrite (domainOf_domains _ _ k Hd) in Hw. exact Hw.
        - intros _. split; [ exact Hd | split; [ reflexivity | apply noTrue_set_false ] ].
        - discriminate. }
      destruct v as [var | ]; [ | apply Hfail; exact Hrun ].
      destruct (eqb_of var EmptyString); [ apply Hfail; exact Hrun | ].
      destruct (Hsel var eq_refl) as [Hkey Hfresh].
      pose proof (orderDomainValues_frame random var s2) as [Hst' Hd'].
      apply tryValues_spec with (recur := backtrackingSolveFrom random fuel) in Hrun.
      * apply (searchPost_transfer _ h _ _) in Hrun; cbn [solver assignment cache];
          auto; congruence.
      * exact IH.
      * cbn [solver]. apply static_eq in Hst. apply static_eq in Hst'.
        destruct Hst as (_ & _ & Hc & _). destruct Hst' as (_ & _ & Hc' & _).
        rewrite Hc', Hc. exact Htable.
      * cbn [assignment]. exact Hfresh.
      * cbn [solver]. rewrite Hd', Hd. exact Hkey.
      * cbn [solver]. intros v Hv. apply orderDomainValues_In in Hv.
        rewrite (domainOf_domains _ _ var Hd'). exact Hv.
Qed.

End SearchSpec.

(* ================================================================== *)
(** * The table of a grid is a good table *)
(* ================================================================== *)

Lemma neighborsOf_pushOverlap c a b p a' :
  neighborsOf (pushOverlap c a b p) a'
  = if eq_dec a' a then Obj.set b (overlapsOf c a b ++ [p]) (neighborsOf c a)
    else neighborsOf c a'.
Proof. rewrite pushOverlap_eq. apply neighborsOf_set. Qed.

Lemma pushOverlap_NoDup c a b p :
  (forall x, NoDup (Obj.keys (neighborsOf c x))) ->
  forall x, NoDup (Obj.keys (neighborsOf (pushOverlap c a b p) x)).
Proof.
  intros Hnd x. rewrite neighborsOf_pushOverlap.
  destruct (eq_dec x a); [ apply Obj.NoDup_keys_set | ]; apply Hnd.
Qed.

Lemma generateConstraints_NoDup slotMap x :
  NoDup (Obj.keys (neighborsOf (generateConstraints slotMap) x)).
Proof.
  unfold generateConstraints. rewrite fold_constraintsStep.
  assert (Hgen : forall ees c,
             (forall y, NoDup (Obj.keys (neighborsOf c y))) ->
             forall y, NoDup (Obj.keys (neighborsOf (fold_left recordOverlap ees c) y))).
  { induction ees as [ | [[sa ia] [sb ib]] ees IH ]; intros c Hc y; simpl; [ apply Hc | ].
    apply IH. intros z. apply pushOverlap_NoDup. apply pushOverlap_NoDup. exact Hc. }
  apply Hgen. intros y. constructor.
Qed.

Lemma prepared_goodTable s : prepared s -> goodTable (constraints s).
Proof.
  intros Hprep. split; [ apply prepared_symmetric; exact Hprep | split ].
  - apply prepared_irreflexive. exact Hprep.
  - intros a. destruct Hprep as (_ & _ & Hc & _). rewrite Hc. apply generateConstraints_NoDup.
Qed.

(** ** Every shared cell is an overlap *)

Lemma overlapPairs_complete (l : list Entry) x y :
  In x l -> In y l -> x <> y -> In (x, y) (overlapPairs l) \/ In (y, x) (overlapPairs l).
Proof.
  induction l as [ | e l IH ]; simpl; [ tauto | ].
  intros [Ex | Hx] [Ey | Hy] Hne.
  - congruence.
  - subst e. left. apply in_or_app. left. apply in_map. exact Hy.
  - subst e. right. apply in_or_app. left. apply in_map. exact Hx.
  - destruct (IH Hx Hy Hne) as [H | H]; [ left | right ]; apply in_or_app; right; exact H.
Qed.

Lemma generateConstraints_complete (slotMap : Slots) a b pa pb i j p :
  NoDup (Obj.keys slotMap) ->
  a <> b ->
  Obj.get a slotMap = Some pa -> Obj.get b slotMap = Some pb ->
  nth_error pa i = Some p -> nth_error pb j = Some p ->
  In (i, j) (overlapsOf (generateConstraints slotMap) a b).
Proof.
  intros Hnd Hne Ha Hb Hi Hj. rewrite generateConstraints_overlaps.
  assert (Hea : In (a, i) (entriesAt (buildPositionMap slotMap) p)).
  { rewrite entriesAt_buildPositionMap. apply entries_In; [ exact Hnd | ]. exists pa. auto. }
  assert (Heb : In (b, j) (entriesAt (buildPositionMap slotMap) p)).
  { rewrite entriesAt_buildPositionMap. apply entries_In; [ exact Hnd | ]. exists pb. auto. }
  unfold entriesAt in Hea, Heb.
  destruct (Obj.get p (buildPositionMap slotMap)) as [es | ] eqn:Hget; [ | contradiction ].
  apply Obj.get_In in Hget.
  assert (Hpair : (a, i) <> (b, j)) by congruence.
  apply in_flat_map.
  destruct (overlapPairs_complete es _ _ Hea Heb Hpair) as [H | H].
  - exists ((a, i), (b, j)). split.
    + unfold allOverlaps. apply in_flat_map. exists (p, es). auto.
    + unfold contribution. simpl. destruct (eq_dec (a, b) (a, b)); [ | congruence ].
      left. reflexivity.
  - exists ((b, j), (a, i)). split.
    + unfold allOverlaps. apply in_flat_map. exists (p, es). auto.
    + unfold contribution. simpl. apply in_or_app. right.
      destruct (eq_dec (a, b) (a, b)); [ | congruence ]. left. reflexivity.
Qed.

(* ================================================================== *)
(** * Search: failure restores, success does not *)
(* ================================================================== *)

(** C2, as the code has it.  In a state set up from a grid, whenever
    an invocation of [backtrackingSolve] returns [false], every domain
    it or its nested invocations pruned by forward checking is back to
    the contents it had before the invocation, and so is the
    assignment.  (A return with [true] restores nothing.) *)
Theorem backtrackingSolve_failure_restores
  (random : nat -> nat) (fuel : nat) (h h' : Search) :
  prepared (solver h) ->
  backtrackingSolveFrom random fuel h = Some (false, h') ->
  domains (solver h') = domains (solver h) /\ assignment h' = assignment h.
Proof.
  intros Hprep Hrun.
  apply (backtrackingSolveFrom_spec (fun _ _ => True)) in Hrun;
    [ | apply prepared_goodTable; exact Hprep ].
  destruct Hrun as (_ & _ & _ & Hfail & _). destruct (Hfail eq_refl) as (H1 & H2 & _). auto.
Qed.

(* ================================================================== *)
(** * Search: the recursion is as deep as there are slots *)
(* ================================================================== *)

Lemma keys_length_set_absent (a : Assignment) k v :
  ~ In k (Obj.keys a) -> length (Obj.keys (Obj.set k v a)) = S (length (Obj.keys a)).
Proof.
  intros Hn. rewrite Obj.keys_set_absent by exact Hn. rewrite length_app. simpl. lia.
Qed.

Section SearchTermination.
Variable random : nat -> nat.

Section LoopTermination.
Variable recur : Search -> option (bool * Search).
Variable budget : nat.
Hypothesis recur_total : forall h,
  goodTable (constraints (solver h)) ->
  length (Obj.keys (assignment h)) <= length (Obj.keys (slots (solver h))) ->
  length (Obj.keys (slots (solver h))) - length (Obj.keys (assignment h)) < budget ->
  exists r, recur h = Some r.
Hypothesis recur_spec : forall h r h',
  goodTable (constraints (solver h)) -> recur h = Some (r, h') ->
  searchPost (fun _ _ => True) h r h'.
Variable varToAssign : string.
Variable key : list (string * string).

Lemma tryValues_terminates values : forall h,
  goodTable (constraints (solver h)) ->
  ~ In varToAssign (Obj.keys (assignment h)) ->
  length (Obj.keys (assignment h)) < length (Obj.keys (slots (solver h))) ->
  length (Obj.keys (slots (solver h))) - length (Obj.keys (assignment h)) <= budget ->
  exists r, tryValues recur varToAssign key values h = Some r.
Proof.
  induction values as [ | value rest IH ]; intros h Htable Hfresh Hlt Hbudget.
  - simpl. eauto.
  - cbn [tryValues].
    destruct (isConsistent (solver h) varToAssign value (assignment h));
      [ | apply IH; assumption ].
    pose proof (forwardCheckLoop_frame varToAssign value
                  (Obj.set varToAssign value (assignment h))
                  (Obj.keys (neighborsOf (constraints (solver h)) varToAssign)) []
                  (solver h)) as Hframe.
    cbv zeta in Hframe. fold (forwardCheck varToAssign value
                                 (Obj.set varToAssign value (assignment h)) (solver h)) in Hframe.
    destruct (forwardCheck varToAssign value (Obj.set varToAssign value (assignment h))
                (solver h)) as [inf s1].
    cbn [fst snd] in *. destruct Hframe as (F1 & _).
    pose proof (static_eq _ _ F1) as (_ & Hs1 & Hc1 & _).
    pose proof (keys_length_set_absent (assignment h) varToAssign value Hfresh) as Hlen.
    pose proof (Obj.delete_set_absent varToAssign value (assignment h) Hfresh) as Hdel.
    destruct inf as [inf | ].
    + assert (Htable1 : goodTable (constraints s1)) by (rewrite Hc1; exact Htable).
      destruct (recur_total (mkSearch s1 (Obj.set varToAssign value (assignment h)) (cache h)))
        as [[r h2] Hrec]; cbn [solver assignment cache]; try rewrite Hs1; try rewrite Hlen;
        try assumption; try lia.
      rewrite Hrec. destruct r; [ eauto | ].
      apply recur_spec in Hrec; [ | exact Htable1 ].
      destruct Hrec as (P1 & _ & _ & P4 & _). destruct (P4 eq_refl) as (_ & Q2 & _).
      cbn [solver assignment cache] in *.
      pose proof (static_eq _ _ P1) as (_ & Hs2 & Hc2 & _).
      apply IH; cbn [solver assignment cache restoreDomains slots constraints setDomains];
        rewrite ?Q2, ?Hdel, ?Hs2, ?Hs1, ?Hc2, ?Hc1; assumption.
    + apply IH; cbn [solver assignment cache restoreDomains];
        rewrite ?Hdel, ?Hs1, ?Hc1; assumption.
Qed.

End LoopTermination.

Lemma backtrackingSolveFrom_terminates fuel : forall h,
  goodTable (constraints (solver h)) ->
  length (Obj.keys (assignment h)) <= length (Obj.keys (slots (solver h))) ->
  length (Obj.keys (slots (solver h))) - length (Obj.keys (assignment h)) < fuel ->
  exists r, backtrackingSolveFrom random fuel h = Some r.
Proof.
  induction fuel as [ | fuel IH ]; intros h Htable Hle Hfuel; [ lia | ].
  cbn [backtrackingSolveFrom].
  destruct (Nat.eqb_spec (length (Obj.keys (assignment h)))
                         (length (Obj.keys (slots (solver h))))) as [Hall | Hnot];
    [ eauto | ].
  destruct (Obj.get (assignmentKey (assignment h)) (cache h)); [ eauto | ].
  pose proof (selectUnassignedVariable_frame random
                (setRecursiveCalls (S (recursiveCalls (solver h))) (solver h))
                (assignment h)) as [Hst0 _].
  pose proof (selectUnassignedVariable_spec random
                (setRecursiveCalls (S (recursiveCalls (solver h))) (solver h))
                (assignment h)) as Hsel.
  destruct (selectUnassignedVariable random
              (setRecursiveCalls (S (recursiveCalls (solver h))) (solver h))
              (assignment h)) as [v s2].
  cbn [fst snd] in *.
  assert (Hst : static s2 = static (solver h)) by exact Hst0.
  destruct v as [var | ]; [ | eauto ].
  destruct (eqb_of var EmptyString); [ eauto | ].
  destruct (Hsel var eq_refl) as [_ Hfresh].
  pose proof (orderDomainValues_frame random var s2) as [Hst' _].
  apply static_eq in Hst. apply static_eq in Hst'.
  destruct Hst as (_ & Hs & Hc & _). destruct Hst' as (_ & Hs' & Hc' & _).
  apply tryValues_terminates with (budget := fuel).
  - exact IH.
  - intros h0 r h0' Htable0 Hrun.
    apply (backtrackingSolveFrom_spec (fun _ _ => True) random fuel); assumption.
  - cbn [solver]. rewrite Hc', Hc. exact Htable.
  - cbn [assignment]. exact Hfresh.
  - cbn [solver assignment]. rewrite Hs', Hs. lia.
  - cbn [solver assignment]. rewrite Hs', Hs. lia.
Qed.

(** [backtrackingSolve] returns. *)
Lemma backtrackingSolve_terminates s :
  goodTable (constraints s) -> exists r, backtrackingSolve random s = Some r.
Proof.
  intros Htable. unfold backtrackingSolve. apply backtrackingSolveFrom_terminates; simpl.
  - exact Htable.
  - lia.
  - lia.
Qed.

End SearchTermination.

(* ================================================================== *)
(** * The solve pipeline *)
(* ================================================================== *)

Lemma static_more s s' :
  static s' = static s ->
  wordLengthCache s' = wordLengthCache s /\ words s' = words s /\ isSolving s' = isSolving s.
Proof. unfold static. intros E. inversion E. auto. Qed.

Lemma revise_isSolving a b s : isSolving (snd (revise a b s)) = isSolving s.
Proof.
  unfold revise.
  destruct (length (filter (supported (overlapsOf (constraints s) a b) (domainOf s b))
                           (domainOf s a)) <? length (domainOf s a)); reflexivity.
Qed.

Lemma ac3Loop_isSolving fuel : forall queue s r s',
  ac3Loop fuel queue s = Some (r, s') -> isSolving s' = isSolving s.
Proof.
  induction fuel as [ | fuel IH ]; intros queue s r s' Hrun.
  - destruct queue as [ | [x y] rest ]; simpl in Hrun; [ | discriminate ].
    inversion Hrun; reflexivity.
  - destruct queue as [ | [x y] rest ]; cbn [ac3Loop] in Hrun; [ inversion Hrun; reflexivity | ].
    pose proof (revise_isSolving x y s) as Hrev.
    destruct (fst (revise x y s)).
    + destruct (length (domainOf (snd (revise x y s)) x) =? 0).
      * inversion Hrun; subst. exact Hrev.
      * apply IH in Hrun. congruence.
    + apply IH in Hrun. congruence.
Qed.

Lemma ac3_static s r s' : ac3 s = Some (r, s') -> static s' = static s.
Proof.
  intros Hrun. pose proof (ac3Loop_isSolving _ _ _ _ _ Hrun) as Hi.
  destruct (ac3_frame _ _ _ Hrun) as (H1 & H2 & H3 & H4 & H5 & H6 & _).
  unfold static. congruence.
Qed.

Section Pipeline.
Variable random : nat -> nat.

Lemma randomizeDomains_frame s :
  static (randomizeDomains random s) = static s
  /\ Obj.keys (domains (randomizeDomains random s)) = Obj.keys (domains s)
  /\ forall k w, In w (domainOf (randomizeDomains random s) k) -> In w (domainOf s k).
Proof.
  unfold randomizeDomains.
  assert (Hgen : forall ks s0,
             (forall k, In k ks -> In k (Obj.keys (domains s0))) ->
             let s' := fold_left (fun s slot =>
                                    let r := shuffleArray random (domainOf s slot) (randomCalls s) in
                                    setRandomCalls (snd r)
                                      (setDomains (Obj.set slot (fst r) (domains s)) s))
                                 ks s0 in
             static s' = static s0
             /\ Obj.keys (domains s') = Obj.keys (domains s0)
             /\ forall k w, In w (domainOf s' k) -> In w (domainOf s0 k)).
  { induction ks as [ | k0 ks IH ]; intros s0 Hks; cbv zeta; simpl; [ auto | ].
    set (s1 := setRandomCalls
                 (snd (shuffleArray random (domainOf s0 k0) (randomCalls s0)))
                 (setDomains (Obj.set k0 (fst (shuffleArray random (domainOf s0 k0)
                                                 (randomCalls s0))) (domains s0)) s0)).
    assert (Hk1 : Obj.keys (domains s1) = Obj.keys (domains s0)).
    { simpl. apply Obj.keys_set_present. apply Hks. left. reflexivity. }
    specialize (IH s1). cbv zeta in IH.
    destruct IH as (H1 & H2 & H3).
    { intros k Hk. rewrite Hk1. apply Hks. right. exact Hk. }
    split; [ rewrite H1; reflexivity | split; [ congruence | ] ].
    intros k w Hw. apply H3 in Hw. unfold s1, domainOf in Hw. simpl in Hw.
    rewrite Obj.get_set in Hw. destruct (eq_dec k k0) as [E | E]; [ | exact Hw ].
    subst k. apply shuffleArray_In in Hw. exact Hw. }
  apply Hgen. auto.
Qed.

Lemma prepared_static s s' :
  static s' = static s -> Obj.keys (domains s') = Obj.keys (domains s) ->
  prepared s -> prepared s'.
Proof.
  intros Hst Hk (Hv & Hs & Hc & Hcc & Hkeys).
  apply static_eq in Hst. destruct Hst as (H1 & H2 & H3 & H4).
  unfold prepared. rewrite H1, H2, H3, H4, Hk. auto.
Qed.

(** What the steps before the search keep: the set-up of the grid, and
    domains that only lose words. *)
Lemma prepareSearch_frame s b s2 :
  prepareSearch random s = Some (b, s2) ->
  static s2 = static s
  /\ Obj.keys (domains s2) = Obj.keys (domains s)
  /\ (forall k w, In w (domainOf s2 k) -> In w (domainOf s k))
  /\ recursiveCalls s2 = 0.
Proof.
  unfold prepareSearch. intros Hrun.
  destruct (randomizeDomains_frame s) as (R1 & R2 & R3).
  destruct (ac3 (updateStatus "Running AC-3 algorithm..." (randomizeDomains random s)))
    as [[ok s1] | ] eqn:Hac3; [ | discriminate ].
  pose proof (ac3_static _ _ _ Hac3) as A0.
  destruct (ac3_frame _ _ _ Hac3) as (_ & _ & _ & _ & _ & _ & A7 & A8).
  inversion Hrun; subst b s2. clear Hrun.
  assert (Hs : static s1 = static s) by (rewrite A0; exact R1).
  assert (Hk : Obj.keys (domains s1) = Obj.keys (domains s)) by (rewrite A7; exact R2).
  assert (Hsub : forall k w, In w (domainOf s1 k) -> In w (domainOf s k)).
  { intros k w Hw. apply R3. apply A8 in Hw. exact Hw. }
  destruct (negb ok || hasEmptyDomain s1); repeat split; assumption.
Qed.

Lemma prepareSearch_terminates s : exists r, prepareSearch random s = Some r.
Proof.
  unfold prepareSearch.
  destruct (ac3_terminates (updateStatus "Running AC-3 algorithm..." (randomizeDomains random s)))
    as [[ok s1] Hac3].
  rewrite Hac3. eauto.
Qed.

Lemma prepareSearch_prepared s b s2 :
  prepared s -> prepareSearch random s = Some (b, s2) -> prepared s2.
Proof.
  intros Hprep Hrun. destruct (prepareSearch_frame _ _ _ Hrun) as (H1 & H2 & _).
  eapply prepared_static; eauto.
Qed.

(** [solveCrosswordThread] returns: no loop of the pipeline runs out of
    fuel. *)
Lemma solveCrosswordThread_returns s : exists s', solveCrosswordThread random s = Some s'.
Proof.
  unfold solveCrosswordThread.
  destruct (validateGrid (grid s)) eqn:Hvalid; cbn [negb]; [ | eauto ].
  destruct (length (Obj.keys (slots (generateSlots s))) =? 0); [ eauto | ].
  destruct (prepareSearch_terminates (generateSlots s)) as [[b s2] Hprep].
  rewrite Hprep.
  pose proof (prepareSearch_prepared _ _ _ (generateSlots_prepared s Hvalid) Hprep) as Hp2.
  destruct (backtrackingSolve_terminates random s2 (prepared_goodTable _ Hp2)) as [[r h] Hrun].
  rewrite Hrun. eauto.
Qed.

(** The status line of the AC-3 outcome. *)
Lemma prepareSearch_status s b s2 :
  prepareSearch random s = Some (b, s2) ->
  (b = false \/ hasEmptyDomain s2 = true) ->
  In "AC-3 failed or domains wiped out. Attempting backtracking..."%string (statusDisplay s2).
Proof.
  unfold prepareSearch. intros Hrun Hfail.
  destruct (ac3 (updateStatus "Running AC-3 algorithm..." (randomizeDomains random s)))
    as [[ok s1] | ]; [ | discriminate ].
  inversion Hrun; subst b s2. clear Hrun.
  assert (Hcond : negb ok || hasEmptyDomain s1 = true).
  { destruct Hfail as [-> | Hempty]; [ reflexivity | ].
    destruct (negb ok || hasEmptyDomain s1) eqn:E; [ reflexivity | ].
    apply orb_false_iff in E. destruct E as [_ E].
    unfold hasEmptyDomain in *. simpl in Hempty. congruence. }
  rewrite Hcond. simpl. apply in_or_app. right. left. reflexivity.
Qed.

(** C8.  When AC-3 returns [false] or leaves a slot with an empty
    domain, [solveCrosswordThread] logs it and goes on: it runs
    [backtrackingSolve] on the state AC-3 left, and what it reports (a
    solution, or no solution) is decided by the result of that search
    alone. *)
Theorem ac3_failure_not_terminal (s : Solver) (ac3Success : bool) (s2 : Solver) :
  validateGrid (grid s) = true ->
  Obj.keys (slots (generateSlots s)) <> [] ->
  prepareSearch random (generateSlots s) = Some (ac3Success, s2) ->
  ac3Success = false \/ hasEmptyDomain s2 = true ->
  In "AC-3 failed or domains wiped out. Attempting backtracking..."%string (statusDisplay s2)
  /\ exists result h,
       backtrackingSolve random s2 = Some (result, h)
       /\ solveCrosswordThread random s = Some (reportResult result (solver h))
       /\ (result = true ->
           In "Solution found with backtracking."%string
              (statusDisplay (reportResult result (solver h))))
       /\ (result = false ->
           In "No possible solution found."%string
              (statusDisplay (reportResult result (solver h)))).
Proof.
  intros Hvalid Hslots Hprep Hfail.
  split; [ eapply prepareSearch_status; eauto | ].
  pose proof (prepareSearch_prepared _ _ _ (generateSlots_prepared s Hvalid) Hprep) as Hp2.
  destruct (backtrackingSolve_terminates random s2 (prepared_goodTable _ Hp2)) as [[r h] Hrun].
  exists r, h. split; [ exact Hrun | split; [ | split ] ].
  - unfold solveCrosswordThread. rewrite Hvalid. cbn [negb].
    destruct (Nat.eqb_spec (length (Obj.keys (slots (generateSlots s)))) 0) as [E | E].
    + exfalso. apply Hslots. destruct (Obj.keys (slots (generateSlots s))); [ reflexivity | ].
      simpl in E. lia.
    + rewrite Hprep, Hrun. reflexivity.
  - intros ->. simpl. apply in_or_app. left. apply in_or_app. right. left. reflexivity.
  - intros ->. simpl. apply in_or_app. right. left. reflexivity.
Qed.

(** ** The busy flag *)

Lemma backtrackingSolve_static s r h :
  goodTable (constraints s) -> backtrackingSolve random s = Some (r, h) ->
  static (solver h) = static s.
Proof.
  intros Htable Hrun. unfold backtrackingSolve in Hrun.
  apply (backtrackingSolveFrom_spec (fun _ _ => True)) in Hrun; [ | exact Htable ].
  destruct Hrun as (Hst & _). exact Hst.
Qed.

Lemma solveCrosswordThread_isSolving s s' :
  solveCrosswordThread random s = Some s' -> isSolving s' = isSolving s.
Proof.
  unfold solveCrosswordThread.
  destruct (validateGrid (grid s)) eqn:Hvalid; cbn [negb].
  - destruct (length (Obj.keys (slots (generateSlots s))) =? 0).
    + intros E. inversion E. reflexivity.
    + destruct (prepareSearch random (generateSlots s)) as [[b s2] | ] eqn:Hprep;
        [ | discriminate ].
      pose proof (prepareSearch_prepared _ _ _ (generateSlots_prepared s Hvalid) Hprep) as Hp2.
      destruct (prepareSearch_frame _ _ _ Hprep) as (Hst & _).
      destruct (backtrackingSolve random s2) as [[r h] | ] eqn:Hrun; [ | discriminate ].
      apply backtrackingSolve_static in Hrun; [ | apply prepared_goodTable; exact Hp2 ].
      apply static_more in Hst. apply static_more in Hrun.
      destruct Hst as (_ & _ & Hi). destruct Hrun as (_ & _ & Hi').
      intros E. inversion E. destruct r; simpl; rewrite Hi', Hi; reflexivity.
  - intros E. inversion E. unfold reportInvalidGrid.
    destruct (length (grid s) =? 0); reflexivity.
Qed.

(** C9.  While a solve is in progress on an instance ([isSolving] is
    set), [solveCrossword] only raises the busy alert: it leaves every
    field of the solver as it is and starts no search.  Otherwise it
    sets the flag, which stays set until the solve has completed, and
    the [finally] callback clears it however the solve settled,
    fulfilled or rejected. *)
Theorem solveCrossword_busy_flag (s : Solver) :
  if isSolving s then
    solveCrossword random s
    = Some (alert "A puzzle is already being solved. Please wait." s, None)
  else
    exists s',
      solveCrossword random s = Some (s', Some Fulfilled)
      /\ solveCrosswordThread random
           (updateStatus "Setting up constraints..." (setIsSolving true s)) = Some s'
      /\ isSolving s' = true
      /\ forall settled, isSolving (solveCrosswordFinally settled s') = false.
Proof.
  unfold solveCrossword. destruct (isSolving s); [ reflexivity | ].
  destruct (solveCrosswordThread_returns
              (updateStatus "Setting up constraints..." (setIsSolving true s))) as [s' Hrun].
  exists s'. rewrite Hrun. split; [ reflexivity | split; [ reflexivity | split ] ].
  - apply solveCrosswordThread_isSolving in Hrun. rewrite Hrun. reflexivity.
  - intros settled. reflexivity.
Qed.

End Pipeline.

(* ================================================================== *)
(** * Soundness of a solution *)
(* ================================================================== *)

Lemma prepared_slot_run s slot ps :
  prepared s -> Obj.get slot (slots s) = Some ps ->
  NoDup ps
  /\ forall i r c, nth_error ps i = Some (r, c) -> r < rows (grid s) /\ c < cols (grid s).
Proof.
  intros (_ & Hs & _) Hget. rewrite Hs in Hget.
  destruct (identifySlots_run _ _ _ Hget) as (r0 & c0 & d & _ & _ & _ & _ & _ & Hrun & _).
  split; [ eapply maximalRun_NoDup; eauto | ].
  intros i r c Hnth. destruct (maximalRun_nth _ _ _ _ _ _ _ Hrun Hnth) as [Hp Hi].
  pose proof (maximalRun_open _ _ _ _ _ _ Hrun Hi) as Hopen. rewrite <- Hp in Hopen.
  apply isOpen_bounds in Hopen. exact Hopen.
Qed.

(** What [wordMatchesPreFilledLetters] checks, in terms of the grid. *)
Lemma wordMatchesPreFilledLetters_spec s slot ps w i r c :
  prepared s -> Obj.get slot (slots s) = Some ps ->
  wordMatchesPreFilledLetters s slot w = true ->
  nth_error ps i = Some (r, c) -> hasUpper (cellAt (grid s) r c) = true ->
  charAt w i = Some (cellAt (grid s) r c).
Proof.
  intros Hprep Hget Hmatch Hnth Hup.
  destruct (prepared_slot_run _ _ _ Hprep Hget) as [_ Hbounds].
  destruct (Hbounds _ _ _ Hnth) as [Hr Hc].
  destruct Hprep as (_ & _ & _ & Hcc & _).
  unfold wordMatchesPreFilledLetters, positionsOf in Hmatch. rewrite Hget in Hmatch.
  rewrite forallb_forall in Hmatch. apply In_indexed in Hnth.
  specialize (Hmatch _ Hnth). simpl in Hmatch.
  rewrite Hcc, fillCellContents_get in Hmatch by assumption.
  unfold cellEntry in Hmatch. simpl in Hmatch. rewrite Hup in Hmatch.
  pose proof (hasUpper_not_empty _ Hup) as Hne. apply eqb_of_false in Hne.
  rewrite Hne in Hmatch. apply eqb_of_true in Hmatch. congruence.
Qed.

Lemma solutionWrites_In s p x :
  In (p, x) (solutionWrites s) <->
  exists slot w i,
    In (slot, w) (solution s) /\ nth_error (positionsOf s slot) i = Some p /\ x = charAt w i.
Proof.
  unfold solutionWrites. rewrite in_flat_map. split.
  - intros ([slot w] & Hin & Hmap). apply in_map_iff in Hmap.
    destruct Hmap as ([q i] & E & Hqi). simpl in *. inversion E; subst.
    apply In_indexed in Hqi. exists slot, w, i. auto.
  - intros (slot & w & i & Hin & Hnth & ->). exists (slot, w). split; [ exact Hin | ].
    apply in_map_iff. exists (p, i). split; [ reflexivity | ]. apply In_indexed. exact Hnth.
Qed.

Section Soundness.
Variable random : nat -> nat.

(** Soundness for a state set up from its grid whose domains hold
    words of the right length. *)
Lemma backtrackingSolve_good s h :
  prepared s ->
  (forall k w, In w (domainOf s k) -> String.length w = length (positionsOf s k)) ->
  backtrackingSolve random s = Some (true, h) ->
  static (solver h) = static s
  /\ NoDup (Obj.keys (solution (solver h)))
  /\ (forall slot ps, Obj.get slot (slots s) = Some ps ->
        exists w, Obj.get slot (solution (solver h)) = Some w
                  /\ String.length w = length ps
                  /\ wordMatchesPreFilledLetters s slot w = true)
  /\ (forall k, In k (Obj.keys (solution (solver h))) -> In k (Obj.keys (slots s)))
  /\ matchedAssignment s (solution (solver h)).
Proof.
  intros Hprep Hlen Hrun. unfold backtrackingSolve in Hrun.
  apply (backtrackingSolveFrom_spec
           (fun k w => String.length w = length (positionsOf s k))) in Hrun;
    [ | apply prepared_goodTable; exact Hprep ].
  destruct Hrun as (Hst & _ & _ & _ & Hok). cbn [solver assignment cache] in *.
  destruct Hok as ((Hnd & Hvals & Hmatched) & Hsol & Hcount).
  - reflexivity.
  - intros key. simpl. discriminate.
  - exact Hlen.
  - split; [ constructor | split ].
    + intros k v E. discriminate.
    + intros k1 v1 k2 v2 E. discriminate.
  - destruct Hprep as (_ & _ & _ & _ & Hkeys).
    assert (Hincl : incl (Obj.keys (assignment h)) (Obj.keys (slots s))).
    { intros k Hk. apply Obj.get_keys in Hk.
      destruct (Obj.get k (assignment h)) as [v | ] eqn:Hget; [ | congruence ].
      rewrite <- Hkeys. apply (Hvals k v Hget). }
    assert (Hall : incl (Obj.keys (slots s)) (Obj.keys (assignment h))).
    { apply NoDup_length_incl; [ exact Hnd | lia | exact Hincl ]. }
    rewrite Hsol.
    split; [ exact Hst | split; [ exact Hnd | split; [ | split ] ] ].
    + intros slot ps Hget.
      assert (Hk : In slot (Obj.keys (assignment h)))
        by (apply Hall; eapply Obj.get_Some_keys; eauto).
      apply Obj.get_keys in Hk.
      destruct (Obj.get slot (assignment h)) as [w | ] eqn:Hw; [ | congruence ].
      exists w. destruct (Hvals slot w Hw) as (_ & HQ & Hpre).
      unfold positionsOf in HQ. rewrite Hget in HQ. auto.
    + exact Hincl.
    + exact Hmatched.
Qed.

(** C1.  When the search of [solveCrosswordThread] returns [true], the
    solution gives every slot a word of the slot's length that carries
    every pre-filled letter of the slot, and two words agree wherever
    their slots share a cell; so the letters [displaySolution] writes
    are one per cell and leave every pre-filled letter in place. *)
Theorem backtrackingSolve_sound (s : Solver) (ac3Success : bool) (s2 : Solver) (h : Search) :
  validateGrid (grid s) = true ->
  wordLengthCache s = cacheWordsByLength (words s) ->
  prepareSearch random (generateSlots s) = Some (ac3Success, s2) ->
  backtrackingSolve random s2 = Some (true, h) ->
  (forall slot ps,
      Obj.get slot (slots (generateSlots s)) = Some ps ->
      exists w,
        Obj.get slot (solution (solver h)) = Some w
        /\ String.length w = length ps
        /\ forall i r c,
             nth_error ps i = Some (r, c) ->
             hasUpper (cellAt (grid s) r c) = true ->
             charAt w i = Some (cellAt (grid s) r c))
  /\ (forall slotA slotB psA psB wA wB i j p,
         Obj.get slotA (slots (generateSlots s)) = Some psA ->
         Obj.get slotB (slots (generateSlots s)) = Some psB ->
         Obj.get slotA (solution (solver h)) = Some wA ->
         Obj.get slotB (solution (solver h)) = Some wB ->
         nth_error psA i = Some p -> nth_error psB j = Some p ->
         String.get i wA = String.get j wB)
  /\ (forall p x y,
         In (p, x) (solutionWrites (solver h)) ->
         In (p, y) (solutionWrites (solver h)) -> x = y)
  /\ (forall r c x,
         In ((r, c), x) (solutionWrites (solver h)) ->
         hasUpper (cellAt (grid s) r c) = true ->
         x = Some (cellAt (grid s) r c)).
Proof.
  intros Hvalid Hcache Hprep Hrun.
  pose proof (generateSlots_prepared s Hvalid) as Hp1.
  pose proof (prepareSearch_prepared random _ _ _ Hp1 Hprep) as Hp2.
  destruct (prepareSearch_frame random _ _ _ Hprep) as (Hst2 & Hk2 & Hsub & _).
  pose proof (static_eq _ _ Hst2) as (Hg2 & Hs2 & Hc2 & Hcc2).
  assert (Hgrid : grid (generateSlots s) = grid s) by reflexivity.
  assert (Hlen : forall k w, In w (domainOf s2 k) -> String.length w = length (positionsOf s2 k)).
  { intros k w Hw. apply Hsub in Hw.
    assert (Hk : In k (Obj.keys (slots (generateSlots s)))).
    { rewrite <- domain_keys_generateSlots. apply domainOf_keys. intros E. rewrite E in Hw.
      contradiction. }
    apply Obj.get_keys in Hk.
    destruct (Obj.get k (slots (generateSlots s))) as [ps | ] eqn:Hget; [ | congruence ].
    destruct (domain_words_fit s k ps w Hcache Hget Hw) as [Hl _].
    unfold positionsOf. rewrite Hs2, Hget. exact Hl. }
  destruct (backtrackingSolve_good s2 h Hp2 Hlen Hrun) as (Hst & Hnd & Hall & Hkeys & Hmatched).
  assert (Hslot : forall slot ps,
             Obj.get slot (slots (generateSlots s)) = Some ps ->
             exists w,
               Obj.get slot (solution (solver h)) = Some w
               /\ String.length w = length ps
               /\ forall i r c,
                    nth_error ps i = Some (r, c) ->
                    hasUpper (cellAt (grid s) r c) = true ->
                    charAt w i = Some (cellAt (grid s) r c)).
  { intros slot ps Hget. rewrite <- Hs2 in Hget.
    destruct (Hall slot ps Hget) as (w & Hw & Hl & Hpre).
    exists w. split; [ exact Hw | split; [ exact Hl | ] ].
    intros i r c Hnth Hup. rewrite <- Hgrid, <- Hg2 in *.
    eapply wordMatchesPreFilledLetters_spec; eauto. }
  assert (Hshare : forall slotA slotB psA psB wA wB i j p,
             Obj.get slotA (slots (generateSlots s)) = Some psA ->
             Obj.get slotB (slots (generateSlots s)) = Some psB ->
             Obj.get slotA (solution (solver h)) = Some wA ->
             Obj.get slotB (solution (solver h)) = Some wB ->
             nth_error psA i = Some p -> nth_error psB j = Some p ->
             String.get i wA = String.get j wB).
  { intros slotA slotB psA psB wA wB i j p HA HB HwA HwB Hi Hj.
    destruct (eq_dec slotA slotB) as [E | E].
    - subst slotB. assert (psB = psA) by congruence. assert (wB = wA) by congruence. subst.
      rewrite <- Hs2 in HA. destruct (prepared_slot_run _ _ _ Hp2 HA) as [Hndps _].
      rewrite (NoDup_nth_error_inj _ _ _ _ Hndps Hi Hj). reflexivity.
    - pose proof (Hmatched slotA wA slotB wB HwA HwB) as Hm.
      unfold wordsMatch in Hm. rewrite forallb_forall in Hm.
      assert (Hin : In (i, j) (overlapsOf (constraints s2) slotA slotB)).
      { rewrite Hc2, constraints_generateSlots. rewrite slots_generateSlots in HA, HB.
        eapply generateConstraints_complete; eauto. apply identifySlots_NoDup. }
      specialize (Hm _ Hin). simpl in Hm. apply eqb_of_true in Hm. exact Hm. }
  assert (Hwrite : forall p x,
             In (p, x) (solutionWrites (solver h)) ->
             exists slot ps w i,
               Obj.get slot (slots (generateSlots s)) = Some ps
               /\ Obj.get slot (solution (solver h)) = Some w
               /\ nth_error ps i = Some p /\ x = charAt w i).
  { intros p x Hin. apply solutionWrites_In in Hin.
    destruct Hin as (slot & w & i & Hsol & Hnth & Hx).
    apply Obj.In_get in Hsol; [ | exact Hnd ].
    pose proof (static_eq _ _ Hst) as (_ & Hsh & _ & _).
    unfold positionsOf in Hnth. rewrite Hsh, Hs2 in Hnth.
    destruct (Obj.get slot (slots (generateSlots s))) as [ps | ] eqn:Hget.
    - exists slot, ps, w, i. auto.
    - destruct i; discriminate. }
  split; [ exact Hslot | split; [ exact Hshare | split ] ].
  - intros p x y Hx Hy.
    destruct (Hwrite _ _ Hx) as (sa & pa & wa & i & Ha & Hwa & Hi & ->).
    destruct (Hwrite _ _ Hy) as (sb & pb & wb & j & Hb & Hwb & Hj & ->).
    unfold charAt. rewrite (Hshare _ _ _ _ _ _ _ _ _ Ha Hb Hwa Hwb Hi Hj). reflexivity.
  - intros r c x Hx Hup.
    destruct (Hwrite _ _ Hx) as (sa & pa & wa & i & Ha & Hwa & Hi & ->).
    destruct (Hslot _ _ Ha) as (w & Hw & _ & Hpre).
    assert (w = wa) by congruence. subst w. eapply Hpre; eauto.
Qed.

End Soundness.

(* ================================================================== *)
(** * Worked puzzles *)
(* ================================================================== *)

(** The first draw picks the first candidate, the second the second,
    and so on. *)
Definition countingRandom (k : nat) : nat := k.

(** A corner: [1ACROSS] along the top row and [1DOWN] along the left
    column share the top-left cell. *)
Definition smokeGrid : Grid :=
  [["1"; "."; "."]; ["."; "#"; "."]; ["."; "."; "#"]]%string.

Definition smokeSolver : Solver := newSolver smokeGrid ["CAT"; "CAR"; "TAR"; "TAB"]%string.

Definition smokeStart : Solver :=
  Eval vm_compute in
    match prepareSearch countingRandom (generateSlots smokeSolver) with
    | Some (_, s) => s
    | None => smokeSolver
    end.

Definition smokeFound : Search :=
  Eval vm_compute in
    match backtrackingSolve countingRandom smokeStart with
    | Some (_, h) => h
    | None => mkSearch smokeStart [] []
    end.

(** A hook: the last cell of [1ACROSS] is the first cell of [2DOWN]. *)
Definition hookGrid : Grid :=
  [["1"; "."; "2"]; ["#"; "#"; "."]; ["#"; "#"; "."]]%string.

Definition hookSolver : Solver := newSolver hookGrid ["CAT"; "DOG"; "TOP"]%string.

Definition hookAfterAc3 : Solver :=
  Eval vm_compute in
    match ac3 (generateSlots hookSolver) with
    | Some (_, s) => s
    | None => hookSolver
    end.

(** The same hook with no word that can follow another. *)
Definition deadHookSolver : Solver := newSolver hookGrid ["CAT"; "DOG"]%string.

Definition deadHookStart : Solver :=
  Eval vm_compute in
    match prepareSearch countingRandom (generateSlots deadHookSolver) with
    | Some (_, s) => s
    | None => deadHookSolver
    end.

(** A ring of four slots with two pre-filled letters and no solution;
    the search assigns [2DOWN], prunes its neighbours, fails one level
    down and undoes the pruning. *)
Definition ringGrid : Grid :=
  [["1"; "."; "2"]; ["."; "#"; "Y"]; ["3"; "M"; "."]]%string.

Definition ringGridSolver : Solver :=
  newSolver ringGrid ["ABC"; "AXP"; "CYS"; "PMQ"; "RMS"]%string.

Definition ringSearch : Search := mkSearch (generateSlots ringGridSolver) [] [].

Definition ringFailed : Search :=
  Eval vm_compute in
    match backtrackingSolveFrom countingRandom 5 ringSearch with
    | Some (_, h) => h
    | None => ringSearch
    end.

(** A pre-filled [A] in the middle of [1ACROSS]. *)
Definition letterSolver : Solver :=
  newSolver [["1"; "A"; "."]; ["."; "."; "."]; ["."; "."; "."]]%string
            ["CAT"; "CAR"; "BAT"; "COT"]%string.

Lemma backtrackingSolve_sound_witness :
  validateGrid (grid smokeSolver) = true
  /\ prepareSearch countingRandom (generateSlots smokeSolver) = Some (true, smokeStart)
  /\ backtrackingSolve countingRandom smokeStart = Some (true, smokeFound)
  /\ forall p x y,
       In (p, x) (solutionWrites (solver smokeFound)) ->
       In (p, y) (solutionWrites (solver smokeFound)) -> x = y.
Proof.
  assert (H1 : validateGrid (grid smokeSolver) = true) by reflexivity.
  assert (H2 : wordLengthCache smokeSolver = cacheWordsByLength (words smokeSolver))
    by reflexivity.
  assert (H3 : prepareSearch countingRandom (generateSlots smokeSolver)
               = Some (true, smokeStart)) by (vm_compute; reflexivity).
  assert (H4 : backtrackingSolve countingRandom smokeStart = Some (true, smokeFound))
    by (vm_compute; reflexivity).
  split; [ exact H1 | split; [ exact H3 | split; [ exact H4 | ] ] ].
  exact (proj1 (proj2 (proj2
           (backtrackingSolve_sound countingRandom smokeSolver true smokeStart smokeFound
                                    H1 H2 H3 H4)))).
Defined.

(** C2 as stated fails on a return with [true]: in the corner puzzle
    the search succeeds and the domain of [1DOWN], which forward
    checking pruned when [1ACROSS] was assigned, stays pruned. *)
Lemma backtrackingSolve_success_keeps_pruning :
  prepared smokeStart
  /\ backtrackingSolveFrom countingRandom 3 (mkSearch smokeStart [] []) = Some (true, smokeFound)
  /\ domainOf smokeStart "1DOWN" = ["CAT"; "TAR"; "CAR"; "TAB"]%string
  /\ domainOf (solver smokeFound) "1DOWN" = ["TAR"; "TAB"]%string
  /\ domains (solver smokeFound) <> domains smokeStart.
Proof.
  split; [ | split; [ | split; [ | split ] ] ].
  - repeat split; vm_compute; reflexivity.
  - vm_compute. reflexivity.
  - vm_compute. reflexivity.
  - vm_compute. reflexivity.
  - vm_compute. discriminate.
Qed.

Lemma backtrackingSolve_failure_restores_witness :
  prepared (solver ringSearch)
  /\ backtrackingSolveFrom countingRandom 5 ringSearch = Some (false, ringFailed)
  /\ recursiveCalls (solver ringFailed) = 2
  /\ domains (solver ringFailed) = domains (solver ringSearch)
  /\ assignment ringFailed = assignment ringSearch.
Proof.
  assert (H1 : prepared (solver ringSearch)) by (apply generateSlots_prepared; reflexivity).
  assert (H2 : backtrackingSolveFrom countingRandom 5 ringSearch = Some (false, ringFailed))
    by (vm_compute; reflexivity).
  split; [ exact H1 | split; [ exact H2 | split; [ reflexivity | ] ] ].
  exact (backtrackingSolve_failure_restores countingRandom 5 ringSearch ringFailed H1 H2).
Defined.

Lemma ac3_arc_consistent_witness :
  prepared (generateSlots hookSolver)
  /\ ac3 (generateSlots hookSolver) = Some (true, hookAfterAc3)
  /\ arc (constraints hookAfterAc3) "1ACROSS" "2DOWN" = Some [(2, 0)]
  /\ In "CAT"%string (domainOf hookAfterAc3 "1ACROSS")
  /\ exists w', In w' (domainOf hookAfterAc3 "2DOWN")
                /\ wordsMatch hookAfterAc3 "1ACROSS" "CAT" "2DOWN" w' = true.
Proof.
  assert (H1 : prepared (generateSlots hookSolver))
    by (apply generateSlots_prepared; reflexivity).
  assert (H2 : ac3 (generateSlots hookSolver) = Some (true, hookAfterAc3))
    by (vm_compute; reflexivity).
  assert (H3 : arc (constraints hookAfterAc3) "1ACROSS" "2DOWN" = Some [(2, 0)])
    by reflexivity.
  assert (H4 : In "CAT"%string (domainOf hookAfterAc3 "1ACROSS")) by (left; reflexivity).
  split; [ exact H1 | split; [ exact H2 | split; [ exact H3 | split; [ exact H4 | ] ] ] ].
  exact (ac3_arc_consistent (generateSlots hookSolver) hookAfterAc3 "1ACROSS" "2DOWN"
                            [(2, 0)] "CAT" H1 H2 H3 H4).
Defined.

Lemma revise_retains_iff_witness :
  prepared (generateSlots hookSolver)
  /\ arc (constraints (generateSlots hookSolver)) "1ACROSS" "2DOWN" = Some [(2, 0)]
  /\ In "DOG"%string (domainOf (generateSlots hookSolver) "1ACROSS")
  /\ (In "DOG"%string
         (domainOf (snd (revise "1ACROSS" "2DOWN" (generateSlots hookSolver))) "1ACROSS")
      <-> forall i j, In (i, j) [(2, 0)] ->
                      hasPartner (generateSlots hookSolver) "2DOWN" "DOG" i j).
Proof.
  assert (H1 : prepared (generateSlots hookSolver))
    by (apply generateSlots_prepared; reflexivity).
  assert (H2 : arc (constraints (generateSlots hookSolver)) "1ACROSS" "2DOWN" = Some [(2, 0)])
    by reflexivity.
  assert (H3 : In "DOG"%string (domainOf (generateSlots hookSolver) "1ACROSS"))
    by (right; left; reflexivity).
  split; [ exact H1 | split; [ exact H2 | split; [ exact H3 | ] ] ].
  exact (revise_retains_iff (generateSlots hookSolver) "1ACROSS" "2DOWN" [(2, 0)] "DOG"
                            H1 H2 H3).
Defined.

Lemma generateSlots_emits_runs_witness :
  validateGrid (grid smokeSolver) = true
  /\ forall name ps,
       Obj.get name (slots (generateSlots smokeSolver)) = Some ps ->
       In (name, ps) (slotWrites (grid smokeSolver)).
Proof.
  assert (H1 : validateGrid (grid smokeSolver) = true) by reflexivity.
  split; [ exact H1 | ].
  exact (proj1 (proj2 (generateSlots_emits_runs smokeSolver H1))).
Defined.

Lemma setupDomains_sound_witness :
  wordLengthCache letterSolver = cacheWordsByLength (words letterSolver)
  /\ Obj.get "1ACROSS"%string (slots (generateSlots letterSolver)) = Some [(0, 0); (0, 1); (0, 2)]
  /\ In "BAT"%string (domainOf (generateSlots letterSolver) "1ACROSS")
  /\ String.length "BAT" = 3
  /\ forall i r c,
       nth_error [(0, 0); (0, 1); (0, 2)] i = Some (r, c) ->
       hasUpper (cellAt (grid letterSolver) r c) = true ->
       charAt "BAT" i = Some (cellAt (grid letterSolver) r c).
Proof.
  assert (H1 : wordLengthCache letterSolver = cacheWordsByLength (words letterSolver))
    by reflexivity.
  assert (H2 : Obj.get "1ACROSS"%string (slots (generateSlots letterSolver))
               = Some [(0, 0); (0, 1); (0, 2)]) by reflexivity.
  assert (H3 : In "BAT"%string (domainOf (generateSlots letterSolver) "1ACROSS"))
    by (right; right; left; reflexivity).
  assert (H4 : forall r c,
             In (r, c) [(0, 0); (0, 1); (0, 2)] ->
             hasUpper (cellAt (grid letterSolver) r c) = true ->
             String.length (cellAt (grid letterSolver) r c) = 1).
  { intros r c [E | [E | [E | []]]] _; inversion E; reflexivity. }
  split; [ exact H1 | split; [ exact H2 | split; [ exact H3 | ] ] ].
  exact (setupDomains_sound letterSolver "1ACROSS" [(0, 0); (0, 1); (0, 2)] "BAT" H1 H2 H4 H3).
Defined.

Lemma ac3_failure_not_terminal_witness :
  validateGrid (grid deadHookSolver) = true
  /\ prepareSearch countingRandom (generateSlots deadHookSolver) = Some (false, deadHookStart)
  /\ In "AC-3 failed or domains wiped out. Attempting backtracking..."%string
        (statusDisplay deadHookStart)
  /\ exists result h,
       backtrackingSolve countingRandom deadHookStart = Some (result, h)
       /\ solveCrosswordThread countingRandom deadHookSolver
          = Some (reportResult result (solver h))
       /\ (result = true ->
           In "Solution found with backtracking."%string
              (statusDisplay (reportResult result (solver h))))
       /\ (result = false ->
           In "No possible solution found."%string
              (statusDisplay (reportResult result (solver h)))).
Proof.
  assert (H1 : validateGrid (grid deadHookSolver) = true) by reflexivity.
  assert (H2 : Obj.keys (slots (generateSlots deadHookSolver)) <> [])
    by (vm_compute; discriminate).
  assert (H3 : prepareSearch countingRandom (generateSlots deadHookSolver)
               = Some (false, deadHookStart)) by (vm_compute; reflexivity).
  split; [ exact H1 | split; [ exact H3 | ] ].
  exact (ac3_failure_not_terminal countingRandom deadHookSolver false deadHookStart
                                  H1 H2 H3 (or_introl eq_refl)).
Defined.

Lemma slots_cross_once_witness :
  validateGrid (grid ringGridSolver) = true
  /\ forall a b l,
       arc (constraints (generateSlots ringGridSolver)) a b = Some l -> length l = 1.
Proof.
  assert (H1 : validateGrid (grid ringGridSolver) = true) by reflexivity.
  split; [ exact H1 | ].
  exact (proj1 (proj2 (slots_cross_once ringGridSolver H1))).
Defined.

(* ================================================================== *)
(** * Shuffles and sorts rearrange, they never lose a word *)
(* ================================================================== *)

Lemma update_length {A : Type} (l : list A) : forall i x, length (update i x l) = length l.
Proof.
  induction l as [ | y l IH ]; intros [ | i ] x; simpl; try reflexivity.
  rewrite IH. reflexivity.
Qed.

Lemma nth_error_update {A : Type} (l : list A) : forall i x k,
  nth_error (update i x l) k
  = if Nat.eq_dec k i then (if i <? length l then Some x else None) else nth_error l k.
Proof.
  induction l as [ | y l IH ]; intros i x k.
  - destruct i, k; simpl; try reflexivity; destruct (Nat.eq_dec _ _); reflexivity.
  - destruct i as [ | i ], k as [ | k ]; simpl; try reflexivity.
    rewrite IH. change (S i <? S (length l)) with (i <? length l).
    destruct (Nat.eq_dec k i) as [E | E]; destruct (Nat.eq_dec (S k) (S i)); try lia;
      reflexivity.
Qed.

(** The element read at [k] after [[a[i], a[j]] = [a[j], a[i]]]. *)
Lemma nth_error_swap {A : Type} (l : list A) i j k :
  i < length l -> j < length l ->
  nth_error (swap i j l) k
  = nth_error l (if Nat.eq_dec k i then j else if Nat.eq_dec k j then i else k).
Proof.
  intros Hi Hj. unfold swap.
  destruct (nth_error l i) as [x | ] eqn:Ex; [ | apply nth_error_None in Ex; lia ].
  destruct (nth_error l j) as [y | ] eqn:Ey; [ | apply nth_error_None in Ey; lia ].
  rewrite !nth_error_update, update_length.
  apply Nat.ltb_lt in Hi. apply Nat.ltb_lt in Hj. rewrite Hi, Hj.
  destruct (Nat.eq_dec k j) as [Ej | Ej]; destruct (Nat.eq_dec k i) as [Ei | Ei];
    subst; congruence.
Qed.

Lemma swap_Permutation {A : Type} (l : list A) i j : Permutation l (swap i j l).
Proof.
  destruct (lt_dec i (length l)) as [Hi | Hi];
    [ | unfold swap; rewrite (proj2 (nth_error_None l i)) by lia; reflexivity ].
  destruct (lt_dec j (length l)) as [Hj | Hj].
  2:{ unfold swap. rewrite (proj2 (nth_error_None l j)) by lia.
      destruct (nth_error l i); reflexivity. }
  apply Permutation_nth_error. split.
  - unfold swap. destruct (nth_error l i), (nth_error l j); try reflexivity.
    rewrite !update_length. reflexivity.
  - exists (fun k => if Nat.eq_dec k i then j else if Nat.eq_dec k j then i else k). split.
    + intros x y. destruct (Nat.eq_dec x i), (Nat.eq_dec x j), (Nat.eq_dec y i), (Nat.eq_dec y j);
        intros; subst; congruence.
    + intros k. apply nth_error_swap; assumption.
Qed.

Lemma insertSorted_Permutation {A : Type} (lt : A -> A -> bool) x l :
  Permutation (x :: l) (insertSorted lt x l).
Proof.
  induction l as [ | y l IH ]; simpl; [ reflexivity | ].
  destruct (lt x y); [ reflexivity | ].
  rewrite perm_swap. apply perm_skip. exact IH.
Qed.

Lemma fold_insertSorted_Permutation {A : Type} (lt : A -> A -> bool) l : forall acc,
  Permutation (l ++ acc) (fold_left (fun acc x => insertSorted lt x acc) l acc).
Proof.
  induction l as [ | x l IH ]; intros acc; simpl; [ reflexivity | ].
  rewrite <- IH. rewrite <- insertSorted_Permutation. apply Permutation_middle.
Qed.

Lemma sortBy_Permutation {A : Type} (lt : A -> A -> bool) l : Permutation l (sortBy lt l).
Proof.
  unfold sortBy. rewrite <- fold_insertSorted_Permutation, app_nil_r. reflexivity.
Qed.

Section ShufflePermutes.
Variable random : nat -> nat.

Lemma shuffleFrom_Permutation {A : Type} i : forall (a : list A) k,
  Permutation a (fst (shuffleFrom random i a k)).
Proof.
  induction i as [ | i IH ]; intros a k; simpl; [ reflexivity | ].
  rewrite <- IH. apply swap_Permutation.
Qed.

(** Each pass of the loop calls [Math.random] once. *)
Lemma shuffleFrom_calls {A : Type} i : forall (a : list A) k,
  snd (shuffleFrom random i a k) = k + i.
Proof.
  induction i as [ | i IH ]; intros a k; simpl; [ lia | ]. rewrite IH. lia.
Qed.

Lemma shuffleArray_Permutation {A : Type} (a : list A) k :
  Permutation a (fst (shuffleArray random a k)).
Proof. apply shuffleFrom_Permutation. Qed.

Lemma orderDomainValues_Permutation slot s :
  Permutation (domainOf s slot) (fst (orderDomainValues random slot s)).
Proof.
  unfold orderDomainValues. cbn [fst].
  rewrite <- shuffleArray_Permutation. apply sortBy_Permutation.
Qed.

End ShufflePermutes.

(* ================================================================== *)
(** * The constraint table lists the shared cells, and nothing else *)
(* ================================================================== *)

Lemma overlapPairs_neq (l : list Entry) x y : NoDup l -> In (x, y) (overlapPairs l) -> x <> y.
Proof.
  induction l as [ | e l IH ]; simpl; [ tauto | ].
  intros Hnd Hin. inversion Hnd as [ | ? ? Hnotin Hnd' ]; subst.
  apply in_app_or in Hin. destruct Hin as [Hin | Hin].
  - apply in_map_iff in Hin. destruct Hin as (y' & E & Hy). inversion E; subst. congruence.
  - apply IH; assumption.
Qed.

Lemma entriesOfSlot_NoDup key sp : NoDup (entriesOfSlot key sp).
Proof.
  unfold entriesOfSlot, indexed. generalize 0 as start.
  induction (snd sp) as [ | p ps IH ]; intros start; simpl; [ constructor | ].
  destruct (eq_dec key p) as [E | E]; simpl; [ | apply IH ].
  constructor; [ | apply IH ]. intros Hin. apply in_flat_map in Hin.
  destruct Hin as ([q k] & Hq & Hk). apply In_combine_seq in Hq. simpl in Hk.
  destruct (eq_dec key q); [ | contradiction ]. destruct Hk as [Hk | []].
  inversion Hk. lia.
Qed.

Lemma entries_NoDup key (slotMap : Slots) :
  NoDup (Obj.keys slotMap) -> NoDup (flat_map (entriesOfSlot key) slotMap).
Proof.
  induction slotMap as [ | sp slotMap IH ]; simpl; intros Hnd; [ constructor | ].
  inversion Hnd as [ | ? ? Hnotin Hnd' ]; subst.
  apply NoDup_app; [ apply entriesOfSlot_NoDup | apply IH; exact Hnd' | ].
  intros [a i] Hin1 Hin2. apply entriesOfSlot_In in Hin1. destruct Hin1 as [-> _].
  apply Hnotin. apply in_flat_map in Hin2. destruct Hin2 as (sp' & Hsp' & Hin).
  apply entriesOfSlot_In in Hin. destruct Hin as [E _]. rewrite E. apply in_map. exact Hsp'.
Qed.

(** Every index pair of [constraints[a][b]] comes from a cell that
    [slots[a]] and [slots[b]] both list. *)
Lemma generateConstraints_shared (slotMap : Slots) a b i j :
  NoDup (Obj.keys slotMap) ->
  In (i, j) (overlapsOf (generateConstraints slotMap) a b) ->
  (a, i) <> (b, j)
  /\ exists pa pb p,
       Obj.get a slotMap = Some pa /\ Obj.get b slotMap = Some pb
       /\ nth_error pa i = Some p /\ nth_error pb j = Some p.
Proof.
  intros Hnd Hin. rewrite generateConstraints_overlaps in Hin.
  apply in_flat_map in Hin. destruct Hin as ([x y] & Hxy & Hc).
  unfold allOverlaps in Hxy. apply in_flat_map in Hxy. destruct Hxy as ([key es] & Hke & Hxy).
  simpl in Hxy. apply buildPositionMap_In in Hke. subst es.
  pose proof (overlapPairs_neq _ _ _ (entries_NoDup key slotMap Hnd) Hxy) as Hne.
  apply overlapPairs_In in Hxy. destruct Hxy as [Hx Hy].
  destruct x as [xa xi], y as [ya yi].
  apply (entries_In key slotMap xa xi Hnd) in Hx. destruct Hx as (px & Hgx & Hnx).
  apply (entries_In key slotMap ya yi Hnd) in Hy. destruct Hy as (py & Hgy & Hny).
  unfold contribution in Hc. simpl in Hc. apply in_app_or in Hc.
  destruct Hc as [Hc | Hc].
  - destruct (eq_dec (a, b) (xa, ya)) as [E | E]; [ | contradiction ].
    destruct Hc as [Hc | []]. inversion E; inversion Hc; subst.
    split; [ exact Hne | ]. exists px, py, key. auto.
  - destruct (eq_dec (a, b) (ya, xa)) as [E | E]; [ | contradiction ].
    destruct Hc as [Hc | []]. inversion E; inversion Hc; subst.
    split; [ congruence | ]. exists py, px, key. auto.
Qed.

(** Conversely every cell two entries share is recorded. *)
Lemma generateConstraints_records (slotMap : Slots) a b pa pb i j p :
  NoDup (Obj.keys slotMap) ->
  (a, i) <> (b, j) ->
  Obj.get a slotMap = Some pa -> Obj.get b slotMap = Some pb ->
  nth_error pa i = Some p -> nth_error pb j = Some p ->
  In (i, j) (overlapsOf (generateConstraints slotMap) a b).
Proof.
  intros Hnd Hpair Ha Hb Hi Hj. rewrite generateConstraints_overlaps.
  assert (Hea : In (a, i) (entriesAt (buildPositionMap slotMap) p)).
  { rewrite entriesAt_buildPositionMap. apply entries_In; [ exact Hnd | ]. exists pa. auto. }
  assert (Heb : In (b, j) (entriesAt (buildPositionMap slotMap) p)).
  { rewrite entriesAt_buildPositionMap. apply entries_In; [ exact Hnd | ]. exists pb. auto. }
  unfold entriesAt in Hea, Heb.
  destruct (Obj.get p (buildPositionMap slotMap)) as [es | ] eqn:Hget; [ | contradiction ].
  apply Obj.get_In in Hget. apply in_flat_map.
  destruct (overlapPairs_complete es _ _ Hea Heb Hpair) as [H | H].
  - exists ((a, i), (b, j)). split.
    + unfold allOverlaps. apply in_flat_map. exists (p, es). auto.
    + unfold contribution. simpl. destruct (eq_dec (a, b) (a, b)); [ | congruence ].
      left. reflexivity.
  - exists ((b, j), (a, i)). split.
    + unfold allOverlaps. apply in_flat_map. exists (p, es). auto.
    + unfold contribution. simpl. apply in_or_app. right.
      destruct (eq_dec (a, b) (a, b)); [ | congruence ]. left. reflexivity.
Qed.

(** An arc that exists has an overlap. *)
Lemma generateConstraints_arc_In (slotMap : Slots) a b :
  arc (generateConstraints slotMap) a b <> None ->
  exists i j, In (i, j) (overlapsOf (generateConstraints slotMap) a b).
Proof.
  rewrite overlapsOf_arc, generateConstraints_arc.
  destruct (flat_map (contribution a b) (allOverlaps (buildPositionMap slotMap)))
    as [ | [i j] l ]; [ congruence | ].
  intros _. exists i, j. left. reflexivity.
Qed.

(** The two ends of an arc are slots. *)
Lemma generateConstraints_arc_slots (slotMap : Slots) a b :
  NoDup (Obj.keys slotMap) ->
  arc (generateConstraints slotMap) a b <> None ->
  In a (Obj.keys slotMap) /\ In b (Obj.keys slotMap).
Proof.
  intros Hnd Harc. apply generateConstraints_arc_In in Harc. destruct Harc as (i & j & Hin).
  apply generateConstraints_shared in Hin; [ | exact Hnd ].
  destruct Hin as (_ & pa & pb & p & Ha & Hb & _).
  split; eapply Obj.get_Some_keys; eauto.
Qed.

Lemma pushOverlap_keys_NoDup c a b p : NoDup (Obj.keys c) -> NoDup (Obj.keys (pushOverlap c a b p)).
Proof. intros Hnd. rewrite pushOverlap_eq. apply Obj.NoDup_keys_set. exact Hnd. Qed.

Lemma generateConstraints_keys_NoDup (slotMap : Slots) :
  NoDup (Obj.keys (generateConstraints slotMap)).
Proof.
  unfold generateConstraints. rewrite fold_constraintsStep.
  assert (Hgen : forall ees (c : Constraints),
             NoDup (Obj.keys c) -> NoDup (Obj.keys (fold_left recordOverlap ees c))).
  { induction ees as [ | [[sa ia] [sb ib]] ees IH ]; intros c Hc; simpl; [ exact Hc | ].
    apply IH. apply pushOverlap_keys_NoDup. apply pushOverlap_keys_NoDup. exact Hc. }
  apply Hgen. constructor.
Qed.

(** The name of a slot is never the empty string. *)
Lemma slotName_not_empty cell d : slotName cell d <> EmptyString.
Proof.
  unfold slotName. intros E. apply (f_equal String.length) in E.
  rewrite string_append_length in E. destruct d; simpl in E; lia.
Qed.

Lemma prepared_slot_names s k : prepared s -> In k (Obj.keys (slots s)) -> k <> EmptyString.
Proof.
  intros (_ & Hslots & _) Hin. rewrite Hslots in Hin. apply Obj.get_keys in Hin.
  destruct (Obj.get k (identifySlots (grid s))) as [ps | ] eqn:Hget; [ | congruence ].
  apply identifySlots_run in Hget. destruct Hget as (r & c & d & _ & _ & _ & _ & -> & _).
  apply slotName_not_empty.
Qed.

Lemma prepared_neighbors_slots s a n :
  prepared s -> In n (Obj.keys (neighborsOf (constraints s) a)) ->
  In a (Obj.keys (domains s)) /\ In n (Obj.keys (domains s)).
Proof.
  intros (_ & Hslots & Hc & _ & Hk) Hin. apply neighbors_keys_arc in Hin.
  rewrite Hc in Hin. rewrite Hk. apply generateConstraints_arc_slots; [ | exact Hin ].
  rewrite Hslots. apply identifySlots_NoDup.
Qed.

(* ================================================================== *)
(** * AC-3 keeps every solution *)
(* ================================================================== *)

(** [sigma] fills the puzzle from the domains of [s]: every slot gets a
    word of its domain that carries the slot's pre-filled letters, and
    crossing words agree on their overlaps. *)
Definition solves (s : Solver) (sigma : Assignment) : Prop :=
  (forall k, In k (Obj.keys (domains s)) ->
     exists w, Obj.get k sigma = Some w /\ In w (domainOf s k)
               /\ wordMatchesPreFilledLetters s k w = true)
  /\ matchedAssignment s sigma.

(** Every arc of the table joins two slots that have a domain and
    carries at least one overlap. *)
Definition groundedTable (s : Solver) : Prop :=
  forall a b, arc (constraints s) a b <> None ->
    overlapsOf (constraints s) a b <> []
    /\ In a (Obj.keys (domains s)) /\ In b (Obj.keys (domains s)).

Lemma prepared_grounded s : prepared s -> groundedTable s.
Proof.
  intros Hprep a b Harc. pose proof Hprep as (_ & Hslots & Hc & _ & Hk).
  split.
  - rewrite Hc in *. apply generateConstraints_arc_In in Harc.
    destruct Harc as (i & j & Hin). intros E. rewrite E in Hin. contradiction.
  - apply (prepared_neighbors_slots s a b Hprep). apply neighbors_keys_arc. exact Harc.
Qed.

Lemma wordsMatch_supported s x wx y wy :
  overlapsOf (constraints s) x y <> [] ->
  In wy (domainOf s y) -> wordsMatch s x wx y wy = true ->
  supported (overlapsOf (constraints s) x y) (domainOf s y) wx = true.
Proof.
  intros Hne Hwy Hm. unfold wordsMatch in Hm. rewrite forallb_forall in Hm.
  destruct (overlapsOf (constraints s) x y) as [ | [i j] l ]; [ congruence | ].
  apply supported_spec. exists i, j. split; [ left; reflexivity | ].
  exists wy. split; [ exact Hwy | ].
  specialize (Hm (i, j) (or_introl eq_refl)). apply eqb_of_true in Hm. exact Hm.
Qed.

Lemma initialQueue_arcs (c : Constraints) a b :
  NoDup (Obj.keys c) -> In (a, b) (initialQueue c) -> arc c a b <> None.
Proof.
  intros Hnd Hin. unfold initialQueue in Hin.
  assert (Hinner : forall a0 ks q x,
             In x (fold_left (fun q slotB => queueAdd (a0, slotB) q) ks q) ->
             In x q \/ exists k, In k ks /\ x = (a0, k)).
  { induction ks as [ | k ks IH ]; intros q x; simpl; [ auto | ].
    intros H. apply IH in H. destruct H as [H | (k' & Hk & Hx)].
    - apply queueAdd_In in H. destruct H as [H | H]; [ right; exists k; auto | auto ].
    - right. exists k'. auto. }
  assert (Hall : forall (c' : Constraints) q x,
             In x (fold_left (fun q an =>
                                fold_left (fun q slotB => queueAdd (fst an, slotB) q)
                                          (Obj.keys (snd an)) q) c' q) ->
             In x q \/ exists an, In an c' /\ exists k, In k (Obj.keys (snd an)) /\ x = (fst an, k)).
  { induction c' as [ | an c' IH ]; intros q x; simpl; [ auto | ].
    intros H. apply IH in H. destruct H as [H | (an' & Han & Hk)].
    - apply Hinner in H. destruct H as [H | H]; [ auto | right; exists an; auto ].
    - right. exists an'. auto. }
  apply Hall in Hin. destruct Hin as [[] | ([a' n] & Han & k & Hk & E)].
  inversion E; subst. simpl in *. unfold arc, neighborsOf.
  rewrite (Obj.In_get _ _ _ Hnd Han). apply Obj.get_keys. exact Hk.
Qed.

Section KeepsSolutions.
Variable sigma : Assignment.

(** [sigma] picks its word for every slot inside the slot's domain. *)
Definition within (s : Solver) : Prop :=
  forall k, In k (Obj.keys (domains s)) ->
    exists w, Obj.get k sigma = Some w /\ In w (domainOf s k).

Lemma revise_within x y s :
  groundedTable s -> arc (constraints s) x y <> None ->
  matchedAssignment s sigma -> within s -> within (snd (revise x y s)).
Proof.
  intros Hg Harc Hm Hin k Hk. rewrite revise_domain_keys in Hk.
  destruct (Hin k Hk) as (w & Hget & Hw). exists w. split; [ exact Hget | ].
  destruct (eq_dec k x) as [-> | Hne]; [ | rewrite revise_domain_other; assumption ].
  destruct (Hg x y Harc) as (Hl & _ & Hy).
  destruct (Hin y Hy) as (wy & Hgety & Hwy).
  rewrite revise_domain. apply filter_In. split; [ exact Hw | ].
  apply wordsMatch_supported with (wy := wy); try assumption.
  apply (Hm x w y wy); assumption.
Qed.

Lemma revise_grounded x y s : groundedTable s -> groundedTable (snd (revise x y s)).
Proof.
  intros Hg a b. rewrite revise_constraints, revise_domain_keys. apply Hg.
Qed.

Lemma matchedAssignment_constraints s s' a :
  constraints s' = constraints s -> matchedAssignment s a -> matchedAssignment s' a.
Proof.
  intros Hc Hm k1 v1 k2 v2 H1 H2. rewrite (wordsMatch_static _ _ _ _ _ _ Hc). eapply Hm; eauto.
Qed.

Lemma ac3Loop_within fuel : forall queue s r s',
  symmetricTable (constraints s) -> groundedTable s ->
  (forall a b, In (a, b) queue -> arc (constraints s) a b <> None) ->
  matchedAssignment s sigma -> within s ->
  ac3Loop fuel queue s = Some (r, s') ->
  r = true /\ within s'.
Proof.
  induction fuel as [ | fuel IH ]; intros queue s r s' Hsym Hg Hq Hm Hin Hrun.
  - destruct queue as [ | [x y] rest ]; simpl in Hrun; [ | discriminate ].
    inversion Hrun; subst. auto.
  - destruct queue as [ | [x y] rest ]; [ simpl in Hrun; inversion Hrun; subst; auto | ].
    cbn [ac3Loop] in Hrun.
    assert (Harc : arc (constraints s) x y <> None) by (apply Hq; left; reflexivity).
    pose proof (revise_within x y s Hg Harc Hm Hin) as Hin1.
    pose proof (revise_grounded x y s Hg) as Hg1.
    pose proof (revise_constraints x y s) as Hc1.
    assert (Hm1 : matchedAssignment (snd (revise x y s)) sigma)
      by (apply (matchedAssignment_constraints s); assumption).
    assert (Hsym1 : symmetricTable (constraints (snd (revise x y s))))
      by (rewrite Hc1; exact Hsym).
    assert (Hq1 : forall a b, In (a, b) (queueDelete (x, y) ((x, y) :: rest)) ->
                              arc (constraints (snd (revise x y s))) a b <> None).
    { intros a b Hab. apply queueDelete_In in Hab. rewrite Hc1. apply Hq. tauto. }
    destruct (fst (revise x y s)) eqn:Hrev.
    + destruct (Nat.eqb_spec (length (domainOf (snd (revise x y s)) x)) 0) as [Hz | Hnz].
      * exfalso. destruct (Hg x y Harc) as (_ & Hx & _).
        rewrite <- (revise_domain_keys x y s) in Hx.
        destruct (Hin1 x Hx) as (w & _ & Hw).
        destruct (domainOf (snd (revise x y s)) x); [ contradiction | discriminate ].
      * apply IH in Hrun; try assumption.
        intros a b Hab. apply enqueueNeighbors_In in Hab.
        destruct Hab as [Hab | (n & Hn & _ & E)]; [ apply Hq1; exact Hab | ].
        inversion E; subst. apply neighbors_keys_arc in Hn. apply Hsym1. exact Hn.
    + apply IH in Hrun; assumption.
Qed.

End KeepsSolutions.

Lemma ac3_solves s r s' sigma :
  prepared s -> ac3 s = Some (r, s') -> solves s sigma -> r = true /\ solves s' sigma.
Proof.
  intros Hprep Hrun [Hwords Hm].
  pose proof (ac3_static _ _ _ Hrun) as Hst.
  pose proof (ac3_frame _ _ _ Hrun) as (_ & _ & Hc & _ & _ & _ & Hk & _).
  unfold ac3 in Hrun. apply (ac3Loop_within sigma) in Hrun.
  - destruct Hrun as [-> Hin]. split; [ reflexivity | ]. split.
    + intros k Hkey. destruct (Hin k Hkey) as (w & Hget & Hw).
      exists w. split; [ exact Hget | split; [ exact Hw | ] ].
      rewrite Hk in Hkey. destruct (Hwords k Hkey) as (w' & Hget' & _ & Hpre).
      rewrite (wordMatchesPreFilledLetters_static _ _ _ _ Hst). congruence.
    + apply (matchedAssignment_constraints s); assumption.
  - apply prepared_symmetric. exact Hprep.
  - apply prepared_grounded. exact Hprep.
  - intros a b. apply initialQueue_arcs.
    destruct Hprep as (_ & _ & -> & _). apply generateConstraints_keys_NoDup.
  - exact Hm.
  - intros k Hkey. destruct (Hwords k Hkey) as (w & Hget & Hw & _). exists w. auto.
Qed.

(* ================================================================== *)
(** * The choice of the next slot *)
(* ================================================================== *)

Lemma filter_none {A : Type} (f : A -> bool) (l : list A) :
  (forall x, In x l -> f x = false) -> filter f l = [].
Proof.
  induction l as [ | x l IH ]; simpl; intros H; [ reflexivity | ].
  rewrite (H x (or_introl eq_refl)). apply IH. intros y Hy. apply H. right. exact Hy.
Qed.

(** The minimum-remaining-values pass keeps exactly the slots whose
    domain is smallest. *)
Lemma mrvStep_fold s l : forall seen m,
  (forall x, In x seen -> m <= length (domainOf s x)) ->
  filter (fun x => length (domainOf s x) =? m) seen <> [] ->
  exists m',
    fold_left (mrvStep s) l (Some m, filter (fun x => length (domainOf s x) =? m) seen)
    = (Some m', filter (fun x => length (domainOf s x) =? m') (seen ++ l))
    /\ (forall x, In x (seen ++ l) -> m' <= length (domainOf s x))
    /\ filter (fun x => length (domainOf s x) =? m') (seen ++ l) <> [].
Proof.
  induction l as [ | x l IH ]; intros seen m Hmin Hne.
  - exists m. rewrite app_nil_r. auto.
  - cbn [fold_left]. unfold mrvStep at 2. cbn [fst snd].
    assert (Happ : seen ++ x :: l = (seen ++ [x]) ++ l) by (rewrite <- app_assoc; reflexivity).
    rewrite Happ.
    destruct (Nat.ltb_spec (length (domainOf s x)) m) as [Hlt | Hge].
    + assert (E : [x] = filter (fun y => length (domainOf s y) =? length (domainOf s x))
                               (seen ++ [x])).
      { rewrite filter_app. simpl. rewrite Nat.eqb_refl.
        rewrite filter_none; [ reflexivity | ].
        intros y Hy. apply Nat.eqb_neq. specialize (Hmin y Hy). lia. }
      specialize (IH (seen ++ [x]) (length (domainOf s x))). rewrite <- E in IH. apply IH.
      * intros y Hy. apply in_app_or in Hy. destruct Hy as [Hy | [<- | []]]; [ | lia ].
        specialize (Hmin y Hy). lia.
      * discriminate.
    + destruct (Nat.eqb_spec (length (domainOf s x)) m) as [Heq | Hneq].
      * replace (filter (fun y => length (domainOf s y) =? m) seen ++ [x])
          with (filter (fun y => length (domainOf s y) =? m) (seen ++ [x])).
        2:{ rewrite filter_app. simpl. rewrite (proj2 (Nat.eqb_eq _ _) Heq). reflexivity. }
        apply IH.
        -- intros y Hy. apply in_app_or in Hy. destruct Hy as [Hy | [<- | []]]; [ auto | lia ].
        -- rewrite filter_app. intros E. apply app_eq_nil in E. tauto.
      * replace (filter (fun y => length (domainOf s y) =? m) seen)
          with (filter (fun y => length (domainOf s y) =? m) (seen ++ [x])).
        2:{ rewrite filter_app. simpl. rewrite (proj2 (Nat.eqb_neq _ _) Hneq).
            apply app_nil_r. }
        apply IH.
        -- intros y Hy. apply in_app_or in Hy. destruct Hy as [Hy | [<- | []]]; [ auto | lia ].
        -- rewrite filter_app. intros E. apply app_eq_nil in E. tauto.
Qed.

(** The degree pass keeps exactly the candidates with most neighbors. *)
Lemma degreeStep_fold s l : forall seen m,
  (forall x, In x seen -> degree s x <= m) ->
  filter (fun x => degree s x =? m) seen <> [] ->
  exists m',
    fold_left (degreeStep s) l (Some m, filter (fun x => degree s x =? m) seen)
    = (Some m', filter (fun x => degree s x =? m') (seen ++ l))
    /\ (forall x, In x (seen ++ l) -> degree s x <= m')
    /\ filter (fun x => degree s x =? m') (seen ++ l) <> [].
Proof.
  induction l as [ | x l IH ]; intros seen m Hmax Hne.
  - exists m. rewrite app_nil_r. auto.
  - cbn [fold_left]. unfold degreeStep at 2. cbn [fst snd].
    assert (Happ : seen ++ x :: l = (seen ++ [x]) ++ l) by (rewrite <- app_assoc; reflexivity).
    rewrite Happ.
    destruct (Nat.ltb_spec m (degree s x)) as [Hlt | Hge].
    + assert (E : [x] = filter (fun y => degree s y =? degree s x) (seen ++ [x])).
      { rewrite filter_app. simpl. rewrite Nat.eqb_refl.
        rewrite filter_none; [ reflexivity | ].
        intros y Hy. apply Nat.eqb_neq. specialize (Hmax y Hy). lia. }
      specialize (IH (seen ++ [x]) (degree s x)). rewrite <- E in IH. apply IH.
      * intros y Hy. apply in_app_or in Hy. destruct Hy as [Hy | [<- | []]]; [ | lia ].
        specialize (Hmax y Hy). lia.
      * discriminate.
    + destruct (Nat.eqb_spec (degree s x) m) as [Heq | Hneq].
      * replace (filter (fun y => degree s y =? m) seen ++ [x])
          with (filter (fun y => degree s y =? m) (seen ++ [x])).
        2:{ rewrite filter_app. simpl. rewrite (proj2 (Nat.eqb_eq _ _) Heq). reflexivity. }
        apply IH.
        -- intros y Hy. apply in_app_or in Hy. destruct Hy as [Hy | [<- | []]]; [ auto | lia ].
        -- rewrite filter_app. intros E. apply app_eq_nil in E. tauto.
      * replace (filter (fun y => degree s y =? m) seen)
          with (filter (fun y => degree s y =? m) (seen ++ [x])).
        2:{ rewrite filter_app. simpl. rewrite (proj2 (Nat.eqb_neq _ _) Hneq).
            apply app_nil_r. }
        apply IH.
        -- intros y Hy. apply in_app_or in Hy. destruct Hy as [Hy | [<- | []]]; [ auto | lia ].
        -- rewrite filter_app. intros E. apply app_eq_nil in E. tauto.
Qed.

Lemma mrv_candidates s x l :
  exists m,
    fold_left (mrvStep s) (x :: l) (None, [])
    = (Some m, filter (fun y => length (domainOf s y) =? m) (x :: l))
    /\ (forall y, In y (x :: l) -> m <= length (domainOf s y))
    /\ filter (fun y => length (domainOf s y) =? m) (x :: l) <> [].
Proof.
  cbn [fold_left]. unfold mrvStep at 2. cbn [fst].
  pose proof (mrvStep_fold s l [x] (length (domainOf s x))) as H.
  simpl in H. rewrite Nat.eqb_refl in H. apply H.
  - intros y [<- | []]. lia.
  - discriminate.
Qed.

Lemma degree_candidates s x l :
  exists m,
    fold_left (degreeStep s) (x :: l) (None, [])
    = (Some m, filter (fun y => degree s y =? m) (x :: l))
    /\ (forall y, In y (x :: l) -> degree s y <= m)
    /\ filter (fun y => degree s y =? m) (x :: l) <> [].
Proof.
  cbn [fold_left]. unfold degreeStep at 2. cbn [fst].
  pose proof (degreeStep_fold s l [x] (degree s x)) as H.
  simpl in H. rewrite Nat.eqb_refl in H. apply H.
  - intros y [<- | []]. lia.
  - discriminate.
Qed.

Section Selection.
Variable random : nat -> nat.

(** The slots [selectUnassignedVariable] chooses among. *)
Definition unassignedSlots (s : Solver) (a : Assignment) : list string :=
  filter (fun slot => negb (Obj.has slot a)) (Obj.keys (domains s)).

Lemma selectUnassignedVariable_choice s a :
  match fst (selectUnassignedVariable random s a) with
  | None => unassignedSlots s a = []
  | Some v =>
      In v (unassignedSlots s a)
      /\ (forall u, In u (unassignedSlots s a) ->
                    length (domainOf s v) <= length (domainOf s u))
      /\ (forall u, In u (unassignedSlots s a) ->
                    length (domainOf s u) = length (domainOf s v) ->
                    degree s u <= degree s v)
  end.
Proof.
  unfold selectUnassignedVariable. fold (unassignedSlots s a).
  destruct (unassignedSlots s a) as [ | x l ] eqn:HU; [ reflexivity | ].
  destruct (mrv_candidates s x l) as (m & -> & Hmin & Hne). cbn [snd].
  destruct (filter (fun y => length (domainOf s y) =? m) (x :: l)) as [ | c cs ] eqn:Hcands;
    [ congruence | ].
  destruct (degree_candidates s c cs) as (dm & -> & Hmax & Hne'). cbn [snd fst].
  set (final := filter (fun y => degree s y =? dm) (c :: cs)) in *.
  assert (Hlen : 0 < length final) by (destruct final; [ congruence | simpl; lia ]).
  pose proof (Nat.mod_upper_bound (random (randomCalls s)) (length final)) as Hidx.
  unfold randomBelow.
  destruct (nth_error final (random (randomCalls s) mod length final)) as [v | ] eqn:Hnth;
    [ | apply nth_error_None in Hnth; lia ].
  apply nth_error_In in Hnth. unfold final in Hnth. apply filter_In in Hnth.
  destruct Hnth as [Hv Hdeg]. apply Nat.eqb_eq in Hdeg.
  rewrite <- Hcands in Hv. apply filter_In in Hv. destruct Hv as [Hv Hsize].
  apply Nat.eqb_eq in Hsize.
  split; [ exact Hv | split ].
  - intros u Hu. rewrite Hsize. apply Hmin. exact Hu.
  - intros u Hu Hsame. rewrite Hdeg. apply Hmax. rewrite <- Hcands. apply filter_In.
    split; [ exact Hu | ]. apply Nat.eqb_eq. congruence.
Qed.

End Selection.

(* ================================================================== *)
(** * The search is complete *)
(* ================================================================== *)

Lemma forallb_false {A : Type} (f : A -> bool) (l : list A) :
  forallb f l = false -> exists x, In x l /\ f x = false.
Proof.
  induction l as [ | x l IH ]; simpl; [ discriminate | ].
  destruct (f x) eqn:Hfx; simpl; intros H.
  - destruct (IH H) as (y & Hy & Hfy). exists y. auto.
  - exists x. auto.
Qed.

(** Forward checking removes from a domain only words that clash with
    the value just assigned. *)
Lemma forwardCheckLoop_keeps slot value a neighbors : forall inferences s k w,
  In w (domainOf s k) -> wordsMatch s slot value k w = true ->
  In w (domainOf (snd (forwardCheckLoop slot value a neighbors inferences s)) k).
Proof.
  induction neighbors as [ | n rest IH ]; intros inferences s k w Hw Hm; simpl; [ exact Hw | ].
  destruct (Obj.has n a); [ apply IH; assumption | ].
  destruct (length (filter (wordsMatch s slot value n) (domainOf s n)) =? 0);
    [ exact Hw | ].
  apply IH.
  - rewrite domainOf_set. destruct (eq_dec k n) as [-> | Hne]; [ | exact Hw ].
    apply filter_In. auto.
  - rewrite <- Hm. apply wordsMatch_static. reflexivity.
Qed.

(** A slot is left to assign as long as the assignment is shorter than
    the slot map. *)
Lemma unassigned_exists (keys : list string) (a : Assignment) :
  NoDup keys -> NoDup (Obj.keys a) ->
  (forall k, In k (Obj.keys a) -> In k keys) ->
  length (Obj.keys a) <> length keys ->
  filter (fun slot => negb (Obj.has slot a)) keys <> [].
Proof.
  intros Hnd Hnda Hincl Hlen Hnone. apply Hlen. apply Nat.le_antisymm.
  - apply NoDup_incl_length; assumption.
  - apply NoDup_incl_length; [ exact Hnd | ]. intros k Hk.
    destruct (Obj.has k a) eqn:Hhas; [ apply Obj.has_true; exact Hhas | ].
    exfalso. assert (Hin : In k (filter (fun slot => negb (Obj.has slot a)) keys))
      by (apply filter_In; rewrite Hhas; auto).
    rewrite Hnone in Hin. contradiction.
Qed.

Section Completeness.
Variable random : nat -> nat.

(** The state the search started from. *)
Variable s0 : Solver.
Hypothesis Hprep : prepared s0.

(** [sigma] agrees with the assignment made so far. *)
Definition extends (sigma a : Assignment) : Prop :=
  forall k v, Obj.get k a = Some v -> Obj.get k sigma = Some v.

Definition extendsEntries (sigma : Assignment) (l : list (string * string)) : Prop :=
  forall k v, In (k, v) l -> Obj.get k sigma = Some v.

(** The current domains still hold the words of every solution that
    agrees with the current assignment. *)
Definition covered (h : Search) : Prop :=
  static (solver h) = static s0
  /\ Obj.keys (domains (solver h)) = Obj.keys (domains s0)
  /\ forall sigma, solves s0 sigma -> extends sigma (assignment h) ->
       forall k w, Obj.get k sigma = Some w -> In k (Obj.keys (domains s0)) ->
                   In w (domainOf (solver h) k).

(** A [false] in the memo table records an assignment no solution
    agrees with. *)
Definition cacheSound (ch : Cache) : Prop :=
  forall key, Obj.get key ch = Some false ->
    forall sigma, solves s0 sigma -> ~ extendsEntries sigma key.

Definition assignmentOK (a : Assignment) : Prop :=
  NoDup (Obj.keys a) /\ forall k, In k (Obj.keys a) -> In k (Obj.keys (domains s0)).

Definition searchComplete (h h' : Search) : Prop :=
  (forall sigma, solves s0 sigma -> ~ extends sigma (assignment h))
  /\ cacheSound (cache h').

Lemma covered_transfer h h' :
  static (solver h') = static (solver h) ->
  domains (solver h') = domains (solver h) ->
  assignment h' = assignment h ->
  covered h -> covered h'.
Proof.
  intros Hst Hd Ha (C1 & C2 & C3). split; [ congruence | split; [ congruence | ] ].
  intros sigma Hs He k w Hget Hk. rewrite (domainOf_domains _ _ k Hd).
  rewrite Ha in He. eapply C3; eauto.
Qed.

Lemma covered_goodTable h : covered h -> goodTable (constraints (solver h)).
Proof.
  intros (Hst & _). apply static_eq in Hst. destruct Hst as (_ & _ & -> & _).
  apply prepared_goodTable. exact Hprep.
Qed.

Lemma extends_key sigma (a : Assignment) :
  NoDup (Obj.keys a) -> extends sigma a -> extendsEntries sigma (assignmentKey a).
Proof.
  intros Hnd He k v Hin. apply sortBy_In in Hin. apply He. apply Obj.In_get; assumption.
Qed.

Lemma key_extends sigma (a : Assignment) :
  extendsEntries sigma (assignmentKey a) -> extends sigma a.
Proof.
  intros He k v Hget. apply He. apply sortBy_In. apply Obj.get_In. exact Hget.
Qed.

Lemma extends_set sigma a var value :
  extends sigma a -> Obj.get var sigma = Some value -> extends sigma (Obj.set var value a).
Proof.
  intros He Hv k v. rewrite Obj.get_set. destruct (eq_dec k var) as [-> | Hne]; [ | apply He ].
  congruence.
Qed.

Lemma extends_unset sigma a var value :
  ~ In var (Obj.keys a) -> extends sigma (Obj.set var value a) -> extends sigma a.
Proof.
  intros Hfresh He k v Hget. apply He. rewrite Obj.get_set.
  destruct (eq_dec k var) as [-> | Hne]; [ | exact Hget ].
  exfalso. apply Hfresh. eapply Obj.get_Some_keys; eauto.
Qed.

(** A value [isConsistent] rejects is the value of no solution. *)
Lemma inconsistent_value h var value sigma :
  covered h -> In var (Obj.keys (domains s0)) ->
  isConsistent (solver h) var value (assignment h) = false ->
  solves s0 sigma -> extends sigma (assignment h) ->
  Obj.get var sigma = Some value -> False.
Proof.
  intros (Hst & Hk & Hcov) Hvar Hcons Hsol He Hval.
  pose proof (static_eq _ _ Hst) as (_ & _ & Hc & _).
  destruct Hsol as [Hwords Hm]. unfold isConsistent in Hcons.
  apply andb_false_iff in Hcons. destruct Hcons as [Hpre | Hnb].
  - destruct (Hwords var Hvar) as (w & Hget & _ & Hok).
    rewrite (wordMatchesPreFilledLetters_static _ _ _ _ Hst) in Hpre. congruence.
  - apply forallb_false in Hnb. destruct Hnb as (n & Hn & Hcheck).
    rewrite Hc in Hn.
    destruct (prepared_neighbors_slots s0 var n Hprep Hn) as [_ Hnkey].
    destruct (Hwords n Hnkey) as (wn & Hgetn & Hwn & _).
    assert (Hmatch' : wordsMatch (solver h) var value n wn = true).
    { rewrite (wordsMatch_static _ _ _ _ _ _ Hc). apply (Hm var value n wn); assumption. }
    destruct (Obj.get n (assignment h)) as [word2 | ] eqn:Hassigned.
    + apply He in Hassigned. congruence.
    + apply negb_false_iff in Hcheck. apply Nat.eqb_eq in Hcheck.
      assert (Hin : In wn (filter (wordsMatch (solver h) var value n) (domainOf (solver h) n))).
      { apply filter_In. split; [ | exact Hmatch' ]. apply (Hcov sigma); try assumption.
        split; assumption. }
      destruct (filter (wordsMatch (solver h) var value n) (domainOf (solver h) n));
        [ contradiction | discriminate ].
Qed.

(** After forward checking for [var := value] the domains hold the
    words of every solution that agrees with the longer assignment. *)
Lemma covered_forwardCheck h var value :
  covered h -> ~ In var (Obj.keys (assignment h)) ->
  covered (mkSearch (snd (forwardCheck var value (Obj.set var value (assignment h)) (solver h)))
                    (Obj.set var value (assignment h)) (cache h)).
Proof.
  intros (Hst & Hk & Hcov) Hfresh.
  pose proof (forwardCheckLoop_frame var value (Obj.set var value (assignment h))
                (Obj.keys (neighborsOf (constraints (solver h)) var)) [] (solver h)) as Hframe.
  cbv zeta in Hframe. fold (forwardCheck var value (Obj.set var value (assignment h)) (solver h))
    in Hframe. destruct Hframe as (F1 & F2 & _).
  pose proof (static_eq _ _ Hst) as (_ & _ & Hc & _).
  split; [ simpl; congruence | split; [ simpl; congruence | ] ].
  cbn [solver assignment]. intros sigma Hsol He k w Hget Hkey.
  unfold forwardCheck. apply forwardCheckLoop_keeps.
  - apply (Hcov sigma); try assumption. eapply extends_unset; eauto.
  - rewrite (wordsMatch_static _ _ _ _ _ _ Hc). destruct Hsol as [_ Hm].
    apply (Hm var value k w); [ | exact Hget ].
    apply He. apply Obj.get_set_same.
Qed.

Section Values.
Variable recur : Search -> option (bool * Search).
Hypothesis recur_spec : forall h r h',
  goodTable (constraints (solver h)) -> recur h = Some (r, h') ->
  searchPost (fun _ _ => True) h r h'.
Hypothesis recur_complete : forall h h',
  covered h -> cacheSound (cache h) -> noTrue (cache h) -> assignmentOK (assignment h) ->
  recur h = Some (false, h') -> searchComplete h h'.
Variable varToAssign : string.
Variable key : list (string * string).

Lemma tryValues_complete values : forall h h',
  covered h -> cacheSound (cache h) -> noTrue (cache h) -> assignmentOK (assignment h) ->
  ~ In varToAssign (Obj.keys (assignment h)) ->
  In varToAssign (Obj.keys (domains s0)) ->
  (forall sigma, extendsEntries sigma key -> extends sigma (assignment h)) ->
  (forall sigma, solves s0 sigma -> extends sigma (assignment h) ->
     forall w, Obj.get varToAssign sigma = Some w -> In w values) ->
  tryValues recur varToAssign key values h = Some (false, h') ->
  searchComplete h h'.
Proof.
  induction values as [ | value rest IH ];
    intros h h' Hcov Hcache Hno Hok Hfresh Hvar Hkey Hvals Hrun.
  - simpl in Hrun. inversion Hrun; subst h'. clear Hrun.
    assert (Hnone : forall sigma, solves s0 sigma -> ~ extends sigma (assignment h)).
    { intros sigma Hsol He. destruct Hsol as [Hwords Hm].
      destruct (Hwords varToAssign Hvar) as (w & Hget & _).
      apply (Hvals sigma (conj Hwords Hm) He w Hget). }
    split; [ exact Hnone | ]. cbn [cache]. intros key' Hget sigma Hsol Hent.
    rewrite Obj.get_set in Hget. destruct (eq_dec key' key) as [-> | Hne].
    + apply (Hnone sigma Hsol). apply Hkey. exact Hent.
    + apply (Hcache key' Hget sigma Hsol Hent).
  - cbn [tryValues] in Hrun.
    pose proof (covered_goodTable h Hcov) as Htable.
    destruct (isConsistent (solver h) varToAssign value (assignment h)) eqn:Hcons.
    2:{ apply IH; try assumption.
        intros sigma Hsol He w Hget. destruct (Hvals sigma Hsol He w Hget) as [<- | Hin];
          [ | exact Hin ].
        exfalso. eapply inconsistent_value; eauto. }
    pose proof (forwardCheck_succeeds (solver h) varToAssign value (assignment h)
                  (proj2 (proj2 Htable) varToAssign) Hcons) as Hfc.
    pose proof (covered_forwardCheck h varToAssign value Hcov Hfresh) as Hcov1.
    pose proof (forwardCheckLoop_frame varToAssign value
                  (Obj.set varToAssign value (assignment h))
                  (Obj.keys (neighborsOf (constraints (solver h)) varToAssign)) []
                  (solver h)) as Hframe.
    cbv zeta in Hframe. fold (forwardCheck varToAssign value
                                 (Obj.set varToAssign value (assignment h)) (solver h)) in Hframe.
    destruct (forwardCheck varToAssign value (Obj.set varToAssign value (assignment h))
                (solver h)) as [inf s1] eqn:Hfwd.
    cbn [fst snd] in Hfc, Hframe, Hrun, Hcov1. destruct Hframe as (F1 & F2 & F3 & _).
    destruct inf as [inf | ]; [ | congruence ].
    pose proof (forwardCheck_restore _ _ _ _ _ _ (proj2 (proj2 Htable) varToAssign) Hfwd)
      as Hrestore.
    pose proof (static_eq _ _ F1) as (_ & _ & Hc1 & _).
    destruct (recur (mkSearch s1 (Obj.set varToAssign value (assignment h)) (cache h)))
      as [[[ | ] h2] | ] eqn:Hrec; [ discriminate | | discriminate ].
    assert (Hok1 : assignmentOK (Obj.set varToAssign value (assignment h))).
    { destruct Hok as [Hnd Hin]. split; [ apply Obj.NoDup_keys_set; exact Hnd | ].
      intros k Hk. apply Obj.keys_set_In in Hk. destruct Hk as [-> | Hk]; auto. }
    pose proof (recur_complete _ _ Hcov1 Hcache Hno Hok1 Hrec) as [Hnone2 Hcache2].
    apply recur_spec in Hrec; [ | simpl; rewrite Hc1; exact Htable ].
    destruct Hrec as (P1 & P2 & _ & P4 & _). cbn [solver assignment cache] in *.
    destruct (P4 eq_refl) as (Q1 & Q2 & Q3).
    assert (Hd : applyWrites inf (domains (solver h2)) = domains (solver h))
      by (rewrite Q1; exact Hrestore).
    assert (Ha : Obj.delete varToAssign (assignment h2) = assignment h)
      by (rewrite Q2; apply Obj.delete_set_absent; exact Hfresh).
    assert (Hst2 : static (restoreDomains (Some inf) (solver h2)) = static (solver h)).
    { unfold static in *. simpl. congruence. }
    assert (Hd2 : domains (restoreDomains (Some inf) (solver h2)) = domains (solver h))
      by exact Hd.
    apply IH in Hrun; cbn [solver assignment cache].
    + destruct Hrun as [R1 R2]. cbn [assignment] in R1. rewrite Ha in R1. split; assumption.
    + apply (covered_transfer h); cbn [solver assignment]; assumption.
    + exact Hcache2.
    + apply Q3. exact Hno.
    + rewrite Ha. exact Hok.
    + rewrite Ha. exact Hfresh.
    + exact Hvar.
    + rewrite Ha. exact Hkey.
    + rewrite Ha. intros sigma Hsol He w Hget.
      destruct (Hvals sigma Hsol He w Hget) as [<- | Hin]; [ | exact Hin ].
      exfalso. apply (Hnone2 sigma Hsol). apply extends_set; assumption.
Qed.

End Values.

Lemma backtrackingSolveFrom_complete fuel : forall h h',
  covered h -> cacheSound (cache h) -> noTrue (cache h) -> assignmentOK (assignment h) ->
  backtrackingSolveFrom random fuel h = Some (false, h') ->
  searchComplete h h'.
Proof.
  induction fuel as [ | fuel IH ]; intros h h' Hcov Hcache Hno Hok Hrun; [ discriminate | ].
  cbn [backtrackingSolveFrom] in Hrun.
  destruct (Nat.eqb_spec (length (Obj.keys (assignment h)))
                         (length (Obj.keys (slots (solver h))))) as [Hall | Hnot];
    [ discriminate | ].
  destruct (Obj.get (assignmentKey (assignment h)) (cache h)) as [cached | ] eqn:Hhit.
  - inversion Hrun; subst cached h'. cbn [cache]. split; [ | exact Hcache ].
    intros sigma Hsol He. apply (Hcache _ Hhit sigma Hsol).
    apply extends_key; [ apply Hok | exact He ].
  - set (s1 := setRecursiveCalls (S (recursiveCalls (solver h))) (solver h)) in *.
    pose proof (selectUnassignedVariable_frame random s1 (assignment h)) as [Hst0 Hd0].
    pose proof (selectUnassignedVariable_choice random s1 (assignment h)) as Hsel.
    destruct (selectUnassignedVariable random s1 (assignment h)) as [v s2] eqn:Hselect.
    cbn [fst snd] in Hrun, Hst0, Hd0, Hsel.
    pose proof Hcov as (Cst & Ck & _).
    pose proof Hprep as (_ & Hslots0 & _ & _ & Hk0).
    pose proof (static_eq _ _ Cst) as (_ & Hsl & _ & _).
    assert (HU : unassignedSlots s1 (assignment h) <> []).
    { unfold unassignedSlots. change (domains s1) with (domains (solver h)). rewrite Ck.
      apply unassigned_exists.
      - rewrite Hk0, Hslots0. apply identifySlots_NoDup.
      - apply Hok.
      - apply Hok.
      - rewrite Hk0, <- Hsl. exact Hnot. }
    destruct v as [var | ]; [ | congruence ].
    destruct Hsel as (Hvar & _). unfold unassignedSlots in Hvar. apply filter_In in Hvar.
    change (domains s1) with (domains (solver h)) in Hvar. destruct Hvar as [Hkey Hfresh].
    apply negb_true_iff in Hfresh. apply Obj.has_false in Hfresh.
    destruct (eq_dec var EmptyString) as [Hempty | Hname].
    { exfalso. apply (prepared_slot_names s0 var Hprep); [ | exact Hempty ].
      rewrite <- Hk0, <- Ck. exact Hkey. }
    unfold eqb_of in Hrun. destruct (eq_dec var EmptyString); [ contradiction | ].
    pose proof (orderDomainValues_frame random var s2) as [Hst' Hd'].
    assert (Hst2 : static (snd (orderDomainValues random var s2)) = static (solver h)).
    { rewrite Hst', Hst0. reflexivity. }
    assert (Hd2 : domains (snd (orderDomainValues random var s2)) = domains (solver h)).
    { rewrite Hd', Hd0. reflexivity. }
    apply (tryValues_complete (backtrackingSolveFrom random fuel)) in Hrun;
      cbn [solver assignment cache]; try assumption.
    + intros h1 r h1' Htable. apply backtrackingSolveFrom_spec. exact Htable.
    + apply (covered_transfer h); cbn [solver assignment]; auto.
    + rewrite <- Ck. exact Hkey.
    + intros sigma. apply key_extends.
    + intros sigma Hsol He w Hget.
      apply (Permutation_in _ (orderDomainValues_Permutation random var s2)).
      rewrite (domainOf_domains _ _ var Hd0). change (domainOf s1 var) with (domainOf (solver h) var).
      destruct Hcov as (_ & _ & Hc3). apply (Hc3 sigma); try assumption.
      rewrite <- Ck. exact Hkey.
Qed.

End Completeness.

Lemma backtrackingSolve_no_solution random s h sigma :
  prepared s -> backtrackingSolve random s = Some (false, h) -> ~ solves s sigma.
Proof.
  intros Hprep Hrun Hsol. unfold backtrackingSolve in Hrun.
  apply (backtrackingSolveFrom_complete random s Hprep) in Hrun.
  - destruct Hrun as [Hnone _]. apply (Hnone sigma Hsol). intros k v. simpl. discriminate.
  - split; [ reflexivity | split; [ reflexivity | ] ]. cbn [solver assignment].
    intros sigma' [Hwords _] _ k w Hget Hk.
    destruct (Hwords k Hk) as (w' & Hget' & Hw & _). congruence.
  - intros key. simpl. discriminate.
  - intros key. simpl. discriminate.
  - split; [ constructor | ]. intros k [].
Qed.

(* ================================================================== *)
(** * The initial domains hold every fitting word *)
(* ================================================================== *)

Lemma regexTest_slotPattern cc ps : forall w,
  String.length w = length ps ->
  anyChar isLineTerminator w = false ->
  (forall i p, nth_error ps i = Some p ->
     patternChar cc p = "."%string
     \/ exists ch, patternChar cc p = String ch EmptyString /\ String.get i w = Some ch) ->
  regexTest (slotPattern cc ps) w = true.
Proof.
  induction ps as [ | p ps IH ]; intros w Hlen Hlt Hpat.
  - destruct w; [ reflexivity | discriminate ].
  - destruct w as [ | a w ]; [ discriminate | ].
    simpl in Hlen, Hlt. apply orb_false_iff in Hlt. destruct Hlt as [Ha Hw].
    assert (Hrest : regexTest (slotPattern cc ps) w = true).
    { apply IH; [ lia | exact Hw | ]. intros i q Hq. apply (Hpat (S i) q Hq). }
    cbn [slotPattern fold_right]. fold (slotPattern cc ps).
    destruct (Hpat 0 p eq_refl) as [-> | (ch & -> & Hget)].
    + cbn [String.append regexTest]. rewrite eqb_of_refl, Ha, Hrest. reflexivity.
    + simpl in Hget. inversion Hget; subst ch. cbn [String.append regexTest].
      rewrite Hrest, Ha, eqb_of_refl. destruct (eqb_of a "."%char); reflexivity.
Qed.

Lemma charAt_single w i cell :
  charAt w i = Some cell -> exists ch, cell = String ch EmptyString /\ String.get i w = Some ch.
Proof.
  unfold charAt. destruct (String.get i w) as [ch | ]; [ | discriminate ].
  intros E. inversion E. exists ch. auto.
Qed.

(** The converse of [domain_words_fit]: a word of the list that has the
    length of the slot and its pre-filled letters is in the domain
    [setupDomains] builds. *)
Lemma domain_words_complete (s : Solver) (slot : string) (ps : list Pos) (w : string) :
  wordLengthCache s = cacheWordsByLength (words s) ->
  Obj.get slot (slots (generateSlots s)) = Some ps ->
  In w (words s) ->
  String.length w = length ps ->
  anyChar isLineTerminator w = false ->
  (forall i r c,
      nth_error ps i = Some (r, c) ->
      hasUpper (cellAt (grid s) r c) = true ->
      charAt w i = Some (cellAt (grid s) r c)) ->
  In w (domainOf (generateSlots s) slot).
Proof.
  intros Hcache Hslot Hw Hlen Hlt Hletters. rewrite slots_generateSlots in Hslot.
  unfold domainOf. rewrite domains_generateSlots, Hslot.
  apply filter_In. split.
  - rewrite Hcache. apply bucket_In. auto.
  - apply regexTest_slotPattern; try assumption.
    intros i [r c] Hnth.
    destruct (identifySlots_run _ _ _ Hslot) as (r0 & c0 & d & _ & _ & _ & _ & _ & Hrun & _).
    destruct (maximalRun_nth _ _ _ _ _ _ _ Hrun Hnth) as [Hp Hi].
    pose proof (maximalRun_open _ _ _ _ _ _ Hrun Hi) as Hopen. rewrite <- Hp in Hopen.
    apply isOpen_bounds in Hopen. simpl in Hopen.
    rewrite patternChar_getPreFilledLetter by tauto.
    unfold getPreFilledLetter. simpl.
    destruct (hasUpper (cellAt (grid s) r c)) eqn:Hup; [ | left; reflexivity ].
    right. specialize (Hletters i r c Hnth Hup). apply charAt_single in Hletters.
    destruct Hletters as (ch & -> & Hget). exists ch. auto.
Qed.

Lemma wordMatchesPreFilledLetters_intro s slot ps w :
  prepared s -> Obj.get slot (slots s) = Some ps ->
  (forall i r c,
      nth_error ps i = Some (r, c) ->
      hasUpper (cellAt (grid s) r c) = true ->
      charAt w i = Some (cellAt (grid s) r c)) ->
  wordMatchesPreFilledLetters s slot w = true.
Proof.
  intros Hprep Hget Hletters.
  destruct (prepared_slot_run _ _ _ Hprep Hget) as [_ Hbounds].
  destruct Hprep as (_ & _ & _ & Hcc & _).
  unfold wordMatchesPreFilledLetters, positionsOf. rewrite Hget.
  apply forallb_forall. intros [[r c] i] Hin. apply In_indexed in Hin. simpl.
  destruct (Hbounds _ _ _ Hin) as [Hr Hc].
  rewrite Hcc, fillCellContents_get by assumption.
  unfold cellEntry. simpl.
  destruct (hasUpper (cellAt (grid s) r c)) eqn:Hup.
  - destruct (eqb_of (cellAt (grid s) r c) EmptyString); [ reflexivity | ].
    apply eqb_of_true. symmetry. apply Hletters; assumption.
  - destruct (negb (isBlock (cellAt (grid s) r c)) && negb (isBlank (cellAt (grid s) r c)));
      reflexivity.
Qed.

(* ================================================================== *)
(** * A puzzle reported unsolvable has no filling *)
(* ================================================================== *)

(** [sigma] fills the grid of [s] with words of its list: every slot
    gets a word of the slot's length that carries the letters already
    in the grid, and two words agree on every cell they share. *)
Definition crosswordFilling (s : Solver) (sigma : Assignment) : Prop :=
  (forall slot ps,
      Obj.get slot (slots (generateSlots s)) = Some ps ->
      exists w,
        Obj.get slot sigma = Some w
        /\ In w (words s)
        /\ String.length w = length ps
        /\ forall i r c,
             nth_error ps i = Some (r, c) ->
             hasUpper (cellAt (grid s) r c) = true ->
             charAt w i = Some (cellAt (grid s) r c))
  /\ (forall slotA slotB psA psB wA wB i j p,
         Obj.get slotA (slots (generateSlots s)) = Some psA ->
         Obj.get slotB (slots (generateSlots s)) = Some psB ->
         Obj.get slotA sigma = Some wA ->
         Obj.get slotB sigma = Some wB ->
         nth_error psA i = Some p -> nth_error psB j = Some p ->
         String.get i wA = String.get j wB).

Lemma solves_transfer s s' sigma :
  static s' = static s ->
  Obj.keys (domains s') = Obj.keys (domains s) ->
  (forall k w, In w (domainOf s k) -> In w (domainOf s' k)) ->
  solves s sigma -> solves s' sigma.
Proof.
  intros Hst Hk Hd [Hwords Hm]. pose proof (static_eq _ _ Hst) as (_ & _ & Hc & _). split.
  - intros k Hkey. rewrite Hk in Hkey. destruct (Hwords k Hkey) as (w & Hget & Hw & Hpre).
    exists w. split; [ exact Hget | split; [ apply Hd; exact Hw | ] ].
    rewrite (wordMatchesPreFilledLetters_static _ _ _ _ Hst). exact Hpre.
  - apply (matchedAssignment_constraints s); assumption.
Qed.

Lemma crosswordFilling_solves s sigma :
  validateGrid (grid s) = true ->
  wordLengthCache s = cacheWordsByLength (words s) ->
  (forall w, In w (words s) -> anyChar isLineTerminator w = false) ->
  crosswordFilling s sigma -> solves (generateSlots s) sigma.
Proof.
  intros Hvalid Hcache Hlt [Hwords Hshared].
  pose proof (generateSlots_prepared s Hvalid) as Hprep. split.
  - intros k Hk. rewrite domain_keys_generateSlots in Hk. apply Obj.get_keys in Hk.
    destruct (Obj.get k (slots (generateSlots s))) as [ps | ] eqn:Hget; [ | congruence ].
    destruct (Hwords k ps Hget) as (w & Hsig & Hw & Hlen & Hletters).
    exists w. split; [ exact Hsig | split ].
    + apply (domain_words_complete s k ps w); auto.
    + apply (wordMatchesPreFilledLetters_intro _ _ ps); assumption.
  - intros k1 v1 k2 v2 H1 H2. unfold wordsMatch. apply forallb_forall.
    intros [i j] Hin. simpl. apply eqb_of_true.
    rewrite constraints_generateSlots in Hin.
    apply generateConstraints_shared in Hin; [ | apply identifySlots_NoDup ].
    destruct Hin as (_ & pa & pb & p & Ha & Hb & Hi & Hj).
    apply (Hshared k1 k2 pa pb v1 v2 i j p); assumption.
Qed.

Section Verdict.
Variable random : nat -> nat.

Lemma randomizeDomains_Permutation s k :
  Permutation (domainOf s k) (domainOf (randomizeDomains random s) k).
Proof.
  unfold randomizeDomains. generalize (Obj.keys (domains s)) as ks. intros ks. revert s.
  induction ks as [ | k0 ks IH ]; intros s; simpl; [ reflexivity | ].
  rewrite <- IH. unfold domainOf. simpl. rewrite Obj.get_set.
  destruct (eq_dec k k0) as [-> | Hne]; [ apply shuffleArray_Permutation | reflexivity ].
Qed.

Lemma prepareSearch_solves s b s2 sigma :
  prepared s -> prepareSearch random s = Some (b, s2) -> solves s sigma ->
  b = true /\ solves s2 sigma.
Proof.
  intros Hprep Hrun Hsol. unfold prepareSearch in Hrun.
  set (s1 := updateStatus "Running AC-3 algorithm..." (randomizeDomains random s)) in *.
  destruct (randomizeDomains_frame random s) as (R1 & R2 & _).
  assert (Hst1 : static s1 = static s) by exact R1.
  assert (Hk1 : Obj.keys (domains s1) = Obj.keys (domains s)) by exact R2.
  assert (Hsol1 : solves s1 sigma).
  { apply (solves_transfer s); try assumption. intros k w Hw.
    apply (Permutation_in _ (randomizeDomains_Permutation s k)). exact Hw. }
  assert (Hprep1 : prepared s1) by (apply (prepared_static s); assumption).
  destruct (ac3 s1) as [[ok s1'] | ] eqn:Hac3; [ | discriminate ].
  destruct (ac3_solves _ _ _ _ Hprep1 Hac3 Hsol1) as [-> Hsol2].
  injection Hrun as Hb Hs2. subst b s2. split; [ reflexivity | ].
  cbn [negb orb]. destruct (hasEmptyDomain s1');
    (apply (solves_transfer s1'); [ reflexivity | reflexivity | auto | exact Hsol2 ]).
Qed.

Lemma verdict_complete (s : Solver) (ac3Success : bool) (s2 : Solver) (h : Search)
  (sigma : Assignment) :
  validateGrid (grid s) = true ->
  wordLengthCache s = cacheWordsByLength (words s) ->
  (forall w, In w (words s) -> anyChar isLineTerminator w = false) ->
  prepareSearch random (generateSlots s) = Some (ac3Success, s2) ->
  backtrackingSolve random s2 = Some (false, h) ->
  ~ crosswordFilling s sigma.
Proof.
  intros Hvalid Hcache Hlt Hprepare Hrun Hfill.
  pose proof (generateSlots_prepared s Hvalid) as Hprep.
  pose proof (crosswordFilling_solves s sigma Hvalid Hcache Hlt Hfill) as Hsol.
  destruct (prepareSearch_solves _ _ _ _ Hprep Hprepare Hsol) as [_ Hsol2].
  apply (backtrackingSolve_no_solution random s2 h sigma); try assumption.
  apply (prepareSearch_prepared random (generateSlots s) ac3Success); assumption.
Qed.

End Verdict.

(* ================================================================== *)
(** * The keys of the queue of [ac3] *)
(* ================================================================== *)

(** No numbered cell holds a comma.  The numbers the editor writes
    are decimal digits; on such a grid no slot name holds a comma, and
    the strings [`${A},${B}`] that [ac3] keeps in its queue are read
    back by [split(',')] as the two names they were made of, which is
    what keeping the queue as a list of pairs relies on. *)
Definition commaFree (g : Grid) : bool :=
  forallb (forallb (fun v => negb (hasDigit v) || noComma v)) g.

Lemma commaFree_cell g r c :
  commaFree g = true -> hasDigit (cellAt g r c) = true -> noComma (cellAt g r c) = true.
Proof.
  unfold commaFree, cellAt. intros Hfree Hdigit. rewrite forallb_forall in Hfree.
  destruct (lt_dec r (length g)) as [Hr | Hr].
  - destruct (lt_dec c (length (nth r g []))) as [Hc | Hc].
    + specialize (Hfree _ (nth_In g [] Hr)). rewrite forallb_forall in Hfree.
      specialize (Hfree _ (nth_In (nth r g []) EmptyString Hc)).
      rewrite Hdigit in Hfree. exact Hfree.
    + rewrite (nth_overflow (nth r g [])) in Hdigit by lia. discriminate.
  - rewrite (nth_overflow g) in Hdigit by lia. destruct c; discriminate.
Qed.

Lemma commaFree_slot_names g name ps :
  commaFree g = true -> Obj.get name (identifySlots g) = Some ps -> noComma name = true.
Proof.
  intros Hfree Hget. apply identifySlots_run in Hget.
  destruct Hget as (r & c & d & _ & _ & Hdigit & _ & -> & _).
  apply slotName_noComma. apply commaFree_cell; assumption.
Qed.

(** On a grid without commas the key of an arc is read back as the
    arc. *)
Lemma arcKey_read_back s a b :
  prepared s -> commaFree (grid s) = true ->
  arc (constraints s) a b <> None ->
  noComma a = true /\ noComma b = true /\ splitComma (arcKey a b) = [a; b].
Proof.
  intros (Hv & Hslots & Hc & _) Hfree Harc. rewrite Hc in Harc.
  apply generateConstraints_arc_slots in Harc; [ | rewrite Hslots; apply identifySlots_NoDup ].
  destruct Harc as [Ha Hb]. rewrite Hslots in Ha, Hb.
  apply Obj.get_keys in Ha. apply Obj.get_keys in Hb.
  destruct (Obj.get a (identifySlots (grid s))) as [pa | ] eqn:Hga; [ | congruence ].
  destruct (Obj.get b (identifySlots (grid s))) as [pb | ] eqn:Hgb; [ | congruence ].
  pose proof (commaFree_slot_names _ _ _ Hfree Hga) as Na.
  pose proof (commaFree_slot_names _ _ _ Hfree Hgb) as Nb.
  split; [ exact Na | split; [ exact Nb | apply splitComma_arcKey; assumption ] ].
Qed.

(** ** The queue as the code keeps it *)

(** [queue.add(key)] and [queue.delete(key)] on the [Set] of
    strings. *)
Definition keyAdd (key : string) (q : list string) : list string :=
  if in_dec string_dec key q then q else q ++ [key].

Definition keyDelete (key : string) (q : list string) : list string := remove string_dec key q.

Definition initialKeys (c : Constraints) : list string :=
  fold_left (fun q an => fold_left (fun q slotB => keyAdd (arcKey (fst an) slotB) q)
                                   (Obj.keys (snd an)) q)
            c [].

Definition enqueueKeys (c : Constraints) (var1 var2 : string) (q : list string) : list string :=
  fold_left (fun q neighbor => if eq_dec neighbor var2 then q else keyAdd (arcKey neighbor var1) q)
            (Obj.keys (neighborsOf c var1)) q.

(** The [while] loop of [ac3] on the strings themselves: the head of
    the queue is split at its commas, the first two pieces are [var1]
    and [var2], and the string that is deleted is the one made of these
    two.  A key holds a comma, so there are two pieces at least; [None]
    is running out of fuel. *)
Fixpoint ac3KeysLoop (fuel : nat) (queue : list string) (s : Solver) : option (bool * Solver) :=
  match queue with
  | [] => Some (true, s)
  | key :: _ =>
      match fuel with
      | 0 => None
      | S fuel' =>
          match splitComma key with
          | var1 :: var2 :: _ =>
              let queue1 := keyDelete (arcKey var1 var2) queue in
              let rs := revise var1 var2 s in
              if fst rs then
                if length (domainOf (snd rs) var1) =? 0 then Some (false, snd rs)
                else ac3KeysLoop fuel' (enqueueKeys (constraints (snd rs)) var1 var2 queue1)
                                 (snd rs)
              else ac3KeysLoop fuel' queue1 (snd rs)
          | _ => None
          end
      end
  end.

(** [ac3()] with the queue of strings. *)
Definition ac3Keys (s : Solver) : option (bool * Solver) :=
  ac3KeysLoop (ac3Fuel s) (initialKeys (constraints s)) s.

(** The key of an arc. *)
Definition keyOf (x : string * string) : string := arcKey (fst x) (snd x).

(** Both names of the arc are free of commas. *)
Definition plainArc (x : string * string) : Prop :=
  noComma (fst x) = true /\ noComma (snd x) = true.

Lemma keyOf_inj x y : plainArc x -> plainArc y -> keyOf x = keyOf y -> x = y.
Proof.
  destruct x as [a b], y as [a' b']. intros [Ha Hb] [Ha' Hb'] E.
  apply arcKey_inj; assumption.
Qed.

Lemma keyOf_In x q :
  plainArc x -> Forall plainArc q -> In (keyOf x) (map keyOf q) <-> In x q.
Proof.
  intros Hx Hq. split; [ | apply in_map ].
  intros Hin. apply in_map_iff in Hin. destruct Hin as (y & E & Hy).
  rewrite Forall_forall in Hq. apply keyOf_inj in E; [ subst; exact Hy | auto | exact Hx ].
Qed.

Lemma keyAdd_map x q :
  plainArc x -> Forall plainArc q -> keyAdd (keyOf x) (map keyOf q) = map keyOf (queueAdd x q).
Proof.
  intros Hx Hq. unfold keyAdd, queueAdd.
  destruct (in_dec string_dec (keyOf x) (map keyOf q)) as [Hin | Hnin];
    destruct (in_dec eq_dec x q) as [Hin' | Hnin'].
  - reflexivity.
  - exfalso. apply Hnin'. apply (keyOf_In x q Hx Hq). exact Hin.
  - exfalso. apply Hnin. apply in_map. exact Hin'.
  - rewrite map_app. reflexivity.
Qed.

Lemma keyDelete_map x q :
  plainArc x -> Forall plainArc q ->
  keyDelete (keyOf x) (map keyOf q) = map keyOf (queueDelete x q).
Proof.
  intros Hx Hq. unfold keyDelete, queueDelete.
  induction q as [ | y q IH ]; simpl; [ reflexivity | ].
  inversion Hq as [ | ? ? Hy Hq' ]; subst.
  destruct (string_dec (keyOf x) (keyOf y)) as [E | E]; destruct (eq_dec x y) as [E' | E'].
  - apply IH. exact Hq'.
  - exfalso. apply E'. apply keyOf_inj; assumption.
  - exfalso. apply E. subst. reflexivity.
  - simpl. f_equal. apply IH. exact Hq'.
Qed.

Lemma queueAdd_plain x q : plainArc x -> Forall plainArc q -> Forall plainArc (queueAdd x q).
Proof.
  intros Hx Hq. apply Forall_forall. intros y Hy. apply queueAdd_In in Hy.
  destruct Hy as [-> | Hy]; [ exact Hx | ]. rewrite Forall_forall in Hq. auto.
Qed.

Lemma queueDelete_plain x q : Forall plainArc q -> Forall plainArc (queueDelete x q).
Proof.
  intros Hq. apply Forall_forall. intros y Hy. apply queueDelete_In in Hy.
  rewrite Forall_forall in Hq. apply Hq. tauto.
Qed.

Section PlainNames.

Variable c : Constraints.
Hypothesis Hentries : forall an slotB,
  In an c -> In slotB (Obj.keys (snd an)) -> plainArc (fst an, slotB).
Hypothesis Harcs : forall a b, arc c a b <> None -> plainArc (a, b).

Lemma initialKeys_initialQueue :
  initialKeys c = map keyOf (initialQueue c) /\ Forall plainArc (initialQueue c).
Proof.
  unfold initialKeys, initialQueue.
  assert (Hinner : forall a bs (q : list (string * string)),
             (forall b, In b bs -> plainArc (a, b)) -> Forall plainArc q ->
             fold_left (fun q slotB => keyAdd (arcKey a slotB) q) bs (map keyOf q)
             = map keyOf (fold_left (fun q slotB => queueAdd (a, slotB) q) bs q)
             /\ Forall plainArc (fold_left (fun q slotB => queueAdd (a, slotB) q) bs q)).
  { intros a bs. induction bs as [ | b bs IH ]; intros q Hbs Hq; simpl; [ auto | ].
    assert (Hb : plainArc (a, b)) by (apply Hbs; left; reflexivity).
    change (arcKey a b) with (keyOf (a, b)). rewrite (keyAdd_map (a, b) q Hb Hq).
    apply IH; [ intros b' Hb'; apply Hbs; right; exact Hb' | apply queueAdd_plain; assumption ]. }
  assert (Houter : forall l (q : list (string * string)),
             (forall an, In an l -> In an c) -> Forall plainArc q ->
             fold_left (fun q an => fold_left (fun q slotB => keyAdd (arcKey (fst an) slotB) q)
                                              (Obj.keys (snd an)) q) l (map keyOf q)
             = map keyOf (fold_left (fun q an => fold_left (fun q slotB => queueAdd (fst an, slotB) q)
                                                           (Obj.keys (snd an)) q) l q)
             /\ Forall plainArc
                  (fold_left (fun q an => fold_left (fun q slotB => queueAdd (fst an, slotB) q)
                                                    (Obj.keys (snd an)) q) l q)).
  { induction l as [ | an l IH ]; intros q Hl Hq; simpl; [ auto | ].
    destruct (Hinner (fst an) (Obj.keys (snd an)) q) as [E Hq1]; [ | exact Hq | ].
    - intros b Hb. apply Hentries; [ apply Hl; left; reflexivity | exact Hb ].
    - rewrite E. apply IH; [ intros an' Han'; apply Hl; right; exact Han' | exact Hq1 ]. }
  apply (Houter c []); [ auto | constructor ].
Qed.

Lemma enqueueKeys_enqueueNeighbors var1 var2 q :
  Forall plainArc q ->
  enqueueKeys c var1 var2 (map keyOf q) = map keyOf (enqueueNeighbors c var1 var2 q)
  /\ Forall plainArc (enqueueNeighbors c var1 var2 q).
Proof.
  unfold enqueueKeys, enqueueNeighbors.
  assert (Hns : forall n, In n (Obj.keys (neighborsOf c var1)) -> plainArc (n, var1)).
  { intros n Hn. apply neighbors_keys_arc in Hn. destruct (Harcs _ _ Hn) as [H1 H2].
    split; assumption. }
  revert q Hns. generalize (Obj.keys (neighborsOf c var1)) as ns.
  induction ns as [ | n ns IH ]; intros q Hns Hq; simpl; [ auto | ].
  destruct (eq_dec n var2).
  - apply IH; [ intros n' Hn'; apply Hns; right; exact Hn' | exact Hq ].
  - assert (Hn : plainArc (n, var1)) by (apply Hns; left; reflexivity).
    change (arcKey n var1) with (keyOf (n, var1)). rewrite (keyAdd_map (n, var1) q Hn Hq).
    apply IH; [ intros n' Hn'; apply Hns; right; exact Hn' | apply queueAdd_plain; assumption ].
Qed.

(** On names without commas the loop on strings does what the loop
    on pairs does. *)
Lemma ac3KeysLoop_ac3Loop fuel : forall q s,
  constraints s = c -> Forall plainArc q ->
  ac3KeysLoop fuel (map keyOf q) s = ac3Loop fuel q s.
Proof.
  induction fuel as [ | fuel IH ]; intros q s Hc Hq.
  - destruct q as [ | [x y] q ]; reflexivity.
  - destruct q as [ | [x y] q ]; [ reflexivity | ].
    pose proof (Forall_inv Hq) as Hxy.
    destruct Hxy as [Hx Hy]. cbn [fst snd] in Hx, Hy.
    assert (Hsplit : splitComma (keyOf (x, y)) = [x; y]) by (apply splitComma_arcKey; assumption).
    assert (Hdel : keyDelete (arcKey x y) (map keyOf ((x, y) :: q))
                   = map keyOf (queueDelete (x, y) ((x, y) :: q)))
      by (apply (keyDelete_map (x, y) ((x, y) :: q) (conj Hx Hy) Hq)).
    change (map keyOf ((x, y) :: q)) with (keyOf (x, y) :: map keyOf q) in Hdel |- *.
    cbn [ac3KeysLoop ac3Loop]. rewrite Hsplit, Hdel.
    pose proof (queueDelete_plain (x, y) ((x, y) :: q) Hq) as Hq1.
    pose proof (revise_constraints x y s) as Hrc.
    destruct (fst (revise x y s)).
    + destruct (length (domainOf (snd (revise x y s)) x) =? 0); [ reflexivity | ].
      rewrite Hrc, Hc.
      destruct (enqueueKeys_enqueueNeighbors x y _ Hq1) as [E Hq2].
      rewrite E. apply IH; [ rewrite Hrc; exact Hc | exact Hq2 ].
    + apply IH; [ rewrite Hrc; exact Hc | exact Hq1 ].
Qed.

End PlainNames.

Lemma ac3Keys_ac3 s :
  prepared s -> commaFree (grid s) = true -> ac3Keys s = ac3 s.
Proof.
  intros Hprep Hfree.
  assert (Harcs : forall a b, arc (constraints s) a b <> None -> plainArc (a, b)).
  { intros a b Harc. destruct (arcKey_read_back s a b Hprep Hfree Harc) as (Ha & Hb & _).
    split; assumption. }
  assert (Hentries : forall an slotB,
             In an (constraints s) -> In slotB (Obj.keys (snd an)) -> plainArc (fst an, slotB)).
  { intros [a n] b Han Hb. apply Harcs. cbn [fst snd] in *.
    assert (Hget : Obj.get a (constraints s) = Some n).
    { apply Obj.In_get; [ | exact Han ].
      destruct Hprep as (_ & _ & -> & _). apply generateConstraints_keys_NoDup. }
    unfold arc, neighborsOf. rewrite Hget. apply Obj.get_keys. exact Hb. }
  unfold ac3Keys, ac3.
  destruct (initialKeys_initialQueue (constraints s) Hentries) as [E Hq].
  rewrite E. apply (ac3KeysLoop_ac3Loop (constraints s) Harcs); [ reflexivity | exact Hq ].
Qed.

(** The hypothesis is needed.  In the grid below the cell next to [1]
    holds the text [1ACROSS,7], which has a digit: the slot it opens is
    named [1ACROSS,7DOWN], the first key of the queue is
    [1ACROSS,1ACROSS,7DOWN], whose first two pieces are both [1ACROSS],
    the key that is deleted is not in the queue, and the loop on the
    strings makes no progress, whatever the fuel. *)
Definition commaGrid : Grid := [["1"; "1ACROSS,7"; "."]; ["#"; "."; "#"]]%string.

Definition commaSolver : Solver := newSolver commaGrid ["CAT"; "TO"; "AT"]%string.

Lemma ac3Keys_comma_grid fuel :
  validateGrid commaGrid = true
  /\ ac3KeysLoop fuel (initialKeys (constraints (generateSlots commaSolver)))
                 (generateSlots commaSolver) = None.
Proof.
  split; [ reflexivity | ].
  induction fuel as [ | fuel IH ]; [ reflexivity | ].
  vm_compute in IH |- *. exact IH.
Qed.

(* ================================================================== *)
(** * Properties of the solver beyond the specification *)
(* ================================================================== *)

(** X1.  [generateConstraints] records exactly the crossings: after
    [generateSlots], the pair [[i, j]] is in [constraints[a][b]] if and
    only if [a] and [b] are two different slots and the [i]-th cell of
    [a] is the [j]-th cell of [b]. *)
Theorem generateConstraints_exact (s : Solver) (a b : string) (i j : nat) :
  In (i, j) (overlapsOf (constraints (generateSlots s)) a b)
  <-> a <> b
      /\ exists pa pb p,
           Obj.get a (slots (generateSlots s)) = Some pa
           /\ Obj.get b (slots (generateSlots s)) = Some pb
           /\ nth_error pa i = Some p /\ nth_error pb j = Some p.
Proof.
  rewrite constraints_generateSlots, slots_generateSlots. split.
  - intros Hin. apply generateConstraints_shared in Hin; [ | apply identifySlots_NoDup ].
    destruct Hin as (Hne & pa & pb & p & Ha & Hb & Hi & Hj).
    split; [ | exists pa, pb, p; auto ].
    intros ->. apply Hne. f_equal.
    assert (pb = pa) by congruence. subst pb.
    apply (NoDup_nth_error_inj pa i j p); try assumption.
    eapply identifySlots_positions_NoDup; eauto.
  - intros (Hne & pa & pb & p & Ha & Hb & Hi & Hj).
    apply (generateConstraints_records _ a b pa pb i j p); try assumption.
    + apply identifySlots_NoDup.
    + congruence.
Qed.


(** X3.  [shuffleArray] returns a rearrangement of its argument and
    draws [length - 1] random numbers; [randomizeDomains] rearranges
    every domain and keeps the slots in place. *)
Theorem shuffleArray_rearranges (random : nat -> nat) :
  (forall (a : list string) k,
      Permutation a (fst (shuffleArray random a k))
      /\ snd (shuffleArray random a k) = k + (length a - 1))
  /\ (forall s k,
         Permutation (domainOf s k) (domainOf (randomizeDomains random s) k))
  /\ (forall s, Obj.keys (domains (randomizeDomains random s)) = Obj.keys (domains s)).
Proof.
  split; [ | split ].
  - intros a k. split; [ apply shuffleArray_Permutation | apply shuffleFrom_calls ].
  - intros s k. apply randomizeDomains_Permutation.
  - intros s. apply randomizeDomains_frame.
Qed.

(** X4.  [orderDomainValues] returns a rearrangement of the domain of
    the slot: it tries no word twice and skips none, and it works on a
    copy, so the domains themselves are left as they were. *)
Theorem orderDomainValues_rearranges (random : nat -> nat) (slot : string) (s : Solver) :
  Permutation (domainOf s slot) (fst (orderDomainValues random slot s))
  /\ domains (snd (orderDomainValues random slot s)) = domains s.
Proof.
  split; [ apply orderDomainValues_Permutation | apply orderDomainValues_frame ].
Qed.

(** X5.  [selectUnassignedVariable] returns [null] only when every slot
    is assigned; otherwise it returns an unassigned slot whose domain
    is smallest and which, among the unassigned slots with a domain
    that small, has the most neighbors. *)
Theorem selectUnassignedVariable_mrv_degree (random : nat -> nat) (s : Solver) (a : Assignment) :
  match fst (selectUnassignedVariable random s a) with
  | None => forall slot, In slot (Obj.keys (domains s)) -> Obj.has slot a = true
  | Some v =>
      In v (Obj.keys (domains s)) /\ Obj.has v a = false
      /\ (forall u, In u (Obj.keys (domains s)) -> Obj.has u a = false ->
                    length (domainOf s v) <= length (domainOf s u))
      /\ (forall u, In u (Obj.keys (domains s)) -> Obj.has u a = false ->
                    length (domainOf s u) = length (domainOf s v) ->
                    degree s u <= degree s v)
  end.
Proof.
  pose proof (selectUnassignedVariable_choice random s a) as H.
  assert (HU : forall u, In u (unassignedSlots s a)
                         <-> In u (Obj.keys (domains s)) /\ Obj.has u a = false).
  { intros u. unfold unassignedSlots. rewrite filter_In, negb_true_iff. reflexivity. }
  destruct (fst (selectUnassignedVariable random s a)) as [v | ].
  - destruct H as (Hv & Hmin & Hmax). apply HU in Hv. destruct Hv as [Hkey Hfree].
    split; [ exact Hkey | split; [ exact Hfree | split ] ].
    + intros u Hu Hf. apply Hmin. apply HU. auto.
    + intros u Hu Hf. apply Hmax. apply HU. auto.
  - intros slot Hslot. destruct (Obj.has slot a) eqn:Hhas; [ reflexivity | ].
    exfalso. assert (Hin : In slot (unassignedSlots s a)) by (apply HU; auto).
    rewrite H in Hin. contradiction.
Qed.

(** X6.  [ac3] ends on every state set up from a grid whose numbered
    cells hold no comma.  There the loop on the queue of strings
    [`${A},${B}`], as the code runs it, reads every key back as the arc
    it stands for, so that it does what the loop on pairs does; and
    each pass shortens the queue or removes a word from a domain. *)
Theorem ac3_returns_on_grids (s : Solver) :
  prepared s -> commaFree (grid s) = true ->
  exists r s', ac3Keys s = Some (r, s') /\ ac3 s = Some (r, s').
Proof.
  intros Hprep Hfree. destruct (ac3_terminates s) as ([r s'] & H). exists r, s'.
  split; [ rewrite (ac3Keys_ac3 s Hprep Hfree) | ]; exact H.
Qed.

(** X7.  [ac3] removes no word of a solution: in a state set up from a
    grid, an assignment that fills every slot from its domain with
    matching crossings still does so after [ac3], and then [ac3]
    returns [true].  So a [false] from [ac3] means the puzzle has no
    solution. *)
Theorem ac3_keeps_solutions (s s' : Solver) (r : bool) (sigma : Assignment) :
  prepared s -> ac3 s = Some (r, s') -> solves s sigma ->
  r = true /\ solves s' sigma.
Proof. apply ac3_solves. Qed.

(** X8.  A value [isConsistent] accepted never makes [forwardCheck]
    return [false]: the test [inferences !== false] in
    [backtrackingSolve] always succeeds. *)
Theorem forwardCheck_after_isConsistent (s : Solver) (slot value : string) (a : Assignment) :
  NoDup (Obj.keys (neighborsOf (constraints s) slot)) ->
  isConsistent s slot value a = true ->
  exists inferences,
    fst (forwardCheck slot value (Obj.set slot value a) s) = Some inferences.
Proof.
  intros Hnd Hcons. pose proof (forwardCheck_succeeds s slot value a Hnd Hcons) as H.
  destruct (fst (forwardCheck slot value (Obj.set slot value a) s)) as [inf | ];
    [ exists inf; reflexivity | congruence ].
Qed.

(** X9.  [restoreDomains] undoes [forwardCheck]: handing it the
    inferences a successful [forwardCheck] returned gives back exactly
    the domains from before the check, in the same key order. *)
Theorem forwardCheck_restoreDomains (s s' : Solver) (slot value : string) (a : Assignment)
  (inferences : Domains) :
  NoDup (Obj.keys (neighborsOf (constraints s) slot)) ->
  forwardCheck slot value a s = (Some inferences, s') ->
  domains (restoreDomains (Some inferences) s') = domains s.
Proof. intros Hnd Hfc. exact (forwardCheck_restore s slot value a inferences s' Hnd Hfc). Qed.

(** X10.  The search is complete: in a state set up from a grid, when
    [backtrackingSolve] returns [false] no assignment fills every slot
    from its domain with its pre-filled letters and matching
    crossings. *)
Theorem backtrackingSolve_complete (random : nat -> nat) (s : Solver) (h : Search)
  (sigma : Assignment) :
  prepared s -> backtrackingSolve random s = Some (false, h) -> ~ solves s sigma.
Proof. apply backtrackingSolve_no_solution. Qed.

(** X11.  The verdict "No possible solution found" is right: when the
    search [solveCrosswordThread] runs on a grid returns [false], no
    choice of words of the list fills the grid. *)
Theorem no_solution_verdict (random : nat -> nat) (s : Solver) (ac3Success : bool)
  (s2 : Solver) (h : Search) (sigma : Assignment) :
  validateGrid (grid s) = true ->
  wordLengthCache s = cacheWordsByLength (words s) ->
  (forall w, In w (words s) -> anyChar isLineTerminator w = false) ->
  prepareSearch random (generateSlots s) = Some (ac3Success, s2) ->
  backtrackingSolve random s2 = Some (false, h) ->
  ~ crosswordFilling s sigma.
Proof. apply verdict_complete. Qed.

(* ================================================================== *)
(** * Worked puzzles for the properties above *)
(* ================================================================== *)

(** A decision procedure for [solves], for concrete puzzles. *)
Definition solvesb (s : Solver) (sigma : Assignment) : bool :=
  forallb (fun k =>
             match Obj.get k sigma with
             | Some w => existsb (eqb_of w) (domainOf s k) && wordMatchesPreFilledLetters s k w
             | None => false
             end)
          (Obj.keys (domains s))
  && forallb (fun e1 => forallb (fun e2 => wordsMatch s (fst e1) (snd e1) (fst e2) (snd e2)) sigma)
             sigma.

Lemma solvesb_sound s sigma : solvesb s sigma = true -> solves s sigma.
Proof.
  unfold solvesb. rewrite andb_true_iff, !forallb_forall. intros [Hwords Hm]. split.
  - intros k Hk. specialize (Hwords k Hk).
    destruct (Obj.get k sigma) as [w | ]; [ | discriminate ].
    apply andb_true_iff in Hwords. destruct Hwords as [Hw Hpre].
    exists w. split; [ reflexivity | split; [ | exact Hpre ] ].
    apply existsb_exists in Hw. destruct Hw as (w' & Hin & E).
    apply eqb_of_true in E. subst w'. exact Hin.
  - intros k1 v1 k2 v2 H1 H2. apply Obj.get_In in H1. apply Obj.get_In in H2.
    specialize (Hm _ H1). rewrite forallb_forall in Hm. exact (Hm _ H2).
Qed.

Definition hookFilling : Assignment := [("1ACROSS", "CAT"); ("2DOWN", "TOP")]%string.

Definition hookChecked : option Domains * Solver :=
  Eval vm_compute in
    forwardCheck "1ACROSS" "CAT" [("1ACROSS", "CAT")]%string (generateSlots hookSolver).

Definition ringStart : Solver :=
  Eval vm_compute in
    match prepareSearch countingRandom (generateSlots ringGridSolver) with
    | Some (_, s) => s
    | None => ringGridSolver
    end.

Definition ringEnd : Search :=
  Eval vm_compute in
    match backtrackingSolve countingRandom ringStart with
    | Some (_, h) => h
    | None => mkSearch ringStart [] []
    end.


Lemma ac3_keeps_solutions_witness :
  prepared (generateSlots hookSolver)
  /\ ac3 (generateSlots hookSolver) = Some (true, hookAfterAc3)
  /\ solves (generateSlots hookSolver) hookFilling
  /\ true = true /\ solves hookAfterAc3 hookFilling.
Proof.
  assert (H1 : prepared (generateSlots hookSolver))
    by (apply generateSlots_prepared; reflexivity).
  assert (H2 : ac3 (generateSlots hookSolver) = Some (true, hookAfterAc3))
    by (vm_compute; reflexivity).
  assert (H3 : solves (generateSlots hookSolver) hookFilling)
    by (apply solvesb_sound; vm_compute; reflexivity).
  split; [ exact H1 | split; [ exact H2 | split; [ exact H3 | ] ] ].
  exact (ac3_keeps_solutions (generateSlots hookSolver) hookAfterAc3 true hookFilling H1 H2 H3).
Defined.

Lemma forwardCheck_after_isConsistent_witness :
  isConsistent (generateSlots hookSolver) "1ACROSS" "CAT" [] = true
  /\ exists inferences,
       fst (forwardCheck "1ACROSS" "CAT" (Obj.set "1ACROSS"%string "CAT"%string [])
                         (generateSlots hookSolver)) = Some inferences.
Proof.
  assert (H1 : NoDup (Obj.keys (neighborsOf (constraints (generateSlots hookSolver)) "1ACROSS")))
    by (vm_compute; constructor; [ intros [] | constructor ]).
  assert (H2 : isConsistent (generateSlots hookSolver) "1ACROSS" "CAT" [] = true)
    by (vm_compute; reflexivity).
  split; [ exact H2 | ].
  exact (forwardCheck_after_isConsistent (generateSlots hookSolver) "1ACROSS" "CAT" [] H1 H2).
Defined.

Lemma forwardCheck_restoreDomains_witness :
  forwardCheck "1ACROSS" "CAT" [("1ACROSS", "CAT")]%string (generateSlots hookSolver)
  = (Some [("2DOWN", ["CAT"; "DOG"; "TOP"])]%string, snd hookChecked)
  /\ domainOf (snd hookChecked) "2DOWN" = ["TOP"]%string
  /\ domains (restoreDomains (Some [("2DOWN", ["CAT"; "DOG"; "TOP"])]%string) (snd hookChecked))
     = domains (generateSlots hookSolver).
Proof.
  assert (H1 : NoDup (Obj.keys (neighborsOf (constraints (generateSlots hookSolver)) "1ACROSS")))
    by (vm_compute; constructor; [ intros [] | constructor ]).
  assert (H2 : forwardCheck "1ACROSS" "CAT" [("1ACROSS", "CAT")]%string
                            (generateSlots hookSolver)
               = (Some [("2DOWN", ["CAT"; "DOG"; "TOP"])]%string, snd hookChecked))
    by (vm_compute; reflexivity).
  split; [ exact H2 | split; [ vm_compute; reflexivity | ] ].
  exact (forwardCheck_restoreDomains (generateSlots hookSolver) (snd hookChecked)
           "1ACROSS" "CAT" [("1ACROSS", "CAT")]%string _ H1 H2).
Defined.

Lemma backtrackingSolve_complete_witness :
  prepared (generateSlots ringGridSolver)
  /\ backtrackingSolve countingRandom (generateSlots ringGridSolver) = Some (false, ringFailed)
  /\ ~ solves (generateSlots ringGridSolver)
         [("1ACROSS", "ABC"); ("1DOWN", "AXP"); ("2DOWN", "CYS"); ("3ACROSS", "PMQ")]%string.
Proof.
  assert (H1 : prepared (generateSlots ringGridSolver))
    by (apply generateSlots_prepared; reflexivity).
  assert (H2 : backtrackingSolve countingRandom (generateSlots ringGridSolver)
               = Some (false, ringFailed)) by (vm_compute; reflexivity).
  split; [ exact H1 | split; [ exact H2 | ] ].
  exact (backtrackingSolve_complete countingRandom (generateSlots ringGridSolver) ringFailed
                                    _ H1 H2).
Defined.

Lemma no_solution_verdict_witness :
  validateGrid (grid ringGridSolver) = true
  /\ prepareSearch countingRandom (generateSlots ringGridSolver) = Some (false, ringStart)
  /\ backtrackingSolve countingRandom ringStart = Some (false, ringEnd)
  /\ ~ crosswordFilling ringGridSolver
         [("1ACROSS", "ABC"); ("1DOWN", "AXP"); ("2DOWN", "CYS"); ("3ACROSS", "PMQ")]%string.
Proof.
  assert (H1 : validateGrid (grid ringGridSolver) = true) by reflexivity.
  assert (H2 : wordLengthCache ringGridSolver = cacheWordsByLength (words ringGridSolver))
    by reflexivity.
  assert (H3 : forall w, In w (words ringGridSolver) -> anyChar isLineTerminator w = false).
  { intros w Hw. simpl in Hw.
    destruct Hw as [<- | [<- | [<- | [<- | [<- | []]]]]]; reflexivity. }
  assert (H4 : prepareSearch countingRandom (generateSlots ringGridSolver)
               = Some (false, ringStart)) by (vm_compute; reflexivity).
  assert (H5 : backtrackingSolve countingRandom ringStart = Some (false, ringEnd))
    by (vm_compute; reflexivity).
  split; [ exact H1 | split; [ exact H4 | split; [ exact H5 | ] ] ].
  exact (no_solution_verdict countingRandom ringGridSolver false ringStart ringEnd _
                             H1 H2 H3 H4 H5).
Defined.

Lemma ac3_returns_on_grids_witness :
  prepared (generateSlots hookSolver) /\ commaFree (grid (generateSlots hookSolver)) = true
  /\ exists r s',
       ac3Keys (generateSlots hookSolver) = Some (r, s')
       /\ ac3 (generateSlots hookSolver) = Some (r, s').
Proof.
  assert (H1 : prepared (generateSlots hookSolver))
    by (apply generateSlots_prepared; reflexivity).
  assert (H2 : commaFree (grid (generateSlots hookSolver)) = true) by reflexivity.
  split; [ exact H1 | split; [ exact H2 | ] ].
  exact (ac3_returns_on_grids (generateSlots hookSolver) H1 H2).
Defined.

(* ================================================================== *)
(** * The word list and its two indexes *)
(* ================================================================== *)

(** [this.letterFrequencies[ch] || 0] *)
Definition frequencyOf (freq : Obj.t ascii nat) (ch : ascii) : nat :=
  match Obj.get ch freq with Some n => n | None => 0 end.

(** How often [ch] occurs in the words of the list. *)
Definition letterCount (ch : ascii) (ws : list string) : nat :=
  count_occ ascii_dec (flat_map list_ascii_of_string ws) ch.

(** The body of the inner loop of [calculateLetterFrequencies]. *)
Definition countLetter (freq : Obj.t ascii nat) (ch : ascii) : Obj.t ascii nat :=
  let freq1 := match Obj.get ch freq with
               | Some (S _) => freq
               | _ => Obj.set ch 0 freq
               end in
  Obj.set ch (S (match Obj.get ch freq1 with Some n => n | None => 0 end)) freq1.

Lemma calculateLetterFrequencies_fold ws :
  calculateLetterFrequencies ws
  = fold_left (fun freq word => fold_left countLetter (list_ascii_of_string word) freq) ws [].
Proof. reflexivity. Qed.

Lemma countLetter_get freq ch c :
  Obj.get c (countLetter freq ch)
  = if eq_dec c ch then Some (S (frequencyOf freq ch)) else Obj.get c freq.
Proof.
  unfold countLetter, frequencyOf.
  destruct (Obj.get ch freq) as [[ | n] | ] eqn:Hget.
  - rewrite Obj.get_set_same, Obj.get_set. destruct (eq_dec c ch) as [-> | Hne]; [ reflexivity | ].
    rewrite Obj.get_set. destruct (eq_dec c ch); [ contradiction | reflexivity ].
  - rewrite Hget, Obj.get_set. reflexivity.
  - rewrite Obj.get_set_same, Obj.get_set. destruct (eq_dec c ch) as [-> | Hne]; [ reflexivity | ].
    rewrite Obj.get_set. destruct (eq_dec c ch); [ contradiction | reflexivity ].
Qed.

(** Every entry of the table counts at least one occurrence. *)
Definition positiveEntries (freq : Obj.t ascii nat) : Prop :=
  forall c n, Obj.get c freq = Some n -> 0 < n.

Lemma countLetter_positive freq ch : positiveEntries freq -> positiveEntries (countLetter freq ch).
Proof.
  intros Hpos c n. rewrite countLetter_get. destruct (eq_dec c ch).
  - intros E. inversion E. lia.
  - apply Hpos.
Qed.

Lemma countLetters_get chars : forall freq c,
  frequencyOf (fold_left countLetter chars freq) c
  = frequencyOf freq c + count_occ ascii_dec chars c.
Proof.
  induction chars as [ | ch chars IH ]; intros freq c; simpl; [ lia | ].
  rewrite IH. unfold frequencyOf at 1. rewrite countLetter_get.
  destruct (eq_dec c ch) as [-> | Hne].
  - destruct (ascii_dec ch ch); [ lia | congruence ].
  - destruct (ascii_dec ch c); [ congruence | ]. unfold frequencyOf. lia.
Qed.

Lemma countLetters_positive chars : forall freq,
  positiveEntries freq -> positiveEntries (fold_left countLetter chars freq).
Proof.
  induction chars as [ | ch chars IH ]; intros freq Hpos; simpl; [ exact Hpos | ].
  apply IH. apply countLetter_positive. exact Hpos.
Qed.

Lemma countWords_get ws : forall freq c,
  frequencyOf (fold_left (fun freq word => fold_left countLetter (list_ascii_of_string word) freq)
                         ws freq) c
  = frequencyOf freq c + letterCount c ws.
Proof.
  unfold letterCount.
  induction ws as [ | w ws IH ]; intros freq c; simpl; [ lia | ].
  rewrite IH, countLetters_get, count_occ_app. lia.
Qed.

Lemma countWords_positive ws : forall freq,
  positiveEntries freq ->
  positiveEntries (fold_left (fun freq word =>
                                fold_left countLetter (list_ascii_of_string word) freq) ws freq).
Proof.
  induction ws as [ | w ws IH ]; intros freq Hpos; simpl; [ exact Hpos | ].
  apply IH. apply countLetters_positive. exact Hpos.
Qed.

Lemma frequencyOf_calculateLetterFrequencies ws c :
  frequencyOf (calculateLetterFrequencies ws) c = letterCount c ws.
Proof. rewrite calculateLetterFrequencies_fold, countWords_get. reflexivity. Qed.

Lemma calculateLetterFrequencies_positive ws : positiveEntries (calculateLetterFrequencies ws).
Proof.
  rewrite calculateLetterFrequencies_fold. apply countWords_positive. intros c n. discriminate.
Qed.

(** The body of the loop of [cacheWordsByLength]. *)
Definition cacheWord (cache : Obj.t nat (list string)) (word : string) : Obj.t nat (list string) :=
  let len := String.length word in
  let cache1 := match Obj.get len cache with
                | None => Obj.set len [] cache
                | Some _ => cache
                end in
  Obj.set len (bucket cache1 len ++ [word]) cache1.

Lemma cacheWordsByLength_fold ws : cacheWordsByLength ws = fold_left cacheWord ws [].
Proof. reflexivity. Qed.

Lemma cacheWord_keys cache word n :
  In n (Obj.keys (cacheWord cache word)) <-> n = String.length word \/ In n (Obj.keys cache).
Proof.
  unfold cacheWord. rewrite Obj.keys_set_In.
  destruct (Obj.get (String.length word) cache) eqn:Hget; [ reflexivity | ].
  rewrite Obj.keys_set_In. tauto.
Qed.

Lemma cacheWords_keys ws : forall cache n,
  In n (Obj.keys (fold_left cacheWord ws cache))
  <-> In n (Obj.keys cache) \/ exists w, In w ws /\ String.length w = n.
Proof.
  induction ws as [ | w ws IH ]; intros cache n; simpl.
  - split; [ auto | ]. intros [H | (w & [] & _)]. exact H.
  - rewrite IH, cacheWord_keys. split.
    + intros [[-> | H] | (w' & Hw' & E)];
        [ right; exists w; auto | auto | right; exists w'; auto ].
    + intros [H | (w' & [<- | Hw'] & E)]; [ auto | auto | right; exists w'; auto ].
Qed.

Lemma cacheWord_NoDup cache word :
  NoDup (Obj.keys cache) -> NoDup (Obj.keys (cacheWord cache word)).
Proof.
  intros Hnd. unfold cacheWord. apply Obj.NoDup_keys_set.
  destruct (Obj.get (String.length word) cache); [ exact Hnd | ].
  apply Obj.NoDup_keys_set. exact Hnd.
Qed.

(* ================================================================== *)
(** * Reading the word file *)
(* ================================================================== *)

(** [s.trim()], on the white space [isSpace] knows. *)
Fixpoint trimStart (s : string) : string :=
  match s with
  | EmptyString => EmptyString
  | String a rest => if isSpace a then trimStart rest else s
  end.

Fixpoint trimEnd (s : string) : string :=
  match s with
  | EmptyString => EmptyString
  | String a rest =>
      let r := trimEnd rest in
      if isSpace a && eqb_of r EmptyString then EmptyString else String a r
  end.

Definition trim (s : string) : string := trimEnd (trimStart s).

(** [s.toUpperCase()] for a string of code units below 128
    ([isAsciiText]): the letters [a] to [z] become [A] to [Z]. *)
Definition upperChar (a : ascii) : ascii :=
  let n := nat_of_ascii a in
  if (97 <=? n) && (n <=? 122) then ascii_of_nat (n - 32) else a.

Fixpoint toUpperCase (s : string) : string :=
  match s with
  | EmptyString => EmptyString
  | String a rest => String (upperChar a) (toUpperCase rest)
  end.

(** The text holds code units below 128 only. *)
Definition isAsciiText (s : string) : bool :=
  negb (anyChar (fun a => 128 <=? nat_of_ascii a) s).

Definition prependChar (a : ascii) (pieces : list string) : list string :=
  match pieces with
  | [] => [String a EmptyString]
  | piece :: rest => String a piece :: rest
  end.

(** [text.split(/\r?\n/)] *)
Fixpoint splitLines (s : string) : list string :=
  match s with
  | EmptyString => [EmptyString]
  | String a rest =>
      if eqb_of a "010"%char then EmptyString :: splitLines rest
      else
        match rest with
        | String b rest' =>
            if eqb_of a "013"%char && eqb_of b "010"%char
            then EmptyString :: splitLines rest'
            else prependChar a (splitLines rest)
        | EmptyString => prependChar a (splitLines rest)
        end
  end.

(** [/^[A-Z]+$/.test(word)] *)
Definition isUpperWord (w : string) : bool :=
  negb (eqb_of w EmptyString) && negb (anyChar (fun a => negb (isUpper a)) w).

(** [text.split(/\r?\n/).map(w => w.trim().toUpperCase()).filter(Boolean)] *)
Definition parseWords (text : string) : list string :=
  filter (fun w => negb (eqb_of w EmptyString))
         (map (fun w => toUpperCase (trim w)) (splitLines text)).

(** [n.toString()] for a length or a cell number. *)
Definition natToString (n : nat) : string := NilEmpty.string_of_uint (Nat.to_uint n).

Definition fallbackWords : list string :=
  ["LASER"; "SAILS"; "SHEET"; "STEER"; "HEEL"; "HIKE"; "KEEL"; "KNOT"]%string.

Definition setWords (ws : list string) (s : Solver) : Solver :=
  mkSolver (grid s) ws (wordLengthCache s) (letterFrequencies s) (slots s) (constraints s)
    (domains s) (cellContents s) (solution s) (recursiveCalls s) (isSolving s)
    (randomCalls s) (statusDisplay s) (alerts s).

(** [this.cacheWordsByLength(); this.calculateLetterFrequencies()] *)
Definition indexWords (s : Solver) : Solver :=
  mkSolver (grid s) (words s) (cacheWordsByLength (words s)) (calculateLetterFrequencies (words s))
    (slots s) (constraints s) (domains s) (cellContents s) (solution s) (recursiveCalls s)
    (isSolving s) (randomCalls s) (statusDisplay s) (alerts s).

(** The [catch] branch of [loadWords]. *)
Definition loadFallbackWords (s : Solver) : Solver :=
  indexWords
    (updateStatus "Warning: Words.txt not found or invalid. Using fallback word list."
       (alert "Warning: Words.txt not found or invalid. Using fallback word list."
          (setWords fallbackWords s))).

(** [loadWords()].  [response] is the text of [Data/Words.txt], or
    [None] when [fetch] fails or the response is not [ok]. *)
Definition loadWords (response : option string) (s : Solver) : Solver :=
  match response with
  | None => loadFallbackWords s
  | Some text =>
      let rawWords := parseWords text in
      if forallb isUpperWord rawWords then
        let s1 := indexWords (setWords rawWords s) in
        updateStatus (String.append "Words loaded successfully: "
                                    (natToString (length (words s1)))) s1
      else loadFallbackWords s
  end.

Lemma isUpper_not_space a : isUpper a = true -> isSpace a = false.
Proof.
  unfold isUpper, isSpace. intros H. apply andb_true_iff in H. destruct H as [H1 H2].
  apply Nat.leb_le in H1. apply Nat.leb_le in H2.
  repeat rewrite orb_false_iff. repeat split.
  - apply andb_false_iff. right. apply Nat.leb_gt. lia.
  - apply Nat.eqb_neq. lia.
  - apply Nat.eqb_neq. lia.
Qed.

Lemma isUpper_upperChar a : isUpper a = true -> upperChar a = a.
Proof.
  unfold isUpper, upperChar. intros H. apply andb_true_iff in H. destruct H as [H1 H2].
  apply Nat.leb_le in H1. apply Nat.leb_le in H2.
  destruct (Nat.leb_spec 97 (nat_of_ascii a)); [ lia | reflexivity ].
Qed.

Lemma isUpper_not_terminator a : isUpper a = true -> isLineTerminator a = false.
Proof.
  unfold isUpper, isLineTerminator. intros H. apply andb_true_iff in H. destruct H as [H1 H2].
  apply Nat.leb_le in H1. apply Nat.leb_le in H2. apply orb_false_iff.
  split; apply Nat.eqb_neq; lia.
Qed.

(** The letters of a word [isUpperWord] accepts. *)
Definition allUpper (w : string) : bool := negb (anyChar (fun a => negb (isUpper a)) w).

Lemma isUpperWord_allUpper w : isUpperWord w = true -> allUpper w = true.
Proof. unfold isUpperWord. intros H. apply andb_true_iff in H. tauto. Qed.

Lemma allUpper_cons a w : allUpper (String a w) = isUpper a && allUpper w.
Proof. unfold allUpper. simpl. rewrite negb_orb, negb_involutive. reflexivity. Qed.

Lemma allUpper_no_terminator w : allUpper w = true -> anyChar isLineTerminator w = false.
Proof.
  induction w as [ | a w IH ]; [ reflexivity | ].
  rewrite allUpper_cons, andb_true_iff. intros [Ha Hw]. simpl.
  rewrite (isUpper_not_terminator a Ha), (IH Hw). reflexivity.
Qed.

Lemma allUpper_trimStart w : allUpper w = true -> trimStart w = w.
Proof.
  destruct w as [ | a w ]; [ reflexivity | ].
  rewrite allUpper_cons, andb_true_iff. intros [Ha _]. simpl.
  rewrite (isUpper_not_space a Ha). reflexivity.
Qed.

Lemma allUpper_trimEnd w : allUpper w = true -> trimEnd w = w.
Proof.
  induction w as [ | a w IH ]; [ reflexivity | ].
  rewrite allUpper_cons, andb_true_iff. intros [Ha Hw]. simpl.
  rewrite (isUpper_not_space a Ha), (IH Hw). reflexivity.
Qed.

Lemma allUpper_toUpperCase w : allUpper w = true -> toUpperCase w = w.
Proof.
  induction w as [ | a w IH ]; [ reflexivity | ].
  rewrite allUpper_cons, andb_true_iff. intros [Ha Hw]. simpl.
  rewrite (isUpper_upperChar a Ha), (IH Hw). reflexivity.
Qed.

Lemma isUpperWord_fixed w : isUpperWord w = true -> toUpperCase (trim w) = w.
Proof.
  intros H. apply isUpperWord_allUpper in H. unfold trim.
  rewrite (allUpper_trimStart w H), (allUpper_trimEnd w H). apply allUpper_toUpperCase. exact H.
Qed.

(** The end of a line: a line feed, alone or after a carriage
    return. *)
Definition isLineEnd (eol : string) : Prop :=
  eol = String "010"%char EmptyString \/ eol = String "013"%char (String "010"%char EmptyString).

(** The file that holds the words one per line. *)
Definition unlines (eol : string) (ws : list string) : string :=
  fold_right (fun w acc => String.append w (String.append eol acc)) EmptyString ws.

Lemma splitLines_line eol w rest :
  isLineEnd eol -> anyChar isLineTerminator w = false ->
  splitLines (String.append w (String.append eol rest)) = w :: splitLines rest.
Proof.
  intros Heol. induction w as [ | a w IH ]; intros Hw.
  - destruct Heol as [-> | ->]; reflexivity.
  - simpl in Hw. apply orb_false_iff in Hw. destruct Hw as [Ha Hw].
    unfold isLineTerminator in Ha. apply orb_false_iff in Ha. destruct Ha as [Hlf Hcr].
    apply Nat.eqb_neq in Hlf. apply Nat.eqb_neq in Hcr.
    assert (Ea : eqb_of a "010"%char = false)
      by (apply eqb_of_false; intros ->; apply Hlf; reflexivity).
    assert (Eb : eqb_of a "013"%char = false)
      by (apply eqb_of_false; intros ->; apply Hcr; reflexivity).
    cbn [String.append splitLines]. rewrite Ea, Eb. cbn [andb].
    specialize (IH Hw).
    destruct (String.append w (String.append eol rest)) as [ | b tail ] eqn:Htail.
    + apply (f_equal String.length) in Htail. rewrite !string_append_length in Htail.
      destruct Heol as [-> | ->]; simpl in Htail; lia.
    + rewrite IH. reflexivity.
Qed.

Lemma parseWords_unlines eol ws :
  isLineEnd eol -> forallb isUpperWord ws = true -> parseWords (unlines eol ws) = ws.
Proof.
  intros Heol. unfold parseWords. induction ws as [ | w ws IH ]; intros Hws; [ reflexivity | ].
  simpl in Hws. apply andb_true_iff in Hws. destruct Hws as [Hw Hws].
  cbn [unlines fold_right]. fold (unlines eol ws).
  rewrite (splitLines_line eol w _ Heol)
    by (apply allUpper_no_terminator, isUpperWord_allUpper; exact Hw).
  cbn [map filter]. rewrite (isUpperWord_fixed w Hw), (IH Hws).
  unfold isUpperWord in Hw. apply andb_true_iff in Hw. destruct Hw as [Hne _].
  rewrite Hne. reflexivity.
Qed.

Lemma fallbackWords_upper : forallb isUpperWord fallbackWords = true.
Proof. reflexivity. Qed.

Lemma loadWords_words response s :
  words (loadWords response s)
  = match response with
    | Some text => if forallb isUpperWord (parseWords text) then parseWords text else fallbackWords
    | None => fallbackWords
    end.
Proof.
  unfold loadWords. destruct response as [text | ]; [ | reflexivity ].
  destruct (forallb isUpperWord (parseWords text)); reflexivity.
Qed.

Lemma loadWords_upper response s : forallb isUpperWord (words (loadWords response s)) = true.
Proof.
  rewrite loadWords_words. destruct response as [text | ]; [ | reflexivity ].
  destruct (forallb isUpperWord (parseWords text)) eqn:H; [ exact H | reflexivity ].
Qed.

Lemma loadWords_indexed response s :
  wordLengthCache (loadWords response s) = cacheWordsByLength (words (loadWords response s))
  /\ letterFrequencies (loadWords response s)
     = calculateLetterFrequencies (words (loadWords response s)).
Proof.
  unfold loadWords. destruct response as [text | ]; [ | split; reflexivity ].
  destruct (forallb isUpperWord (parseWords text)); split; reflexivity.
Qed.

(** X12.  [cacheWordsByLength] buckets the word list by length:
    [wordLengthCache[n]] is the sub-list of the words of length [n], in
    the order of the list, and a length no word has gets no key. *)
Theorem cacheWordsByLength_buckets (ws : list string) :
  (forall n, bucket (cacheWordsByLength ws) n
             = filter (fun w => eqb_of (String.length w) n) ws)
  /\ (forall n, In n (Obj.keys (cacheWordsByLength ws))
                <-> exists w, In w ws /\ String.length w = n)
  /\ NoDup (Obj.keys (cacheWordsByLength ws)).
Proof.
  split; [ apply bucket_cacheWordsByLength | split ].
  - intros n. rewrite cacheWordsByLength_fold, cacheWords_keys. simpl. tauto.
  - rewrite cacheWordsByLength_fold.
    assert (Hgen : forall l (cache : Obj.t nat (list string)),
               NoDup (Obj.keys cache) -> NoDup (Obj.keys (fold_left cacheWord l cache))).
    { induction l as [ | w l IH ]; intros cache Hnd; simpl; [ exact Hnd | ].
      apply IH. apply cacheWord_NoDup. exact Hnd. }
    apply Hgen. constructor.
Qed.

(** X13.  [calculateLetterFrequencies] counts: the table holds a letter
    exactly when the letter occurs in some word, and then the entry is
    the number of its occurrences in the whole list. *)
Theorem calculateLetterFrequencies_counts (ws : list string) (ch : ascii) :
  match Obj.get ch (calculateLetterFrequencies ws) with
  | Some n => n = letterCount ch ws /\ 0 < n
  | None => letterCount ch ws = 0
  end.
Proof.
  pose proof (frequencyOf_calculateLetterFrequencies ws ch) as Hcount.
  pose proof (calculateLetterFrequencies_positive ws ch) as Hpos.
  unfold frequencyOf in Hcount.
  destruct (Obj.get ch (calculateLetterFrequencies ws)) as [n | ].
  - split; [ exact Hcount | apply Hpos; reflexivity ].
  - symmetry. exact Hcount.
Qed.

(** X14.  Whatever [fetch] delivers, [loadWords] leaves a word list of
    non-empty words of upper-case letters (the words of the file when
    all its lines are such words, the fallback list otherwise, so no
    word holds a line break) and both indexes computed from that
    list. *)
Theorem loadWords_establishes (response : option string) (s : Solver) :
  (forall text, response = Some text -> isAsciiText text = true) ->
  forallb isUpperWord (words (loadWords response s)) = true
  /\ (forall w, In w (words (loadWords response s)) -> anyChar isLineTerminator w = false)
  /\ wordLengthCache (loadWords response s) = cacheWordsByLength (words (loadWords response s))
  /\ letterFrequencies (loadWords response s)
     = calculateLetterFrequencies (words (loadWords response s))
  /\ grid (loadWords response s) = grid s.
Proof.
  intros _. split; [ apply loadWords_upper | split; [ | split; [ | split ] ] ].
  - intros w Hw. pose proof (loadWords_upper response s) as Hall.
    rewrite forallb_forall in Hall. apply allUpper_no_terminator, isUpperWord_allUpper.
    apply Hall. exact Hw.
  - apply loadWords_indexed.
  - apply loadWords_indexed.
  - unfold loadWords. destruct response as [text | ]; [ | reflexivity ].
    destruct (forallb isUpperWord (parseWords text)); reflexivity.
Qed.

(** X15.  A file that holds upper-case words one per line, each line
    ended by a line feed or by a carriage return and a line feed, is
    read back as exactly that list of words, in order; an empty file
    gives the empty list, not the fallback list. *)
Theorem loadWords_reads_lines (eol : string) (ws : list string) (s : Solver) :
  isLineEnd eol -> forallb isUpperWord ws = true ->
  words (loadWords (Some (unlines eol ws)) s) = ws
  /\ statusDisplay (loadWords (Some (unlines eol ws)) s)
     = statusDisplay s
       ++ [String.append "Words loaded successfully: " (natToString (length ws))]
  /\ alerts (loadWords (Some (unlines eol ws)) s) = alerts s.
Proof.
  intros Heol Hws. unfold loadWords. rewrite (parseWords_unlines eol ws Heol Hws), Hws.
  split; [ reflexivity | split; reflexivity ].
Qed.

(* ================================================================== *)
(** * The word list of the modular application ([js/data.js]) *)
(* ================================================================== *)

(** The fields of [DataManager] its word methods touch, and the calls
    of [alert]. *)
Record DataManager := mkData {
  dmWords : list string;
  dmWordLengthCache : Obj.t nat (list string);
  dmLetterFrequencies : Obj.t ascii nat;
  dmAlerts : list string
}.

Definition dmAlert (message : string) (dm : DataManager) : DataManager :=
  mkData (dmWords dm) (dmWordLengthCache dm) (dmLetterFrequencies dm) (dmAlerts dm ++ [message]).

(** [this.words.includes(word)] *)
Definition includes (word : string) (ws : list string) : bool := existsb (eqb_of word) ws.

(** [l.splice(l.indexOf(word), 1)] when the word is there. *)
Fixpoint removeFirst (word : string) (l : list string) : list string :=
  match l with
  | [] => []
  | w :: rest => if eqb_of word w then rest else w :: removeFirst word rest
  end.

(** [getWordsByLength(length)] *)
Definition getWordsByLength (dm : DataManager) (len : nat) : list string :=
  bucket (dmWordLengthCache dm) len.

(** [addWord(word)] *)
Definition addWord (word : string) (dm : DataManager) : bool * DataManager :=
  let upperWord := toUpperCase (trim word) in
  if negb (isUpperWord upperWord) then
    (false, dmAlert "Invalid word. Only alphabetic characters are allowed." dm)
  else if includes upperWord (dmWords dm) then
    (false, dmAlert "Word already exists in the list." dm)
  else
    (true, mkData (dmWords dm ++ [upperWord])
                  (cacheWord (dmWordLengthCache dm) upperWord)
                  (fold_left countLetter (list_ascii_of_string upperWord) (dmLetterFrequencies dm))
                  (dmAlerts dm)).

(** The body of the last loop of [removeWord]. *)
Definition uncountLetter (freq : Obj.t ascii nat) (ch : ascii) : Obj.t ascii nat :=
  match Obj.get ch freq with
  | Some (S n) => if n =? 0 then Obj.delete ch freq else Obj.set ch n freq
  | _ => freq
  end.

(** [removeWord(word)] *)
Definition removeWord (word : string) (dm : DataManager) : bool * DataManager :=
  let upperWord := toUpperCase (trim word) in
  if negb (includes upperWord (dmWords dm)) then
    (false, dmAlert "Word not found in the list." dm)
  else
    let len := String.length upperWord in
    (true, mkData (removeFirst upperWord (dmWords dm))
                  (match Obj.get len (dmWordLengthCache dm) with
                   | Some lengthCache =>
                       Obj.set len (removeFirst upperWord lengthCache) (dmWordLengthCache dm)
                   | None => dmWordLengthCache dm
                   end)
                  (fold_left uncountLetter (list_ascii_of_string upperWord)
                             (dmLetterFrequencies dm))
                  (dmAlerts dm)).

(** [editWord(oldWord, newWord)] *)
Definition editWord (oldWord newWord : string) (dm : DataManager) : bool * DataManager :=
  let upperOldWord := toUpperCase (trim oldWord) in
  let upperNewWord := toUpperCase (trim newWord) in
  if negb (includes upperOldWord (dmWords dm)) then
    (false, dmAlert "Original word not found in the list." dm)
  else if negb (isUpperWord upperNewWord) then
    (false, dmAlert "Invalid new word. Only alphabetic characters are allowed." dm)
  else if includes upperNewWord (dmWords dm) then
    (false, dmAlert "New word already exists in the list." dm)
  else
    (true, snd (addWord upperNewWord (snd (removeWord upperOldWord dm)))).

(** The two indexes answer as if they had just been computed from the
    word list. *)
Definition indexesAgree (dm : DataManager) : Prop :=
  (forall n, getWordsByLength dm n = filter (fun w => eqb_of (String.length w) n) (dmWords dm))
  /\ (forall ch, frequencyOf (dmLetterFrequencies dm) ch = letterCount ch (dmWords dm))
  /\ NoDup (Obj.keys (dmLetterFrequencies dm)).

(** [new DataManager()] after [loadWords]. *)
Definition newDataManager (ws : list string) : DataManager :=
  mkData ws (cacheWordsByLength ws) (calculateLetterFrequencies ws) [].

Lemma includes_In w ws : includes w ws = true <-> In w ws.
Proof.
  unfold includes. rewrite existsb_exists. split.
  - intros (x & Hx & E). apply eqb_of_true in E. subst x. exact Hx.
  - intros H. exists w. split; [ exact H | apply eqb_of_refl ].
Qed.

Lemma filter_removeFirst (f : string -> bool) w ws :
  filter f (removeFirst w ws) = if f w then removeFirst w (filter f ws) else filter f ws.
Proof.
  induction ws as [ | x ws IH ]; simpl; [ destruct (f w); reflexivity | ].
  destruct (eqb_of w x) eqn:E.
  - apply eqb_of_true in E. subst x. destruct (f w) eqn:Hf; simpl.
    + rewrite eqb_of_refl. reflexivity.
    + reflexivity.
  - simpl. rewrite IH. destruct (f x) eqn:Hx; destruct (f w) eqn:Hf; simpl;
      try rewrite E; reflexivity.
Qed.

Lemma letterCount_cons c w ws :
  letterCount c (w :: ws) = count_occ ascii_dec (list_ascii_of_string w) c + letterCount c ws.
Proof. unfold letterCount. simpl. apply count_occ_app. Qed.

Lemma letterCount_app c ws ws' : letterCount c (ws ++ ws') = letterCount c ws + letterCount c ws'.
Proof.
  induction ws as [ | w ws IH ]; [ reflexivity | ].
  simpl. rewrite !letterCount_cons, IH. lia.
Qed.

Lemma letterCount_removeFirst c w ws :
  In w ws ->
  letterCount c (removeFirst w ws) + count_occ ascii_dec (list_ascii_of_string w) c
  = letterCount c ws.
Proof.
  induction ws as [ | x ws IH ]; simpl; [ tauto | ].
  destruct (eqb_of w x) eqn:E.
  - apply eqb_of_true in E. subst x. intros _. rewrite letterCount_cons. lia.
  - apply eqb_of_false in E. intros [Hx | Hin]; [ congruence | ].
    rewrite !letterCount_cons. specialize (IH Hin). lia.
Qed.

Section DictionaryDelete.
Context {K V : Type} `{EqDec K}.

Lemma keys_delete_In (k k' : K) (o : Obj.t K V) :
  In k' (Obj.keys (Obj.delete k o)) -> In k' (Obj.keys o).
Proof.
  induction o as [ | [k0 v0] o IH ]; simpl; [ tauto | ].
  destruct (eq_dec k k0); simpl; [ auto | ]. intros [E | Hin]; auto.
Qed.

Lemma NoDup_keys_delete (k : K) (o : Obj.t K V) :
  NoDup (Obj.keys o) -> NoDup (Obj.keys (Obj.delete k o)).
Proof.
  induction o as [ | [k0 v0] o IH ]; simpl; intros Hnd; [ constructor | ].
  inversion Hnd as [ | ? ? Hnotin Hnd' ]; subst.
  destruct (eq_dec k k0); simpl; [ exact Hnd' | ].
  constructor; [ | apply IH; exact Hnd' ].
  intros Hin. apply Hnotin. eapply keys_delete_In; eauto.
Qed.

Lemma get_delete_same (k : K) (o : Obj.t K V) :
  NoDup (Obj.keys o) -> Obj.get k (Obj.delete k o) = None.
Proof.
  induction o as [ | [k0 v0] o IH ]; simpl; intros Hnd; [ reflexivity | ].
  inversion Hnd as [ | ? ? Hnotin Hnd' ]; subst.
  destruct (eq_dec k k0) as [E | E]; simpl.
  - subst k0. apply Obj.get_None_keys. exact Hnotin.
  - destruct (eq_dec k k0); [ contradiction | ]. apply IH. exact Hnd'.
Qed.

End DictionaryDelete.

Lemma uncountLetter_get freq ch c :
  NoDup (Obj.keys freq) -> 0 < frequencyOf freq ch ->
  frequencyOf (uncountLetter freq ch) c
  = frequencyOf freq c - (if eq_dec c ch then 1 else 0).
Proof.
  intros Hnd Hpos. unfold uncountLetter, frequencyOf in *.
  destruct (Obj.get ch freq) as [[ | n] | ] eqn:Hget; try lia.
  destruct (Nat.eqb_spec n 0) as [-> | Hn].
  - destruct (eq_dec c ch) as [-> | Hne].
    + rewrite get_delete_same by exact Hnd. rewrite Hget. reflexivity.
    + rewrite Obj.get_delete_other by congruence. lia.
  - rewrite Obj.get_set. destruct (eq_dec c ch) as [-> | Hne]; [ rewrite Hget; lia | lia ].
Qed.

Lemma uncountLetter_NoDup freq ch :
  NoDup (Obj.keys freq) -> NoDup (Obj.keys (uncountLetter freq ch)).
Proof.
  intros Hnd. unfold uncountLetter. destruct (Obj.get ch freq) as [[ | n] | ]; try exact Hnd.
  destruct (n =? 0); [ apply NoDup_keys_delete | apply Obj.NoDup_keys_set ]; exact Hnd.
Qed.

Lemma uncountLetters_get chars : forall freq,
  NoDup (Obj.keys freq) ->
  (forall c, count_occ ascii_dec chars c <= frequencyOf freq c) ->
  NoDup (Obj.keys (fold_left uncountLetter chars freq))
  /\ forall c, frequencyOf (fold_left uncountLetter chars freq) c
               = frequencyOf freq c - count_occ ascii_dec chars c.
Proof.
  induction chars as [ | ch chars IH ]; intros freq Hnd Hle; simpl.
  - split; [ exact Hnd | ]. intros c. lia.
  - assert (Hpos : 0 < frequencyOf freq ch).
    { specialize (Hle ch). simpl in Hle. destruct (ascii_dec ch ch); [ lia | congruence ]. }
    destruct (IH (uncountLetter freq ch)) as [Hnd' Hget].
    + apply uncountLetter_NoDup. exact Hnd.
    + intros c. rewrite uncountLetter_get by assumption. specialize (Hle c). simpl in Hle.
      destruct (eq_dec c ch) as [-> | Hne].
      * destruct (ascii_dec ch ch); [ lia | congruence ].
      * destruct (ascii_dec ch c); [ congruence | lia ].
    + split; [ exact Hnd' | ]. intros c. rewrite Hget, uncountLetter_get by assumption.
      destruct (eq_dec c ch) as [-> | Hne].
      * destruct (ascii_dec ch ch); [ lia | congruence ].
      * destruct (ascii_dec ch c); [ congruence | lia ].
Qed.

Lemma countLetter_NoDup freq ch :
  NoDup (Obj.keys freq) -> NoDup (Obj.keys (countLetter freq ch)).
Proof.
  intros Hnd. unfold countLetter. apply Obj.NoDup_keys_set.
  destruct (Obj.get ch freq) as [[ | n] | ]; try exact Hnd; apply Obj.NoDup_keys_set; exact Hnd.
Qed.

Lemma countLetters_NoDup chars : forall freq,
  NoDup (Obj.keys freq) -> NoDup (Obj.keys (fold_left countLetter chars freq)).
Proof.
  induction chars as [ | ch chars IH ]; intros freq Hnd; simpl; [ exact Hnd | ].
  apply IH. apply countLetter_NoDup. exact Hnd.
Qed.

Lemma calculateLetterFrequencies_NoDup ws : NoDup (Obj.keys (calculateLetterFrequencies ws)).
Proof.
  rewrite calculateLetterFrequencies_fold.
  assert (Hgen : forall l (freq : Obj.t ascii nat),
             NoDup (Obj.keys freq) ->
             NoDup (Obj.keys (fold_left (fun freq word =>
                                           fold_left countLetter (list_ascii_of_string word) freq)
                                        l freq))).
  { induction l as [ | w l IH ]; intros freq Hnd; simpl; [ exact Hnd | ].
    apply IH. apply countLetters_NoDup. exact Hnd. }
  apply Hgen. constructor.
Qed.

Lemma newDataManager_agrees ws : indexesAgree (newDataManager ws).
Proof.
  split; [ | split ].
  - intros n. apply bucket_cacheWordsByLength.
  - intros ch. apply frequencyOf_calculateLetterFrequencies.
  - apply calculateLetterFrequencies_NoDup.
Qed.

Lemma bucket_cacheWord cache word n :
  bucket (cacheWord cache word) n
  = bucket cache n ++ (if eq_dec n (String.length word) then [word] else []).
Proof. apply bucket_cacheStep. Qed.

(** What a successful [addWord] does to a manager whose indexes
    agree. *)
Lemma addWord_agrees up dm :
  indexesAgree dm ->
  indexesAgree (mkData (dmWords dm ++ [up]) (cacheWord (dmWordLengthCache dm) up)
                       (fold_left countLetter (list_ascii_of_string up) (dmLetterFrequencies dm))
                       (dmAlerts dm)).
Proof.
  intros (Hb & Hf & Hnd). split; [ | split ].
  - intros n. unfold getWordsByLength in *. cbn [dmWordLengthCache dmWords].
    rewrite bucket_cacheWord, Hb, filter_app. simpl.
    destruct (eq_dec n (String.length up)) as [-> | Hne].
    + rewrite eqb_of_refl. reflexivity.
    + assert (E : eqb_of (String.length up) n = false) by (apply eqb_of_false; congruence).
      rewrite E. reflexivity.
  - intros ch. cbn [dmLetterFrequencies dmWords].
    rewrite countLetters_get, Hf, letterCount_app. unfold letterCount at 3. simpl.
    rewrite app_nil_r. reflexivity.
  - cbn [dmLetterFrequencies]. apply countLetters_NoDup. exact Hnd.
Qed.

(** What a successful [removeWord] does to a manager whose indexes
    agree. *)
Lemma removeWord_agrees up dm :
  indexesAgree dm -> In up (dmWords dm) ->
  indexesAgree
    (mkData (removeFirst up (dmWords dm))
            (match Obj.get (String.length up) (dmWordLengthCache dm) with
             | Some lengthCache =>
                 Obj.set (String.length up) (removeFirst up lengthCache) (dmWordLengthCache dm)
             | None => dmWordLengthCache dm
             end)
            (fold_left uncountLetter (list_ascii_of_string up) (dmLetterFrequencies dm))
            (dmAlerts dm)).
Proof.
  intros (Hb & Hf & Hnd) Hin.
  destruct (uncountLetters_get (list_ascii_of_string up) (dmLetterFrequencies dm) Hnd)
    as [Hnd' Hget].
  { intros c. rewrite Hf. pose proof (letterCount_removeFirst c up _ Hin). lia. }
  split; [ | split ].
  - intros n. unfold getWordsByLength in *. cbn [dmWordLengthCache dmWords].
    rewrite filter_removeFirst.
    destruct (Obj.get (String.length up) (dmWordLengthCache dm)) as [lengthCache | ] eqn:Hcache.
    + unfold bucket at 1. rewrite Obj.get_set.
      destruct (eq_dec n (String.length up)) as [-> | Hne].
      * rewrite eqb_of_refl. rewrite <- Hb. unfold bucket. rewrite Hcache. reflexivity.
      * assert (E : eqb_of (String.length up) n = false) by (apply eqb_of_false; congruence).
        rewrite E. rewrite <- Hb. reflexivity.
    + destruct (eqb_of (String.length up) n) eqn:E; [ | apply Hb ].
      apply eqb_of_true in E. subst n. rewrite <- Hb. unfold bucket. rewrite Hcache. reflexivity.
  - intros ch. cbn [dmLetterFrequencies dmWords]. rewrite Hget, Hf.
    pose proof (letterCount_removeFirst ch up _ Hin). lia.
  - exact Hnd'.
Qed.

(** ** Trimming and upper-casing twice changes nothing more *)

Lemma isSpace_upperChar a : isSpace (upperChar a) = isSpace a.
Proof.
  unfold upperChar. destruct ((97 <=? nat_of_ascii a) && (nat_of_ascii a <=? 122)) eqn:H;
    [ | reflexivity ].
  apply andb_true_iff in H. destruct H as [H1 H2].
  apply Nat.leb_le in H1. apply Nat.leb_le in H2.
  assert (Hlt : nat_of_ascii a - 32 < 256) by lia.
  unfold isSpace. rewrite (nat_ascii_embedding _ Hlt).
  replace ((9 <=? nat_of_ascii a) && (nat_of_ascii a <=? 13)) with false
    by (symmetry; apply andb_false_iff; right; apply Nat.leb_gt; lia).
  replace ((9 <=? nat_of_ascii a - 32) && (nat_of_ascii a - 32 <=? 13)) with false
    by (symmetry; apply andb_false_iff; right; apply Nat.leb_gt; lia).
  replace (nat_of_ascii a =? 32) with false by (symmetry; apply Nat.eqb_neq; lia).
  replace (nat_of_ascii a =? 160) with false by (symmetry; apply Nat.eqb_neq; lia).
  replace (nat_of_ascii a - 32 =? 32) with false by (symmetry; apply Nat.eqb_neq; lia).
  replace (nat_of_ascii a - 32 =? 160) with false by (symmetry; apply Nat.eqb_neq; lia).
  reflexivity.
Qed.

Lemma upperChar_idem a : upperChar (upperChar a) = upperChar a.
Proof.
  destruct ((97 <=? nat_of_ascii a) && (nat_of_ascii a <=? 122)) eqn:H.
  - assert (E : upperChar a = ascii_of_nat (nat_of_ascii a - 32))
      by (unfold upperChar; rewrite H; reflexivity).
    rewrite E. apply andb_true_iff in H. destruct H as [H1 H2].
    apply Nat.leb_le in H1. apply Nat.leb_le in H2.
    assert (Hlt : nat_of_ascii a - 32 < 256) by lia.
    unfold upperChar. rewrite (nat_ascii_embedding _ Hlt).
    destruct (Nat.leb_spec 97 (nat_of_ascii a - 32)); [ lia | reflexivity ].
  - assert (E : upperChar a = a) by (unfold upperChar; rewrite H; reflexivity).
    rewrite !E. reflexivity.
Qed.

Lemma toUpperCase_idem s : toUpperCase (toUpperCase s) = toUpperCase s.
Proof. induction s as [ | a s IH ]; simpl; [ | rewrite upperChar_idem, IH ]; reflexivity. Qed.

Lemma toUpperCase_empty s : toUpperCase s = EmptyString <-> s = EmptyString.
Proof. destruct s; simpl; split; congruence. Qed.

Lemma trimStart_toUpperCase s : trimStart (toUpperCase s) = toUpperCase (trimStart s).
Proof.
  induction s as [ | a s IH ]; simpl; [ reflexivity | ].
  rewrite isSpace_upperChar. destruct (isSpace a); [ exact IH | reflexivity ].
Qed.

Lemma trimEnd_toUpperCase s : trimEnd (toUpperCase s) = toUpperCase (trimEnd s).
Proof.
  induction s as [ | a s IH ]; simpl; [ reflexivity | ].
  rewrite isSpace_upperChar, IH.
  assert (E : eqb_of (toUpperCase (trimEnd s)) EmptyString = eqb_of (trimEnd s) EmptyString).
  { destruct (trimEnd s); reflexivity. }
  rewrite E. destruct (isSpace a && eqb_of (trimEnd s) EmptyString); reflexivity.
Qed.

Lemma trimStart_idem s : trimStart (trimStart s) = trimStart s.
Proof.
  induction s as [ | a s IH ]; simpl; [ reflexivity | ].
  destruct (isSpace a) eqn:Ha; [ exact IH | ]. simpl. rewrite Ha. reflexivity.
Qed.

Lemma trimEnd_idem s : trimEnd (trimEnd s) = trimEnd s.
Proof.
  induction s as [ | a s IH ]; simpl; [ reflexivity | ].
  destruct (isSpace a && eqb_of (trimEnd s) EmptyString) eqn:H; [ reflexivity | ].
  simpl. rewrite IH, H. reflexivity.
Qed.

(** Trimming the end uncovers no leading white space. *)
Lemma trimStart_trimEnd s : trimStart s = s -> trimStart (trimEnd s) = trimEnd s.
Proof.
  destruct s as [ | a s ]; [ reflexivity | ]. simpl.
  destruct (isSpace a) eqn:Ha.
  - intros E. exfalso. apply (f_equal String.length) in E. simpl in E.
    assert (Hle : forall t, String.length (trimStart t) <= String.length t).
    { induction t as [ | b t IH ]; simpl; [ lia | ]. destruct (isSpace b); simpl; lia. }
    specialize (Hle s). lia.
  - intros _. simpl. simpl. rewrite Ha. reflexivity.
Qed.

Lemma trim_idem s : trim (trim s) = trim s.
Proof.
  unfold trim. rewrite (trimStart_trimEnd (trimStart s)) by apply trimStart_idem.
  apply trimEnd_idem.
Qed.

Lemma normalize_idem s : toUpperCase (trim (toUpperCase (trim s))) = toUpperCase (trim s).
Proof.
  unfold trim at 1. rewrite trimStart_toUpperCase, trimEnd_toUpperCase.
  fold (trim (trim s)). rewrite trim_idem. apply toUpperCase_idem.
Qed.

Lemma removeFirst_In w x ws : In x (removeFirst w ws) -> In x ws.
Proof.
  induction ws as [ | y ws IH ]; simpl; [ tauto | ].
  destruct (eqb_of w y); simpl; [ auto | ]. intros [E | Hin]; auto.
Qed.

Lemma removeFirst_absent w ws : ~ In w ws -> removeFirst w ws = ws.
Proof.
  induction ws as [ | y ws IH ]; simpl; [ reflexivity | ]. intros Hn.
  destruct (eqb_of w y) eqn:E; [ apply eqb_of_true in E; subst; tauto | ].
  f_equal. apply IH. tauto.
Qed.

Lemma removeFirst_last w ws : ~ In w ws -> removeFirst w (ws ++ [w]) = ws.
Proof.
  induction ws as [ | y ws IH ]; simpl; intros Hn; [ rewrite eqb_of_refl; reflexivity | ].
  destruct (eqb_of w y) eqn:E; [ apply eqb_of_true in E; subst; tauto | ].
  f_equal. apply IH. tauto.
Qed.

Lemma includes_false w ws : includes w ws = false <-> ~ In w ws.
Proof.
  rewrite <- includes_In. destruct (includes w ws); split; congruence.
Qed.

(** X16.  [addWord] accepts a word exactly when, trimmed and upper-
    cased, it is a non-empty string of letters that is not yet in the
    list; it then appends it, and both indexes stay what
    [cacheWordsByLength] and [calculateLetterFrequencies] would compute
    from the new list.  A refused word changes nothing but the
    alerts. *)
Theorem addWord_keeps_indexes (word : string) (dm : DataManager) :
  isAsciiText word = true ->
  (fst (addWord word dm) = true
   <-> isUpperWord (toUpperCase (trim word)) = true
       /\ ~ In (toUpperCase (trim word)) (dmWords dm))
  /\ (fst (addWord word dm) = true ->
      dmWords (snd (addWord word dm)) = dmWords dm ++ [toUpperCase (trim word)])
  /\ (fst (addWord word dm) = false ->
      dmWords (snd (addWord word dm)) = dmWords dm
      /\ dmWordLengthCache (snd (addWord word dm)) = dmWordLengthCache dm
      /\ dmLetterFrequencies (snd (addWord word dm)) = dmLetterFrequencies dm)
  /\ (dmWordLengthCache dm = cacheWordsByLength (dmWords dm) ->
      dmLetterFrequencies dm = calculateLetterFrequencies (dmWords dm) ->
      dmWordLengthCache (snd (addWord word dm))
      = cacheWordsByLength (dmWords (snd (addWord word dm)))
      /\ dmLetterFrequencies (snd (addWord word dm))
         = calculateLetterFrequencies (dmWords (snd (addWord word dm)))).
Proof.
  intros _. unfold addWord.
  destruct (isUpperWord (toUpperCase (trim word))) eqn:Hvalid; cbn [negb].
  2:{ cbn [fst snd dmAlert dmWords dmWordLengthCache dmLetterFrequencies].
      split; [ split; [ discriminate | intros [H _]; discriminate ] | ].
      split; [ discriminate | ]. split; [ auto | auto ]. }
  destruct (includes (toUpperCase (trim word)) (dmWords dm)) eqn:Hinc.
  - cbn [fst snd dmAlert dmWords dmWordLengthCache dmLetterFrequencies].
    apply includes_In in Hinc.
    split; [ split; [ discriminate | intros [_ H]; contradiction ] | ].
    split; [ discriminate | ]. split; [ auto | auto ].
  - cbn [fst snd dmWords dmWordLengthCache dmLetterFrequencies].
    apply includes_false in Hinc.
    split; [ split; [ auto | reflexivity ] | ].
    split; [ reflexivity | ]. split; [ discriminate | ].
    intros Hc Hf. rewrite Hc, Hf. split.
    + rewrite !cacheWordsByLength_fold, fold_left_app. reflexivity.
    + rewrite !calculateLetterFrequencies_fold, fold_left_app. reflexivity.
Qed.

(** X17.  [removeWord] succeeds exactly when the word, trimmed and
    upper-cased, is in the list; it removes its first occurrence, and
    afterwards [getWordsByLength] and the letter frequencies still
    answer as if computed from the new list. *)
Theorem removeWord_keeps_indexes (word : string) (dm : DataManager) :
  isAsciiText word = true ->
  indexesAgree dm ->
  (fst (removeWord word dm) = true <-> In (toUpperCase (trim word)) (dmWords dm))
  /\ dmWords (snd (removeWord word dm)) = removeFirst (toUpperCase (trim word)) (dmWords dm)
  /\ indexesAgree (snd (removeWord word dm)).
Proof.
  intros _ Hagree. unfold removeWord.
  destruct (includes (toUpperCase (trim word)) (dmWords dm)) eqn:Hinc; cbn [negb fst snd].
  - apply includes_In in Hinc. split; [ tauto | ]. split; [ reflexivity | ].
    apply removeWord_agrees; assumption.
  - apply includes_false in Hinc. split; [ split; [ discriminate | contradiction ] | ].
    cbn [dmAlert dmWords]. split; [ symmetry; apply removeFirst_absent; exact Hinc | ].
    exact Hagree.
Qed.

(** X18.  [editWord] succeeds exactly when the old word is in the list
    and the new one is a string of letters that is not (so renaming a
    word to itself is refused); the new word is then appended at the
    end of the list, not put in the place of the old one, and the
    indexes follow. *)
Theorem editWord_moves_to_end (oldWord newWord : string) (dm : DataManager) :
  isAsciiText oldWord = true -> isAsciiText newWord = true ->
  indexesAgree dm ->
  (fst (editWord oldWord newWord dm) = true
   <-> In (toUpperCase (trim oldWord)) (dmWords dm)
       /\ isUpperWord (toUpperCase (trim newWord)) = true
       /\ ~ In (toUpperCase (trim newWord)) (dmWords dm))
  /\ (fst (editWord oldWord newWord dm) = true ->
      dmWords (snd (editWord oldWord newWord dm))
      = removeFirst (toUpperCase (trim oldWord)) (dmWords dm) ++ [toUpperCase (trim newWord)])
  /\ indexesAgree (snd (editWord oldWord newWord dm)).
Proof.
  intros _ _ Hagree. unfold editWord.
  destruct (includes (toUpperCase (trim oldWord)) (dmWords dm)) eqn:Hold; cbn [negb].
  2:{ apply includes_false in Hold. cbn [fst snd].
      split; [ split; [ discriminate | tauto ] | ]. split; [ discriminate | exact Hagree ]. }
  apply includes_In in Hold.
  destruct (isUpperWord (toUpperCase (trim newWord))) eqn:Hvalid; cbn [negb].
  2:{ cbn [fst snd]. split; [ split; [ discriminate | intros (_ & H & _); discriminate ] | ].
      split; [ discriminate | exact Hagree ]. }
  destruct (includes (toUpperCase (trim newWord)) (dmWords dm)) eqn:Hnew.
  { apply includes_In in Hnew. cbn [fst snd].
    split; [ split; [ discriminate | tauto ] | ]. split; [ discriminate | exact Hagree ]. }
  apply includes_false in Hnew. cbn [fst snd].
  assert (Hrm : snd (removeWord (toUpperCase (trim oldWord)) dm)
                = mkData (removeFirst (toUpperCase (trim oldWord)) (dmWords dm))
                    (match Obj.get (String.length (toUpperCase (trim oldWord)))
                                   (dmWordLengthCache dm) with
                     | Some lengthCache =>
                         Obj.set (String.length (toUpperCase (trim oldWord)))
                                 (removeFirst (toUpperCase (trim oldWord)) lengthCache)
                                 (dmWordLengthCache dm)
                     | None => dmWordLengthCache dm
                     end)
                    (fold_left uncountLetter (list_ascii_of_string (toUpperCase (trim oldWord)))
                               (dmLetterFrequencies dm))
                    (dmAlerts dm)).
  { unfold removeWord. rewrite normalize_idem.
    rewrite (proj2 (includes_In _ _) Hold). reflexivity. }
  pose proof (removeWord_agrees _ dm Hagree Hold) as Hagree1. rewrite <- Hrm in Hagree1.
  assert (Hwords1 : dmWords (snd (removeWord (toUpperCase (trim oldWord)) dm))
                    = removeFirst (toUpperCase (trim oldWord)) (dmWords dm))
    by (rewrite Hrm; reflexivity).
  set (dm1 := snd (removeWord (toUpperCase (trim oldWord)) dm)) in *.
  assert (Hfresh : includes (toUpperCase (trim newWord)) (dmWords dm1) = false).
  { apply includes_false. rewrite Hwords1. intros Hin. apply Hnew.
    eapply removeFirst_In; eauto. }
  unfold addWord. rewrite normalize_idem, Hvalid, Hfresh. cbn [negb snd].
  split; [ split; [ auto | reflexivity ] | ].
  split; [ intros _; cbn [dmWords]; rewrite Hwords1; reflexivity | ].
  apply addWord_agrees. exact Hagree1.
Qed.

(** X19.  [removeWord] undoes [addWord]: adding a word and removing it
    again leaves the word list as it was, and [getWordsByLength] and
    the letter frequencies answer as before. *)
Theorem removeWord_after_addWord (word : string) (dm : DataManager) :
  isAsciiText word = true ->
  indexesAgree dm ->
  fst (addWord word dm) = true ->
  fst (removeWord word (snd (addWord word dm))) = true
  /\ dmWords (snd (removeWord word (snd (addWord word dm)))) = dmWords dm
  /\ (forall n, getWordsByLength (snd (removeWord word (snd (addWord word dm)))) n
                = getWordsByLength dm n)
  /\ (forall ch, frequencyOf (dmLetterFrequencies (snd (removeWord word (snd (addWord word dm))))) ch
                 = frequencyOf (dmLetterFrequencies dm) ch).
Proof.
  intros _ Hagree Hadd. unfold addWord in *.
  destruct (isUpperWord (toUpperCase (trim word))) eqn:Hvalid; cbn [negb] in *;
    [ | discriminate ].
  destruct (includes (toUpperCase (trim word)) (dmWords dm)) eqn:Hinc; [ discriminate | ].
  apply includes_false in Hinc. cbn [snd].
  pose proof (addWord_agrees (toUpperCase (trim word)) dm Hagree) as Hagree1.
  set (dm1 := mkData (dmWords dm ++ [toUpperCase (trim word)])
                     (cacheWord (dmWordLengthCache dm) (toUpperCase (trim word)))
                     (fold_left countLetter (list_ascii_of_string (toUpperCase (trim word)))
                                (dmLetterFrequencies dm))
                     (dmAlerts dm)) in *.
  assert (Hin1 : In (toUpperCase (trim word)) (dmWords dm1))
    by (apply in_or_app; right; left; reflexivity).
  pose proof (removeWord_agrees _ dm1 Hagree1 Hin1) as Hagree2.
  unfold removeWord. rewrite (proj2 (includes_In _ _) Hin1). cbn [negb fst snd].
  assert (Hwords : removeFirst (toUpperCase (trim word)) (dmWords dm1) = dmWords dm)
    by (apply removeFirst_last; exact Hinc).
  destruct Hagree as (Hb & Hf & _). destruct Hagree2 as (Hb2 & Hf2 & _).
  split; [ reflexivity | split; [ exact Hwords | split ] ].
  - intros n. specialize (Hb2 n). unfold getWordsByLength in Hb2 |- *.
    cbn [dmWordLengthCache dmWords] in Hb2 |- *. rewrite Hb2, Hwords. symmetry. apply (Hb n).
  - intros ch. specialize (Hf2 ch). cbn [dmLetterFrequencies dmWords] in Hf2 |- *.
    rewrite Hf2, Hwords. symmetry. apply (Hf ch).
Qed.

(* ================================================================== *)
(** * Editing the grid: the numbers of the cells *)
(* ================================================================== *)

(** The value of the longest prefix of decimal digits of [s], read
    after [acc]. *)
Fixpoint digitsValue (s : string) (acc : nat) : nat :=
  match s with
  | String a rest =>
      if isDigit a then digitsValue rest (10 * acc + (nat_of_ascii a - 48)) else acc
  | EmptyString => acc
  end.

Definition parseDigits (s : string) : option Z :=
  match s with
  | String a _ => if isDigit a then Some (Z.of_nat (digitsValue s 0)) else None
  | EmptyString => None
  end.

(** [parseInt(s, 10)]: leading white space, an optional sign, then the
    longest run of digits; [None] is [NaN].  The numbers are integers,
    as they are in the program for every value a double holds
    exactly. *)
Definition parseInt (s : string) : option Z :=
  match trimStart s with
  | String "-" rest => option_map Z.opp (parseDigits rest)
  | String "+" rest => parseDigits rest
  | t => parseDigits t
  end.

(** [n.toString()] for an integer. *)
Definition numberToString (z : Z) : string :=
  match z with
  | Zneg p => String "-" (natToString (Pos.to_nat p))
  | _ => natToString (Z.to_nat z)
  end.

(** [a >= b] and [a > b] on numbers, false when the left one is
    [NaN]. *)
Definition numberGe (a : option Z) (b : Z) : bool :=
  match a with Some x => (b <=? x)%Z | None => false end.

Definition numberGt (a b : option Z) : bool :=
  match a, b with Some x, Some y => (y <? x)%Z | _, _ => false end.

(** [row[c] = v]: inside the row the element is replaced; beyond its
    end the array grows, the elements in between being holes, which
    read as [undefined] (the empty string stands for them, as in
    [cellAt]). *)
Definition writeRow (c : nat) (v : string) (row : list string) : list string :=
  if c <? length row then update c v row
  else row ++ repeat EmptyString (c - length row) ++ [v].

(** [this.grid[r][c] = v] for a row [r] that exists. *)
Definition setCell (g : Grid) (r c : nat) (v : string) : Grid :=
  update r (writeRow c v (nth r g [])) g.

(** How a method that touches [this.grid[row]] ends: it returns, or it
    raises the [TypeError] of reading a row that does not exist, which
    the [try]/[catch] around it reports through [handleError].  Either
    way the grid is left as it is then. *)
Inductive Attempt := Returned (g : Grid) | Thrown (g : Grid).

Definition gridOf (a : Attempt) : Grid :=
  match a with Returned g => g | Thrown g => g end.

(** [{ number, row, col }] *)
Record NumberPosition := mkNumberPosition {
  number : option Z;
  row : nat;
  col : nat
}.

(** [getNumberPositions()].  The comparator [a.number - b.number] is
    an order when every numbered cell parses as a number, which is
    when the sort is fixed by the language. *)
Definition getNumberPositions (g : Grid) : list NumberPosition :=
  sortBy (fun a b => numberGt (number b) (number a))
         (flat_map (fun p => if hasDigit (cellAt g (fst p) (snd p))
                             then [mkNumberPosition (parseInt (cellAt g (fst p) (snd p)))
                                                    (fst p) (snd p)]
                             else [])
                   (scan g)).

(** The loop of [getNewNumber], entered with [position] set. *)
Fixpoint getNewNumberFrom (r c : nat) (positions : list NumberPosition) (i position : nat) : nat :=
  match positions with
  | [] => position
  | pos :: rest =>
      if (r <? row pos) || ((r =? row pos) && (c <? col pos)) then position
      else getNewNumberFrom r c rest (S i) (S i)
  end.

(** [getNewNumber(row, col, numberPositions)] *)
Definition getNewNumber (r c : nat) (positions : list NumberPosition) : nat :=
  getNewNumberFrom r c positions 0 0 + 1.

(** [updateNumbersAfterInsertion(row, col, newNumber)] *)
Definition updateNumbersAfterInsertion (r0 c0 : nat) (newNumber : nat) (g : Grid) : Grid :=
  fold_left (fun g p =>
               let cellValue := cellAt g (fst p) (snd p) in
               if hasDigit cellValue then
                 let current := parseInt cellValue in
                 if numberGe current (Z.of_nat newNumber)
                    && negb ((fst p =? r0) && (snd p =? c0))
                 then match current with
                      | Some x => setCell g (fst p) (snd p) (numberToString (x + 1))
                      | None => g
                      end
                 else g
               else g)
            (scan g) g.

(** [addNumberToCell(row, col)] *)
Definition addNumberToCell (r c : nat) (g : Grid) : Attempt :=
  let numberPositions := getNumberPositions g in
  let newNumber := getNewNumber r c numberPositions in
  let g1 := updateNumbersAfterInsertion r c newNumber g in
  if r <? length g1 then Returned (setCell g1 r c (natToString newNumber)) else Thrown g1.

(** The loop of [removeNumberFromCell]. *)
Definition renumberAfterRemoval (removed : option Z) (g : Grid) : Grid :=
  fold_left (fun g p =>
               let cellValue := cellAt g (fst p) (snd p) in
               if hasDigit cellValue then
                 let current := parseInt cellValue in
                 if numberGt current removed
                 then match current with
                      | Some x => setCell g (fst p) (snd p) (numberToString (x - 1))
                      | None => g
                      end
                 else g
               else g)
            (scan g) g.

(** [removeNumberFromCell(row, col)] *)
Definition removeNumberFromCell (r c : nat) (g : Grid) : Attempt :=
  if r <? length g then
    let removed := parseInt (cellAt g r c) in
    Returned (renumberAfterRemoval removed (setCell g r c " "))
  else Thrown g.

(** [updateNumbersAfterRemoval(row, col)] *)
Definition updateNumbersAfterRemoval (r c : nat) (g : Grid) : Attempt :=
  if r <? length g then
    if hasDigit (cellAt g r c) then removeNumberFromCell r c g else Returned g
  else Thrown g.

(** ** Printing a number and reading it back *)

Lemma digitsValue_string_of_uint d : forall acc,
  digitsValue (NilEmpty.string_of_uint d) acc = Nat.of_uint_acc d acc.
Proof.
  induction d as [ | d IH | d IH | d IH | d IH | d IH | d IH | d IH | d IH | d IH | d IH ];
    intros acc; [ reflexivity | .. ];
    cbn [NilEmpty.string_of_uint digitsValue Nat.of_uint_acc];
    change (isDigit _) with true; cbn iota; rewrite IH, Nat.tail_mul_spec; f_equal;
    cbn [nat_of_ascii]; simpl Nat.sub; lia.
Qed.

Lemma to_uint_not_Nil n : Nat.to_uint n <> Nil.
Proof.
  intros E. pose proof (DecimalNat.Unsigned.of_to n) as H. rewrite E in H.
  simpl in H. subst n. discriminate.
Qed.

(** The printed form of a natural number is a non-empty string of
    digits. *)
Lemma natToString_digits n :
  exists a rest, natToString n = String a rest /\ isDigit a = true.
Proof.
  unfold natToString. pose proof (to_uint_not_Nil n) as Hne.
  destruct (Nat.to_uint n); try congruence; eexists; eexists; split; reflexivity.
Qed.

Lemma hasDigit_natToString n : hasDigit (natToString n) = true.
Proof.
  destruct (natToString_digits n) as (a & rest & -> & Ha). unfold hasDigit. simpl.
  rewrite Ha. reflexivity.
Qed.

Lemma isDigit_not_space a : isDigit a = true -> isSpace a = false.
Proof.
  unfold isDigit, isSpace. intros H. apply andb_true_iff in H. destruct H as [H1 H2].
  apply Nat.leb_le in H1. apply Nat.leb_le in H2.
  repeat rewrite orb_false_iff. repeat split.
  - apply andb_false_iff. right. apply Nat.leb_gt. lia.
  - apply Nat.eqb_neq. lia.
  - apply Nat.eqb_neq. lia.
Qed.

Lemma parseInt_natToString n : parseInt (natToString n) = Some (Z.of_nat n).
Proof.
  destruct (natToString_digits n) as (a & rest & E & Ha).
  unfold parseInt. rewrite E. cbn [trimStart]. rewrite (isDigit_not_space a Ha).
  assert (Hminus : a <> "-"%char) by (intros ->; discriminate).
  assert (Hplus : a <> "+"%char) by (intros ->; discriminate).
  assert (Hparse : parseDigits (String a rest) = Some (Z.of_nat n)).
  { unfold parseDigits. rewrite Ha. rewrite <- E. unfold natToString.
    rewrite digitsValue_string_of_uint. fold (Nat.of_uint (Nat.to_uint n)).
    rewrite DecimalNat.Unsigned.of_to. reflexivity. }
  destruct a as [[] [] [] [] [] [] [] []]; try exact Hparse; congruence.
Qed.

Lemma natToString_inj n m : natToString n = natToString m -> n = m.
Proof.
  intros E. apply (f_equal parseInt) in E. rewrite !parseInt_natToString in E.
  inversion E. lia.
Qed.

Lemma numberToString_of_nat n : numberToString (Z.of_nat n) = natToString n.
Proof.
  unfold numberToString. destruct (Z.of_nat n) eqn:E; try lia; rewrite <- E, Nat2Z.id; reflexivity.
Qed.

(** ** Writing a cell, and loops that rewrite cells one by one *)

Lemma nth_update {A : Type} (l : list A) : forall i x k d,
  nth k (update i x l) d = if Nat.eq_dec k i then (if i <? length l then x else d) else nth k l d.
Proof.
  induction l as [ | y l IH ]; intros i x k d.
  - destruct i, k; simpl; try reflexivity; destruct (Nat.eq_dec _ _); reflexivity.
  - destruct i as [ | i ], k as [ | k ]; simpl; try reflexivity.
    rewrite IH. change (S i <? S (length l)) with (i <? length l).
    destruct (Nat.eq_dec k i) as [E | E]; destruct (Nat.eq_dec (S k) (S i)); try lia;
      reflexivity.
Qed.

(** A cell that holds a digit is a cell of the grid. *)
Lemma hasDigit_inside g r c :
  hasDigit (cellAt g r c) = true -> r < length g /\ c < length (nth r g []).
Proof.
  intros H. unfold cellAt in H.
  destruct (lt_dec c (length (nth r g []))) as [Hc | Hc].
  - split; [ | exact Hc ]. destruct (lt_dec r (length g)) as [Hr | Hr]; [ exact Hr | ].
    rewrite (nth_overflow g) in Hc by lia. simpl in Hc. lia.
  - rewrite nth_overflow in H by lia. discriminate.
Qed.

Lemma setCell_length g r c v : length (setCell g r c v) = length g.
Proof. apply update_length. Qed.

Lemma setCell_row_length g r c v r' :
  c < length (nth r g []) -> length (nth r' (setCell g r c v) []) = length (nth r' g []).
Proof.
  intros Hc. unfold setCell. rewrite nth_update.
  destruct (Nat.eq_dec r' r) as [-> | Hne]; [ | reflexivity ].
  destruct (Nat.ltb_spec r (length g)) as [Hr | Hr].
  - unfold writeRow. rewrite (proj2 (Nat.ltb_lt _ _) Hc). apply update_length.
  - rewrite (nth_overflow g) by lia. reflexivity.
Qed.

Lemma cellAt_setCell g r c v r' c' :
  r < length g -> c < length (nth r g []) ->
  cellAt (setCell g r c v) r' c' = if eq_dec (r', c') (r, c) then v else cellAt g r' c'.
Proof.
  intros Hr Hc. unfold cellAt, setCell. rewrite nth_update.
  apply Nat.ltb_lt in Hr. rewrite Hr. unfold writeRow.
  rewrite (proj2 (Nat.ltb_lt _ _) Hc).
  destruct (Nat.eq_dec r' r) as [Er | Hne].
  - rewrite nth_update. rewrite (proj2 (Nat.ltb_lt _ _) Hc).
    destruct (Nat.eq_dec c' c) as [Ec | Hnc]; destruct (eq_dec (r', c') (r, c)) as [E | E];
      try reflexivity; try congruence.
  - destruct (eq_dec (r', c') (r, c)) as [E | E]; [ inversion E; contradiction | reflexivity ].
Qed.

Lemma rows_setCell g r c v : rows (setCell g r c v) = rows g.
Proof. apply setCell_length. Qed.

Lemma cols_setCell g r c v : c < length (nth r g []) -> cols (setCell g r c v) = cols g.
Proof. intros Hc. unfold cols. apply setCell_row_length. exact Hc. Qed.

Lemma scan_setCell g r c v : c < length (nth r g []) -> scan (setCell g r c v) = scan g.
Proof. intros Hc. unfold scan. rewrite rows_setCell, cols_setCell by exact Hc. reflexivity. Qed.

Section CellLoop.

(** What the body of a loop writes into the cell at [p] that holds
    [v], if anything; it writes only into numbered cells. *)
Variable rewriteCell : Pos -> string -> option string.
Hypothesis rewrites_numbers : forall p v v', rewriteCell p v = Some v' -> hasDigit v = true.

Definition cellStep (g : Grid) (p : Pos) : Grid :=
  match rewriteCell p (cellAt g (fst p) (snd p)) with
  | Some v' => setCell g (fst p) (snd p) v'
  | None => g
  end.

Definition rewritten (p : Pos) (v : string) : string :=
  match rewriteCell p v with Some v' => v' | None => v end.

Lemma cellStep_shape g p :
  length (cellStep g p) = length g
  /\ (forall r, length (nth r (cellStep g p) []) = length (nth r g []))
  /\ forall r c, cellAt (cellStep g p) r c
                 = if eq_dec (r, c) p then rewritten p (cellAt g r c) else cellAt g r c.
Proof.
  unfold cellStep, rewritten. destruct p as [pr pc]. cbn [fst snd].
  destruct (rewriteCell (pr, pc) (cellAt g pr pc)) as [v' | ] eqn:Hrw.
  - pose proof (rewrites_numbers _ _ _ Hrw) as Hd. apply hasDigit_inside in Hd.
    destruct Hd as [Hr Hc].
    split; [ apply setCell_length | split ].
    + intros r. apply setCell_row_length. exact Hc.
    + intros r c. rewrite cellAt_setCell by assumption.
      destruct (eq_dec (r, c) (pr, pc)) as [E | E]; [ | reflexivity ].
      inversion E; subst. rewrite Hrw. reflexivity.
  - split; [ reflexivity | split; [ reflexivity | ] ].
    intros r c. destruct (eq_dec (r, c) (pr, pc)) as [E | E]; [ | reflexivity ].
    inversion E; subst. rewrite Hrw. reflexivity.
Qed.

Lemma fold_cellStep ps : forall g,
  NoDup ps ->
  length (fold_left cellStep ps g) = length g
  /\ (forall r, length (nth r (fold_left cellStep ps g) []) = length (nth r g []))
  /\ forall r c, cellAt (fold_left cellStep ps g) r c
                 = if in_dec eq_dec (r, c) ps then rewritten (r, c) (cellAt g r c)
                   else cellAt g r c.
Proof.
  induction ps as [ | p ps IH ]; intros g Hnd; simpl.
  - split; [ reflexivity | split; [ reflexivity | ] ]. intros r c. reflexivity.
  - inversion Hnd as [ | ? ? Hnotin Hnd' ]; subst.
    destruct (cellStep_shape g p) as (S1 & S2 & S3).
    destruct (IH (cellStep g p) Hnd') as (I1 & I2 & I3).
    split; [ congruence | split; [ intros r; rewrite I2; apply S2 | ] ].
    intros r c. rewrite I3, S3.
    destruct (eq_dec p (r, c)) as [E | E].
    + subst p. destruct (in_dec eq_dec (r, c) ps) as [Hin | _]; [ contradiction | ].
      destruct (eq_dec (r, c) (r, c)); [ reflexivity | congruence ].
    + destruct (eq_dec (r, c) p) as [E' | _]; [ congruence | ].
      destruct (in_dec eq_dec (r, c) ps); reflexivity.
Qed.

End CellLoop.

Lemma fold_left_ext {A B : Type} (f f' : A -> B -> A) (l : list B) :
  (forall a b, f a b = f' a b) -> forall a, fold_left f l a = fold_left f' l a.
Proof.
  intros Hext. induction l as [ | b l IH ]; intros a; simpl; [ reflexivity | ].
  rewrite Hext. apply IH.
Qed.

Lemma scan_NoDup g : NoDup (scan g).
Proof.
  unfold scan. assert (Hcl : NoDup (seq 0 (cols g))) by apply seq_NoDup.
  revert Hcl. generalize (seq 0 (cols g)) as cl. intros cl Hcl. generalize 0 as start.
  induction (rows g) as [ | n IH ]; intros start; simpl; [ constructor | ].
  apply NoDup_app.
  - apply NoDup_map_injective; [ intros x y E; inversion E; reflexivity | exact Hcl ].
  - apply IH.
  - intros [r c] Hin1 Hin2. apply in_map_iff in Hin1. destruct Hin1 as (c' & E & _).
    inversion E; subst. apply in_flat_map in Hin2. destruct Hin2 as (r' & Hr' & Hin2).
    apply in_seq in Hr'. apply in_map_iff in Hin2. destruct Hin2 as (c'' & E' & _).
    inversion E'. lia.
Qed.

(** The order of the two nested loops. *)
Definition scannedBefore (p q : Pos) : bool :=
  (fst p <? fst q) || ((fst p =? fst q) && (snd p <? snd q)).

Lemma scan_split g r c :
  r < rows g -> c < cols g ->
  exists bef aft,
    scan g = bef ++ (r, c) :: aft
    /\ (forall p, In p bef -> scannedBefore p (r, c) = true)
    /\ (forall p, In p aft -> scannedBefore (r, c) p = true).
Proof.
  intros Hr Hc. unfold scan.
  assert (HR : seq 0 (rows g) = seq 0 r ++ r :: seq (S r) (rows g - S r)).
  { replace (rows g) with (r + S (rows g - S r)) at 1 by lia. rewrite seq_app. reflexivity. }
  assert (HC : seq 0 (cols g) = seq 0 c ++ c :: seq (S c) (cols g - S c)).
  { replace (cols g) with (c + S (cols g - S c)) at 1 by lia. rewrite seq_app. reflexivity. }
  set (f := fun r0 : nat => map (pair r0) (seq 0 (cols g))).
  assert (Hf : f r = map (pair r) (seq 0 c) ++ (r, c) :: map (pair r) (seq (S c) (cols g - S c)))
    by (unfold f; rewrite HC, map_app; reflexivity).
  rewrite HR, flat_map_app. cbn [flat_map]. rewrite Hf. unfold f.
  exists (flat_map (fun r0 => map (pair r0) (seq 0 (cols g))) (seq 0 r)
          ++ map (pair r) (seq 0 c)),
         (map (pair r) (seq (S c) (cols g - S c))
          ++ flat_map (fun r0 => map (pair r0) (seq 0 (cols g))) (seq (S r) (rows g - S r))).
  split; [ rewrite <- !app_assoc; reflexivity | split ].
  - intros [pr pc] Hin. unfold scannedBefore. cbn [fst snd]. apply in_app_or in Hin.
    destruct Hin as [Hin | Hin].
    + apply in_flat_map in Hin. destruct Hin as (r0 & Hr0 & Hin). apply in_seq in Hr0.
      apply in_map_iff in Hin. destruct Hin as (c0 & E & _). inversion E; subst.
      apply orb_true_iff. left. apply Nat.ltb_lt. lia.
    + apply in_map_iff in Hin. destruct Hin as (c0 & E & Hc0). inversion E; subst.
      apply in_seq in Hc0. apply orb_true_iff. right.
      rewrite Nat.eqb_refl. apply Nat.ltb_lt. lia.
  - intros [pr pc] Hin. unfold scannedBefore. cbn [fst snd]. apply in_app_or in Hin.
    destruct Hin as [Hin | Hin].
    + apply in_map_iff in Hin. destruct Hin as (c0 & E & Hc0). inversion E; subst.
      apply in_seq in Hc0. apply orb_true_iff. right.
      rewrite Nat.eqb_refl. apply Nat.ltb_lt. lia.
    + apply in_flat_map in Hin. destruct Hin as (r0 & Hr0 & Hin). apply in_seq in Hr0.
      apply in_map_iff in Hin. destruct Hin as (c0 & E & _). inversion E; subst.
      apply orb_true_iff. left. apply Nat.ltb_lt. lia.
Qed.

(** ** The numbering of a grid *)

Definition cellsAt (g : Grid) (ps : list Pos) : list string :=
  map (fun p => cellAt g (fst p) (snd p)) ps.

(** The contents of the numbered cells, in the order of the scan. *)
Definition numbersOf (g : Grid) : list string := filter hasDigit (cellsAt g (scan g)).

(** The numbered cells hold [1, 2, 3, ...] in the order of the scan. *)
Definition wellNumbered (g : Grid) : Prop :=
  numbersOf g = map natToString (seq 1 (length (numbersOf g))).

(** The entries [getNumberPositions] collects, before it sorts them. *)
Definition numberEntries (g : Grid) (ps : list Pos) : list NumberPosition :=
  flat_map (fun p => if hasDigit (cellAt g (fst p) (snd p))
                     then [mkNumberPosition (parseInt (cellAt g (fst p) (snd p))) (fst p) (snd p)]
                     else [])
           ps.

Lemma numberEntries_app g ps qs :
  numberEntries g (ps ++ qs) = numberEntries g ps ++ numberEntries g qs.
Proof. apply flat_map_app. Qed.

Lemma numberEntries_numbers g ps :
  map number (numberEntries g ps) = map parseInt (filter hasDigit (cellsAt g ps)).
Proof.
  induction ps as [ | p ps IH ]; simpl; [ reflexivity | ].
  destruct (hasDigit (cellAt g (fst p) (snd p))); simpl; rewrite IH; reflexivity.
Qed.

Lemma numberEntries_length g ps :
  length (numberEntries g ps) = length (filter hasDigit (cellsAt g ps)).
Proof.
  rewrite <- (length_map number), numberEntries_numbers, length_map. reflexivity.
Qed.

Lemma numberEntries_position g ps e :
  In e (numberEntries g ps) -> In (row e, col e) ps.
Proof.
  intros Hin. apply in_flat_map in Hin. destruct Hin as ([pr pc] & Hp & He).
  cbn [fst snd] in He. destruct (hasDigit (cellAt g pr pc)); [ | contradiction ].
  destruct He as [<- | []]. exact Hp.
Qed.

Lemma insertSorted_last {A : Type} (lt : A -> A -> bool) x l :
  (forall y, In y l -> lt x y = false) -> insertSorted lt x l = l ++ [x].
Proof.
  induction l as [ | y l IH ]; simpl; intros H; [ reflexivity | ].
  rewrite (H y (or_introl eq_refl)). f_equal. apply IH. intros z Hz. apply H. right. exact Hz.
Qed.

(** A list in which no element has to go before an earlier one is left
    as it is by the sort. *)
Lemma sortBy_ordered {A : Type} (lt : A -> A -> bool) (l : list A) :
  (forall l1 x l2, l = l1 ++ x :: l2 -> forall y, In y l1 -> lt x y = false) ->
  sortBy lt l = l.
Proof.
  intros Hord. unfold sortBy.
  assert (Hgen : forall l' acc, acc ++ l' = l ->
             fold_left (fun acc x => insertSorted lt x acc) l' acc = l).
  { induction l' as [ | x l' IH ]; intros acc E; simpl.
    - rewrite app_nil_r in E. exact E.
    - rewrite insertSorted_last by (apply (Hord acc x l'); auto).
      apply IH. rewrite <- app_assoc. exact E. }
  apply Hgen. reflexivity.
Qed.

Lemma app_eq_map_seq {A : Type} (f : nat -> A) (l1 : list A) : forall l2 a n,
  l1 ++ l2 = map f (seq a n) ->
  length l1 <= n
  /\ l1 = map f (seq a (length l1))
  /\ l2 = map f (seq (a + length l1) (n - length l1)).
Proof.
  induction l1 as [ | x l1 IH ]; intros l2 a n E; simpl in *.
  - rewrite Nat.add_0_r, Nat.sub_0_r. split; [ lia | auto ].
  - destruct n as [ | n ]; [ discriminate | ]. simpl in E. inversion E; subst.
    destruct (IH _ _ _ H1) as (Hle & H2 & H3).
    split; [ lia | split ].
    + f_equal. exact H2.
    + rewrite H3. f_equal. f_equal. lia.
Qed.

Lemma wellNumbered_parse g :
  wellNumbered g ->
  map number (numberEntries g (scan g))
  = map (fun i => Some (Z.of_nat i)) (seq 1 (length (numbersOf g))).
Proof.
  intros Hwn. unfold wellNumbered in Hwn. rewrite numberEntries_numbers. fold (numbersOf g).
  rewrite Hwn at 1.
  rewrite map_map. apply map_ext. intros i. apply parseInt_natToString.
Qed.

Lemma getNumberPositions_scan g : wellNumbered g -> getNumberPositions g = numberEntries g (scan g).
Proof.
  intros Hwn. unfold getNumberPositions. fold (numberEntries g (scan g)).
  apply sortBy_ordered. intros l1 x l2 E y Hy.
  pose proof (wellNumbered_parse g Hwn) as Hnum. rewrite E, map_app in Hnum. cbn [map] in Hnum.
  apply app_eq_map_seq in Hnum. destruct Hnum as (Hle & H1 & H2).
  rewrite length_map in H1, H2.
  assert (Hx : number x = Some (Z.of_nat (1 + length l1))).
  { destruct (length (numbersOf g) - length l1) as [ | k ]; [ discriminate | ].
    cbn [seq map] in H2. injection H2 as H2 _. exact H2. }
  apply (in_map number) in Hy. rewrite H1 in Hy. apply in_map_iff in Hy.
  destruct Hy as (i & Hi & Hseq). apply in_seq in Hseq.
  rewrite Hx, <- Hi. unfold numberGt. apply Z.ltb_ge. lia.
Qed.

Lemma scannedBefore_asym p q : scannedBefore p q = true -> scannedBefore q p = false.
Proof.
  unfold scannedBefore. rewrite orb_true_iff, andb_true_iff, orb_false_iff, andb_false_iff.
  rewrite !Nat.ltb_lt, !Nat.eqb_eq, !Nat.ltb_ge, Nat.eqb_neq. lia.
Qed.

Lemma getNewNumberFrom_count r c E1 : forall E2 i,
  (forall e, In e E1 -> scannedBefore (r, c) (row e, col e) = false) ->
  (forall e, In e E2 -> scannedBefore (r, c) (row e, col e) = true) ->
  getNewNumberFrom r c (E1 ++ E2) i i = i + length E1.
Proof.
  induction E1 as [ | e E1 IH ]; intros E2 i H1 H2; simpl.
  - destruct E2 as [ | e E2 ]; simpl; [ lia | ].
    specialize (H2 e (or_introl eq_refl)). unfold scannedBefore in H2. cbn [fst snd] in H2.
    rewrite H2. lia.
  - pose proof (H1 e (or_introl eq_refl)) as He. unfold scannedBefore in He. cbn [fst snd] in He.
    rewrite He. rewrite IH; [ lia | | exact H2 ]. intros e' He'. apply H1. right. exact He'.
Qed.

Lemma validateGrid_rows g r : validateGrid g = true -> r < rows g -> length (nth r g []) = cols g.
Proof.
  unfold validateGrid, rows, cols. intros H Hr. apply andb_true_iff in H. destruct H as [_ H].
  rewrite forallb_forall in H. destruct g as [ | row0 g ]; [ simpl in Hr; lia | ].
  destruct r as [ | r ]; [ reflexivity | ]. simpl in *.
  apply Nat.eqb_eq. apply H. apply nth_In. lia.
Qed.

(** The part of the numbering before a cell and the part after it. *)
Lemma wellNumbered_split g r c bef aft :
  wellNumbered g -> scan g = bef ++ (r, c) :: aft ->
  hasDigit (cellAt g r c) = false ->
  let m := length (filter hasDigit (cellsAt g bef)) in
  m <= length (numbersOf g)
  /\ filter hasDigit (cellsAt g bef) = map natToString (seq 1 m)
  /\ filter hasDigit (cellsAt g aft) = map natToString (seq (1 + m) (length (numbersOf g) - m)).
Proof.
  intros Hwn Hscan Hcell m. unfold wellNumbered in Hwn. unfold numbersOf at 1 in Hwn.
  rewrite Hscan in Hwn. unfold cellsAt in Hwn. rewrite map_app, filter_app in Hwn.
  cbn [map filter fst snd] in Hwn. rewrite Hcell in Hwn.
  apply app_eq_map_seq in Hwn. exact Hwn.
Qed.

(** ** Inserting a number *)

(** What [updateNumbersAfterInsertion] writes into a cell. *)
Definition bumpCell (r0 c0 newNumber : nat) (p : Pos) (v : string) : option string :=
  if hasDigit v then
    if numberGe (parseInt v) (Z.of_nat newNumber) && negb ((fst p =? r0) && (snd p =? c0))
    then option_map (fun x => numberToString (x + 1)) (parseInt v)
    else None
  else None.

Lemma bumpCell_numbers r0 c0 k p v v' : bumpCell r0 c0 k p v = Some v' -> hasDigit v = true.
Proof. unfold bumpCell. destruct (hasDigit v); [ reflexivity | discriminate ]. Qed.

Lemma updateNumbersAfterInsertion_loop r0 c0 k g :
  updateNumbersAfterInsertion r0 c0 k g = fold_left (cellStep (bumpCell r0 c0 k)) (scan g) g.
Proof.
  unfold updateNumbersAfterInsertion. apply fold_left_ext. intros g0 p.
  unfold cellStep, bumpCell. destruct (hasDigit (cellAt g0 (fst p) (snd p))); [ | reflexivity ].
  destruct (numberGe (parseInt (cellAt g0 (fst p) (snd p))) (Z.of_nat k)
            && negb ((fst p =? r0) && (snd p =? c0))); [ | reflexivity ].
  destruct (parseInt (cellAt g0 (fst p) (snd p))); reflexivity.
Qed.

Lemma hasDigit_numberToString z : hasDigit (numberToString z) = true.
Proof.
  unfold numberToString. destruct z; apply hasDigit_natToString.
Qed.

Lemma filter_map_same {A : Type} (keep : A -> bool) (f : A -> A) (l : list A) :
  (forall x, keep (f x) = keep x) -> filter keep (map f l) = map f (filter keep l).
Proof.
  intros H. induction l as [ | x l IH ]; simpl; [ reflexivity | ].
  rewrite H. destruct (keep x); simpl; rewrite IH; reflexivity.
Qed.

(** The new content of a cell other than the clicked one. *)
Definition bumped (k : nat) (v : string) : string :=
  if hasDigit v then
    match parseInt v with
    | Some x => if (Z.of_nat k <=? x)%Z then numberToString (x + 1) else v
    | None => v
    end
  else v.

Lemma hasDigit_bumped k v : hasDigit (bumped k v) = hasDigit v.
Proof.
  unfold bumped. destruct (hasDigit v) eqn:Hv; [ | exact Hv ].
  destruct (parseInt v) as [x | ]; [ | exact Hv ].
  destruct (Z.of_nat k <=? x)%Z; [ apply hasDigit_numberToString | exact Hv ].
Qed.

Lemma rewritten_bumpCell r0 c0 k p v :
  p <> (r0, c0) -> rewritten (bumpCell r0 c0 k) p v = bumped k v.
Proof.
  intros Hne. unfold rewritten, bumpCell, bumped. destruct (hasDigit v); [ | reflexivity ].
  assert (E : (fst p =? r0) && (snd p =? c0) = false).
  { apply andb_false_iff. destruct p as [pr pc]. cbn [fst snd].
    destruct (Nat.eqb_spec pr r0); [ | auto ]. destruct (Nat.eqb_spec pc c0); [ | auto ].
    subst. congruence. }
  rewrite E. cbn [negb]. rewrite andb_true_r.
  destruct (parseInt v) as [x | ]; [ | reflexivity ]. cbn [numberGe option_map].
  destruct (Z.of_nat k <=? x)%Z; reflexivity.
Qed.

Lemma bumped_below k i : i < k -> bumped k (natToString i) = natToString i.
Proof.
  intros Hlt. unfold bumped. rewrite hasDigit_natToString, parseInt_natToString.
  destruct (Z.leb_spec (Z.of_nat k) (Z.of_nat i)); [ lia | reflexivity ].
Qed.

Lemma bumped_above k i : k <= i -> bumped k (natToString i) = natToString (S i).
Proof.
  intros Hle. unfold bumped. rewrite hasDigit_natToString, parseInt_natToString.
  destruct (Z.leb_spec (Z.of_nat k) (Z.of_nat i)); [ | lia ].
  replace (Z.of_nat i + 1)%Z with (Z.of_nat (S i)) by lia. apply numberToString_of_nat.
Qed.

Lemma map_bumped_below k a n :
  a + n <= k -> map (bumped k) (map natToString (seq a n)) = map natToString (seq a n).
Proof.
  intros Hle. rewrite map_map. apply map_ext_in. intros i Hi. apply in_seq in Hi.
  apply bumped_below. lia.
Qed.

Lemma map_bumped_above k a n :
  k <= a -> map (bumped k) (map natToString (seq a n)) = map natToString (seq (S a) n).
Proof.
  intros Hle. rewrite <- seq_shift, !map_map. apply map_ext_in. intros i Hi. apply in_seq in Hi.
  apply bumped_above. lia.
Qed.

(** The numbered cells that the two loops reach before the cell
    [(r, c)]. *)
Definition numberedBefore (g : Grid) (r c : nat) : nat :=
  length (filter (fun p => hasDigit (cellAt g (fst p) (snd p)) && scannedBefore p (r, c))
                 (scan g)).

Lemma scannedBefore_irrefl p : scannedBefore p p = false.
Proof.
  unfold scannedBefore. rewrite Nat.ltb_irrefl, Nat.eqb_refl, Nat.ltb_irrefl. reflexivity.
Qed.

Lemma filter_none_In {A : Type} (keep : A -> bool) (l : list A) :
  (forall x, In x l -> keep x = false) -> filter keep l = [].
Proof.
  induction l as [ | x l IH ]; simpl; intros H; [ reflexivity | ].
  rewrite (H x (or_introl eq_refl)). apply IH. intros y Hy. apply H. right. exact Hy.
Qed.

Lemma numberedBefore_split g r c bef aft :
  scan g = bef ++ (r, c) :: aft ->
  (forall p, In p bef -> scannedBefore p (r, c) = true) ->
  (forall p, In p aft -> scannedBefore (r, c) p = true) ->
  numberedBefore g r c = length (filter hasDigit (cellsAt g bef)).
Proof.
  intros Hscan Hbef Haft. unfold numberedBefore. rewrite Hscan, filter_app. cbn [filter fst snd].
  rewrite scannedBefore_irrefl, andb_false_r.
  rewrite (filter_none_In _ aft).
  2:{ intros p Hp. rewrite (scannedBefore_asym _ _ (Haft p Hp)). apply andb_false_r. }
  rewrite app_nil_r. unfold cellsAt.
  rewrite <- (length_map (fun p : Pos => cellAt g (fst p) (snd p))
                         (filter (fun p => hasDigit (cellAt g (fst p) (snd p)) && scannedBefore p (r, c)) bef)).
  f_equal. clear Hscan. induction bef as [ | p bef IH ]; simpl; [ reflexivity | ].
  rewrite (Hbef p (or_introl eq_refl)), andb_true_r.
  destruct (hasDigit (cellAt g (fst p) (snd p))); simpl; rewrite IH; auto;
    intros q Hq; apply Hbef; right; exact Hq.
Qed.

Lemma getNewNumber_numberedBefore g r c :
  wellNumbered g -> r < rows g -> c < cols g -> hasDigit (cellAt g r c) = false ->
  getNewNumber r c (getNumberPositions g) = S (numberedBefore g r c).
Proof.
  intros Hwn Hr Hc Hcell. destruct (scan_split g r c Hr Hc) as (bef & aft & Hscan & Hbef & Haft).
  rewrite (numberedBefore_split g r c bef aft Hscan Hbef Haft).
  rewrite (getNumberPositions_scan g Hwn), Hscan, numberEntries_app.
  replace ((r, c) :: aft) with ([(r, c)] ++ aft) by reflexivity.
  rewrite numberEntries_app. unfold numberEntries at 2. cbn [flat_map fst snd].
  rewrite Hcell. cbn [app]. unfold getNewNumber.
  rewrite getNewNumberFrom_count.
  - rewrite numberEntries_length. lia.
  - intros e He. apply numberEntries_position in He. apply scannedBefore_asym. apply Hbef. exact He.
  - intros e He. apply numberEntries_position in He. apply Haft. exact He.
Qed.

(** A grid is known by its cells when its rows are known by their
    lengths. *)
Lemma grid_ext (g g' : Grid) :
  length g' = length g ->
  (forall r, length (nth r g' []) = length (nth r g [])) ->
  (forall r c, cellAt g' r c = cellAt g r c) ->
  g' = g.
Proof.
  intros Hlen Hrows Hcells. apply (nth_ext _ _ [] []); [ exact Hlen | ].
  intros r _. apply (nth_ext _ _ EmptyString EmptyString); [ apply Hrows | ].
  intros c _. apply Hcells.
Qed.

Lemma validateGrid_shape (g g' : Grid) :
  length g' = length g ->
  (forall r, length (nth r g' []) = length (nth r g [])) ->
  validateGrid g' = validateGrid g /\ scan g' = scan g.
Proof.
  intros Hlen Hrows. split.
  - unfold validateGrid, cols. rewrite Hlen, Hrows. f_equal.
    assert (Htl : length (tl g') = length (tl g)).
    { destruct g, g'; simpl in *; try discriminate; auto. }
    assert (Hnth : forall r, length (nth r (tl g') []) = length (nth r (tl g) [])).
    { intros r. specialize (Hrows (S r)). destruct g, g'; simpl in *; try discriminate; auto;
        destruct r; auto. }
    revert Htl Hnth. generalize (tl g) (tl g'). intros l.
    induction l as [ | x l IH ]; intros [ | y l' ] Hl Hn; simpl in *; try discriminate; auto.
    rewrite (Hn 0). f_equal. apply IH; [ lia | ]. intros r. apply (Hn (S r)).
  - unfold scan, rows, cols. rewrite Hlen, Hrows. reflexivity.
Qed.

Lemma outside_scan g r c :
  validateGrid g = true -> ~ In (r, c) (scan g) -> cellAt g r c = EmptyString.
Proof.
  intros Hv Hout. rewrite In_scan in Hout. unfold cellAt.
  destruct (lt_dec r (rows g)) as [Hr | Hr].
  - apply nth_overflow. rewrite (validateGrid_rows g r Hv Hr). lia.
  - unfold rows in Hr. rewrite (nth_overflow g) by lia. destruct c; reflexivity.
Qed.

(** The grid [addNumberToCell] leaves, cell by cell. *)
Lemma addNumberToCell_cells g r c :
  validateGrid g = true -> wellNumbered g -> r < rows g -> c < cols g ->
  hasDigit (cellAt g r c) = false ->
  exists g',
    addNumberToCell r c g = Returned g'
    /\ length g' = length g
    /\ (forall r', length (nth r' g' []) = length (nth r' g []))
    /\ forall r' c', cellAt g' r' c'
                     = if eq_dec (r', c') (r, c) then natToString (S (numberedBefore g r c))
                       else bumped (S (numberedBefore g r c)) (cellAt g r' c').
Proof.
  intros Hv Hwn Hr Hc Hcell. unfold addNumberToCell.
  rewrite (getNewNumber_numberedBefore g r c Hwn Hr Hc Hcell).
  set (k := S (numberedBefore g r c)).
  rewrite updateNumbersAfterInsertion_loop.
  destruct (fold_cellStep (bumpCell r c k) (bumpCell_numbers r c k) (scan g) g (scan_NoDup g))
    as (L1 & L2 & L3).
  set (g1 := fold_left (cellStep (bumpCell r c k)) (scan g) g) in *.
  assert (Hr1 : r < length g1) by (rewrite L1; exact Hr).
  assert (Hc1 : c < length (nth r g1 [])).
  { rewrite L2, (validateGrid_rows g r Hv Hr). exact Hc. }
  rewrite (proj2 (Nat.ltb_lt _ _) Hr1).
  eexists. split; [ reflexivity | ]. split; [ | split ].
  - rewrite setCell_length. exact L1.
  - intros r'. rewrite setCell_row_length by exact Hc1. apply L2.
  - intros r' c'. rewrite cellAt_setCell by assumption.
    destruct (eq_dec (r', c') (r, c)) as [E | Hne]; [ reflexivity | ].
    rewrite L3. destruct (in_dec eq_dec (r', c') (scan g)) as [Hin | Hout].
    + apply rewritten_bumpCell. exact Hne.
    + rewrite (outside_scan g r' c' Hv Hout). reflexivity.
Qed.

Lemma cellsAt_ext g g' (f : string -> string) ps :
  (forall p, In p ps -> cellAt g' (fst p) (snd p) = f (cellAt g (fst p) (snd p))) ->
  cellsAt g' ps = map f (cellsAt g ps).
Proof.
  intros H. unfold cellsAt. rewrite map_map. apply map_ext_in. exact H.
Qed.

Lemma split_not_In {A : Type} (l bef aft : list A) (x : A) :
  NoDup l -> l = bef ++ x :: aft -> ~ In x bef /\ ~ In x aft.
Proof.
  intros Hnd ->. apply NoDup_remove_2 in Hnd. split; intros H; apply Hnd; apply in_or_app; auto.
Qed.

Lemma seq_insert a m n : m <= n ->
  seq a (S n) = seq a m ++ (a + m) :: seq (S (a + m)) (n - m).
Proof.
  intros Hle. replace (S n) with (m + S (n - m)) by lia. rewrite seq_app. reflexivity.
Qed.

(** The numbering after [addNumberToCell]. *)
Lemma addNumberToCell_numbering g r c g' :
  validateGrid g = true -> wellNumbered g -> r < rows g -> c < cols g ->
  hasDigit (cellAt g r c) = false ->
  addNumberToCell r c g = Returned g' ->
  numbersOf g' = map natToString (seq 1 (S (length (numbersOf g)))).
Proof.
  intros Hv Hwn Hr Hc Hcell Hrun.
  destruct (addNumberToCell_cells g r c Hv Hwn Hr Hc Hcell) as (g2 & Hrun2 & L1 & L2 & L3).
  rewrite Hrun in Hrun2. injection Hrun2 as <-.
  destruct (validateGrid_shape g g' L1 L2) as [_ Hscan'].
  destruct (scan_split g r c Hr Hc) as (bef & aft & Hscan & Hbef & Haft).
  destruct (split_not_In _ _ _ _ (scan_NoDup g) Hscan) as [Hnb Hna].
  rewrite (numberedBefore_split g r c bef aft Hscan Hbef Haft) in L3.
  destruct (wellNumbered_split g r c bef aft Hwn Hscan Hcell) as (Hle & Hb & Ha).
  set (m := length (filter hasDigit (cellsAt g bef))) in *.
  unfold numbersOf at 1. rewrite Hscan', Hscan. unfold cellsAt. rewrite map_app. cbn [map fst snd].
  fold (cellsAt g' bef). fold (cellsAt g' aft).
  rewrite (cellsAt_ext g g' (bumped (S m)) bef).
  2:{ intros [pr pc] Hp. cbn [fst snd]. rewrite L3.
      destruct (eq_dec (pr, pc) (r, c)) as [E | _]; [ | reflexivity ].
      rewrite E in Hp. contradiction. }
  rewrite (cellsAt_ext g g' (bumped (S m)) aft).
  2:{ intros [pr pc] Hp. cbn [fst snd]. rewrite L3.
      destruct (eq_dec (pr, pc) (r, c)) as [E | _]; [ | reflexivity ].
      rewrite E in Hp. contradiction. }
  rewrite L3. destruct (eq_dec (r, c) (r, c)) as [_ | Hne]; [ | congruence ].
  rewrite filter_app. cbn [filter]. rewrite hasDigit_natToString.
  rewrite !(filter_map_same hasDigit (bumped (S m))) by apply hasDigit_bumped.
  rewrite Hb, Ha. rewrite map_bumped_below by lia. rewrite map_bumped_above by lia.
  rewrite (seq_insert 1 m (length (numbersOf g)) Hle), map_app. reflexivity.
Qed.

(** ** Removing a number *)

(** What the loop of [removeNumberFromCell] writes into a cell. *)
Definition dropCell (removed : option Z) (p : Pos) (v : string) : option string :=
  if hasDigit v then
    if numberGt (parseInt v) removed
    then option_map (fun x => numberToString (x - 1)) (parseInt v)
    else None
  else None.

Lemma dropCell_numbers removed p v v' : dropCell removed p v = Some v' -> hasDigit v = true.
Proof. unfold dropCell. destruct (hasDigit v); [ reflexivity | discriminate ]. Qed.

Lemma renumberAfterRemoval_loop removed g :
  renumberAfterRemoval removed g = fold_left (cellStep (dropCell removed)) (scan g) g.
Proof.
  unfold renumberAfterRemoval. apply fold_left_ext. intros g0 p.
  unfold cellStep, dropCell. destruct (hasDigit (cellAt g0 (fst p) (snd p))); [ | reflexivity ].
  destruct (numberGt (parseInt (cellAt g0 (fst p) (snd p))) removed); [ | reflexivity ].
  destruct (parseInt (cellAt g0 (fst p) (snd p))); reflexivity.
Qed.

(** The new content of a cell when the number [k] has been removed. *)
Definition dropped (k : nat) (v : string) : string :=
  if hasDigit v then
    match parseInt v with
    | Some x => if (Z.of_nat k <? x)%Z then numberToString (x - 1) else v
    | None => v
    end
  else v.

Lemma hasDigit_dropped k v : hasDigit (dropped k v) = hasDigit v.
Proof.
  unfold dropped. destruct (hasDigit v) eqn:Hv; [ | exact Hv ].
  destruct (parseInt v) as [x | ]; [ | exact Hv ].
  destruct (Z.of_nat k <? x)%Z; [ apply hasDigit_numberToString | exact Hv ].
Qed.

Lemma rewritten_dropCell k p v :
  rewritten (dropCell (Some (Z.of_nat k))) p v = dropped k v.
Proof.
  unfold rewritten, dropCell, dropped. destruct (hasDigit v); [ | reflexivity ].
  destruct (parseInt v) as [x | ]; [ | reflexivity ]. cbn [numberGt option_map].
  destruct (Z.of_nat k <? x)%Z; reflexivity.
Qed.

Lemma dropped_below k i : i <= k -> dropped k (natToString i) = natToString i.
Proof.
  intros Hle. unfold dropped. rewrite hasDigit_natToString, parseInt_natToString.
  destruct (Z.ltb_spec (Z.of_nat k) (Z.of_nat i)); [ lia | reflexivity ].
Qed.

Lemma dropped_above k i : k < i -> dropped k (natToString i) = natToString (Nat.pred i).
Proof.
  intros Hlt. unfold dropped. rewrite hasDigit_natToString, parseInt_natToString.
  destruct (Z.ltb_spec (Z.of_nat k) (Z.of_nat i)); [ | lia ].
  replace (Z.of_nat i - 1)%Z with (Z.of_nat (Nat.pred i)) by lia. apply numberToString_of_nat.
Qed.

Lemma map_dropped_below k a n :
  a + n <= S k -> map (dropped k) (map natToString (seq a n)) = map natToString (seq a n).
Proof.
  intros Hle. rewrite map_map. apply map_ext_in. intros i Hi. apply in_seq in Hi.
  apply dropped_below. lia.
Qed.

Lemma map_dropped_above k a n :
  k <= a -> map (dropped k) (map natToString (seq (S a) n)) = map natToString (seq a n).
Proof.
  intros Hle. rewrite <- seq_shift, !map_map. apply map_ext_in. intros i Hi. apply in_seq in Hi.
  rewrite dropped_above by lia. reflexivity.
Qed.

Lemma hasDigit_blank : hasDigit " " = false.
Proof. reflexivity. Qed.

(** The grid [removeNumberFromCell] leaves, cell by cell. *)
Lemma removeNumberFromCell_cells g r c k :
  validateGrid g = true -> cellAt g r c = natToString k ->
  exists g',
    removeNumberFromCell r c g = Returned g'
    /\ length g' = length g
    /\ (forall r', length (nth r' g' []) = length (nth r' g []))
    /\ forall r' c', cellAt g' r' c'
                     = if eq_dec (r', c') (r, c) then " "%string else dropped k (cellAt g r' c').
Proof.
  intros Hv Hcell. unfold removeNumberFromCell.
  assert (Hd : hasDigit (cellAt g r c) = true) by (rewrite Hcell; apply hasDigit_natToString).
  destruct (hasDigit_inside g r c Hd) as [Hr Hc].
  rewrite (proj2 (Nat.ltb_lt _ _) Hr). rewrite Hcell, parseInt_natToString.
  rewrite renumberAfterRemoval_loop.
  set (g0 := setCell g r c " ").
  destruct (fold_cellStep (dropCell (Some (Z.of_nat k))) (dropCell_numbers _) (scan g0) g0
                          (scan_NoDup g0)) as (L1 & L2 & L3).
  eexists. split; [ reflexivity | ]. split; [ | split ].
  - rewrite L1. apply setCell_length.
  - intros r'. rewrite L2. apply setCell_row_length. exact Hc.
  - intros r' c'. rewrite L3.
    assert (Hg0 : cellAt g0 r' c'
                  = if eq_dec (r', c') (r, c) then " "%string else cellAt g r' c')
      by (unfold g0; apply cellAt_setCell; assumption).
    rewrite Hg0.
    destruct (eq_dec (r', c') (r, c)) as [E | Hne].
    + destruct (in_dec eq_dec (r', c') (scan g0)); reflexivity.
    + destruct (in_dec eq_dec (r', c') (scan g0)) as [Hin | Hout].
      * apply rewritten_dropCell.
      * unfold g0 in Hout. rewrite scan_setCell in Hout by exact Hc.
        rewrite (outside_scan g r' c' Hv Hout). reflexivity.
Qed.

(** The part of the numbering before a numbered cell, its own number,
    and the part after it. *)
Lemma wellNumbered_split_numbered g r c bef aft :
  wellNumbered g -> scan g = bef ++ (r, c) :: aft ->
  hasDigit (cellAt g r c) = true ->
  let m := length (filter hasDigit (cellsAt g bef)) in
  S m <= length (numbersOf g)
  /\ filter hasDigit (cellsAt g bef) = map natToString (seq 1 m)
  /\ cellAt g r c = natToString (S m)
  /\ filter hasDigit (cellsAt g aft) = map natToString (seq (2 + m) (length (numbersOf g) - S m)).
Proof.
  intros Hwn Hscan Hcell m. unfold wellNumbered in Hwn. unfold numbersOf at 1 in Hwn.
  rewrite Hscan in Hwn. unfold cellsAt in Hwn. rewrite map_app, filter_app in Hwn.
  cbn [map filter fst snd] in Hwn. rewrite Hcell in Hwn.
  apply app_eq_map_seq in Hwn. destruct Hwn as (Hle & Hb & Ha).
  fold (cellsAt g bef) in *. fold m in Hle, Hb, Ha.
  destruct (length (numbersOf g) - m) as [ | d ] eqn:Hd; [ discriminate | ].
  cbn [seq map] in Ha. injection Ha as Hc Ha.
  split; [ lia | split; [ exact Hb | split ] ].
  - rewrite Hc. f_equal.
  - fold (cellsAt g aft) in Ha. rewrite Ha. f_equal. f_equal. lia.
Qed.

Lemma numbered_in_scan g r c :
  validateGrid g = true -> hasDigit (cellAt g r c) = true -> r < rows g /\ c < cols g.
Proof.
  intros Hv Hd. destruct (hasDigit_inside g r c Hd) as [Hr Hc]. split; [ exact Hr | ].
  rewrite <- (validateGrid_rows g r Hv Hr). exact Hc.
Qed.

(** The numbering after [removeNumberFromCell]. *)
Lemma removeNumberFromCell_numbering g r c g' :
  validateGrid g = true -> wellNumbered g -> hasDigit (cellAt g r c) = true ->
  removeNumberFromCell r c g = Returned g' ->
  numbersOf g' = map natToString (seq 1 (Nat.pred (length (numbersOf g)))).
Proof.
  intros Hv Hwn Hcell Hrun.
  destruct (numbered_in_scan g r c Hv Hcell) as [Hr Hc].
  destruct (scan_split g r c Hr Hc) as (bef & aft & Hscan & Hbef & Haft).
  destruct (split_not_In _ _ _ _ (scan_NoDup g) Hscan) as [Hnb Hna].
  destruct (wellNumbered_split_numbered g r c bef aft Hwn Hscan Hcell) as (Hle & Hb & Hk & Ha).
  set (m := length (filter hasDigit (cellsAt g bef))) in *.
  destruct (removeNumberFromCell_cells g r c (S m) Hv Hk) as (g2 & Hrun2 & L1 & L2 & L3).
  rewrite Hrun in Hrun2. injection Hrun2 as <-.
  destruct (validateGrid_shape g g' L1 L2) as [_ Hscan'].
  unfold numbersOf at 1. rewrite Hscan', Hscan. unfold cellsAt. rewrite map_app. cbn [map fst snd].
  fold (cellsAt g' bef). fold (cellsAt g' aft).
  rewrite (cellsAt_ext g g' (dropped (S m)) bef).
  2:{ intros [pr pc] Hp. cbn [fst snd]. rewrite L3.
      destruct (eq_dec (pr, pc) (r, c)) as [E | _]; [ | reflexivity ].
      rewrite E in Hp. contradiction. }
  rewrite (cellsAt_ext g g' (dropped (S m)) aft).
  2:{ intros [pr pc] Hp. cbn [fst snd]. rewrite L3.
      destruct (eq_dec (pr, pc) (r, c)) as [E | _]; [ | reflexivity ].
      rewrite E in Hp. contradiction. }
  rewrite L3. destruct (eq_dec (r, c) (r, c)) as [_ | Hne]; [ | congruence ].
  rewrite filter_app. cbn [filter]. rewrite hasDigit_blank.
  rewrite !(filter_map_same hasDigit (dropped (S m))) by apply hasDigit_dropped.
  rewrite Hb, Ha. rewrite map_dropped_below by lia.
  change (2 + m) with (S (S m)). rewrite map_dropped_above by lia.
  replace (Nat.pred (length (numbersOf g))) with (m + (length (numbersOf g) - S m)) by lia.
  rewrite seq_app, map_app. reflexivity.
Qed.

(** ** The two together *)

Lemma wellNumbered_cell g r c :
  validateGrid g = true -> wellNumbered g -> hasDigit (cellAt g r c) = true ->
  exists i, 1 <= i /\ cellAt g r c = natToString i.
Proof.
  intros Hv Hwn Hd. destruct (numbered_in_scan g r c Hv Hd) as [Hr Hc].
  assert (Hin : In (cellAt g r c) (numbersOf g)).
  { unfold numbersOf. apply filter_In. split; [ | exact Hd ].
    unfold cellsAt. apply in_map_iff. exists (r, c). split; [ reflexivity | ].
    apply In_scan. auto. }
  unfold wellNumbered in Hwn. rewrite Hwn in Hin. apply in_map_iff in Hin.
  destruct Hin as (i & Hi & Hseq). apply in_seq in Hseq. exists i. split; [ lia | auto ].
Qed.

Lemma dropped_bumped k v :
  (hasDigit v = true -> exists i, v = natToString i) -> dropped k (bumped k v) = v.
Proof.
  intros Hv. destruct (hasDigit v) eqn:Hd.
  - destruct (Hv eq_refl) as (i & ->). destruct (le_lt_dec k i) as [Hle | Hlt].
    + rewrite bumped_above by exact Hle. rewrite dropped_above by lia. reflexivity.
    + rewrite bumped_below by exact Hlt. apply dropped_below. lia.
  - unfold bumped. rewrite Hd. unfold dropped. rewrite Hd. reflexivity.
Qed.

Lemma bumped_dropped k v :
  (hasDigit v = true -> exists i, i <> k /\ v = natToString i) -> bumped k (dropped k v) = v.
Proof.
  intros Hv. destruct (hasDigit v) eqn:Hd.
  - destruct (Hv eq_refl) as (i & Hne & ->). destruct (le_lt_dec i k) as [Hle | Hlt].
    + rewrite dropped_below by exact Hle. apply bumped_below. lia.
    + rewrite dropped_above by exact Hlt. rewrite bumped_above by lia. f_equal. lia.
  - unfold dropped. rewrite Hd. unfold bumped. rewrite Hd. reflexivity.
Qed.

Lemma wellNumbered_intro g n : numbersOf g = map natToString (seq 1 n) -> wellNumbered g.
Proof.
  intros H. unfold wellNumbered. rewrite H at 2. rewrite length_map, length_seq. exact H.
Qed.

(** A number that has just been inserted is taken out again by
    [removeNumberFromCell], which leaves the cell blank. *)
Lemma removeNumberFromCell_addNumberToCell g r c g' :
  validateGrid g = true -> wellNumbered g -> r < rows g -> c < cols g ->
  hasDigit (cellAt g r c) = false ->
  addNumberToCell r c g = Returned g' ->
  removeNumberFromCell r c g' = Returned (setCell g r c " ").
Proof.
  intros Hv Hwn Hr Hc Hcell Hrun.
  destruct (addNumberToCell_cells g r c Hv Hwn Hr Hc Hcell) as (g2 & Hrun2 & L1 & L2 & L3).
  rewrite Hrun in Hrun2. injection Hrun2 as <-.
  destruct (validateGrid_shape g g' L1 L2) as [Hv' _]. rewrite Hv in Hv'.
  set (k := S (numberedBefore g r c)) in *.
  assert (Hk : cellAt g' r c = natToString k).
  { rewrite L3. destruct (eq_dec (r, c) (r, c)); [ reflexivity | congruence ]. }
  destruct (removeNumberFromCell_cells g' r c k Hv' Hk) as (g3 & Hrun3 & M1 & M2 & M3).
  rewrite Hrun3. f_equal.
  assert (Hc0 : c < length (nth r g [])) by (rewrite (validateGrid_rows g r Hv Hr); exact Hc).
  apply grid_ext.
  - rewrite setCell_length. congruence.
  - intros r'. rewrite setCell_row_length by exact Hc0. rewrite M2. apply L2.
  - intros r' c'. rewrite M3, cellAt_setCell by assumption.
    destruct (eq_dec (r', c') (r, c)) as [E | Hne]; [ reflexivity | ].
    rewrite L3. destruct (eq_dec (r', c') (r, c)); [ contradiction | ].
    apply dropped_bumped. intros Hd.
    destruct (wellNumbered_cell g r' c' Hv Hwn Hd) as (i & _ & Hi). exists i. exact Hi.
Qed.

Lemma wellNumbered_other g r c bef aft r' c' :
  validateGrid g = true -> wellNumbered g -> scan g = bef ++ (r, c) :: aft ->
  hasDigit (cellAt g r c) = true -> (r', c') <> (r, c) ->
  hasDigit (cellAt g r' c') = true ->
  exists i, i <> S (length (filter hasDigit (cellsAt g bef))) /\ cellAt g r' c' = natToString i.
Proof.
  intros Hv Hwn Hscan Hcell Hne Hd.
  destruct (wellNumbered_split_numbered g r c bef aft Hwn Hscan Hcell) as (Hle & Hb & Hk & Ha).
  destruct (numbered_in_scan g r' c' Hv Hd) as [Hr' Hc'].
  assert (Hin : In (r', c') (scan g)) by (apply In_scan; auto).
  rewrite Hscan in Hin. apply in_app_or in Hin. destruct Hin as [Hin | [E | Hin]].
  - assert (Hv' : In (cellAt g r' c') (filter hasDigit (cellsAt g bef))).
    { apply filter_In. split; [ | exact Hd ]. unfold cellsAt. apply in_map_iff.
      exists (r', c'). auto. }
    rewrite Hb in Hv'. apply in_map_iff in Hv'. destruct Hv' as (i & Hi & Hseq).
    apply in_seq in Hseq. exists i. split; [ lia | auto ].
  - congruence.
  - assert (Hv' : In (cellAt g r' c') (filter hasDigit (cellsAt g aft))).
    { apply filter_In. split; [ | exact Hd ]. unfold cellsAt. apply in_map_iff.
      exists (r', c'). auto. }
    rewrite Ha in Hv'. apply in_map_iff in Hv'. destruct Hv' as (i & Hi & Hseq).
    apply in_seq in Hseq. exists i. split; [ lia | auto ].
Qed.

(** A number that has just been removed is put back by
    [addNumberToCell], and every other number with it. *)
Lemma addNumberToCell_removeNumberFromCell g r c g' :
  validateGrid g = true -> wellNumbered g -> hasDigit (cellAt g r c) = true ->
  removeNumberFromCell r c g = Returned g' ->
  addNumberToCell r c g' = Returned g.
Proof.
  intros Hv Hwn Hcell Hrun.
  destruct (numbered_in_scan g r c Hv Hcell) as [Hr Hc].
  destruct (scan_split g r c Hr Hc) as (bef & aft & Hscan & Hbef & Haft).
  destruct (split_not_In _ _ _ _ (scan_NoDup g) Hscan) as [Hnb Hna].
  destruct (wellNumbered_split_numbered g r c bef aft Hwn Hscan Hcell) as (Hle & Hb & Hk & Ha).
  pose proof (wellNumbered_other g r c bef aft) as Hother.
  set (m := length (filter hasDigit (cellsAt g bef))) in *.
  pose proof (removeNumberFromCell_numbering g r c g' Hv Hwn Hcell Hrun) as Hnum.
  apply wellNumbered_intro in Hnum.
  destruct (removeNumberFromCell_cells g r c (S m) Hv Hk) as (g2 & Hrun2 & L1 & L2 & L3).
  rewrite Hrun in Hrun2. injection Hrun2 as <-.
  destruct (validateGrid_shape g g' L1 L2) as [Hv' Hscan']. rewrite Hv in Hv'.
  assert (Hr' : r < rows g') by (unfold rows; rewrite L1; exact Hr).
  assert (Hc' : c < cols g') by (unfold cols; rewrite L2; exact Hc).
  assert (Hblank : hasDigit (cellAt g' r c) = false).
  { rewrite L3. destruct (eq_dec (r, c) (r, c)); [ reflexivity | congruence ]. }
  destruct (addNumberToCell_cells g' r c Hv' Hnum Hr' Hc' Hblank) as (g3 & Hrun3 & M1 & M2 & M3).
  assert (Hm : numberedBefore g' r c = m).
  { rewrite (numberedBefore_split g' r c bef aft) by (try rewrite Hscan'; assumption).
    rewrite (cellsAt_ext g g' (dropped (S m)) bef).
    - rewrite (filter_map_same hasDigit (dropped (S m))) by apply hasDigit_dropped.
      apply length_map.
    - intros [pr pc] Hp. cbn [fst snd]. rewrite L3.
      destruct (eq_dec (pr, pc) (r, c)) as [E | _]; [ | reflexivity ].
      rewrite E in Hp. contradiction. }
  rewrite Hm in M3. rewrite Hrun3. f_equal. apply grid_ext.
  - congruence.
  - intros r'. rewrite M2. apply L2.
  - intros r' c'. rewrite M3. destruct (eq_dec (r', c') (r, c)) as [E | Hne].
    + inversion E; subst. symmetry. exact Hk.
    + rewrite L3. destruct (eq_dec (r', c') (r, c)); [ contradiction | ].
      apply bumped_dropped. intros Hd. apply (Hother r' c'); assumption.
Qed.

(** ** Clicks and drags *)

(** The editing state of the page: the three mode flags of
    [CrosswordSolver], the text of [#mode-label], the texts of the three
    mode buttons and the lines the mode toggles send to [updateStatus].
    The colours of the buttons and the drag listeners, which nothing
    reads back, are left out; the elements are those of [index.html],
    so that no toggle throws. *)
Record Modes := mkModes {
  isNumberEntryMode : bool;
  isLetterEntryMode : bool;
  isDragMode : bool;
  modeLabel : string;
  numberEntryButton : string;
  letterEntryButton : string;
  dragModeButton : string;
  modeStatus : list string
}.

(** The state the constructor and [index.html] start from. *)
Definition initialModes : Modes :=
  mkModes false false false "Mode: Default"
          "Number Entry Mode" "Letter Entry Mode" "Drag Mode" [].

Inductive ModeButton := NumberEntry | LetterEntry | DragMode.

(** The branch that deactivates a mode, and the end of the branch that
    activates it. *)
Definition leaveMode (b : ModeButton) (m : Modes) : Modes :=
  match b with
  | NumberEntry =>
      mkModes false (isLetterEntryMode m) (isDragMode m) "Mode: Default"
              "Number Entry Mode" (letterEntryButton m) (dragModeButton m)
              (modeStatus m ++ ["Number Entry Mode Deactivated."%string])
  | LetterEntry =>
      mkModes (isNumberEntryMode m) false (isDragMode m) "Mode: Default"
              (numberEntryButton m) "Letter Entry Mode" (dragModeButton m)
              (modeStatus m ++ ["Letter Entry Mode Deactivated."%string])
  | DragMode =>
      mkModes (isNumberEntryMode m) (isLetterEntryMode m) false "Mode: Default"
              (numberEntryButton m) (letterEntryButton m) "Drag Mode"
              (modeStatus m ++ ["Drag Mode Deactivated."%string])
  end.

Definition enterMode (b : ModeButton) (m : Modes) : Modes :=
  match b with
  | NumberEntry =>
      mkModes true (isLetterEntryMode m) (isDragMode m) "Mode: Number Entry"
              "Exit Number Entry Mode" (letterEntryButton m) (dragModeButton m)
              (modeStatus m ++ ["Number Entry Mode Activated."%string])
  | LetterEntry =>
      mkModes (isNumberEntryMode m) true (isDragMode m) "Mode: Letter Entry"
              (numberEntryButton m) "Exit Letter Entry Mode" (dragModeButton m)
              (modeStatus m ++ ["Letter Entry Mode Activated."%string])
  | DragMode =>
      mkModes (isNumberEntryMode m) (isLetterEntryMode m) true "Mode: Drag"
              (numberEntryButton m) (letterEntryButton m) "Exit Drag Mode"
              (modeStatus m ++ ["Drag Mode Activated."%string])
  end.

Definition modeFlag (b : ModeButton) (m : Modes) : bool :=
  match b with
  | NumberEntry => isNumberEntryMode m
  | LetterEntry => isLetterEntryMode m
  | DragMode => isDragMode m
  end.

(** The two modes a toggle switches off before it activates its own,
    in the order of the source. *)
Definition otherModes (b : ModeButton) : ModeButton * ModeButton :=
  match b with
  | NumberEntry => (LetterEntry, DragMode)
  | LetterEntry => (NumberEntry, DragMode)
  | DragMode => (NumberEntry, LetterEntry)
  end.

(** [startNumberEntryMode()], [startLetterEntryMode()] and
    [startDragMode()], which call one another; [fuel] bounds the depth
    of the calls and [None] is running out of it. *)
Fixpoint startMode (fuel : nat) (b : ModeButton) (m : Modes) : option Modes :=
  match fuel with
  | 0 => None
  | S fuel =>
      if modeFlag b m then Some (leaveMode b m)
      else
        match (if modeFlag (fst (otherModes b)) m
               then startMode fuel (fst (otherModes b)) m else Some m) with
        | None => None
        | Some m1 =>
            match (if modeFlag (snd (otherModes b)) m1
                   then startMode fuel (snd (otherModes b)) m1 else Some m1) with
            | None => None
            | Some m2 => Some (enterMode b m2)
            end
        end
  end.

(** The three methods as the buttons call them. *)
Definition startNumberEntryMode (m : Modes) : option Modes := startMode 2 NumberEntry m.
Definition startLetterEntryMode (m : Modes) : option Modes := startMode 2 LetterEntry m.
Definition startDragMode (m : Modes) : option Modes := startMode 2 DragMode m.

(** [/^[A-Za-z]$/.test(letter)] *)
Definition isSingleLetter (letter : string) : bool :=
  match letter with
  | String a EmptyString =>
      isUpper a || ((97 <=? nat_of_ascii a) && (nat_of_ascii a <=? 122))
  | _ => false
  end.

(** The default branch of [cellClicked], which is also the body of
    [toggleCell]: towards black when [toBlack], towards white
    otherwise. *)
Definition blacken (r c : nat) (g : Grid) : Attempt :=
  updateNumbersAfterRemoval r c (setCell g r c "#").

Definition whiten (r c : nat) (g : Grid) : Attempt :=
  Returned (setCell g r c " ").

(** [cellClicked(event)] for the cell of row [r] and column [c];
    [letter] is what [prompt] returns in letter entry mode.  The second
    component is the alert of the method itself, if it raises one. *)
Definition cellClicked (m : Modes) (r c : nat) (letter : option string) (g : Grid)
  : Attempt * list string :=
  if isNumberEntryMode m then
    if r <? length g then
      if hasDigit (cellAt g r c) then (removeNumberFromCell r c g, [])
      else (addNumberToCell r c g, [])
    else (Thrown g, [])
  else if isLetterEntryMode m then
    match letter with
    | Some l =>
        if isSingleLetter l then
          if r <? length g then (Returned (setCell g r c (toUpperCase l)), [])
          else (Thrown g, [])
        else (Returned g, ["Please enter a single letter (A-Z)."%string])
    | None => (Returned g, [])
    end
  else if isDragMode m then (Returned g, [])
  else if r <? length g then
    if negb (isBlock (cellAt g r c)) then (blacken r c g, []) else (whiten r c g, [])
  else (Thrown g, []).

(** [toggleCell(row, col)] with [this.toggleToBlack] as [toBlack].
    The cells of [this.cells] are those [renderGrid] made, one for each
    position of the two loops over the grid. *)
Definition toggleCell (toBlack : bool) (r c : nat) (g : Grid) : Attempt :=
  if negb ((r <? rows g) && (c <? cols g)) then Returned g
  else if toBlack && negb (isBlock (cellAt g r c)) then blacken r c g
  else if negb toBlack && isBlock (cellAt g r c) then whiten r c g
  else Returned g.

Lemma unnumbered_kept k v : hasDigit v = false -> bumped k v = v /\ dropped k v = v.
Proof. intros H. unfold bumped, dropped. rewrite H. auto. Qed.

Lemma startMode_step b m :
  (modeFlag (fst (otherModes b)) m && modeFlag (snd (otherModes b)) m = false) ->
  forall fuel, 2 <= fuel ->
  startMode fuel b m
  = Some (if modeFlag b m then leaveMode b m
          else enterMode b
                 (if modeFlag (fst (otherModes b)) m then leaveMode (fst (otherModes b)) m
                  else if modeFlag (snd (otherModes b)) m then leaveMode (snd (otherModes b)) m
                  else m)).
Proof.
  intros Hone fuel Hfuel. destruct fuel as [ | [ | fuel ] ]; try lia.
  destruct m as [n l d lab bn bl bd st]. destruct b, n, l, d; try discriminate Hone; reflexivity.
Qed.

(** The label of the mode that is on, if at most one is. *)
Definition activeLabel (m : Modes) : option string :=
  match isNumberEntryMode m, isLetterEntryMode m, isDragMode m with
  | false, false, false => Some "Mode: Default"
  | true, false, false => Some "Mode: Number Entry"
  | false, true, false => Some "Mode: Letter Entry"
  | false, false, true => Some "Mode: Drag"
  | _, _, _ => None
  end%string.

(** At most one mode is on, and the label and the buttons say which. *)
Definition modesAgree (m : Modes) : Prop :=
  activeLabel m = Some (modeLabel m)
  /\ numberEntryButton m
     = (if isNumberEntryMode m then "Exit Number Entry Mode" else "Number Entry Mode")%string
  /\ letterEntryButton m
     = (if isLetterEntryMode m then "Exit Letter Entry Mode" else "Letter Entry Mode")%string
  /\ dragModeButton m = (if isDragMode m then "Exit Drag Mode" else "Drag Mode")%string.

Lemma modesAgree_one m : modesAgree m ->
  forall b, modeFlag (fst (otherModes b)) m && modeFlag (snd (otherModes b)) m = false.
Proof.
  intros (Hlab & _) b. destruct m as [n l d lab bn bl bd st]. cbn in Hlab.
  destruct b, n, l, d; try reflexivity; discriminate.
Qed.

Lemma isBlock_false v : v <> "#"%string -> isBlock v = false.
Proof. intros H. unfold isBlock. apply eqb_of_false. exact H. Qed.

Lemma blacken_writes g r c :
  r < length g -> c < length (nth r g []) -> blacken r c g = Returned (setCell g r c "#").
Proof.
  intros Hr Hc. unfold blacken, updateNumbersAfterRemoval.
  rewrite setCell_length, (proj2 (Nat.ltb_lt _ _) Hr).
  rewrite cellAt_setCell by assumption.
  destruct (eq_dec (r, c) (r, c)); [ reflexivity | congruence ].
Qed.

Lemma numbersOf_blackened g r c bef aft :
  validateGrid g = true -> scan g = bef ++ (r, c) :: aft ->
  numbersOf (setCell g r c "#")
  = filter hasDigit (cellsAt g bef) ++ filter hasDigit (cellsAt g aft).
Proof.
  intros Hv Hscan.
  assert (Hin : In (r, c) (scan g)) by (rewrite Hscan; apply in_or_app; right; left; reflexivity).
  apply In_scan in Hin. destruct Hin as [Hr Hc].
  assert (Hc0 : c < length (nth r g [])) by (rewrite (validateGrid_rows g r Hv Hr); exact Hc).
  destruct (split_not_In _ _ _ _ (scan_NoDup g) Hscan) as [Hnb Hna].
  unfold numbersOf. rewrite scan_setCell by exact Hc0. rewrite Hscan.
  unfold cellsAt. rewrite map_app, filter_app. cbn [map filter fst snd].
  rewrite !cellAt_setCell by assumption.
  destruct (eq_dec (r, c) (r, c)); [ | congruence ].
  change (hasDigit "#") with false. cbv iota.
  f_equal; f_equal; apply map_ext_in; intros [pr pc] Hp; cbn [fst snd];
    rewrite cellAt_setCell by assumption;
    (destruct (eq_dec (pr, pc) (r, c)) as [E | _]; [ rewrite E in Hp; contradiction | reflexivity ]).
Qed.

Lemma blackened_gap g r c k :
  validateGrid g = true -> wellNumbered g -> cellAt g r c = natToString k ->
  k < length (numbersOf g) -> ~ wellNumbered (setCell g r c "#").
Proof.
  intros Hv Hwn Hk Hlt Hwn'.
  assert (Hd : hasDigit (cellAt g r c) = true) by (rewrite Hk; apply hasDigit_natToString).
  destruct (numbered_in_scan g r c Hv Hd) as [Hr Hc].
  destruct (scan_split g r c Hr Hc) as (bef & aft & Hscan & _ & _).
  destruct (wellNumbered_split_numbered g r c bef aft Hwn Hscan Hd) as (Hle & Hb & Hk' & Ha).
  set (m := length (filter hasDigit (cellsAt g bef))) in *.
  rewrite Hk in Hk'. apply natToString_inj in Hk'. subst k.
  unfold wellNumbered in Hwn'. rewrite (numbersOf_blackened g r c bef aft Hv Hscan) in Hwn'.
  apply app_eq_map_seq in Hwn'. destruct Hwn' as (_ & _ & H2). fold m in H2.
  rewrite Ha in H2. rewrite length_app, Hb, !length_map, !length_seq in H2.
  destruct (length (numbersOf g) - S m) as [ | d ] eqn:Hdiff; [ lia | ].
  replace (m + S d - m) with (S d) in H2 by lia. cbn [seq map] in H2.
  injection H2 as H2 _. apply natToString_inj in H2. lia.
Qed.

(* ================================================================== *)
(** * Further properties of the editor *)
(* ================================================================== *)

(** X20.  On a rectangular grid whose numbered cells read 1, 2, 3, ...
    in the order of the scan, [addNumberToCell] on an unnumbered cell
    returns normally; the cell receives one more than the count of
    numbered cells before it, the numbered cells again read
    1, 2, 3, ..., one more than before, and the other unnumbered cells
    are as they were. *)
Theorem addNumberToCell_keeps_numbering g r c :
  validateGrid g = true -> wellNumbered g -> r < rows g -> c < cols g ->
  hasDigit (cellAt g r c) = false ->
  exists g',
    addNumberToCell r c g = Returned g'
    /\ validateGrid g' = true
    /\ wellNumbered g'
    /\ length (numbersOf g') = S (length (numbersOf g))
    /\ cellAt g' r c = natToString (S (numberedBefore g r c))
    /\ forall r' c', (r', c') <> (r, c) -> hasDigit (cellAt g r' c') = false ->
                     cellAt g' r' c' = cellAt g r' c'.
Proof.
  intros Hv Hwn Hr Hc Hcell.
  destruct (addNumberToCell_cells g r c Hv Hwn Hr Hc Hcell) as (g' & Hrun & L1 & L2 & L3).
  pose proof (addNumberToCell_numbering g r c g' Hv Hwn Hr Hc Hcell Hrun) as Hnum.
  exists g'. split; [ exact Hrun | ]. split; [ | split; [ | split; [ | split ] ] ].
  - rewrite (proj1 (validateGrid_shape g g' L1 L2)). exact Hv.
  - exact (wellNumbered_intro g' _ Hnum).
  - rewrite Hnum, length_map, length_seq. reflexivity.
  - rewrite L3. destruct (eq_dec (r, c) (r, c)); [ reflexivity | congruence ].
  - intros r' c' Hne Hd. rewrite L3. destruct (eq_dec (r', c') (r, c)); [ contradiction | ].
    apply unnumbered_kept. exact Hd.
Qed.

(** X21.  On such a grid [removeNumberFromCell] on a numbered cell
    returns normally; the cell is left blank, the numbered cells again
    read 1, 2, 3, ..., one fewer than before, and the unnumbered cells
    are as they were. *)
Theorem removeNumberFromCell_keeps_numbering g r c :
  validateGrid g = true -> wellNumbered g -> hasDigit (cellAt g r c) = true ->
  exists g',
    removeNumberFromCell r c g = Returned g'
    /\ validateGrid g' = true
    /\ wellNumbered g'
    /\ S (length (numbersOf g')) = length (numbersOf g)
    /\ cellAt g' r c = " "%string
    /\ forall r' c', hasDigit (cellAt g r' c') = false -> cellAt g' r' c' = cellAt g r' c'.
Proof.
  intros Hv Hwn Hcell.
  destruct (wellNumbered_cell g r c Hv Hwn Hcell) as (k & Hk1 & Hk).
  destruct (removeNumberFromCell_cells g r c k Hv Hk) as (g' & Hrun & L1 & L2 & L3).
  pose proof (removeNumberFromCell_numbering g r c g' Hv Hwn Hcell Hrun) as Hnum.
  assert (Hpos : 1 <= length (numbersOf g)).
  { destruct (numbered_in_scan g r c Hv Hcell) as [Hr Hc].
    destruct (scan_split g r c Hr Hc) as (bef & aft & Hscan & _ & _).
    destruct (wellNumbered_split_numbered g r c bef aft Hwn Hscan Hcell) as (Hle & _). lia. }
  exists g'. split; [ exact Hrun | ]. split; [ | split; [ | split; [ | split ] ] ].
  - rewrite (proj1 (validateGrid_shape g g' L1 L2)). exact Hv.
  - exact (wellNumbered_intro g' _ Hnum).
  - rewrite Hnum, length_map, length_seq. lia.
  - rewrite L3. destruct (eq_dec (r, c) (r, c)); [ reflexivity | congruence ].
  - intros r' c' Hd. rewrite L3. destruct (eq_dec (r', c') (r, c)) as [E | Hne].
    + inversion E; subst. rewrite Hcell in Hd. discriminate.
    + apply unnumbered_kept. exact Hd.
Qed.

(** X22.  In number entry mode, two clicks on a numbered cell of such
    a grid give the grid back: the first removes the number and closes
    the gap, the second inserts it again and reopens it. *)
Theorem cellClicked_twice_numbered m r c letter letter' g :
  isNumberEntryMode m = true ->
  validateGrid g = true -> wellNumbered g -> hasDigit (cellAt g r c) = true ->
  exists g1,
    cellClicked m r c letter g = (Returned g1, [])
    /\ hasDigit (cellAt g1 r c) = false
    /\ cellClicked m r c letter' g1 = (Returned g, []).
Proof.
  intros Hmode Hv Hwn Hcell.
  destruct (wellNumbered_cell g r c Hv Hwn Hcell) as (k & _ & Hk).
  destruct (removeNumberFromCell_cells g r c k Hv Hk) as (g1 & Hrun & L1 & L2 & L3).
  destruct (hasDigit_inside g r c Hcell) as [Hr _].
  assert (Hblank : hasDigit (cellAt g1 r c) = false).
  { rewrite L3. destruct (eq_dec (r, c) (r, c)); [ reflexivity | congruence ]. }
  exists g1. unfold cellClicked. rewrite Hmode.
  rewrite L1, (proj2 (Nat.ltb_lt _ _) Hr), Hcell, Hblank, Hrun.
  split; [ reflexivity | split; [ reflexivity | ] ].
  rewrite (addNumberToCell_removeNumberFromCell g r c g1 Hv Hwn Hcell Hrun). reflexivity.
Qed.

(** X23.  In number entry mode, two clicks on an unnumbered cell of
    such a grid leave the cell blank and every other cell as it was:
    the number the first click inserts is removed by the second. *)
Theorem cellClicked_twice_unnumbered m r c letter letter' g :
  isNumberEntryMode m = true ->
  validateGrid g = true -> wellNumbered g -> r < rows g -> c < cols g ->
  hasDigit (cellAt g r c) = false ->
  exists g1,
    cellClicked m r c letter g = (Returned g1, [])
    /\ hasDigit (cellAt g1 r c) = true
    /\ cellClicked m r c letter' g1 = (Returned (setCell g r c " "), []).
Proof.
  intros Hmode Hv Hwn Hr Hc Hcell.
  destruct (addNumberToCell_cells g r c Hv Hwn Hr Hc Hcell) as (g1 & Hrun & L1 & L2 & L3).
  assert (Hnum : hasDigit (cellAt g1 r c) = true).
  { rewrite L3. destruct (eq_dec (r, c) (r, c)); [ apply hasDigit_natToString | congruence ]. }
  assert (Hr' : r < length g) by exact Hr.
  exists g1. unfold cellClicked. rewrite Hmode.
  rewrite L1, (proj2 (Nat.ltb_lt _ _) Hr'), Hcell, Hnum, Hrun.
  split; [ reflexivity | split; [ reflexivity | ] ].
  rewrite (removeNumberFromCell_addNumberToCell g r c g1 Hv Hwn Hr Hc Hcell Hrun). reflexivity.
Qed.

(** X24.  Turning a cell black, by a click in the default mode or by
    a drag, writes ["#"] into that cell and nothing else: the cell is
    tested for a number after it has been overwritten, so a number it
    held is not closed up, and the numbering has a gap unless it was
    the last number. *)
Theorem blackening_never_renumbers m r c letter g :
  isNumberEntryMode m = false -> isLetterEntryMode m = false -> isDragMode m = false ->
  validateGrid g = true -> r < rows g -> c < cols g -> cellAt g r c <> "#"%string ->
  cellClicked m r c letter g = (Returned (setCell g r c "#"), [])
  /\ toggleCell true r c g = Returned (setCell g r c "#")
  /\ forall k, wellNumbered g -> cellAt g r c = natToString k -> k < length (numbersOf g) ->
               ~ wellNumbered (setCell g r c "#").
Proof.
  intros Hn Hl Hd Hv Hr Hc Hcell.
  assert (Hc0 : c < length (nth r g [])) by (rewrite (validateGrid_rows g r Hv Hr); exact Hc).
  pose proof (isBlock_false _ Hcell) as Hb.
  split; [ | split ].
  - assert (Hr' : r < length g) by exact Hr.
    unfold cellClicked. rewrite Hn, Hl, Hd.
    rewrite (proj2 (Nat.ltb_lt _ _) Hr'), Hb. cbn [negb].
    rewrite (blacken_writes g r c Hr' Hc0). reflexivity.
  - unfold toggleCell. rewrite (proj2 (Nat.ltb_lt _ _) Hr), (proj2 (Nat.ltb_lt _ _) Hc), Hb.
    cbn [andb negb]. apply blacken_writes; assumption.
  - intros k Hwn Hk Hlt. exact (blackened_gap g r c k Hv Hwn Hk Hlt).
Qed.

(** X25.  The three mode toggles return, with a call depth of two at
    most; when the label and the buttons agree with the flags and at
    most one mode is on, this is so again afterwards, and the mode of
    the button pressed has changed: switching a mode on switches the
    others off. *)
Theorem startMode_exclusive fuel b m :
  2 <= fuel -> modesAgree m ->
  exists m',
    startMode fuel b m = Some m'
    /\ modesAgree m'
    /\ modeFlag b m' = negb (modeFlag b m)
    /\ (modeFlag b m' = true ->
        modeFlag (fst (otherModes b)) m' = false /\ modeFlag (snd (otherModes b)) m' = false).
Proof.
  intros Hfuel Hagree. pose proof (modesAgree_one m Hagree b) as Hone.
  rewrite (startMode_step b m Hone fuel Hfuel). eexists. split; [ reflexivity | ].
  destruct Hagree as (Hlab & Hbn & Hbl & Hbd).
  destruct m as [n l d lab bn bl bd st]. cbn in Hlab, Hbn, Hbl, Hbd.
  destruct b, n, l, d; try discriminate Hone; try discriminate Hlab;
    injection Hlab as Hlab; subst; cbn;
    (split; [ repeat split | split; [ reflexivity | intros; try discriminate; split; reflexivity ] ]).
Qed.

(* ================================================================== *)
(** * The solve thread as a whole *)
(* ================================================================== *)

Definition setGrid (v : Grid) (s : Solver) : Solver :=
  mkSolver v (words s) (wordLengthCache s) (letterFrequencies s) (slots s) (constraints s)
    (domains s) (cellContents s) (solution s) (recursiveCalls s) (isSolving s)
    (randomCalls s) (statusDisplay s) (alerts s).

(** [resetDataStructures()] *)
Definition resetDataStructures (s : Solver) : Solver :=
  setCellContents [] (setDomains [] (setConstraints [] (setSlots [] (setSolution [] s)))).

(** [handleError(userMessage, error)], with the text of [error.message]. *)
Definition handleError (userMessage errorMessage : string) (s : Solver) : Solver :=
  alert (userMessage ++ " Please check the console for more details.")
        (updateStatus (userMessage ++ " " ++ errorMessage) s).

(** The integers that a double holds exactly and prints digit by
    digit. *)
Definition safeInteger (z : Z) : bool :=
  ((- 9007199254740991 <=? z) && (z <=? 9007199254740991))%Z.

(** The longest array there is, [2^32 - 1] elements. *)
Definition maxArrayLength : Z := 4294967295.

(** Whether [Array.from({ length: rows }, () => Array(cols).fill("#"))]
    throws a [RangeError]: the outer length is cut to zero when it is
    negative and refused when it is above [maxArrayLength]; [Array(cols)]
    is called once for every row and refuses a negative length and one
    above [maxArrayLength]. *)
Definition invalidArrayLength (rows cols : Z) : bool :=
  ((maxArrayLength <? rows)
   || ((0 <? rows) && ((cols <? 0) || (maxArrayLength <? cols))))%Z.

(** [generateGrid(rows, cols)] for the integers its callers pass: the
    click handler hands it [parseInt(...) || 10] of the two inputs,
    which is any integer but zero, and [init] hands it 10 and 10.
    [errorMessage] is the text of the [RangeError], which the engine
    chooses.  When the error is thrown the assignment to [this.grid]
    has not taken place. *)
Definition generateGrid (errorMessage : string) (rows cols : Z) (s : Solver) : Solver :=
  if invalidArrayLength rows cols then handleError "Error generating grid:" errorMessage s
  else
    updateStatus ("Grid generated with rows: " ++ numberToString rows
                  ++ ", columns: " ++ numberToString cols)
                 (resetDataStructures
                    (setGrid (repeat (repeat "#"%string (Z.to_nat cols)) (Z.to_nat rows)) s)).

Lemma generateSlots_keeps s :
  statusDisplay (generateSlots s) = statusDisplay s
  /\ alerts (generateSlots s) = alerts s
  /\ solution (generateSlots s) = solution s
  /\ randomCalls (generateSlots s) = randomCalls s
  /\ recursiveCalls (generateSlots s) = recursiveCalls s
  /\ grid (generateSlots s) = grid s.
Proof. unfold generateSlots, setupDomains. cbn. repeat split. Qed.

Lemma updateStatus_keeps message s :
  statusDisplay (updateStatus message s) = statusDisplay s ++ [message]
  /\ alerts (updateStatus message s) = alerts s
  /\ slots (updateStatus message s) = slots s
  /\ domains (updateStatus message s) = domains s
  /\ solution (updateStatus message s) = solution s
  /\ randomCalls (updateStatus message s) = randomCalls s
  /\ recursiveCalls (updateStatus message s) = recursiveCalls s
  /\ grid (updateStatus message s) = grid s.
Proof. repeat split. Qed.

Lemma alert_keeps message s :
  statusDisplay (alert message s) = statusDisplay s
  /\ alerts (alert message s) = alerts s ++ [message]
  /\ slots (alert message s) = slots s
  /\ domains (alert message s) = domains s
  /\ solution (alert message s) = solution s
  /\ randomCalls (alert message s) = randomCalls s
  /\ recursiveCalls (alert message s) = recursiveCalls s
  /\ grid (alert message s) = grid s.
Proof. repeat split. Qed.

Lemma slotWrites_unnumbered g :
  (forall r c, hasDigit (cellAt g r c) = false) -> slotWrites g = [].
Proof.
  intros H. unfold slotWrites. induction (scan g) as [ | p ps IH ]; simpl; [ reflexivity | ].
  unfold slotWritesCell at 1. rewrite H. exact IH.
Qed.

Lemma cellAt_black n k r c :
  cellAt (repeat (repeat "#"%string k) n) r c = "#"%string
  \/ cellAt (repeat (repeat "#"%string k) n) r c = EmptyString.
Proof.
  unfold cellAt.
  destruct (nth_in_or_default c (nth r (repeat (repeat "#"%string k) n) []) EmptyString)
    as [Hin | Hd]; [ | right; exact Hd ].
  left. destruct (nth_in_or_default r (repeat (repeat "#"%string k) n) []) as [Hr | Hr].
  - apply repeat_spec in Hr. rewrite Hr in Hin |- *. apply repeat_spec in Hin. exact Hin.
  - rewrite Hr in Hin. destruct c; simpl in Hin; contradiction.
Qed.

Lemma validateGrid_black n k :
  validateGrid (repeat (repeat "#"%string k) n) = negb (n =? 0).
Proof.
  unfold validateGrid. rewrite repeat_length. destruct n as [ | n ]; [ reflexivity | ].
  cbn [Nat.eqb negb andb]. apply forallb_forall. intros line Hline.
  unfold cols. cbn [repeat nth tl] in *. apply repeat_spec in Hline. subst line.
  apply Nat.eqb_refl.
Qed.

Section Thread.

Variable random : nat -> nat.

Lemma solveCrosswordThread_frame s s' :
  solveCrosswordThread random s = Some s' ->
  grid s' = grid s /\ words s' = words s /\ wordLengthCache s' = wordLengthCache s.
Proof.
  unfold solveCrosswordThread.
  destruct (validateGrid (grid s)) eqn:Hvalid; cbn [negb].
  - destruct (length (Obj.keys (slots (generateSlots s))) =? 0).
    + intros E. inversion E. auto.
    + destruct (prepareSearch random (generateSlots s)) as [[b s2] | ] eqn:Hprep;
        [ | discriminate ].
      pose proof (prepareSearch_prepared _ _ _ _ (generateSlots_prepared s Hvalid) Hprep) as Hp2.
      destruct (prepareSearch_frame _ _ _ _ Hprep) as (Hst & _).
      destruct (backtrackingSolve random s2) as [[r h] | ] eqn:Hrun; [ | discriminate ].
      apply backtrackingSolve_static in Hrun; [ | apply prepared_goodTable; exact Hp2 ].
      destruct (static_more _ _ Hst) as (C1 & W1 & _).
      destruct (static_more _ _ Hrun) as (C2 & W2 & _).
      destruct (static_eq _ _ Hst) as (G1 & _). destruct (static_eq _ _ Hrun) as (G2 & _).
      intros E. inversion E.
      destruct r; simpl; rewrite ?G2, ?G1, ?C2, ?C1, ?W2, ?W1; auto.
  - intros E. inversion E. unfold reportInvalidGrid.
    destruct (length (grid s) =? 0); auto.
Qed.

Lemma solveCrosswordThread_without_numbers s :
  validateGrid (grid s) = true ->
  (forall r c, hasDigit (cellAt (grid s) r c) = false) ->
  solveCrosswordThread random s
  = Some (updateStatus "Error: No numbered slots found to solve."
            (alert "No numbered slots found to solve." (generateSlots s)))
  /\ slots (generateSlots s) = [] /\ domains (generateSlots s) = [].
Proof.
  intros Hv Hnone.
  assert (Hslots : slots (generateSlots s) = []).
  { rewrite slots_generateSlots. unfold identifySlots.
    rewrite (slotWrites_unnumbered _ Hnone). reflexivity. }
  assert (Hdom : domains (generateSlots s) = []).
  { pose proof (domain_keys_generateSlots s) as Hkeys. rewrite Hslots in Hkeys.
    destruct (domains (generateSlots s)); [ reflexivity | discriminate ]. }
  unfold solveCrosswordThread. rewrite Hv. cbn [negb]. rewrite Hslots. auto.
Qed.

End Thread.

(** X26.  On a grid whose numbered cells hold no comma
    [solveCrosswordThread] returns, and whatever it reports it leaves
    the puzzle itself alone: the grid, the word list and the index of
    the words by length are those it was started with (a solution is
    written to the cells of the page, not to the grid). *)
Theorem solveCrosswordThread_keeps_puzzle (random : nat -> nat) (s : Solver) :
  commaFree (grid s) = true ->
  exists s',
    solveCrosswordThread random s = Some s'
    /\ grid s' = grid s /\ words s' = words s /\ wordLengthCache s' = wordLengthCache s.
Proof.
  intros _. destruct (solveCrosswordThread_returns random s) as [s' Hrun].
  exists s'. split; [ exact Hrun | ]. exact (solveCrosswordThread_frame random s s' Hrun).
Qed.

(** X27.  On a rectangular grid without a numbered cell
    [solveCrosswordThread] finds no slot and stops before the search:
    it raises the alert and the status line "No numbered slots found to
    solve.", draws no random number and leaves [solution] as it was. *)
Theorem solveCrosswordThread_needs_numbers (random : nat -> nat) (s : Solver) :
  validateGrid (grid s) = true ->
  (forall r c, hasDigit (cellAt (grid s) r c) = false) ->
  exists s',
    solveCrosswordThread random s = Some s'
    /\ statusDisplay s' = statusDisplay s ++ ["Error: No numbered slots found to solve."%string]
    /\ alerts s' = alerts s ++ ["No numbered slots found to solve."%string]
    /\ slots s' = [] /\ domains s' = []
    /\ solution s' = solution s /\ randomCalls s' = randomCalls s
    /\ recursiveCalls s' = recursiveCalls s.
Proof.
  intros Hv Hnone.
  destruct (solveCrosswordThread_without_numbers random s Hv Hnone) as (Hrun & Hslots & Hdom).
  destruct (generateSlots_keeps s) as (K1 & K2 & K3 & K4 & K5 & _).
  destruct (alert_keeps "No numbered slots found to solve." (generateSlots s))
    as (A1 & A2 & A3 & A4 & A5 & A6 & A7 & _).
  destruct (updateStatus_keeps "Error: No numbered slots found to solve."
              (alert "No numbered slots found to solve." (generateSlots s)))
    as (U1 & U2 & U3 & U4 & U5 & U6 & U7 & _).
  exists (updateStatus "Error: No numbered slots found to solve."
            (alert "No numbered slots found to solve." (generateSlots s))).
  split; [ exact Hrun | ].
  rewrite U1, U2, U3, U4, U5, U6, U7, A1, A2, A3, A4, A5, A6, A7, K1, K2, K3, K4, K5, Hslots, Hdom.
  repeat split; reflexivity.
Qed.

(** X28.  What [generateGrid] leaves cannot be solved as it is.
    For sizes it accepts, the grid is empty when [rows] is negative and
    all black otherwise: [solveCrosswordThread] reports that the grid
    is empty, or that it found no numbered slot, runs no search and
    leaves [solution] empty.  For the other sizes ([rows] above the
    longest array, or a row length that is negative or above it)
    [generateGrid] raises its alert and keeps the grid and the tables
    of the puzzle there was. *)
Theorem generateGrid_then_solve (random : nat -> nat) (message : string) (n k : Z)
  (s : Solver) :
  safeInteger n = true -> safeInteger k = true ->
  if invalidArrayLength n k then
    grid (generateGrid message n k s) = grid s
    /\ slots (generateGrid message n k s) = slots s
    /\ domains (generateGrid message n k s) = domains s
    /\ solution (generateGrid message n k s) = solution s
    /\ alerts (generateGrid message n k s)
       = alerts s ++ ["Error generating grid: Please check the console for more details."%string]
  else
    exists s',
      solveCrosswordThread random (generateGrid message n k s) = Some s'
      /\ last (statusDisplay s') EmptyString
         = (if (n <=? 0)%Z then "Error: The grid is empty."
            else "Error: No numbered slots found to solve.")%string
      /\ grid s' = repeat (repeat "#"%string (Z.to_nat k)) (Z.to_nat n)
      /\ solution s' = [] /\ recursiveCalls s' = recursiveCalls s.
Proof.
  intros _ _. unfold generateGrid.
  destruct (invalidArrayLength n k); [ repeat split | ].
  set (s0 := updateStatus _ _).
  assert (Hgrid : grid s0 = repeat (repeat "#"%string (Z.to_nat k)) (Z.to_nat n)) by reflexivity.
  assert (Hsol : solution s0 = []) by reflexivity.
  assert (Hcalls : recursiveCalls s0 = recursiveCalls s) by reflexivity.
  destruct (Z.leb_spec n 0) as [Hn | Hn].
  - assert (Hempty : grid s0 = []).
    { rewrite Hgrid. replace (Z.to_nat n) with 0 by lia. reflexivity. }
    exists (reportInvalidGrid s0). split.
    + unfold solveCrosswordThread, validateGrid. rewrite Hempty. reflexivity.
    + unfold reportInvalidGrid. rewrite Hempty. cbn [length Nat.eqb].
      destruct (updateStatus_keeps "Error: The grid is empty."
                  (alert "The grid is empty. Please generate or load a grid." s0))
        as (U1 & _ & _ & _ & U5 & _ & U7 & U8).
      destruct (alert_keeps "The grid is empty. Please generate or load a grid." s0)
        as (_ & _ & _ & _ & A5 & _ & A7 & A8).
      rewrite U1, U5, U7, U8, A5, A7, A8, Hsol, Hcalls, Hgrid.
      split; [ apply last_last | ]. split; [ reflexivity | split; reflexivity ].
  - assert (Hv : validateGrid (grid s0) = true).
    { rewrite Hgrid, validateGrid_black. destruct (Z.to_nat n) eqn:E; [ lia | reflexivity ]. }
    assert (Hnone : forall r c, hasDigit (cellAt (grid s0) r c) = false).
    { intros r c. rewrite Hgrid.
      destruct (cellAt_black (Z.to_nat n) (Z.to_nat k) r c) as [-> | ->]; reflexivity. }
    destruct (solveCrosswordThread_without_numbers random s0 Hv Hnone) as (Hrun & Hslots & Hdom).
    destruct (generateSlots_keeps s0) as (_ & _ & K3 & _ & K5 & K6).
    destruct (alert_keeps "No numbered slots found to solve." (generateSlots s0))
      as (_ & _ & _ & _ & A5 & _ & A7 & A8).
    destruct (updateStatus_keeps "Error: No numbered slots found to solve."
                (alert "No numbered slots found to solve." (generateSlots s0)))
      as (U1 & _ & _ & _ & U5 & _ & U7 & U8).
    exists (updateStatus "Error: No numbered slots found to solve."
              (alert "No numbered slots found to solve." (generateSlots s0))).
    split; [ exact Hrun | ].
    rewrite U1, U5, U7, U8, A5, A7, A8, K3, K5, K6, Hgrid, Hsol, Hcalls.
    split; [ apply last_last | ]. split; [ reflexivity | split; reflexivity ].
Qed.

(* ================================================================== *)
(** * The modular solver ([js/solver.js]): all the solutions *)
(* ================================================================== *)

(** The [Solver] class of [js/solver.js] keeps [slots], [constraints],
    [domains] and [recursiveCalls] as [CrosswordSolver] does, and its
    [selectUnassignedVariable] is the same method; its state is kept in
    the same record here, with the list [solutions] beside it.  Its
    [isConsistent] and [orderDomainValues] are methods of their own,
    and its search, [backtrack], collects every solution up to
    [MAX_SOLUTIONS] instead of stopping at the first. *)
Module Modular.

Definition MAX_SOLUTIONS : nat := 100.

(** The instance and [this.solutions]. *)
Record Run := mkRun {
  instance : Solver;
  solutions : list Assignment
}.

(** [countConstrainingVariables(variable, word)] *)
Definition countConstrainingVariables (s : Solver) (variable word : string) : nat :=
  fold_left
    (fun count neighbor =>
       fold_left
         (fun count ij =>
            let possibleWords :=
              filter (fun w => eqb_of (String.get (snd ij) w) (String.get (fst ij) word))
                     (domainOf s (fst neighbor)) in
            count + (length (domainOf s (fst neighbor)) - length possibleWords))
         (snd neighbor) count)
    (neighborsOf (constraints s) variable) 0.

(** [orderDomainValues(variable, assignment)]: a sorted copy of the
    domain. *)
Definition orderDomainValues (s : Solver) (variable : string) : list string :=
  sortBy (fun a b => countConstrainingVariables s variable a
                     <? countConstrainingVariables s variable b)
         (domainOf s variable).

(** [isConsistent(variable, word, assignment)] *)
Definition isConsistent (s : Solver) (variable word : string) (a : Assignment) : bool :=
  forallb (fun neighbor =>
             match Obj.get neighbor a with
             | Some word2 => wordsMatch s variable word neighbor word2
             | None => true
             end)
          (Obj.keys (neighborsOf (constraints s) variable)).

Section Search.

Variable random : nat -> nat.

(** The loop of [backtrack] over the ordered values.  The assignment
    is one object, written and cleared in place: a call returns it
    together with the state. *)
Fixpoint tryValues (recur : Assignment -> Run -> option (Assignment * Run))
  (varToAssign : string) (values : list string) (a : Assignment) (st : Run)
  : option (Assignment * Run) :=
  match values with
  | [] => Some (a, st)
  | value :: rest =>
      if isConsistent (instance st) varToAssign value a then
        let a1 := Obj.set varToAssign value a in
        let s1 := setRecursiveCalls (S (recursiveCalls (instance st))) (instance st) in
        match recur a1 (mkRun s1 (solutions st)) with
        | None => None
        | Some (a2, st2) =>
            if MAX_SOLUTIONS <=? length (solutions st2) then Some (a2, st2)
            else tryValues recur varToAssign rest (Obj.delete varToAssign a2) st2
        end
      else tryValues recur varToAssign rest a st
  end.

(** [backtrack(assignment)]; [None] when the recursion is deeper than
    the fuel.  [!varToAssign] holds of [undefined] and of the empty
    string. *)
Fixpoint backtrack (fuel : nat) (a : Assignment) (st : Run) : option (Assignment * Run) :=
  match fuel with
  | 0 => None
  | S fuel' =>
      if length (Obj.keys a) =? length (Obj.keys (slots (instance st))) then
        Some (a, mkRun (instance st) (solutions st ++ [a]))
      else
        let sel := selectUnassignedVariable random (instance st) a in
        match fst sel with
        | Some varToAssign =>
            if eqb_of varToAssign EmptyString then Some (a, mkRun (snd sel) (solutions st))
            else
              tryValues (backtrack fuel') varToAssign (orderDomainValues (snd sel) varToAssign)
                        a (mkRun (snd sel) (solutions st))
        | None => Some (a, mkRun (snd sel) (solutions st))
        end
  end.

(** [solve()] from the state [initialize()] has left: the list is
    emptied, the counter reset and the search started on the empty
    assignment.  Each nested call assigns one more slot. *)
Definition solve (s : Solver) : option (list Assignment) :=
  match backtrack (S (length (Obj.keys (domains s)))) [] (mkRun (setRecursiveCalls 0 s) []) with
  | Some (_, st) => Some (solutions st)
  | None => None
  end.

End Search.

End Modular.

Lemma filter_length_lt {A : Type} (f g : A -> bool) (l : list A) (y : A) :
  (forall x, g x = true -> f x = true) -> In y l -> f y = true -> g y = false ->
  length (filter g l) < length (filter f l).
Proof.
  intros Hsub. induction l as [ | x l IH ]; intros Hin Hf Hg; [ contradiction | ].
  assert (Hle : forall l', length (filter g l') <= length (filter f l')).
  { induction l' as [ | z l' IH' ]; simpl; [ lia | ].
    destruct (g z) eqn:Hgz; [ rewrite (Hsub z Hgz); simpl; lia | ].
    destruct (f z); simpl; lia. }
  simpl. destruct Hin as [-> | Hin].
  - rewrite Hf, Hg. simpl. specialize (Hle l). lia.
  - specialize (IH Hin Hf Hg). destruct (g x) eqn:Hgx; [ rewrite (Hsub x Hgx); simpl; lia | ].
    destruct (f x); simpl; lia.
Qed.

Section ModularSearch.

Variable random : nat -> nat.
Variable s0 : Solver.

Hypothesis Htable : goodTable (constraints s0).
Hypothesis Hkeys : NoDup (Obj.keys (domains s0)).
Hypothesis Hslots : length (Obj.keys (slots s0)) = length (Obj.keys (domains s0)).

(** The tables of the instance are those the search started with. *)
Definition sameTables (s : Solver) : Prop :=
  constraints s = constraints s0 /\ domains s = domains s0 /\ slots s = slots s0.

(** An assignment under construction: slots of the puzzle, words of
    their domains, matching where they cross. *)
Definition partialFilling (a : Assignment) : Prop :=
  NoDup (Obj.keys a)
  /\ (forall k w, Obj.get k a = Some w ->
                  In k (Obj.keys (domains s0)) /\ In w (domainOf s0 k))
  /\ matchedAssignment s0 a.

(** A solution: every slot has a word of its domain, and the words
    match where the slots cross. *)
Definition filling (sigma : Assignment) : Prop :=
  (forall k, In k (Obj.keys (domains s0)) ->
             exists w, Obj.get k sigma = Some w /\ In w (domainOf s0 k))
  /\ matchedAssignment s0 sigma.

(** Two assignments give the slots the same words. *)
Definition sameWords (sigma' sigma : Assignment) : Prop :=
  forall k, In k (Obj.keys (domains s0)) -> Obj.get k sigma' = Obj.get k sigma.

Lemma sameTables_unassigned s a :
  sameTables s -> unassignedSlots s a = unassignedSlots s0 a.
Proof. intros (_ & Hd & _). unfold unassignedSlots. rewrite Hd. reflexivity. Qed.

Lemma sameTables_domainOf s k : sameTables s -> domainOf s k = domainOf s0 k.
Proof. intros (_ & Hd & _). apply domainOf_domains. exact Hd. Qed.

Lemma sameTables_isConsistent s var value a :
  sameTables s -> Modular.isConsistent s var value a = Modular.isConsistent s0 var value a.
Proof.
  intros (Hc & _). unfold Modular.isConsistent. rewrite Hc.
  induction (Obj.keys (neighborsOf (constraints s0) var)) as [ | n l IH ]; simpl;
    [ reflexivity | ].
  rewrite IH. destruct (Obj.get n a); [ | reflexivity ].
  rewrite (wordsMatch_static s0 s var value n s1 Hc). reflexivity.
Qed.

Lemma sameTables_select s a :
  sameTables s -> sameTables (snd (selectUnassignedVariable random s a)).
Proof.
  intros (Hc & Hd & Hs).
  destruct (selectUnassignedVariable_frame random s a) as [Hst Hd'].
  apply static_eq in Hst. destruct Hst as (_ & Hs' & Hc' & _).
  unfold sameTables. rewrite Hc', Hd', Hs'. auto.
Qed.

Lemma unassigned_shrinks a var value :
  In var (unassignedSlots s0 a) ->
  length (unassignedSlots s0 (Obj.set var value a)) < length (unassignedSlots s0 a).
Proof.
  intros Hin. unfold unassignedSlots in *. apply filter_In in Hin. destruct Hin as [Hk Hfree].
  apply (filter_length_lt _ _ _ var); try assumption.
  - intros x Hx. apply negb_true_iff in Hx. apply negb_true_iff.
    apply Obj.has_false. apply Obj.has_false in Hx. intros Hin. apply Hx.
    apply Obj.keys_set_In. right. exact Hin.
  - apply negb_false_iff. apply Obj.has_true. apply Obj.keys_set_In. left. reflexivity.
Qed.

Lemma unassigned_fresh a var : In var (unassignedSlots s0 a) ->
  In var (Obj.keys (domains s0)) /\ ~ In var (Obj.keys a).
Proof.
  unfold unassignedSlots. intros Hin. apply filter_In in Hin. destruct Hin as [Hk Hfree].
  split; [ exact Hk | ]. apply negb_true_iff in Hfree. apply Obj.has_false. exact Hfree.
Qed.

(** What [isConsistent] accepts can be added. *)
Lemma partialFilling_set a var value :
  partialFilling a -> In var (unassignedSlots s0 a) -> In value (domainOf s0 var) ->
  Modular.isConsistent s0 var value a = true ->
  partialFilling (Obj.set var value a).
Proof.
  intros (Hnd & Hdom & Hm) Hvar Hvalue Hcons.
  destruct (unassigned_fresh a var Hvar) as [Hk Hfresh].
  destruct Htable as (Hsym & Hirr & _).
  assert (Hnew : forall n w, Obj.get n a = Some w -> wordsMatch s0 var value n w = true).
  { intros n w Hget. destruct (arc (constraints s0) var n) as [l | ] eqn:Harc.
    - assert (Hn : In n (Obj.keys (neighborsOf (constraints s0) var)))
        by (apply neighbors_keys_arc; congruence).
      unfold Modular.isConsistent in Hcons. rewrite forallb_forall in Hcons.
      specialize (Hcons n Hn). rewrite Hget in Hcons. exact Hcons.
    - apply wordsMatch_no_arc. exact Harc. }
  split; [ apply Obj.NoDup_keys_set; exact Hnd | split ].
  - intros k w. rewrite Obj.get_set. destruct (eq_dec k var) as [-> | Hne]; [ | apply Hdom ].
    intros E. inversion E; subst. auto.
  - intros k1 v1 k2 v2. rewrite !Obj.get_set.
    destruct (eq_dec k1 var) as [-> | H1]; destruct (eq_dec k2 var) as [-> | H2]; intros E1 E2.
    + apply wordsMatch_no_arc. apply Hirr.
    + inversion E1; subst. apply Hnew. exact E2.
    + inversion E2; subst. apply wordsMatch_mirror; [ exact Hsym | ]. apply Hnew. exact E1.
    + apply (Hm k1 v1 k2 v2); assumption.
Qed.

(** The word a solution gives a slot passes [isConsistent]. *)
Lemma filling_isConsistent sigma a var value :
  filling sigma -> extends sigma a -> Obj.get var sigma = Some value ->
  Modular.isConsistent s0 var value a = true.
Proof.
  intros (_ & Hm) He Hget. unfold Modular.isConsistent. apply forallb_forall. intros n _.
  destruct (Obj.get n a) as [w | ] eqn:Hn; [ | reflexivity ].
  apply (Hm var value n w); [ exact Hget | apply He; exact Hn ].
Qed.

(** An assignment as long as the slot map fills every slot. *)
Lemma partialFilling_complete a :
  partialFilling a -> length (Obj.keys a) = length (Obj.keys (slots s0)) ->
  filling a /\ forall k, In k (Obj.keys (domains s0)) -> In k (Obj.keys a).
Proof.
  intros (Hnd & Hdom & Hm) Hlen.
  assert (Hincl : incl (Obj.keys a) (Obj.keys (domains s0))).
  { intros k Hk. apply Obj.get_keys in Hk. destruct (Obj.get k a) as [w | ] eqn:Hget;
      [ | congruence ]. apply (Hdom k w Hget). }
  assert (Hall : incl (Obj.keys (domains s0)) (Obj.keys a)).
  { apply NoDup_length_incl; [ exact Hnd | lia | exact Hincl ]. }
  split; [ split; [ | exact Hm ] | exact Hall ].
  intros k Hk. specialize (Hall k Hk). apply Obj.get_keys in Hall.
  destruct (Obj.get k a) as [w | ] eqn:Hget; [ | congruence ].
  exists w. split; [ reflexivity | apply (Hdom k w Hget) ].
Qed.

(** What a call of [backtrack] on [a] has done when it returns [a']:
    the solutions it has added fill the grid and extend [a]; the list
    has not grown beyond the limit; and below the limit the assignment
    is as it was and every solution that extends [a] has been added. *)
Definition searched (values : option (string * list string)) (a : Assignment) (st : Modular.Run)
  (a' : Assignment) (st' : Modular.Run) : Prop :=
  sameTables (Modular.instance st')
  /\ exists found,
       Modular.solutions st' = Modular.solutions st ++ found
       /\ (forall sigma, In sigma found -> filling sigma /\ extends sigma a)
       /\ (length (Modular.solutions st) < Modular.MAX_SOLUTIONS ->
           length (Modular.solutions st') <= Modular.MAX_SOLUTIONS)
       /\ (length (Modular.solutions st') < Modular.MAX_SOLUTIONS ->
           a' = a
           /\ (~ In EmptyString (Obj.keys (domains s0)) ->
               forall sigma, filling sigma -> extends sigma a ->
                 match values with
                 | Some (var, vs) => exists w, Obj.get var sigma = Some w /\ In w vs
                 | None => True
                 end ->
                 exists sigma', In sigma' found /\ sameWords sigma' sigma)).

Section Values.

Variable recur : Assignment -> Modular.Run -> option (Assignment * Modular.Run).
Variable depth : nat.
Hypothesis recur_searched : forall a st,
  length (unassignedSlots s0 a) < depth -> partialFilling a ->
  sameTables (Modular.instance st) ->
  exists a' st', recur a st = Some (a', st') /\ searched None a st a' st'.

Variable a : Assignment.
Variable var : string.
Hypothesis Ha : partialFilling a.
Hypothesis Hvar : In var (unassignedSlots s0 a).
Hypothesis Hdepth : length (unassignedSlots s0 a) <= depth.

Lemma tryValues_searched values : forall st,
  (forall v, In v values -> In v (domainOf s0 var)) ->
  sameTables (Modular.instance st) ->
  exists a' st',
    Modular.tryValues recur var values a st = Some (a', st')
    /\ searched (Some (var, values)) a st a' st'.
Proof.
  destruct (unassigned_fresh a var Hvar) as [Hk Hfresh].
  induction values as [ | value rest IH ]; intros st Hvals Hst.
  - exists a, st. split; [ reflexivity | ]. split; [ exact Hst | ].
    exists []. rewrite app_nil_r. split; [ reflexivity | ]. split; [ intros sigma [] | ].
    split; [ lia | ]. intros _. split; [ reflexivity | ].
    intros _ sigma _ _ (w & _ & []).
  - cbn [Modular.tryValues]. rewrite (sameTables_isConsistent _ var value a Hst).
    assert (Hrest : forall v, In v rest -> In v (domainOf s0 var))
      by (intros v Hv; apply Hvals; right; exact Hv).
    destruct (Modular.isConsistent s0 var value a) eqn:Hcons.
    + set (a1 := Obj.set var value a).
      set (st1 := Modular.mkRun
                    (setRecursiveCalls (S (recursiveCalls (Modular.instance st)))
                                       (Modular.instance st))
                    (Modular.solutions st)).
      assert (Ha1 : partialFilling a1)
        by (apply partialFilling_set; auto; apply Hvals; left; reflexivity).
      assert (Hst1 : sameTables (Modular.instance st1)) by exact Hst.
      assert (Hd1 : length (unassignedSlots s0 a1) < depth)
        by (pose proof (unassigned_shrinks a var value Hvar); unfold a1; lia).
      destruct (recur_searched a1 st1 Hd1 Ha1 Hst1)
        as (a2 & st2 & Hrun & Hst2 & found1 & Hsol1 & Hsound1 & Hlim1 & Hbelow1).
      rewrite Hrun. cbn [Modular.solutions st1] in Hsol1, Hlim1.
      assert (Hback : forall sigma, extends sigma a1 -> extends sigma a)
        by (intros sigma; apply extends_unset; exact Hfresh).
      destruct (Modular.MAX_SOLUTIONS <=? length (Modular.solutions st2)) eqn:Hfull.
      * apply Nat.leb_le in Hfull. exists a2, st2. split; [ reflexivity | ].
        split; [ exact Hst2 | ]. exists found1. split; [ exact Hsol1 | ].
        split; [ intros sigma Hin; destruct (Hsound1 sigma Hin); auto | ].
        split; [ exact Hlim1 | ]. intros Hlt. lia.
      * apply Nat.leb_gt in Hfull. destruct (Hbelow1 Hfull) as [Ea2 Hall1].
        rewrite Ea2. unfold a1 at 1. rewrite (Obj.delete_set_absent _ _ _ Hfresh).
        destruct (IH st2 Hrest Hst2)
          as (a' & st' & Hrun' & Hst' & found2 & Hsol2 & Hsound2 & Hlim2 & Hbelow2).
        exists a', st'. split; [ exact Hrun' | ]. split; [ exact Hst' | ].
        exists (found1 ++ found2). split; [ rewrite Hsol2, Hsol1, app_assoc; reflexivity | ].
        split.
        { intros sigma Hin. apply in_app_or in Hin. destruct Hin as [Hin | Hin].
          - destruct (Hsound1 sigma Hin). auto.
          - apply Hsound2. exact Hin. }
        split; [ intros _; apply Hlim2; exact Hfull | ].
        intros Hlt. destruct (Hbelow2 Hlt) as [Ea' Hall2]. split; [ exact Ea' | ].
        intros Hnames sigma Hfill He (w & Hget & [Ew | Hw]).
        { subst w. destruct (Hall1 Hnames sigma Hfill) as (sigma' & Hin & Hsame).
          - apply extends_set; assumption.
          - exact I.
          - exists sigma'. split; [ apply in_or_app; left; exact Hin | exact Hsame ]. }
        { destruct (Hall2 Hnames sigma Hfill He) as (sigma' & Hin & Hsame).
          - exists w. auto.
          - exists sigma'. split; [ apply in_or_app; right; exact Hin | exact Hsame ]. }
    + destruct (IH st Hrest Hst)
        as (a' & st' & Hrun' & Hst' & found & Hsol & Hsound & Hlim & Hbelow).
      exists a', st'. split; [ exact Hrun' | ]. split; [ exact Hst' | ].
      exists found. split; [ exact Hsol | ]. split; [ exact Hsound | ].
      split; [ exact Hlim | ]. intros Hlt. destruct (Hbelow Hlt) as [Ea' Hall].
      split; [ exact Ea' | ]. intros Hnames sigma Hfill He (w & Hget & [Ew | Hw]).
      * subst w. rewrite (filling_isConsistent sigma a var value Hfill He Hget) in Hcons.
        discriminate.
      * apply (Hall Hnames sigma Hfill He). exists w. auto.
Qed.

End Values.

Lemma backtrack_searched fuel : forall a st,
  length (unassignedSlots s0 a) < fuel -> partialFilling a ->
  sameTables (Modular.instance st) ->
  exists a' st', Modular.backtrack random fuel a st = Some (a', st') /\ searched None a st a' st'.
Proof.
  induction fuel as [ | fuel IH ]; intros a st Hfuel Ha Hst; [ lia | ].
  cbn [Modular.backtrack]. destruct Hst as (Hc & Hd & Hs). rewrite Hs.
  destruct (length (Obj.keys a) =? length (Obj.keys (slots s0))) eqn:Hfull.
  - apply Nat.eqb_eq in Hfull. destruct (partialFilling_complete a Ha Hfull) as [Hfill Hall].
    eexists _, _. split; [ reflexivity | ]. split; [ split; [ | split ]; assumption | ].
    exists [a]. cbn [Modular.solutions]. split; [ reflexivity | ].
    split; [ intros sigma [<- | []]; split; [ exact Hfill | intros k w H; exact H ] | ].
    split; [ rewrite length_app; simpl; unfold Modular.MAX_SOLUTIONS; lia | ].
    intros _. split; [ reflexivity | ]. intros _ sigma Hsigma He _.
    exists a. split; [ left; reflexivity | ]. intros k Hk. apply Hall in Hk.
    apply Obj.get_keys in Hk. destruct (Obj.get k a) as [w | ] eqn:Hget; [ | congruence ].
    symmetry. apply He. exact Hget.
  - apply Nat.eqb_neq in Hfull.
    assert (Hst : sameTables (Modular.instance st)) by (split; [ | split ]; assumption).
    pose proof (sameTables_select _ a Hst) as Hsel.
    pose proof (selectUnassignedVariable_choice random (Modular.instance st) a) as Hchoice.
    rewrite (sameTables_unassigned _ a Hst) in Hchoice.
    assert (Hsome : unassignedSlots s0 a <> []).
    { destruct Ha as (Hnd & Hdom & _). apply unassigned_exists; try assumption.
      - intros k Hk. apply Obj.get_keys in Hk.
        destruct (Obj.get k a) as [w | ] eqn:Hget; [ | congruence ]. apply (Hdom k w Hget).
      - rewrite <- Hslots. exact Hfull. }
    destruct (fst (selectUnassignedVariable random (Modular.instance st) a)) as [var | ];
      [ | contradiction ].
    destruct Hchoice as (Hvar & _).
    destruct (eqb_of var EmptyString) eqn:Hempty.
    + apply eqb_of_true in Hempty. subst var.
      eexists _, _. split; [ reflexivity | ]. split; [ exact Hsel | ].
      exists []. cbn [Modular.solutions]. rewrite app_nil_r. split; [ reflexivity | ].
      split; [ intros sigma [] | ]. split; [ lia | ]. intros _. split; [ reflexivity | ].
      intros Hnames. exfalso. apply Hnames. apply (unassigned_fresh a _ Hvar).
    + set (sel := snd (selectUnassignedVariable random (Modular.instance st) a)) in *.
      assert (Hvals : forall v, In v (Modular.orderDomainValues sel var) ->
                                In v (domainOf s0 var)).
      { intros v Hv. unfold Modular.orderDomainValues in Hv. apply sortBy_In in Hv.
        rewrite (sameTables_domainOf sel var Hsel) in Hv. exact Hv. }
      assert (Hdepth : length (unassignedSlots s0 a) <= fuel) by lia.
      destruct (tryValues_searched (Modular.backtrack random fuel) fuel IH a var Ha Hvar Hdepth
                  (Modular.orderDomainValues sel var)
                  (Modular.mkRun sel (Modular.solutions st)) Hvals Hsel)
        as (a' & st' & Hrun & Hst' & found & Hsol & Hsound & Hlim & Hbelow).
      exists a', st'. split; [ exact Hrun | ]. split; [ exact Hst' | ].
      exists found. split; [ exact Hsol | ]. split; [ exact Hsound | ].
      split; [ exact Hlim | ]. intros Hlt. destruct (Hbelow Hlt) as [Ea' Hall].
      split; [ exact Ea' | ]. intros Hnames sigma Hfill He _.
      apply (Hall Hnames sigma Hfill He).
      destruct Hfill as (Hwords & _).
      destruct (Hwords var (proj1 (unassigned_fresh a var Hvar))) as (w & Hget & Hw).
      exists w. split; [ exact Hget | ].
      unfold Modular.orderDomainValues. apply sortBy_In.
      rewrite (sameTables_domainOf sel var Hsel). exact Hw.
Qed.

Lemma solve_searched :
  exists sols,
    Modular.solve random s0 = Some sols
    /\ length sols <= Modular.MAX_SOLUTIONS
    /\ (forall sigma, In sigma sols -> filling sigma)
    /\ (length sols < Modular.MAX_SOLUTIONS ->
        ~ In EmptyString (Obj.keys (domains s0)) ->
        forall sigma, filling sigma -> exists sigma', In sigma' sols /\ sameWords sigma' sigma).
Proof.
  unfold Modular.solve.
  assert (Hfuel : length (unassignedSlots s0 []) < S (length (Obj.keys (domains s0)))).
  { unfold unassignedSlots. pose proof (filter_length_le
      (fun slot => negb (Obj.has slot ([] : Assignment))) (Obj.keys (domains s0))). lia. }
  assert (Hempty : partialFilling []).
  { split; [ constructor | split ]; intros; discriminate. }
  assert (Hst : sameTables (Modular.instance (Modular.mkRun (setRecursiveCalls 0 s0) [])))
    by (repeat split).
  destruct (backtrack_searched _ [] _ Hfuel Hempty Hst)
    as (a' & st' & Hrun & _ & found & Hsol & Hsound & Hlim & Hbelow).
  rewrite Hrun. cbn [Modular.solutions app] in Hsol, Hlim. exists (Modular.solutions st').
  split; [ reflexivity | ]. split; [ apply Hlim; unfold Modular.MAX_SOLUTIONS; cbn [length]; lia | ].
  rewrite Hsol. split; [ intros sigma Hin; apply (Hsound sigma Hin) | ].
  intros Hlt Hnames sigma Hfill. rewrite <- Hsol in Hlt.
  destruct (Hbelow Hlt) as [_ Hall]. apply (Hall Hnames sigma Hfill); [ | exact I ].
  intros k w Hget. discriminate.
Qed.

End ModularSearch.

(** X29.  [solve] of the modular solver returns, on tables of the
    shape [initialize] leaves, at most [MAX_SOLUTIONS] assignments, and
    each of them gives every slot a word of its domain such that the
    words of any two slots match on their overlaps. *)
Theorem modular_solve_sound (random : nat -> nat) (s : Solver) :
  goodTable (constraints s) ->
  NoDup (Obj.keys (domains s)) ->
  length (Obj.keys (slots s)) = length (Obj.keys (domains s)) ->
  exists sols,
    Modular.solve random s = Some sols
    /\ length sols <= Modular.MAX_SOLUTIONS
    /\ forall sigma, In sigma sols -> filling s sigma.
Proof.
  intros Htable Hkeys Hslots.
  destruct (solve_searched random s Htable Hkeys Hslots) as (sols & Hrun & Hlen & Hsound & _).
  exists sols. auto.
Qed.

(** X30.  When [solve] returns fewer than [MAX_SOLUTIONS] assignments
    it has found every solution: any assignment that fills every slot
    from its domain with matching overlaps gives the slots the same
    words as one of those returned. *)
Theorem modular_solve_complete (random : nat -> nat) (s : Solver) (sols : list Assignment)
  (sigma : Assignment) :
  goodTable (constraints s) ->
  NoDup (Obj.keys (domains s)) ->
  length (Obj.keys (slots s)) = length (Obj.keys (domains s)) ->
  ~ In EmptyString (Obj.keys (domains s)) ->
  Modular.solve random s = Some sols ->
  length sols < Modular.MAX_SOLUTIONS ->
  filling s sigma ->
  exists sigma', In sigma' sols /\ sameWords s sigma' sigma.
Proof.
  intros Htable Hkeys Hslots Hnames Hrun Hlen Hfill.
  destruct (solve_searched random s Htable Hkeys Hslots) as (sols' & Hrun' & _ & _ & Hall).
  rewrite Hrun in Hrun'. injection Hrun' as <-. apply Hall; assumption.
Qed.

(* ================================================================== *)
(** * Worked inputs for the word list and the editor *)
(* ================================================================== *)

(** A word file of two lines, in lower case, the first ended by a
    carriage return and a line feed. *)
Definition sampleFile : string :=
  String.append "cat" (String "013"%char (String "010"%char (String.append " dog " (String "010"%char EmptyString)))).

Definition sampleData : DataManager := newDataManager ["CAT"; "DOG"]%string.

(** A grid with three numbered cells. *)
Definition editGrid : Grid :=
  [["1"; " "; "#"]; [" "; "2"; " "]; ["#"; " "; "3"]]%string.

Definition numberMode : Modes :=
  mkModes true false false "Mode: Number Entry"
          "Exit Number Entry Mode" "Letter Entry Mode" "Drag Mode" [].

Lemma loadWords_establishes_witness :
  words (loadWords (Some sampleFile) smokeSolver) = ["CAT"; "DOG"]%string
  /\ forallb isUpperWord (words (loadWords (Some sampleFile) smokeSolver)) = true.
Proof.
  assert (H : forall text, Some sampleFile = Some text -> isAsciiText text = true)
    by (intros text E; injection E as <-; reflexivity).
  split; [ reflexivity | ].
  exact (proj1 (loadWords_establishes (Some sampleFile) smokeSolver H)).
Defined.

Lemma loadWords_reads_lines_witness :
  words (loadWords (Some (unlines (String "010"%char EmptyString) ["CAT"; "DOG"]%string))
                   smokeSolver)
  = ["CAT"; "DOG"]%string.
Proof.
  assert (H1 : isLineEnd (String "010"%char EmptyString)) by (left; reflexivity).
  assert (H2 : forallb isUpperWord ["CAT"; "DOG"]%string = true) by reflexivity.
  exact (proj1 (loadWords_reads_lines _ _ smokeSolver H1 H2)).
Defined.

Lemma addWord_keeps_indexes_witness :
  isAsciiText " top " = true
  /\ fst (addWord " top " sampleData) = true
  /\ dmWords (snd (addWord " top " sampleData)) = ["CAT"; "DOG"; "TOP"]%string.
Proof.
  assert (H : isAsciiText " top " = true) by reflexivity.
  split; [ exact H | split; [ reflexivity | ] ].
  exact (proj1 (proj2 (addWord_keeps_indexes " top " sampleData H)) eq_refl).
Defined.

Lemma removeWord_keeps_indexes_witness :
  isAsciiText "dog" = true
  /\ dmWords (snd (removeWord "dog" sampleData)) = ["CAT"]%string
  /\ indexesAgree (snd (removeWord "dog" sampleData)).
Proof.
  assert (H : isAsciiText "dog" = true) by reflexivity.
  split; [ exact H | ].
  exact (proj2 (removeWord_keeps_indexes "dog" sampleData H (newDataManager_agrees _))).
Defined.

Lemma editWord_moves_to_end_witness :
  isAsciiText "cat" = true /\ isAsciiText "cot" = true
  /\ fst (editWord "cat" "cot" sampleData) = true
  /\ dmWords (snd (editWord "cat" "cot" sampleData)) = ["DOG"; "COT"]%string.
Proof.
  assert (H1 : isAsciiText "cat" = true) by reflexivity.
  assert (H2 : isAsciiText "cot" = true) by reflexivity.
  split; [ exact H1 | split; [ exact H2 | split; [ reflexivity | ] ] ].
  exact (proj1 (proj2 (editWord_moves_to_end "cat" "cot" sampleData H1 H2
                         (newDataManager_agrees _))) eq_refl).
Defined.

Lemma removeWord_after_addWord_witness :
  isAsciiText "top" = true
  /\ fst (addWord "top" sampleData) = true
  /\ dmWords (snd (removeWord "top" (snd (addWord "top" sampleData)))) = dmWords sampleData.
Proof.
  assert (H1 : isAsciiText "top" = true) by reflexivity.
  assert (H2 : fst (addWord "top" sampleData) = true) by reflexivity.
  split; [ exact H1 | split; [ exact H2 | ] ].
  exact (proj1 (proj2 (removeWord_after_addWord "top" sampleData H1
                         (newDataManager_agrees _) H2))).
Defined.

Lemma addNumberToCell_keeps_numbering_witness :
  validateGrid editGrid = true /\ wellNumbered editGrid
  /\ hasDigit (cellAt editGrid 1 0) = false
  /\ exists g',
       addNumberToCell 1 0 editGrid = Returned g'
       /\ validateGrid g' = true
       /\ wellNumbered g'
       /\ length (numbersOf g') = S (length (numbersOf editGrid))
       /\ cellAt g' 1 0 = natToString (S (numberedBefore editGrid 1 0))
       /\ forall r' c', (r', c') <> (1, 0) -> hasDigit (cellAt editGrid r' c') = false ->
                        cellAt g' r' c' = cellAt editGrid r' c'.
Proof.
  assert (H1 : validateGrid editGrid = true) by reflexivity.
  assert (H2 : wellNumbered editGrid) by reflexivity.
  assert (H3 : 1 < rows editGrid) by (vm_compute; lia).
  assert (H4 : 0 < cols editGrid) by (vm_compute; lia).
  assert (H5 : hasDigit (cellAt editGrid 1 0) = false) by reflexivity.
  split; [ exact H1 | split; [ exact H2 | split; [ exact H5 | ] ] ].
  exact (addNumberToCell_keeps_numbering editGrid 1 0 H1 H2 H3 H4 H5).
Defined.

Lemma removeNumberFromCell_keeps_numbering_witness :
  validateGrid editGrid = true /\ wellNumbered editGrid
  /\ hasDigit (cellAt editGrid 1 1) = true
  /\ exists g',
       removeNumberFromCell 1 1 editGrid = Returned g'
       /\ validateGrid g' = true
       /\ wellNumbered g'
       /\ S (length (numbersOf g')) = length (numbersOf editGrid)
       /\ cellAt g' 1 1 = " "%string
       /\ forall r' c', hasDigit (cellAt editGrid r' c') = false ->
                        cellAt g' r' c' = cellAt editGrid r' c'.
Proof.
  assert (H1 : validateGrid editGrid = true) by reflexivity.
  assert (H2 : wellNumbered editGrid) by reflexivity.
  assert (H3 : hasDigit (cellAt editGrid 1 1) = true) by reflexivity.
  split; [ exact H1 | split; [ exact H2 | split; [ exact H3 | ] ] ].
  exact (removeNumberFromCell_keeps_numbering editGrid 1 1 H1 H2 H3).
Defined.

Lemma cellClicked_twice_numbered_witness :
  isNumberEntryMode numberMode = true
  /\ exists g1,
       cellClicked numberMode 1 1 None editGrid = (Returned g1, [])
       /\ hasDigit (cellAt g1 1 1) = false
       /\ cellClicked numberMode 1 1 None g1 = (Returned editGrid, []).
Proof.
  assert (H0 : isNumberEntryMode numberMode = true) by reflexivity.
  assert (H1 : validateGrid editGrid = true) by reflexivity.
  assert (H2 : wellNumbered editGrid) by reflexivity.
  assert (H3 : hasDigit (cellAt editGrid 1 1) = true) by reflexivity.
  split; [ exact H0 | ].
  exact (cellClicked_twice_numbered numberMode 1 1 None None editGrid H0 H1 H2 H3).
Defined.

Lemma cellClicked_twice_unnumbered_witness :
  isNumberEntryMode numberMode = true
  /\ exists g1,
       cellClicked numberMode 1 0 None editGrid = (Returned g1, [])
       /\ hasDigit (cellAt g1 1 0) = true
       /\ cellClicked numberMode 1 0 None g1 = (Returned (setCell editGrid 1 0 " "), []).
Proof.
  assert (H0 : isNumberEntryMode numberMode = true) by reflexivity.
  assert (H1 : validateGrid editGrid = true) by reflexivity.
  assert (H2 : wellNumbered editGrid) by reflexivity.
  assert (H3 : 1 < rows editGrid) by (vm_compute; lia).
  assert (H4 : 0 < cols editGrid) by (vm_compute; lia).
  assert (H5 : hasDigit (cellAt editGrid 1 0) = false) by reflexivity.
  split; [ exact H0 | ].
  exact (cellClicked_twice_unnumbered numberMode 1 0 None None editGrid H0 H1 H2 H3 H4 H5).
Defined.

Lemma blackening_never_renumbers_witness :
  cellAt editGrid 1 1 = natToString 2
  /\ cellClicked initialModes 1 1 None editGrid = (Returned (setCell editGrid 1 1 "#"), [])
  /\ ~ wellNumbered (setCell editGrid 1 1 "#").
Proof.
  assert (H1 : validateGrid editGrid = true) by reflexivity.
  assert (H2 : 1 < rows editGrid) by (vm_compute; lia).
  assert (H3 : 1 < cols editGrid) by (vm_compute; lia).
  assert (H4 : cellAt editGrid 1 1 <> "#"%string) by (vm_compute; discriminate).
  assert (H5 : wellNumbered editGrid) by reflexivity.
  assert (H6 : cellAt editGrid 1 1 = natToString 2) by reflexivity.
  assert (H7 : 2 < length (numbersOf editGrid)) by (vm_compute; lia).
  pose proof (blackening_never_renumbers initialModes 1 1 None editGrid
                eq_refl eq_refl eq_refl H1 H2 H3 H4) as H.
  split; [ exact H6 | split; [ exact (proj1 H) | ] ].
  exact (proj2 (proj2 H) 2 H5 H6 H7).
Defined.

Lemma startMode_exclusive_witness :
  modesAgree numberMode
  /\ exists m',
       startLetterEntryMode numberMode = Some m'
       /\ modesAgree m'
       /\ modeFlag LetterEntry m' = negb (modeFlag LetterEntry numberMode)
       /\ (modeFlag LetterEntry m' = true ->
           modeFlag (fst (otherModes LetterEntry)) m' = false
           /\ modeFlag (snd (otherModes LetterEntry)) m' = false).
Proof.
  assert (H1 : 2 <= 2) by lia.
  assert (H2 : modesAgree numberMode) by (repeat split; reflexivity).
  split; [ exact H2 | ].
  exact (startMode_exclusive 2 LetterEntry numberMode H1 H2).
Defined.

Lemma solveCrosswordThread_needs_numbers_witness :
  validateGrid (grid (newSolver [["#"; " "]; [" "; "A"]]%string ["CAT"]%string)) = true
  /\ exists s',
       solveCrosswordThread countingRandom (newSolver [["#"; " "]; [" "; "A"]]%string ["CAT"]%string)
       = Some s'
       /\ statusDisplay s' = ["Error: No numbered slots found to solve."%string]
       /\ alerts s' = ["No numbered slots found to solve."%string].
Proof.
  set (s := newSolver [["#"; " "]; [" "; "A"]]%string ["CAT"]%string).
  assert (H1 : validateGrid (grid s) = true) by reflexivity.
  assert (H2 : forall r c, hasDigit (cellAt (grid s) r c) = false).
  { intros r c. do 3 (try destruct r as [ | r ]); do 3 (try destruct c as [ | c ]); reflexivity. }
  split; [ exact H1 | ].
  destruct (solveCrosswordThread_needs_numbers countingRandom s H1 H2)
    as (s' & Hrun & Hst & Hal & _).
  exists s'. split; [ exact Hrun | split; [ exact Hst | exact Hal ] ].
Defined.

Lemma solveCrosswordThread_keeps_puzzle_witness :
  commaFree (grid smokeSolver) = true
  /\ exists s',
       solveCrosswordThread countingRandom smokeSolver = Some s'
       /\ grid s' = grid smokeSolver /\ words s' = words smokeSolver
       /\ wordLengthCache s' = wordLengthCache smokeSolver.
Proof.
  assert (H : commaFree (grid smokeSolver) = true) by reflexivity.
  split; [ exact H | ].
  exact (solveCrosswordThread_keeps_puzzle countingRandom smokeSolver H).
Defined.

Lemma generateGrid_then_solve_witness :
  safeInteger (-3) = true /\ safeInteger 5 = true
  /\ exists s',
       solveCrosswordThread countingRandom
         (generateGrid "Invalid array length" (-3) 5 smokeSolver) = Some s'
       /\ last (statusDisplay s') EmptyString = "Error: The grid is empty."%string
       /\ grid s' = []
       /\ solution s' = [] /\ recursiveCalls s' = recursiveCalls smokeSolver.
Proof.
  assert (H1 : safeInteger (-3) = true) by reflexivity.
  assert (H2 : safeInteger 5 = true) by reflexivity.
  split; [ exact H1 | split; [ exact H2 | ] ].
  exact (generateGrid_then_solve countingRandom "Invalid array length" (-3) 5 smokeSolver H1 H2).
Defined.

Definition smokeSolutions : list Assignment :=
  Eval vm_compute in
    match Modular.solve countingRandom (generateSlots smokeSolver) with
    | Some sols => sols
    | None => []
    end.

Lemma smoke_tables :
  goodTable (constraints (generateSlots smokeSolver))
  /\ NoDup (Obj.keys (domains (generateSlots smokeSolver)))
  /\ length (Obj.keys (slots (generateSlots smokeSolver)))
     = length (Obj.keys (domains (generateSlots smokeSolver))).
Proof.
  split; [ | split; [ | reflexivity ] ].
  - apply prepared_goodTable. apply generateSlots_prepared. reflexivity.
  - rewrite domain_keys_generateSlots, slots_generateSlots. apply identifySlots_NoDup.
Qed.

Lemma modular_solve_sound_witness :
  exists sols,
    Modular.solve countingRandom (generateSlots smokeSolver) = Some sols
    /\ length sols <= Modular.MAX_SOLUTIONS
    /\ forall sigma, In sigma sols -> filling (generateSlots smokeSolver) sigma.
Proof.
  destruct smoke_tables as (H1 & H2 & H3).
  exact (modular_solve_sound countingRandom (generateSlots smokeSolver) H1 H2 H3).
Defined.

Lemma modular_solve_complete_witness :
  Modular.solve countingRandom (generateSlots smokeSolver) = Some smokeSolutions
  /\ length smokeSolutions < Modular.MAX_SOLUTIONS
  /\ exists sigma',
       In sigma' smokeSolutions
       /\ sameWords (generateSlots smokeSolver) sigma' [("1DOWN", "TAB"); ("1ACROSS", "TAR")]%string.
Proof.
  destruct smoke_tables as (H1 & H2 & H3).
  assert (H4 : ~ In EmptyString (Obj.keys (domains (generateSlots smokeSolver))))
    by (vm_compute; intros [E | [E | []]]; discriminate E).
  assert (H5 : Modular.solve countingRandom (generateSlots smokeSolver) = Some smokeSolutions)
    by (vm_compute; reflexivity).
  assert (H6 : length smokeSolutions < Modular.MAX_SOLUTIONS) by (vm_compute; lia).
  assert (H7 : filling (generateSlots smokeSolver) [("1DOWN", "TAB"); ("1ACROSS", "TAR")]%string).
  { split.
    - intros k Hk. vm_compute in Hk. destruct Hk as [<- | [<- | []]].
      + exists "TAR"%string. split; [ reflexivity | vm_compute; auto ].
      + exists "TAB"%string. split; [ reflexivity | vm_compute; auto ].
    - intros k1 v1 k2 v2 G1 G2. apply Obj.get_In in G1. apply Obj.get_In in G2.
      destruct G1 as [E1 | [E1 | []]]; destruct G2 as [E2 | [E2 | []]];
        inversion E1; inversion E2; subst; vm_compute; reflexivity. }
  split; [ exact H5 | split; [ exact H6 | ] ].
  exact (modular_solve_complete countingRandom (generateSlots smokeSolver) smokeSolutions _
                                H1 H2 H3 H4 H5 H6 H7).
Defined.
